(** * weakai/rnn and weakai/rnn/seqtoseq: unrolling of recurrent blocks

    A shallow embedding of the sequence unroller ([BlockSeqFunc]), the
    bidirectional composer ([Bidirectional]) and the truncated
    back-propagation session ([seqProp]), with the properties of their lane
    bookkeeping.

    Conventions of the embedding.
    - A Go [int] is a [Z]; a slice index that is a loop counter of a
      [range] over a slice is a [nat].  The arithmetic of the code on
      [int]s is that of [Z] as long as it does not overflow; statements
      about counts and window sizes that could overflow say so.
    - A call that panics in Go (index out of range, nil dereference, an
      explicit [panic]) returns [None].
    - A [*autofunc.Variable] is a pair of an address and the vector it
      holds; [&autofunc.Variable{...}] takes the next free address, which
      is threaded through the functions that allocate.
    - [autofunc.Gradient], a Go map keyed by variable pointers, is a
      [gmap] keyed by addresses.
    - The entries of a [linalg.Vector] are [float64] in the source.  The
      code embedded here only creates zero vectors, copies, slices and
      concatenates; entries are integers here, with [0] for [0.0]. *)

From Stdlib Require Import ZArith List Lia.
From stdpp Require Import base option list list_numbers gmap strings sorting.

Open Scope Z_scope.

(** ** Slices and loops *)

Module Go.

  (** [l[i]] for an [int] index. *)
Definition index {A} (l : list A) (i : Z) : option A :=
    if decide (0 ≤ i) then l !! Z.to_nat i else None.

  (** [l[i] = x] for a [nat] index: panics out of range. *)
Definition store {A} (l : list A) (i : nat) (x : A) : option (list A) :=
    if decide (i < length l)%nat then Some (<[i := x]> l) else None.

  (** [l[:k]] and [l[k:]] on a slice whose capacity is its length. *)
Definition prefix {A} (l : list A) (k : nat) : option (list A) :=
    if decide (k ≤ length l)%nat then Some (take k l) else None.
Definition suffix {A} (l : list A) (k : nat) : option (list A) :=
    if decide (k ≤ length l)%nat then Some (drop k l) else None.

  (** A loop body run once per element of a list, threading a state and
      stopping at the first panic. *)
Fixpoint forEach {A S} (f : A → S → option S) (l : list A) (a : S) : option S :=
    match l with
    | [] => Some a
    | x :: l' => match f x a with
                 | Some a' => forEach f l' a'
                 | None => None
                 end
    end.

  (** [for i, x := range l], with the index counted from [i]. *)
Fixpoint rangeFrom {A S} (i : nat) (f : nat → A → S → option S) (l : list A)
      (a : S) : option S :=
    match l with
    | [] => Some a
    | x :: l' => match f i x a with
                 | Some a' => rangeFrom (Datatypes.S i) f l' a'
                 | None => None
                 end
    end.

Definition range {A S} (f : nat → A → S → option S) (l : list A) (a : S) : option S :=
    rangeFrom 0 f l a.

End Go.

(** ** The collaborators of package autofunc *)

Module Autofunc.

Abbreviation Vector := (list Z).

  (** [make(linalg.Vector, n)] *)
Definition make (n : nat) : Vector := replicate n 0.

  (** [autofunc.Variable], named [Var] because [Variable] is reserved. *)
Record Var := mkVar { addr : nat; vec : Vector }.

Abbreviation Gradient := (gmap nat Vector).

  (** The interface [autofunc.Result].  [PropagateGradient] returns the
      accumulator after the call. *)
Record Result := mkResult {
    Output : Vector;
    Constant : Gradient → bool;
    PropagateGradient : Vector → Gradient → option Gradient
  }.

  (** [v.Add(u)] of package linalg: [v[i] += u[i]] for every index of [u]. *)
Fixpoint vadd (v u : Vector) : option Vector :=
    match u, v with
    | [], _ => Some v
    | _ :: _, [] => None
    | y :: u', x :: v' => match vadd v' u' with
                          | Some w => Some (x + y :: w)
                          | None => None
                          end
    end.

  (** A [*Variable] used as a [Result]: it is constant when the
      accumulator has no entry for it, and it adds the upstream to its
      entry otherwise. *)
Definition varResult (v : Var) : Result :=
    {| Output := vec v;
       Constant := λ g, if g !! addr v is Some _ then false else true;
       PropagateGradient := λ u g,
         match g !! addr v with
         | Some x => match vadd x u with
                     | Some x' => Some (<[addr v := x']> g)
                     | None => None
                     end
         | None => Some g
         end |}.

End Autofunc.

Import Autofunc.

(** ** Package rnn: blocks and the sequence unroller *)

Module Rnn.

Record UpstreamGradient := mkUpstream {
    up_States : list Vector;
    up_Outputs : list Vector
  }.

Record BlockInput := mkBlockInput {
    in_States : list Var;
    in_Inputs : list Var
  }.

  (** The interface [BlockOutput]. *)
Record BlockOutput := mkBlockOutput {
    out_States : list Vector;
    out_Outputs : list Vector;
    out_Gradient : UpstreamGradient → Gradient → option Gradient
  }.

  (** The interface [Block], with the two optional capabilities a block
      may have: [sgd.Learner] ([Parameters]) and [serializer.Serializer]. *)
Record Block := mkBlock {
    StateSize : nat;
    StartState : Result;
    Batch : BlockInput → BlockOutput;
    block_Learner : option (list Var);
    block_Serializer : option (list Z);
    block_TypeName : string
  }.

  (** *** loopUsedLanes *)

  (** The loop of [loopUsedLanes], from the values [lane] and [k] on.  It
      runs for as long as [k > 0]; [fuel] bounds the number of iterations. *)
Fixpoint loopUsedLanes_from {S} (fuel : nat) (laneToOut : gmap Z Z)
      (f : Z → S → option S) (lane : Z) (k : nat) (a : S) : option S :=
    match k with
    | O => Some a
    | Datatypes.S k' =>
        match fuel with
        | O => None
        | Datatypes.S fuel' =>
            match laneToOut !! lane with
            | Some _ =>
                match f lane a with
                | Some a' => loopUsedLanes_from fuel' laneToOut f (lane + 1) k' a'
                | None => None
                end
            | None => loopUsedLanes_from fuel' laneToOut f (lane + 1) k a
            end
        end
    end.

Definition lanes (laneToOut : gmap Z Z) : list Z := (map_to_list laneToOut).*1.

  (** One more than the largest key, and [0] for the empty map. *)
Definition lanesBound (laneToOut : gmap Z Z) : Z :=
    foldr (λ l b, Z.max (l + 1) b) 0 (lanes laneToOut).

  (** [loopUsedLanes]: the counter starts at [0] and only grows, so past
      [lanesBound] no key is left to find. *)
Definition loopUsedLanes {S} (laneToOut : gmap Z Z) (f : Z → S → option S)
      (a : S) : option S :=
    loopUsedLanes_from (Z.to_nat (lanesBound laneToOut)) laneToOut f 0
      (size laneToOut) a.

  (** The lanes below [n] that have an entry, in increasing order. *)
Definition usedLanes (laneToOut : gmap Z Z) (lane n : Z) : list Z :=
    filter (λ l, is_Some (laneToOut !! l)) (seqZ lane n).

  (** *** BlockSeqFunc *)

Record BlockSeqFuncOutputStep := mkStep {
    InStateVars : list (option Var);
    InputVars : list (option Var);
    Inputs : list (option Result);
    Outputs : BlockOutput;
    LaneToOut : gmap Z Z
  }.

Record BlockSeqFuncOutput := mkOutput {
    bsf_StartState : Result;
    Steps : list BlockSeqFuncOutputStep;
    PackedOut : list (list Vector)
  }.

  (** What the loop over the lanes of one timestep builds: the three
      per-lane slices and the map of [step], the [BlockInput] and the next
      free address. *)
Record stepBuild := mkBuild {
    sb_InStateVars : list (option Var);
    sb_InputVars : list (option Var);
    sb_Inputs : list (option Result);
    sb_LaneToOut : gmap Z Z;
    sb_input : BlockInput;
    sb_next : nat
  }.

  (** A read [m[l]] of a Go map: the zero value for a missing key. *)
Definition mapRead (m : gmap Z Z) (l : Z) : Z := default 0 (m !! l).

  (** The body of [for l, seq := range seqs] at timestep [t]. *)
Definition laneBody (startState : Result) (steps : list BlockSeqFuncOutputStep)
      (t : nat) (l : nat) (seq : list Result) (st : stepBuild) : option stepBuild :=
    if decide (length seq ≤ t)%nat then Some st
    else
      x ← seq !! t;
      let laneToOut := <[Z.of_nat l := Z.of_nat (length (in_Inputs (sb_input st)))]>
                         (sb_LaneToOut st) in
      inputs ← Go.store (sb_Inputs st) l (Some x);
      let inputVar := mkVar (sb_next st) (Output x) in
      inputVars ← Go.store (sb_InputVars st) l (Some inputVar);
      let stateAddr := Datatypes.S (sb_next st) in
      inStateVars ← Go.store (sb_InStateVars st) l
                      (Some (mkVar stateAddr (Output startState)));
      stateVec ← (if decide (0 < t)%nat then
                    s ← steps !! (t - 1)%nat;
                    Go.index (out_States (Outputs s)) (mapRead (LaneToOut s) (Z.of_nat l))
                  else Some (Output startState));
      let stateVar := mkVar stateAddr stateVec in
      inStateVars ← Go.store inStateVars l (Some stateVar);
      Some {| sb_InStateVars := inStateVars;
              sb_InputVars := inputVars;
              sb_Inputs := inputs;
              sb_LaneToOut := laneToOut;
              sb_input := {| in_States := in_States (sb_input st) ++ [stateVar];
                             in_Inputs := in_Inputs (sb_input st) ++ [inputVar] |};
              sb_next := Datatypes.S stateAddr |}.

  (** The body of [for l, outIdx := range step.LaneToOut]. *)
Definition packBody (outputs : list Vector) (e : Z * Z)
      (packed : list (list Vector)) : option (list (list Vector)) :=
    out ← Go.index outputs e.2;
    cur ← Go.index packed e.1;
    Go.store packed (Z.to_nat e.1) (cur ++ [out]).

Section MapOrder.
    (** The order in which a [range] loop visits the entries of a Go map
        is not specified: it is a parameter, here one order for all the
        timesteps of a call. *)
Variable mapRange : gmap Z Z → list (Z * Z).

    (** The loop [for { ... t++ }] of [BatchSeqs], from timestep [t] on. *)
Fixpoint unroll (fuel : nat) (block : Block) (seqs : list (list Result))
        (t : nat) (res : BlockSeqFuncOutput) (next : nat)
        : option (BlockSeqFuncOutput * nat) :=
      match fuel with
      | O => None
      | Datatypes.S fuel' =>
          st ← Go.range (laneBody (bsf_StartState res) (Steps res) t) seqs
                 {| sb_InStateVars := replicate (length seqs) None;
                    sb_InputVars := replicate (length seqs) None;
                    sb_Inputs := replicate (length seqs) None;
                    sb_LaneToOut := ∅;
                    sb_input := {| in_States := []; in_Inputs := [] |};
                    sb_next := next |};
          if decide (size (sb_LaneToOut st) = 0%nat) then Some (res, next)
          else
            let step := {| InStateVars := sb_InStateVars st;
                           InputVars := sb_InputVars st;
                           Inputs := sb_Inputs st;
                           Outputs := Batch block (sb_input st);
                           LaneToOut := sb_LaneToOut st |} in
            packed ← Go.forEach (packBody (out_Outputs (Outputs step)))
                       (mapRange (LaneToOut step)) (PackedOut res);
            unroll fuel' block seqs (Datatypes.S t)
              {| bsf_StartState := bsf_StartState res;
                 Steps := Steps res ++ [step];
                 PackedOut := packed |} (sb_next st)
      end.

    (** The length of the longest sequence. *)
Definition maxLen {A} (seqs : list (list A)) : nat :=
      foldr (λ s b, Nat.max (length s) b) 0%nat seqs.

    (** [BlockSeqFunc.BatchSeqs].  The loop leaves at the first timestep
        that no sequence reaches, [maxLen seqs] at the latest. *)
Definition BlockSeqFunc_BatchSeqs (block : Block) (seqs : list (list Result)) (next : nat)
        : option (BlockSeqFuncOutput * nat) :=
      unroll (Datatypes.S (maxLen seqs)) block seqs 0
        {| bsf_StartState := StartState block;
           Steps := [];
           PackedOut := replicate (length seqs) [] |} next.
End MapOrder.

  (** The number of lanes before [l] that are active at timestep [t],
      that is, whose sequence has more than [t] elements. *)
Definition rank {A} (t : nat) (seqs : list (list A)) (l : nat) : nat :=
  length (filter (λ s, (t < length s)%nat) (take l seqs)).

  (** *** BlockSeqFuncOutput.Gradient *)

  (** The first callback of timestep [t]: it extends [stepUpstream] and
      creates the accumulator entries of lane [l]. *)
Definition gradEnter (step : BlockSeqFuncOutputStep) (upstream : list (list Vector))
      (stateUpstreams : list (option Vector)) (t : nat) (l : Z)
      (st : UpstreamGradient * Gradient) : option (UpstreamGradient * Gradient) :=
    stateVar ← Go.index (InStateVars step) l;
    ul ← Go.index upstream l;
    u ← ul !! t;
    s ← Go.index stateUpstreams l;
    stateVar ← stateVar;
    let s := default (make (length (vec stateVar))) s in
    let stepUpstream := {| up_States := up_States st.1 ++ [s];
                           up_Outputs := up_Outputs st.1 ++ [u] |} in
    let g := <[addr stateVar := make (length (vec stateVar))]> st.2 in
    input ← Go.index (Inputs step) l;
    input ← input;
    if Constant input g then Some (stepUpstream, g)
    else
      inputVar ← Go.index (InputVars step) l;
      inputVar ← inputVar;
      Some (stepUpstream, <[addr inputVar := make (length (vec inputVar))]> g).

  (** [g[v]] and [delete(g, v)] for a pointer [v] that may be nil; no
      accumulator has an entry for the nil pointer. *)
Definition gradRead (g : Gradient) (v : option Var) : option Vector :=
    v ← v; g !! addr v.
Definition gradDelete (g : Gradient) (v : option Var) : Gradient :=
    match v with Some v => delete (addr v) g | None => g end.

  (** The second callback: it collects and removes the entries of lane
      [l] and propagates into the lane's raw input.  A missing entry
      reads as the nil vector. *)
Definition gradLeave (step : BlockSeqFuncOutputStep) (l : Z)
      (st : list (option Vector) * Gradient) : option (list (option Vector) * Gradient) :=
    stateVar ← Go.index (InStateVars step) l;
    stateUpstreams ← Go.store st.1 (Z.to_nat l) (gradRead st.2 stateVar);
    let g := gradDelete st.2 stateVar in
    input ← Go.index (Inputs step) l;
    input ← input;
    if Constant input g then Some (stateUpstreams, g)
    else
      inputVar ← Go.index (InputVars step) l;
      let upstream := default [] (gradRead g inputVar) in
      g ← PropagateGradient input upstream (gradDelete g inputVar);
      Some (stateUpstreams, g).

  (** One iteration of [for t := len(r.Steps) - 1; t >= 0; t--]. *)
Definition gradStep (step : BlockSeqFuncOutputStep) (upstream : list (list Vector))
      (t : nat) (st : list (option Vector) * Gradient)
      : option (list (option Vector) * Gradient) :=
    su ← loopUsedLanes (LaneToOut step) (gradEnter step upstream st.1 t)
           ({| up_States := []; up_Outputs := [] |}, st.2);
    g ← out_Gradient (Outputs step) su.1 su.2;
    loopUsedLanes (LaneToOut step) (gradLeave step) (st.1, g).

Fixpoint gradLoop (steps : list BlockSeqFuncOutputStep) (upstream : list (list Vector))
      (n : nat) (st : list (option Vector) * Gradient)
      : option (list (option Vector) * Gradient) :=
    match n with
    | O => Some st
    | Datatypes.S t =>
        step ← steps !! t;
        st' ← gradStep step upstream t st;
        gradLoop steps upstream t st'
    end.

  (** The last loop: the state gradients that reached the first timestep
      go into the start state. *)
Definition gradStart (startState : Result) (upstream : option Vector)
      (g : Gradient) : option Gradient :=
    match upstream with
    | Some u => PropagateGradient startState u g
    | None => Some g
    end.

Definition BlockSeqFuncOutput_Gradient (r : BlockSeqFuncOutput) (upstream : list (list Vector))
      (g : Gradient) : option Gradient :=
    let numLanes := length (PackedOut r) in
    if decide (length upstream ≠ numLanes) then None
    else if decide (length <$> upstream ≠ length <$> PackedOut r) then None
    else
      st ← gradLoop (Steps r) upstream (length (Steps r)) (replicate numLanes None, g);
      Go.forEach (gradStart (bsf_StartState r)) st.1 st.2.

(** The lanes that [loopUsedLanes] visits when no key is negative. *)
Definition sortedLanes (m : gmap Z Z) : list Z := usedLanes m 0 (lanesBound m).

(** *** Sequence functions *)

(** A value or the message of an [error]. *)
Inductive result (A : Type) : Type :=
| Ok (a : A)
| Err (msg : string).
Arguments Ok {A} a.
Arguments Err {A} msg.

(** The interface [serializer.Serializer]. *)
Record Serializer := mkSerializer {
  Serialize : result (list Z);
  SerializerType : string
}.

(** The interface [ResultSeqs]. *)
Record ResultSeqs := mkResultSeqs {
  OutputSeqs : list (list Vector);
  rs_Gradient : list (list Vector) → Gradient → option Gradient
}.

(** The interface [SeqFunc].  [sf_Learner] holds the value's [Parameters()]
    when its type implements [sgd.Learner], [sf_Serializer] its serializer
    methods when it implements [serializer.Serializer], and [sf_TypeName]
    is what [%T] prints for it. *)
Record SeqFunc := mkSeqFunc {
  BatchSeqs : list (list Result) → nat → option (ResultSeqs * nat);
  sf_Learner : option (list Var);
  sf_Serializer : option Serializer;
  sf_TypeName : string
}.

(** [BlockSeqFunc.Parameters] *)
Definition BlockSeqFunc_Parameters (block : Block) : list Var :=
  match block_Learner block with
  | Some params => params
  | None => []
  end.

Section Collaborators.
(** Package serializer is not among the sources: its two encoders are
    parameters. *)
Variable SerializeWithType : list Z → result (list Z).
Variable SerializeSlice : list Serializer → result (list Z).
Variable mapRange : gmap Z Z → list (Z * Z).

(** [BlockSeqFunc.Serialize] *)
Definition BlockSeqFunc_Serialize (block : Block) : result (list Z) :=
  match block_Serializer block with
  | None => Err ("type is not a Serializer: " +:+ block_TypeName block)
  | Some s => SerializeWithType s
  end.

(** A [*BlockSeqFunc] as a [SeqFunc]: the type has the methods of both
    optional interfaces. *)
Definition BlockSeqFunc (block : Block) : SeqFunc :=
  {| BatchSeqs := λ seqs next,
       r ← BlockSeqFunc_BatchSeqs mapRange block seqs next;
       Some ({| OutputSeqs := PackedOut r.1;
                rs_Gradient := BlockSeqFuncOutput_Gradient r.1 |}, r.2);
     sf_Learner := Some (BlockSeqFunc_Parameters block);
     sf_Serializer := Some {| Serialize := BlockSeqFunc_Serialize block;
                              SerializerType := "github.com/unixpickle/weakai/rnn.BlockSeqFunc" |};
     sf_TypeName := "*rnn.BlockSeqFunc" |}.

(** *** Bidirectional *)

Record Bidirectional := mkBidirectional {
  Forward : SeqFunc;
  Backward : SeqFunc;
  Output_ : SeqFunc
}.

Record bidirectionalResult := mkBidirectionalResult {
  ForwardOut : ResultSeqs;
  BackwardOut : ResultSeqs;
  Joined : list (list Var);
  Out : ResultSeqs
}.

(** The slots of [make([]autofunc.Result, n)] are nil until written; the
    written slots, in order. *)
Definition filled {A} (slots : list (option A)) : list A := omap id slots.

(** [reverseInputSeqs]: element [j] of a sequence goes to slot
    [len(s) - (j+1)]. *)
Definition reverseSeq (s : list Result) : option (list Result) :=
  slots ← Go.range (λ j element slots, Go.store slots (length s - (j + 1)) (Some element))
             s (replicate (length s) None);
  Some (filled slots).

Definition reverseInputSeqs (seqs : list (list Result)) : option (list (list Result)) :=
  mapM reverseSeq seqs.

(** The loop over the timesteps of one lane in [Bidirectional.BatchSeqs]:
    the joined variables of the lane, built in time order. *)
Definition joinBody (forwSeq backSeq : list Vector) (time : nat) (forwEntry : Vector)
    (st : list Var * nat) : option (list Var * nat) :=
  backEntry ← backSeq !! (length forwSeq - (time + 1))%nat;
  let fullVec := forwEntry ++ backEntry in
  Some (st.1 ++ [mkVar st.2 fullVec], Datatypes.S st.2).

(** The loop over the lanes. *)
Definition joinLane (backSeqs : list (list Vector)) (lane : nat) (forwSeq : list Vector)
    (st : list (list Var) * nat) : option (list (list Var) * nat) :=
  backSeq ← backSeqs !! lane;
  js ← Go.range (joinBody forwSeq backSeq) forwSeq ([], st.2);
  joined ← Go.store st.1 lane js.1;
  Some (joined, js.2).

Definition Bidirectional_BatchSeqs (b : Bidirectional) (seqs : list (list Result))
    (next : nat) : option (bidirectionalResult * nat) :=
  forwardOut ← BatchSeqs (Forward b) seqs next;
  reversed ← reverseInputSeqs seqs;
  backwardOut ← BatchSeqs (Backward b) reversed forwardOut.2;
  joined ← Go.range (joinLane (OutputSeqs backwardOut.1)) (OutputSeqs forwardOut.1)
             (replicate (length seqs) [], backwardOut.2);
  let joinedResults := (λ joinedSeq : list Var, varResult <$> joinedSeq) <$> joined.1 in
  out ← BatchSeqs (Output_ b) joinedResults joined.2;
  Some ({| ForwardOut := forwardOut.1;
           BackwardOut := backwardOut.1;
           Joined := joined.1;
           Out := out.1 |}, out.2).

(** [bidirectionalResult.OutputSeqs] *)
Definition bidirectionalResult_OutputSeqs (b : bidirectionalResult) : list (list Vector) :=
  OutputSeqs (Out b).

(** A combiner that hands its input vectors through. *)
Definition identityCombiner (f : SeqFunc) : Prop :=
  ∀ rs n, ∃ out n', BatchSeqs f rs n = Some (out, n') ∧
    OutputSeqs out = (λ s : list Result, Output <$> s) <$> rs.

(** [Bidirectional.Parameters] *)
Definition Bidirectional_Parameters (b : Bidirectional) : list Var :=
  foldl (λ res x, match sf_Learner x with
                  | Some params => res ++ params
                  | None => res
                  end) [] [Forward b; Backward b; Output_ b].

(** The loop of [Bidirectional.Serialize]. *)
Fixpoint serializers (xs : list SeqFunc) (slice : list Serializer)
    : result (list Serializer) :=
  match xs with
  | [] => Ok slice
  | x :: xs' =>
      match sf_Serializer x with
      | None => Err ("type cannot be serialized: " +:+ sf_TypeName x)
      | Some s => serializers xs' (slice ++ [s])
      end
  end.

Definition Bidirectional_Serialize (b : Bidirectional) : result (list Z) :=
  match serializers [Forward b; Backward b; Output_ b] [] with
  | Err msg => Err msg
  | Ok slice => SerializeSlice slice
  end.

(** [seqOutputSize] *)
Fixpoint seqOutputSize (seqs : list (list Vector)) : nat :=
  match seqs with
  | [] => 0
  | outSeq :: rest =>
      match outSeq with
      | x :: _ => length x
      | [] => seqOutputSize rest
      end
  end.

(** The first loop of [bidirectionalResult.Gradient]. *)
Definition joinedEnter (joined : list (list Var)) (g : Gradient) : Gradient :=
  foldl (λ g joinedVar, <[addr joinedVar := make (length (vec joinedVar))]> g)
    g (concat joined).

(** The loop over the timesteps of one lane that splits the gradients of
    the joined variables.  A missing entry reads as the nil vector. *)
Definition splitBody (forwLen n : nat) (time : nat) (joinedVar : Var)
    (st : list Vector * list Vector * Gradient)
    : option (list Vector * list Vector * Gradient) :=
  let joinedUpstream := default [] (st.2 !! addr joinedVar) in
  let g := delete (addr joinedVar) st.2 in
  forwHalf ← Go.prefix joinedUpstream forwLen;
  subForw ← Go.store st.1.1 time forwHalf;
  backHalf ← Go.suffix joinedUpstream forwLen;
  subBack ← Go.store st.1.2 (n - (time + 1)) backHalf;
  Some (subForw, subBack, g).

Definition splitLane (forwLen : nat) (lane : nat) (joinedSeq : list Var)
    (st : list (list Vector) * list (list Vector) * Gradient)
    : option (list (list Vector) * list (list Vector) * Gradient) :=
  let n := length joinedSeq in
  sub ← Go.range (splitBody forwLen n) joinedSeq
          (replicate n [], replicate n [], st.2);
  forwUpstream ← Go.store st.1.1 lane sub.1.1;
  backUpstream ← Go.store st.1.2 lane sub.1.2;
  Some (forwUpstream, backUpstream, sub.2).

(** [bidirectionalResult.Gradient] *)
Definition bidirectionalResult_Gradient (b : bidirectionalResult)
    (upstream : list (list Vector)) (g : Gradient) : option Gradient :=
  g ← rs_Gradient (Out b) upstream (joinedEnter (Joined b) g);
  let forwLen := seqOutputSize (OutputSeqs (ForwardOut b)) in
  split ← Go.range (splitLane forwLen) (Joined b)
            (replicate (length upstream) [], replicate (length upstream) [], g);
  g ← rs_Gradient (ForwardOut b) split.1.1 split.2;
  rs_Gradient (BackwardOut b) split.1.2 g.

End Collaborators.

(** The gradient that the accumulator holds for a joined variable, the
    nil vector when it holds none, and the accumulator without the entries
    of a list of variables. *)
Definition joinedUpstream (g : Gradient) (v : Var) : Vector := default [] (g !! addr v).

Definition deleteAll (g : Gradient) (vs : list Var) : Gradient :=
  foldl (λ g v, delete (addr v) g) g vs.

(** The two halves of the gradients of a lane's joined variables: the
    forward halves in time order, the backward halves in reverse. *)
Definition forwHalves (forwLen : nat) (g : Gradient) (js : list Var) : list Vector :=
  (λ v, take forwLen (joinedUpstream g v)) <$> js.

Definition backHalves (forwLen : nat) (g : Gradient) (js : list Var) : list Vector :=
  reverse ((λ v, drop forwLen (joinedUpstream g v)) <$> js).

(** *** The accumulator entries of a backward pass *)

(** The addresses of the variables that the forward pass built. *)
Definition stepVars (step : BlockSeqFuncOutputStep) : list Var :=
  omap id (InStateVars step) ++ omap id (InputVars step).

Definition intermediates (r : BlockSeqFuncOutput) : gset nat :=
  list_to_set (addr <$> (Steps r ≫= stepVars)).

(** The entries that [Gradient] creates for lane [l] of a step: one for
    the state variable, and one for the input variable unless the raw input
    is constant for the accumulator [g] of the call. *)
Definition laneCreated (step : BlockSeqFuncOutputStep) (g : Gradient) (l : Z) : gset nat :=
  (match Go.index (InStateVars step) l with
   | Some (Some sv) => {[addr sv]}
   | _ => ∅
   end) ∪
  (match Go.index (Inputs step) l with
   | Some (Some input) =>
       if Constant input g then ∅
       else match Go.index (InputVars step) l with
            | Some (Some iv) => {[addr iv]}
            | _ => ∅
            end
   | _ => ∅
   end).

Definition stepCreated (step : BlockSeqFuncOutputStep) (g : Gradient) : gset nat :=
  ⋃ (laneCreated step g <$> sortedLanes (LaneToOut step)).

Definition created (r : BlockSeqFuncOutput) (g : Gradient) : gset nat :=
  ⋃ ((λ step, stepCreated step g) <$> Steps r).

(** What the backward pass relies on from a raw input: whether it is
    constant does not depend on entries for the addresses in [I], and
    propagating into it neither adds nor removes an entry. *)
Definition inputOK (I : gset nat) (input : Result) : Prop :=
  (∀ g1 g2 : Gradient, dom g1 ∖ I = dom g2 ∖ I → Constant input g1 = Constant input g2) ∧
  (∀ u (g1 g2 : Gradient), PropagateGradient input u g1 = Some g2 → dom g2 = dom g1).

(** *** The forward pass, lane by lane *)

Section ForwardSpec.
Variables (startState : Result) (steps : list BlockSeqFuncOutputStep).
Variables (t : nat) (seqs : list (list Result)).

(** The incoming state of lane [l] at timestep [t]. *)
Definition inState (l : nat) (v : Vector) : Prop :=
  match t with
  | O => v = Output startState
  | Datatypes.S t' =>
      ∃ s, steps !! t' = Some s ∧
        Go.index (out_States (Outputs s)) (mapRead (LaneToOut s) (Z.of_nat l)) = Some v
  end.

(** What the loop over the lanes has built for a lane it has passed. *)
Definition laneDone (st : stepBuild) (l : nat) (seq : list Result) : Prop :=
  if decide (t < length seq)%nat then
    ∃ x v sv,
      seq !! t = Some x ∧
      sb_Inputs st !! l = Some (Some x) ∧
      sb_InputVars st !! l = Some (Some v) ∧ vec v = Output x ∧
      sb_InStateVars st !! l = Some (Some sv) ∧ inState l (vec sv) ∧
      sb_LaneToOut st !! Z.of_nat l = Some (Z.of_nat (rank t seqs l)) ∧
      in_Inputs (sb_input st) !! rank t seqs l = Some v ∧
      in_States (sb_input st) !! rank t seqs l = Some sv
  else
    sb_Inputs st !! l = Some None ∧ sb_InputVars st !! l = Some None ∧
    sb_InStateVars st !! l = Some None ∧ sb_LaneToOut st !! Z.of_nat l = None.

(** The state of the loop over the lanes before lane [i]. *)
Record laneInv (i : nat) (st : stepBuild) : Prop := {
  inv_len_Inputs : length (sb_Inputs st) = length seqs;
  inv_len_InputVars : length (sb_InputVars st) = length seqs;
  inv_len_InStateVars : length (sb_InStateVars st) = length seqs;
  inv_in_Inputs : length (in_Inputs (sb_input st)) = rank t seqs i;
  inv_in_States : length (in_States (sb_input st)) = rank t seqs i;
  inv_size : size (sb_LaneToOut st) = rank t seqs i;
  inv_done : ∀ l seq, seqs !! l = Some seq → (l < i)%nat → laneDone st l seq;
  inv_todo : ∀ l, (i ≤ l)%nat → (l < length seqs)%nat →
    sb_Inputs st !! l = Some None ∧ sb_InputVars st !! l = Some None ∧
    sb_InStateVars st !! l = Some None;
  inv_keys : ∀ k, is_Some (sb_LaneToOut st !! k) →
    ∃ l, k = Z.of_nat l ∧ (l < i)%nat ∧ (l < length seqs)%nat
}.

(** The previous step has an outgoing state for every lane that is
    still active. *)
Definition prevReady : Prop :=
  ∀ l seq, seqs !! l = Some seq → (t < length seq)%nat → ∃ v, inState l v.
End ForwardSpec.

(** The entries that a loop over a map appends to the packed outputs. *)
Definition packedEntry (outputs : list Vector) (m : gmap Z Z) (l : nat) : list Vector :=
  match m !! Z.of_nat l with
  | Some p => option_list (Go.index outputs p)
  | None => []
  end.

(** A block that returns one output and one state per lane. *)
Definition Block_wf (block : Block) : Prop :=
  ∀ input,
    length (out_Outputs (Batch block input)) = length (in_Inputs input) ∧
    length (out_States (Batch block input)) = length (in_States input).

Definition stepOf (block : Block) (st : stepBuild) : BlockSeqFuncOutputStep :=
  {| InStateVars := sb_InStateVars st;
     InputVars := sb_InputVars st;
     Inputs := sb_Inputs st;
     Outputs := Batch block (sb_input st);
     LaneToOut := sb_LaneToOut st |}.

(** The unrolled output after [t] timesteps. *)
Record unrollInv (block : Block) (seqs : list (list Result)) (t : nat)
    (res : BlockSeqFuncOutput) : Prop := {
  ui_start : bsf_StartState res = StartState block;
  ui_steps : length (Steps res) = t;
  ui_packed_len : length (PackedOut res) = length seqs;
  ui_step : ∀ τ step, Steps res !! τ = Some step →
    ∃ st, laneInv (StartState block) (Steps res) τ seqs (length seqs) st ∧
          step = stepOf block st;
  ui_packed : ∀ l seq, seqs !! l = Some seq →
    ∃ po, PackedOut res !! l = Some po ∧
      length po = Nat.min t (length seq) ∧
      ∀ τ step, (τ < length po)%nat → Steps res !! τ = Some step →
        po !! τ = out_Outputs (Outputs step) !! rank τ seqs l
}.

(** The properties of the collaborators of an unrolled output that the
    backward pass relies on: propagation through a block closure, into a
    raw input or into the start state neither adds nor removes an
    accumulator entry, and whether a raw input is constant does not depend
    on entries for the variables of the forward pass. *)
Record collaboratorsOK (r : BlockSeqFuncOutput) : Prop := {
  ok_block : ∀ step u (g1 g2 : Gradient), step ∈ Steps r →
    out_Gradient (Outputs step) u g1 = Some g2 → dom g2 = dom g1;
  ok_inputs : ∀ step input, step ∈ Steps r → Some input ∈ Inputs step →
    inputOK (intermediates r) input;
  ok_start : ∀ u (g1 g2 : Gradient),
    PropagateGradient (bsf_StartState r) u g1 = Some g2 → dom g2 = dom g1
}.


(** A sub-result whose backward pass never adds an accumulator entry. *)
Definition addsNoEntry (rs : ResultSeqs) : Prop :=
  ∀ u (g1 g2 : Gradient), rs_Gradient rs u g1 = Some g2 → dom g2 ⊆ dom g1.


End Rnn.

(** ** Package seqtoseq: truncated back-propagation through time *)

Module Seqtoseq.

Import Rnn.

Record Sample := mkSample {
  Inputs : list Vector;
  Outputs : list Vector
}.

Record seqPropStep := mkSeqPropStep {
  step_StartState : option Result;
  step_Output : BlockOutput;
  InStates : list Var;
  InSeqs : list Sample
}.

(** The slice [memory] of [*seqPropStep]: the cells below its length and
    the spare cells of its array up to the capacity.  A cell holds a
    pointer, which may be nil. *)
Record memorySlice := mkMemory {
  cells : list (option seqPropStep);
  spare : list (option seqPropStep)
}.

(** [seqProp].  [costFuncDeriv] is not among the sources: the session
    carries the derivative of its cost function, from the desired and the
    actual output of a lane to the gradient of the output. *)
Record seqProp := mkSeqProp {
  Block_ : Block;
  CostFunc : Vector → Vector → Vector;
  memory : memorySlice
}.

(** [MemoryCount] *)
Definition MemoryCount (s : seqProp) : nat := length (cells (memory s)).

(** [s.memory[i]], dereferenced. *)
Definition memoryAt (s : seqProp) (i : Z) : option seqPropStep :=
  mem ← Go.index (cells (memory s)) i; mem.

(** [removeEmpty] *)
Definition removeEmpty (seqs : list Sample) : list Sample :=
  foldl (λ res seq, if decide (length (Inputs seq) ≠ 0%nat) then res ++ [seq] else res)
    [] seqs.

(** [removeFirst] *)
Definition removeFirst (seqs : list Sample) : option (list Sample) :=
  Go.forEach (λ seq nextSeqs,
      if decide (length (Inputs seq) = 1%nat) then Some nextSeqs
      else
        inputs ← Go.suffix (Inputs seq) 1;
        outputs ← Go.suffix (Outputs seq) 1;
        Some (nextSeqs ++ [{| Inputs := inputs; Outputs := outputs |}]))
    seqs [].

(** [filterContinued] *)
Definition filterContinued (seqs : list Sample) (ins : list Vector) : option (list Vector) :=
  Go.range (λ i seq res,
      if decide (1 < length (Inputs seq))%nat then
        x ← ins !! i; Some (res ++ [x])
      else Some res)
    seqs [].

(** [injectDiscontinued]: the loop threads [res] and [takeIdx]. *)
Definition injectDiscontinued (seqs : list Sample) (outs : list Vector) (vecLen : nat)
    : option (list Vector) :=
  st ← Go.forEach (λ s (st : list Vector * nat),
          if decide (1 < length (Inputs s))%nat then
            x ← outs !! st.2; Some (st.1 ++ [x], Datatypes.S st.2)
          else Some (st.1 ++ [make vecLen], st.2))
        seqs ([], 0%nat);
  Some st.1.

(** [headInput] *)
Definition headInput (s : seqProp) (seqs : list Sample) (next : nat)
    : option (BlockInput * nat) :=
  lastStates ←
    (if decide (0 < MemoryCount s)%nat then
       lastBlock ← memoryAt s (Z.of_nat (MemoryCount s) - 1);
       lastStates ← filterContinued (InSeqs lastBlock) (out_States (step_Output lastBlock));
       if decide (length lastStates ≠ length seqs) then None else Some lastStates
     else Some (replicate (length seqs) (Output (StartState (Block_ s)))));
  st ← Go.range (λ lane seq (st : BlockInput * nat),
          x ← Inputs seq !! 0%nat;
          let inVar := mkVar st.2 x in
          state ← lastStates !! lane;
          let inState := mkVar (Datatypes.S st.2) state in
          Some ({| in_States := in_States st.1 ++ [inState];
                   in_Inputs := in_Inputs st.1 ++ [inVar] |}, Datatypes.S (Datatypes.S st.2)))
        seqs ({| in_States := []; in_Inputs := [] |}, next);
  Some st.

(** The batch that [TimeStep] runs: on the first call, the sequences
    that have an input. *)
Definition stepBatch (s : seqProp) (inSeqs : list Sample) : list Sample :=
  if decide (MemoryCount s = 0%nat) then removeEmpty inSeqs else inSeqs.

Section Runtime.
(** The capacity that [append] gives a grown array is up to the Go
    run time: [growth n] spare cells after the append to a full slice of
    length [n]. *)
Variable growth : nat → nat.

(** [append(s.memory, step)] *)
Definition appendStep (m : memorySlice) (step : seqPropStep) : memorySlice :=
  match spare m with
  | _ :: spare' => {| cells := cells m ++ [Some step]; spare := spare' |}
  | [] => {| cells := cells m ++ [Some step];
             spare := replicate (growth (length (cells m))) None |}
  end.

(** [seqProp.TimeStep] *)
Definition TimeStep (s : seqProp) (inSeqs : list Sample) (next : nat)
    : option (seqProp * list Sample * nat) :=
  let inSeqs := stepBatch s inSeqs in
  if decide (length inSeqs = 0%nat) then Some (s, [], next)
  else
    input ← headInput s inSeqs next;
    let output := Batch (Block_ s) input.1 in
    let step := {| step_Output := output;
                   InStates := in_States input.1;
                   InSeqs := inSeqs;
                   step_StartState :=
                     if decide (MemoryCount s = 0%nat)
                     then Some (StartState (Block_ s)) else None |} in
    let s' := {| Block_ := Block_ s; CostFunc := CostFunc s;
                 memory := appendStep (memory s) step |} in
    rest ← removeFirst inSeqs;
    Some (s', rest, input.2).
End Runtime.

(** [copy(dst, src)] into the array that starts with [dst]. *)
Definition copy {A} (dstLen : nat) (array src : list A) : list A :=
  let k := Nat.min dstLen (length src) in
  take k src ++ drop k array.

(** [seqProp.Truncate].  [removeCount] is computed on [Z]: this is the
    code for every [n >= 0], and for a negative [n] as long as
    [count - n] does not overflow. *)
Definition Truncate (s : seqProp) (n : Z) : option seqProp :=
  let count := MemoryCount s in
  let removeCount := Z.of_nat count - n in
  if decide (removeCount ≤ 0) then Some s
  else
    let array := cells (memory s) ++ spare (memory s) in
    src ← Go.suffix (cells (memory s)) (Z.to_nat removeCount);
    let array := copy count array src in
    array ← Go.forEach (λ i array,
                if decide (0 ≤ i + n ∧ (Z.to_nat (i + n) < count)%nat)
                then Some (<[Z.to_nat (i + n) := None]> array) else None)
              (seqZ 0 removeCount) array;
    if decide (0 ≤ n ∧ (Z.to_nat n ≤ length array)%nat) then
      Some {| Block_ := Block_ s; CostFunc := CostFunc s;
              memory := {| cells := take (Z.to_nat n) array;
                           spare := drop (Z.to_nat n) array |} |}
    else None.

(** The number of sequences of a record that go on after it, and the
    number of those before lane [lane]. *)
Definition continued (seqs : list Sample) : nat :=
  length (filter (λ s, 1 < length (Inputs s))%nat seqs).

Definition continuedBefore (seqs : list Sample) (lane : nat) : nat :=
  continued (take lane seqs).

(** Consecutive records of a memory: the later one has one state variable
    per sequence that goes on after the earlier one. *)
Definition chained (cs : list (option seqPropStep)) : Prop :=
  ∀ i prev cur, cs !! i = Some (Some prev) → cs !! Datatypes.S i = Some (Some cur) →
    length (InStates cur) = continued (InSeqs prev).

(** The list that [injectDiscontinued] builds, with [k] gradients taken
    so far. *)
Fixpoint realigned (seqs : list Sample) (outs : list Vector) (vecLen k : nat)
    : list Vector :=
  match seqs with
  | [] => []
  | s :: seqs' =>
      if decide (1 < length (Inputs s))%nat
      then default [] (outs !! k) :: realigned seqs' outs vecLen (Datatypes.S k)
      else make vecLen :: realigned seqs' outs vecLen k
  end.

(** A sequence with its first input and first target removed. *)
Definition consumed (seq : Sample) : Sample :=
  {| Inputs := drop 1 (Inputs seq); Outputs := drop 1 (Outputs seq) |}.

(** What [TimeStep] asks of a batch: every sequence has an input, a
    sequence with more than one input has a target, and on a later call the
    batch has one sequence per sequence that went on after the last record,
    whose block output has a state for each lane that goes on. *)
Definition batchReady (s : seqProp) (batch : list Sample) : Prop :=
  Forall (λ seq, Inputs seq ≠ [] ∧ ((1 < length (Inputs seq))%nat → Outputs seq ≠ []))
    batch ∧
  ((0 < MemoryCount s)%nat →
   ∃ last, memoryAt s (Z.of_nat (MemoryCount s) - 1) = Some last ∧
     continued (InSeqs last) = length batch ∧
     ∀ lane seq, InSeqs last !! lane = Some seq → (1 < length (Inputs seq))%nat →
       (lane < length (out_States (step_Output last)))%nat).


(** A session with the block and cost function of [s] and no memory. *)
Definition reset (s : seqProp) : seqProp :=
  {| Block_ := Block_ s; CostFunc := CostFunc s;
     memory := {| cells := []; spare := [] |} |}.

(** What a caller sees of the result of [TimeStep]: the records in
    memory, the remaining sequences and the next free address. *)
Definition observe (r : seqProp * list Sample * nat)
    : list (option seqPropStep) * list Sample * nat :=
  (cells (memory r.1.1), r.1.2, r.2).

(** The state of the loop of [BackPropagate]: the upstream gradient, the
    accumulator and the log of the calls to a block closure, each with the
    index of its record. *)
Record bpState := mkBpState {
  bp_upstream : UpstreamGradient;
  bp_g : Gradient;
  bp_calls : list (nat * UpstreamGradient)
}.

(** The output gradients of a record in the head. *)
Definition headOutputs (s : seqProp) (mem : seqPropStep) : option (list Vector) :=
  Go.range (λ lane output outs,
      seq ← InSeqs mem !! lane;
      desiredOut ← Outputs seq !! 0%nat;
      Some (outs ++ [CostFunc s desiredOut output]))
    (out_Outputs (step_Output mem)) [].

(** One iteration of the loop of [BackPropagate].  The vectors of
    [stateGrads] are the ones stored in the accumulator, which propagation
    updates in place: after the call of the closure they are read from the
    accumulator. *)
Definition bpStep (s : seqProp) (lowIdx : nat) (lowHead : Z) (getInitialState : bool)
    (i : nat) (st : bpState) : option bpState :=
  mem ← memoryAt s (Z.of_nat i);
  outputs ← (if decide (lowHead ≤ Z.of_nat i) then headOutputs s mem else Some []);
  let upstream := {| up_States := up_States (bp_upstream st); up_Outputs := outputs |} in
  let withStates := bool_decide (lowIdx < i)%nat || getInitialState in
  let zero := make (StateSize (Block_ s)) in
  let g := if withStates
           then foldl (λ g state, <[addr state := zero]> g) (bp_g st) (InStates mem)
           else bp_g st in
  g ← out_Gradient (step_Output mem) upstream g;
  let calls := bp_calls st ++ [(i, upstream)] in
  let stateGrads := if withStates
                    then (λ state, default zero (g !! addr state)) <$> InStates mem
                    else [] in
  if decide (0 < length stateGrads)%nat then
    let g := deleteAll g (InStates mem) in
    states ← (if decide (0 < i)%nat then
                last ← memoryAt s (Z.of_nat i - 1);
                injectDiscontinued (InSeqs last) stateGrads (StateSize (Block_ s))
              else Some stateGrads);
    Some {| bp_upstream := {| up_States := states; up_Outputs := outputs |};
            bp_g := g; bp_calls := calls |}
  else
    Some {| bp_upstream := upstream; bp_g := g; bp_calls := calls |}.

(** [for i := s.MemoryCount() - 1; i >= lowIdx; i--], with [n] iterations
    to go. *)
Fixpoint bpLoop (s : seqProp) (lowIdx : nat) (lowHead : Z) (getInitialState : bool)
    (n : nat) (st : bpState) : option bpState :=
  match n with
  | O => Some st
  | Datatypes.S n' =>
      st' ← bpStep s lowIdx lowHead getInitialState (lowIdx + n') st;
      bpLoop s lowIdx lowHead getInitialState n' st'
  end.

(** [seqProp.BackPropagate].  The result holds the session after the
    call, the accumulator and the log of the block closures called.
    [lowIdx] and [lowHead] are computed on [Z]: this is the code for the
    sizes with which [headSize + tailSize], [count - (headSize + tailSize)]
    and [count - headSize] do not overflow. *)
Definition BackPropagate (s : seqProp) (g : Gradient) (headSize tailSize : Z)
    : option (seqProp * Gradient * list (nat * UpstreamGradient)) :=
  if decide (headSize = 0 ∨ MemoryCount s = 0%nat) then Some (s, g, [])
  else
    let count := Z.of_nat (MemoryCount s) in
    let lowIdx := count - (headSize + tailSize) in
    let lowHead := count - headSize in
    let lowIdx := if decide (lowIdx < 0) then 0 else lowIdx in
    first ← memoryAt s lowIdx;
    let getInitialState := bool_decide (is_Some (step_StartState first)) in
    st ← bpLoop s (Z.to_nat lowIdx) lowHead getInitialState
           (MemoryCount s - Z.to_nat lowIdx)
           {| bp_upstream := {| up_States := []; up_Outputs := [] |};
              bp_g := g; bp_calls := [] |};
    g ← (if getInitialState then
           first ← memoryAt s 0;
           startState ← step_StartState first;
           Go.forEach (λ stateUpstream g, PropagateGradient startState stateUpstream g)
             (up_States (bp_upstream st)) (bp_g st)
         else Some (bp_g st));
    Some (s, g, bp_calls st).

End Seqtoseq.

(** * Sample inputs *)

Import Rnn.

Definition lanes_0_2 : gmap Z Z := <[0 := 0]> (<[2 := 1]> ∅).

(** A block with state size 2, input size 3 and output size 2.  The
    outgoing state of a lane is its incoming state with the first entry
    raised by one; its output is the second entry of its input followed by
    the first entry of its incoming state.  Its gradient closure adds the
    state upstreams to the state variables and the output upstreams, padded
    by one zero, to the input variables. *)
Definition demoPropagate (vs : list Var) (us : list Vector) (pad : Vector)
    (g : Gradient) : option Gradient :=
  Go.forEach (λ vu g, PropagateGradient (varResult vu.1) (vu.2 ++ pad) g) (zip vs us) g.

Definition demoBatch (input : BlockInput) : BlockOutput :=
  {| out_States := (λ v, match vec v with
                         | s0 :: rest => s0 + 1 :: rest
                         | [] => []
                         end) <$> in_States input;
     out_Outputs := imap (λ k v, [nth 1 (vec v) 0;
                                  nth 0 (default [] (vec <$> in_States input !! k)) 0])
                      (in_Inputs input);
     out_Gradient := λ u g,
       g ← demoPropagate (in_States input) (up_States u) [] g;
       demoPropagate (in_Inputs input) (up_Outputs u) [0] g |}.

Definition demoStart : Var := mkVar 100 [7; 8].

Definition demoBlock : Block :=
  {| StateSize := 2;
     StartState := varResult demoStart;
     Batch := demoBatch;
     block_Learner := Some [demoStart];
     block_Serializer := Some [1; 2; 3];
     block_TypeName := "*rnntest.DemoBlock" |}.

(** Two lanes, with sequences of lengths 3 and 1. *)
Definition demoIn (l t : nat) : Var :=
  mkVar (200 + 10 * l + t) [Z.of_nat l; Z.of_nat t; 1].

Definition demoSeqs : list (list Result) :=
  [ [varResult (demoIn 0 0); varResult (demoIn 0 1); varResult (demoIn 0 2)];
    [varResult (demoIn 1 0)] ].

(** One order for Go's [range] over a map: that of [map_to_list]. *)
Definition demoRange (m : gmap Z Z) : list (Z * Z) := map_to_list m.

(** The unrolled output of the demo batch, an upstream of ones for each
    of its outputs, and an accumulator with an entry for the start state and
    for each raw input. *)
Definition demoOutput : BlockSeqFuncOutput :=
  default {| bsf_StartState := StartState demoBlock; Steps := []; PackedOut := [] |}
    (fst <$> BlockSeqFunc_BatchSeqs demoRange demoBlock demoSeqs 0).

(** The unrolled output of the demo batch reversed in time, built after
    the one above. *)
Definition demoBackOutput : BlockSeqFuncOutput :=
  default {| bsf_StartState := StartState demoBlock; Steps := []; PackedOut := [] |}
    (fst <$> BlockSeqFunc_BatchSeqs demoRange demoBlock (reverse <$> demoSeqs) 8).

Definition demoUpstream : list (list Vector) :=
  [ [[1; 1]; [1; 1]; [1; 1]]; [[1; 1]] ].

Definition demoGradient : Gradient :=
  list_to_map [ (100%nat, [0; 0]); (200%nat, [0; 0; 0]); (201%nat, [0; 0; 0]);
                (202%nat, [0; 0; 0]); (210%nat, [0; 0; 0]) ].

(** Encoders for the demo: the bytes as they are, and the
    concatenation of the encodings of a slice. *)
Definition demoSerializeWithType (d : list Z) : result (list Z) := Ok d.

Definition demoSerializeSlice (slice : list Serializer) : result (list Z) :=
  foldr (λ s acc, match Serialize s, acc with
                  | Ok d, Ok ds => Ok (d ++ ds)
                  | Err msg, _ => Err msg
                  | _, Err msg => Err msg
                  end) (Ok []) slice.

(** A sequence function that hands its input vectors through; it is
    neither a learner nor a serializer.  Its backward pass propagates each
    upstream vector into the input at the same lane and time. *)
Definition passThrough : SeqFunc :=
  {| BatchSeqs := λ rs n,
       Some ({| OutputSeqs := (λ s : list Result, Output <$> s) <$> rs;
                rs_Gradient := λ upstream g,
                  if decide (length <$> upstream = length <$> rs) then
                    Go.forEach (λ ru g, PropagateGradient ru.1 ru.2 g)
                      (zip (concat rs) (concat upstream)) g
                  else None |}, n);
     sf_Learner := None;
     sf_Serializer := None;
     sf_TypeName := "*rnntest.PassThrough" |}.

Definition demoUnroller : SeqFunc :=
  BlockSeqFunc demoSerializeWithType demoRange demoBlock.

Definition demoBidirectional : Bidirectional :=
  {| Forward := demoUnroller; Backward := demoUnroller; Output_ := passThrough |}.

(** A composer whose forward sub-function is not a learner. *)
Definition mixedBidirectional : Bidirectional :=
  {| Forward := passThrough; Backward := demoUnroller; Output_ := demoUnroller |}.

(** A composed result built by hand: two lanes of 2 and 1 timesteps,
    forward outputs of width 1 and backward outputs of width 2.  The two
    sub-results check the shape of their upstream and leave the accumulator
    as it is; the combiner is [passThrough]. *)
Definition checkedResult (outs : list (list Vector)) : ResultSeqs :=
  {| OutputSeqs := outs;
     rs_Gradient := λ upstream g,
       if decide (length <$> upstream = length <$> outs) then Some g else None |}.

Definition demoJoined : list (list Var) :=
  [ [mkVar 0 [1; 5; 6]; mkVar 1 [4; 2; 3]]; [mkVar 2 [7; 8; 9]] ].

Definition demoJoinedResult : bidirectionalResult :=
  {| ForwardOut := checkedResult [ [[1]; [4]]; [[7]] ];
     BackwardOut := checkedResult [ [[2; 3]; [5; 6]]; [[8; 9]] ];
     Joined := demoJoined;
     Out := default (checkedResult [])
              (fst <$> BatchSeqs passThrough
                         ((λ js : list Var, varResult <$> js) <$> demoJoined) 3) |}.

Definition demoJoinedUpstream : list (list Vector) :=
  [ [[1; 1; 1]; [2; 2; 2]]; [[3; 3; 3]] ].

(** A session on the demo block before its first timestep; its cost
    function yields the difference of actual and desired output. *)
Definition demoCost (desired actual : Vector) : Vector :=
  zip_with Z.sub actual desired.

Definition demoSession : Seqtoseq.seqProp :=
  Seqtoseq.mkSeqProp demoBlock demoCost (Seqtoseq.mkMemory [] []).

Definition demoGrowth (n : nat) : nat := n.

Definition emptySample : Seqtoseq.Sample := Seqtoseq.mkSample [] [].

(** Two sequences, of 3 and of 1 timesteps. *)
Definition demoSamples : list Seqtoseq.Sample :=
  [ Seqtoseq.mkSample [[1; 0; 0]; [0; 1; 0]; [0; 0; 1]] [[1; 1]; [2; 2]; [3; 3]];
    Seqtoseq.mkSample [[5; 5; 5]] [[4; 4]] ].


(** The session after one timestep on the two sequences, and after a
    second timestep on what the first one returned. *)
Definition demoStep1 : Seqtoseq.seqProp * list Seqtoseq.Sample * nat :=
  default (demoSession, [], 0%nat)
    (Seqtoseq.TimeStep demoGrowth demoSession demoSamples 0).

Definition demoStep2 : Seqtoseq.seqProp * list Seqtoseq.Sample * nat :=
  default demoStep1
    (Seqtoseq.TimeStep demoGrowth demoStep1.1.1 demoStep1.1.2 demoStep1.2).

Definition demoSession2 : Seqtoseq.seqProp := demoStep2.1.1.

(** * The session, the unroller and the batcher block beyond their lane
      bookkeeping *)

(** ** The window of a back-propagation *)

Module Window.

Import Seqtoseq.

(** The values of a Go [int], of 64 bits.  The embedding computes on
    [Z]: it is the code where the arithmetic of the code stays within these
    bounds. *)
Definition minInt : Z := -9223372036854775808.
Definition maxInt : Z := 9223372036854775807.

Definition isInt (z : Z) : Prop := minInt ≤ z ≤ maxInt.

(** The sizes of a window with which no operation of [BackPropagate]
    overflows: [headSize + tailSize], [count - (headSize + tailSize)] and
    [count - headSize]. *)
Definition windowFits (s : seqProp) (headSize tailSize : Z) : Prop :=
  isInt headSize ∧ isInt tailSize ∧ isInt (headSize + tailSize) ∧
  isInt (Z.of_nat (MemoryCount s) - (headSize + tailSize)) ∧
  isInt (Z.of_nat (MemoryCount s) - headSize).

(** The index of the oldest record that [BackPropagate] visits. *)
Definition lowIndex (s : seqProp) (headSize tailSize : Z) : nat :=
  Z.to_nat (Z.max 0 (Z.of_nat (MemoryCount s) - (headSize + tailSize))).

(** Whether that record holds the start state of the block. *)
Definition reachesStart (s : seqProp) (headSize tailSize : Z) : bool :=
  match memoryAt s (Z.of_nat (lowIndex s headSize tailSize)) with
  | Some first => bool_decide (is_Some (step_StartState first))
  | None => false
  end.

(** The addresses of the state variables of the records from [lowIdx]
    on, [n] of them, for which the loop of [BackPropagate] makes
    accumulator entries: every record but the oldest, and the oldest as
    well when it holds the start state. *)
Definition stateKeys (s : seqProp) (lowIdx : nat) (getInitialState : bool) (n : nat)
    : gset nat :=
  ⋃ ((λ i, if bool_decide (lowIdx < i)%nat || getInitialState
           then match memoryAt s (Z.of_nat i) with
                | Some mem => list_to_set (addr <$> InStates mem)
                | None => ∅
                end
           else ∅) <$> seq lowIdx n).

(** The state of the loop of [BackPropagate] after the first [k] of its
    [n] iterations. *)
Fixpoint bpAfter (s : seqProp) (lowIdx : nat) (lowHead : Z) (getInitialState : bool)
    (n k : nat) (st : bpState) : option bpState :=
  match k, n with
  | Datatypes.S k', Datatypes.S n' =>
      st' ← bpStep s lowIdx lowHead getInitialState (lowIdx + n') st;
      bpAfter s lowIdx lowHead getInitialState n' k' st'
  | _, _ => Some st
  end.

(** The state in which the loop of [BackPropagate] comes to record [i]:
    the state after the iterations for the newer records. *)
Definition stateBefore (s : seqProp) (g : Gradient) (headSize tailSize : Z) (i : nat)
    : option bpState :=
  let lowIdx := lowIndex s headSize tailSize in
  bpAfter s lowIdx (Z.of_nat (MemoryCount s) - headSize) (reachesStart s headSize tailSize)
    (MemoryCount s - lowIdx) (MemoryCount s - 1 - i)
    {| bp_upstream := {| up_States := []; up_Outputs := [] |}; bp_g := g; bp_calls := [] |}.

(** The accumulator entries for the state variables of a record that the
    loop of [BackPropagate] makes before it calls the closure of the record,
    and the state gradients that it reads from the accumulator after the
    call. *)
Definition zeroStates (s : seqProp) (mem : seqPropStep) (g : Gradient) : Gradient :=
  foldl (λ g state, <[addr state := make (StateSize (Block_ s))]> g) g (InStates mem).

Definition stateGradsOf (s : seqProp) (mem : seqPropStep) (g : Gradient) : list Vector :=
  (λ state, default (make (StateSize (Block_ s))) (g !! addr state)) <$> InStates mem.

(** The variables that [headInput] builds for a batch: for lane [k], the
    input variable at address [next + 2k] and the state variable after
    it. *)
Definition inputVarsAt (next : nat) (batch : list Sample) : list Var :=
  imap (λ k seq, mkVar (next + 2 * k) (default [] (Inputs seq !! 0%nat))) batch.

Definition stateVarsAt (next : nat) (lastStates : list Vector) : list Var :=
  imap (λ k state, mkVar (next + 2 * k + 1) state) lastStates.

(** The output gradients that a record in the head of the window gets:
    for each output of the record, what the cost function makes of the
    first target of the lane and the output. *)
Definition costGradients (s : seqProp) (mem : seqPropStep) (outs : list Vector) : Prop :=
  length outs = length (out_Outputs (step_Output mem)) ∧
  ∀ lane output, out_Outputs (step_Output mem) !! lane = Some output →
    ∃ seq desired, InSeqs mem !! lane = Some seq ∧ Outputs seq !! 0%nat = Some desired ∧
      outs !! lane = Some (CostFunc s desired output).

(** Only the first record of a memory can hold the start state. *)
Definition startOnlyFirst (cs : list (option seqPropStep)) : Prop :=
  ∀ i mem, (0 < i)%nat → cs !! i = Some (Some mem) → step_StartState mem = None.

(** What the sessions built from an empty memory by [TimeStep] and
    [Truncate] have in common: no cell of the memory is nil, only the first
    record can hold the start state, and consecutive records are chained. *)
Definition sessionInv (s : seqProp) : Prop :=
  Forall is_Some (cells (memory s)) ∧
  startOnlyFirst (cells (memory s)) ∧
  chained (cells (memory s)).

(** What a caller gets of [BackPropagate]: the accumulator and, in the
    order of the calls, the upstream gradients given to the closures. *)
Definition observeBP (r : seqProp * Gradient * list (nat * UpstreamGradient))
    : Gradient * list UpstreamGradient :=
  (r.1.2, r.2.*2).

(** A state of the loop of [BackPropagate] with the indices of its log
    moved down by [d]. *)
Definition relabel (d : nat) (st : bpState) : bpState :=
  {| bp_upstream := bp_upstream st; bp_g := bp_g st;
     bp_calls := (λ c, ((c.1 - d)%nat, c.2)) <$> bp_calls st |}.

(** What a caller gets of [TimeStep] apart from the older records: the
    record appended, the remaining sequences and the next free address. *)
Definition observeStep (r : seqProp * list Sample * nat)
    : option (option seqPropStep) * list Sample * nat :=
  (last (cells (memory r.1.1)), r.1.2, r.2).

(** A sequence that has a target for each of its inputs. *)
Definition targeted (seq : Sample) : Prop :=
  (length (Inputs seq) ≤ length (Outputs seq))%nat.

End Window.

(** ** The order of a range over a map *)

(** Go chooses the order of a [range] over a map anew each time the
    statement runs.  [BatchSeqs] runs its [range] over [step.LaneToOut] once
    per timestep: here [order t] is the order taken at timestep [t], where
    [unroll] takes one order for all timesteps. *)
Fixpoint unrollIn (order : nat → gmap Z Z → list (Z * Z)) (fuel : nat) (block : Block)
    (seqs : list (list Result)) (t : nat) (res : BlockSeqFuncOutput) (next : nat)
    : option (BlockSeqFuncOutput * nat) :=
  match fuel with
  | O => None
  | Datatypes.S fuel' =>
      st ← Go.range (laneBody (bsf_StartState res) (Steps res) t) seqs
             {| sb_InStateVars := replicate (length seqs) None;
                sb_InputVars := replicate (length seqs) None;
                sb_Inputs := replicate (length seqs) None;
                sb_LaneToOut := ∅;
                sb_input := {| in_States := []; in_Inputs := [] |};
                sb_next := next |};
      if decide (size (sb_LaneToOut st) = 0%nat) then Some (res, next)
      else
        let step := {| InStateVars := sb_InStateVars st;
                       InputVars := sb_InputVars st;
                       Inputs := sb_Inputs st;
                       Outputs := Batch block (sb_input st);
                       LaneToOut := sb_LaneToOut st |} in
        packed ← Go.forEach (packBody (out_Outputs (Outputs step)))
                   (order t (LaneToOut step)) (PackedOut res);
        unrollIn order fuel' block seqs (Datatypes.S t)
          {| bsf_StartState := bsf_StartState res;
             Steps := Steps res ++ [step];
             PackedOut := packed |} (sb_next st)
  end.

(** [BlockSeqFunc.BatchSeqs] with an order per timestep. *)
Definition BatchSeqsIn (order : nat → gmap Z Z → list (Z * Z)) (block : Block)
    (seqs : list (list Result)) (next : nat) : option (BlockSeqFuncOutput * nat) :=
  unrollIn order (Datatypes.S (maxLen seqs)) block seqs 0
    {| bsf_StartState := StartState block;
       Steps := [];
       PackedOut := replicate (length seqs) [] |} next.

(** ** The variables of a forward pass *)

(** The number of variables that [BatchSeqs] has allocated when it comes
    to timestep [t]: two for each active lane of each earlier timestep. *)
Definition allocated {A} (seqs : list (list A)) (t : nat) : nat :=
  2 * sum_list ((λ τ, rank τ seqs (length seqs)) <$> seq 0 t).

(** A lane whose sequence reaches timestep [t]. *)
Definition activeAt {A} (seqs : list (list A)) (t l : nat) : Prop :=
  ∃ seq, seqs !! l = Some seq ∧ (t < length seq)%nat.

(** The variables in the per-lane slices [inputVars] and [inStateVars] of
    timestep [t] sit at active lanes, and the pair of lane [l] has the
    addresses [base + 2 * rank] and the one after it. *)
Definition varsAt {A} (seqs : list (list A)) (t : nat) (base : nat)
    (inputVars inStateVars : list (option Var)) : Prop :=
  (∀ l v, inputVars !! l = Some (Some v) →
     activeAt seqs t l ∧ addr v = (base + 2 * rank t seqs l)%nat) ∧
  (∀ l sv, inStateVars !! l = Some (Some sv) →
     activeAt seqs t l ∧ addr sv = (base + 2 * rank t seqs l + 1)%nat).

(** The variables of the steps of an output built from address [next]
    on. *)
Definition allocInv {A} (seqs : list (list A)) (next : nat) (res : BlockSeqFuncOutput)
    : Prop :=
  ∀ t step, Steps res !! t = Some step →
    varsAt seqs t (next + allocated seqs t) (InputVars step) (InStateVars step).

(** ** Lanes that do not see each other *)

(** A block that treats the lanes of a batch independently: the output
    and the new state of a lane are functions of the state and the input of
    that lane. *)
Definition laneWise (block : Block) (outFn stateFn : Vector → Vector → Vector) : Prop :=
  ∀ input k s x, in_States input !! k = Some s → in_Inputs input !! k = Some x →
    out_Outputs (Batch block input) !! k = Some (outFn (vec s) (vec x)) ∧
    out_States (Batch block input) !! k = Some (stateFn (vec s) (vec x)).

(** The outputs of the recurrence on one sequence of input vectors, from
    a state on. *)
Fixpoint laneOutputs (outFn stateFn : Vector → Vector → Vector) (state : Vector)
    (xs : list Vector) : list Vector :=
  match xs with
  | [] => []
  | x :: xs' => outFn state x :: laneOutputs outFn stateFn (stateFn state x) xs'
  end.

(** ** Collaborators that return on gradients of the right sizes *)

(** An accumulator whose entries have the lengths that [width] gives to
    their addresses. *)
Definition sized (width : nat → nat) (g : Gradient) : Prop :=
  ∀ a x, g !! a = Some x → length x = width a.

(** What the backward pass of an output needs of its collaborators in
    order to return.  The states of the block have its state size.  On an
    accumulator whose entries have their widths, the closure of a step
    returns when it is given one state gradient of the state size and one
    output gradient of the output size per lane of the step, and
    propagation into a raw input of the batch or into the start state
    returns when it is given a gradient of the length of the output; the
    entries of the accumulator that they return have their widths. *)
Record collaboratorsSized (width : nat → nat) (outSize : nat) (block : Block)
    (seqs : list (list Result)) (r : BlockSeqFuncOutput) : Prop := {
  sized_states : ∀ step, step ∈ Steps r →
    Forall (λ x, length x = StateSize block) (out_States (Outputs step));
  sized_start_state : length (Output (bsf_StartState r)) = StateSize block;
  sized_block : ∀ step u (g : Gradient), step ∈ Steps r →
    length (up_States u) = size (LaneToOut step) →
    length (up_Outputs u) = size (LaneToOut step) →
    Forall (λ x, length x = StateSize block) (up_States u) →
    Forall (λ x, length x = outSize) (up_Outputs u) →
    sized width g →
    ∃ g', out_Gradient (Outputs step) u g = Some g' ∧ sized width g';
  sized_inputs : ∀ seq input u (g : Gradient), seq ∈ seqs → input ∈ seq →
    length u = length (Output input) → sized width g →
    ∃ g', PropagateGradient input u g = Some g' ∧ sized width g';
  sized_start : ∀ u (g : Gradient), length u = StateSize block → sized width g →
    ∃ g', PropagateGradient (bsf_StartState r) u g = Some g' ∧ sized width g'
}.

(** The state gradients that the backward pass keeps for the lanes: one
    slot per lane, and the vectors in them have the state size. *)
Definition slotsSized (block : Block) (seqs : list (list Result))
    (sus : list (option Vector)) : Prop :=
  length sus = length seqs ∧
  ∀ l x, sus !! l = Some (Some x) → length x = StateSize block.

(** [width] gives the variables of the forward pass the lengths of their
    vectors. *)
Definition widthOfVars (width : nat → nat) (r : BlockSeqFuncOutput) : Prop :=
  ∀ step v, step ∈ Steps r → v ∈ stepVars step → width (addr v) = length (vec v).

(** ** The R-operator variant of the unroller *)

Module AutofuncR.

(** [autofunc.RVector] and [autofunc.RGradient], Go maps keyed by variable
    pointers. *)
Abbreviation RVector := (gmap nat Vector).
Abbreviation RGradient := (gmap nat Vector).

(** [autofunc.RVariable]: a pointer to a variable and the derivative of its
    value.  Only the variable is used as a key of an accumulator, so only it
    has an address. *)
Record RVar := mkRVar { Variable_ : Var; ROutputVec : Vector }.

(** The interface [autofunc.RResult].  [PropagateRGradient] returns the two
    accumulators after the call. *)
Record RResult := mkRResult {
  r_Output : Vector;
  r_ROutput : Vector;
  r_Constant : RGradient → Gradient → bool;
  PropagateRGradient : Vector → Vector → RGradient → Gradient → option (RGradient * Gradient)
}.

End AutofuncR.

Module RnnR.

Import AutofuncR.

Record UpstreamRGradient := mkUpstreamR {
  up : UpstreamGradient;
  RStates_ : list Vector;
  ROutputs_ : list Vector
}.

Record BlockRInput := mkBlockRInput {
  in_States : list RVar;
  in_Inputs : list RVar
}.

(** The interface [BlockROutput]. *)
Record BlockROutput := mkBlockROutput {
  out_States : list Vector;
  out_Outputs : list Vector;
  out_RStates : list Vector;
  out_ROutputs : list Vector;
  out_RGradient : UpstreamRGradient → RGradient → Gradient → option (RGradient * Gradient)
}.

(** The R-operator methods of the interface [Block]. *)
Record RBlock := mkRBlock {
  StartStateR : RVector → RResult;
  BatchR : RVector → BlockRInput → BlockROutput
}.

Record BlockSeqFuncROutputStep := mkRStep {
  InStateVars : list (option RVar);
  InputVars : list (option RVar);
  Inputs : list (option RResult);
  Outputs : BlockROutput;
  LaneToOut : gmap Z Z
}.

Record BlockSeqFuncROutput := mkROutput {
  StartState : RResult;
  Steps : list BlockSeqFuncROutputStep;
  PackedOut : list (list Vector);
  RPackedOut : list (list Vector)
}.

(** What the loop over the lanes of one timestep builds. *)
Record stepBuild := mkBuild {
  sb_InStateVars : list (option RVar);
  sb_InputVars : list (option RVar);
  sb_Inputs : list (option RResult);
  sb_LaneToOut : gmap Z Z;
  sb_input : BlockRInput;
  sb_next : nat
}.

(** The body of [for l, seq := range seqs] at timestep [t]. *)
Definition laneBody (startState : RResult) (steps : list BlockSeqFuncROutputStep)
    (t : nat) (l : nat) (seq : list RResult) (st : stepBuild) : option stepBuild :=
  if decide (length seq ≤ t)%nat then Some st
  else
    x ← seq !! t;
    let laneToOut := <[Z.of_nat l := Z.of_nat (length (in_Inputs (sb_input st)))]>
                       (sb_LaneToOut st) in
    inputs ← Go.store (sb_Inputs st) l (Some x);
    let inputVar := mkRVar (mkVar (sb_next st) (r_Output x)) (r_ROutput x) in
    inputVars ← Go.store (sb_InputVars st) l (Some inputVar);
    let stateAddr := Datatypes.S (sb_next st) in
    inStateVars ← Go.store (sb_InStateVars st) l
                    (Some (mkRVar (mkVar stateAddr (r_Output startState))
                             (r_ROutput startState)));
    state ← (if decide (0 < t)%nat then
               s ← steps !! (t - 1)%nat;
               v ← Go.index (out_States (Outputs s)) (mapRead (LaneToOut s) (Z.of_nat l));
               rv ← Go.index (out_RStates (Outputs s)) (mapRead (LaneToOut s) (Z.of_nat l));
               Some (v, rv)
             else Some (r_Output startState, r_ROutput startState));
    let stateVar := mkRVar (mkVar stateAddr state.1) state.2 in
    inStateVars ← Go.store inStateVars l (Some stateVar);
    Some {| sb_InStateVars := inStateVars;
            sb_InputVars := inputVars;
            sb_Inputs := inputs;
            sb_LaneToOut := laneToOut;
            sb_input := {| in_States := in_States (sb_input st) ++ [stateVar];
                           in_Inputs := in_Inputs (sb_input st) ++ [inputVar] |};
            sb_next := Datatypes.S stateAddr |}.

(** The body of [for l, outIdx := range step.LaneToOut], on [PackedOut] and
    [RPackedOut]. *)
Definition packBody (out : BlockROutput) (e : Z * Z)
    (packed : list (list Vector) * list (list Vector))
    : option (list (list Vector) * list (list Vector)) :=
  o ← Go.index (out_Outputs out) e.2;
  cur ← Go.index packed.1 e.1;
  packedOut ← Go.store packed.1 (Z.to_nat e.1) (cur ++ [o]);
  ro ← Go.index (out_ROutputs out) e.2;
  rcur ← Go.index packed.2 e.1;
  rpackedOut ← Go.store packed.2 (Z.to_nat e.1) (rcur ++ [ro]);
  Some (packedOut, rpackedOut).

Section MapOrder.
Variable mapRange : gmap Z Z → list (Z * Z).

(** The loop [for { ... t++ }] of [BatchSeqsR], from timestep [t] on. *)
Fixpoint unroll (fuel : nat) (block : RBlock) (rv : RVector) (seqs : list (list RResult))
    (t : nat) (res : BlockSeqFuncROutput) (next : nat)
    : option (BlockSeqFuncROutput * nat) :=
  match fuel with
  | O => None
  | Datatypes.S fuel' =>
      st ← Go.range (laneBody (StartState res) (Steps res) t) seqs
             {| sb_InStateVars := replicate (length seqs) None;
                sb_InputVars := replicate (length seqs) None;
                sb_Inputs := replicate (length seqs) None;
                sb_LaneToOut := ∅;
                sb_input := {| in_States := []; in_Inputs := [] |};
                sb_next := next |};
      if decide (size (sb_LaneToOut st) = 0%nat) then Some (res, next)
      else
        let step := {| InStateVars := sb_InStateVars st;
                       InputVars := sb_InputVars st;
                       Inputs := sb_Inputs st;
                       Outputs := BatchR block rv (sb_input st);
                       LaneToOut := sb_LaneToOut st |} in
        packed ← Go.forEach (packBody (Outputs step)) (mapRange (LaneToOut step))
                   (PackedOut res, RPackedOut res);
        unroll fuel' block rv seqs (Datatypes.S t)
          {| StartState := StartState res;
             Steps := Steps res ++ [step];
             PackedOut := packed.1;
             RPackedOut := packed.2 |} (sb_next st)
  end.

(** [BlockSeqFunc.BatchSeqsR] *)
Definition BlockSeqFunc_BatchSeqsR (block : RBlock) (rv : RVector)
    (seqs : list (list RResult)) (next : nat) : option (BlockSeqFuncROutput * nat) :=
  unroll (Datatypes.S (maxLen seqs)) block rv seqs 0
    {| StartState := StartStateR block rv;
       Steps := [];
       PackedOut := replicate (length seqs) [];
       RPackedOut := replicate (length seqs) [] |} next.
End MapOrder.

(** The variables under the R-variables of a block input, of the slices of
    a step and of a state of the loop over the lanes. *)
Definition eraseInput (input : BlockRInput) : BlockInput :=
  {| Rnn.in_States := Variable_ <$> in_States input;
     Rnn.in_Inputs := Variable_ <$> in_Inputs input |}.

Definition eraseVars (vars : list (option RVar)) : list (option Var) :=
  (λ v : option RVar, Variable_ <$> v) <$> vars.

(** An R-operator block that computes the outputs and states of a block. *)
Definition forwardOf (block : Block) (rblock : RBlock) (rv : RVector) : Prop :=
  r_Output (StartStateR rblock rv) = Output (Rnn.StartState block) ∧
  ∀ input,
    out_States (BatchR rblock rv input) = Rnn.out_States (Batch block (eraseInput input)) ∧
    out_Outputs (BatchR rblock rv input) = Rnn.out_Outputs (Batch block (eraseInput input)).

(** A step of the plain pass and the step of the R-operator pass over the
    same variables. *)
Definition sameStep (step : Rnn.BlockSeqFuncOutputStep) (rstep : BlockSeqFuncROutputStep)
    : Prop :=
  Rnn.LaneToOut step = LaneToOut rstep ∧
  Rnn.InStateVars step = eraseVars (InStateVars rstep) ∧
  Rnn.InputVars step = eraseVars (InputVars rstep) ∧
  Rnn.out_States (Rnn.Outputs step) = out_States (Outputs rstep) ∧
  Rnn.out_Outputs (Rnn.Outputs step) = out_Outputs (Outputs rstep).

(** A state of the loop over the lanes of the plain pass and the state of
    the R-operator pass over the same variables, and the two outputs. *)
Definition sameBuild (st : Rnn.stepBuild) (rst : stepBuild) : Prop :=
  Rnn.sb_InStateVars st = eraseVars (sb_InStateVars rst) ∧
  Rnn.sb_InputVars st = eraseVars (sb_InputVars rst) ∧
  length (Rnn.sb_Inputs st) = length (sb_Inputs rst) ∧
  Rnn.sb_LaneToOut st = sb_LaneToOut rst ∧
  Rnn.sb_input st = eraseInput (sb_input rst) ∧
  Rnn.sb_next st = sb_next rst.

Definition sameOutput (res : Rnn.BlockSeqFuncOutput) (rres : BlockSeqFuncROutput) : Prop :=
  Output (Rnn.bsf_StartState res) = r_Output (StartState rres) ∧
  Forall2 sameStep (Rnn.Steps res) (Steps rres) ∧
  Rnn.PackedOut res = PackedOut rres ∧
  length <$> RPackedOut rres = length <$> PackedOut rres.

End RnnR.

(** ** The output of a batcher block *)

Module Batcher.

(** [output[lo:hi]] for [int] bounds, on a slice whose capacity is its
    length. *)
Definition slice {A} (l : list A) (lo hi : Z) : option (list A) :=
  if decide (0 ≤ lo ∧ lo ≤ hi ∧ hi ≤ Z.of_nat (length l))
  then Some (take (Z.to_nat (hi - lo)) (drop (Z.to_nat lo) l))
  else None.

(** [copy(dst[idx:], src)]: the slice expression panics past the length
    of [dst], and [copy] stops at the shorter of the two. *)
Definition copyAt {A} (dst : list A) (idx : nat) (src : list A) : option (list A) :=
  if decide (idx ≤ length dst)%nat then
    let k := Nat.min (length dst - idx) (length src) in
    Some (take idx dst ++ take k src ++ drop (idx + k) dst)
  else None.

Import AutofuncR.

(** [batcherBlockOutput]; [Batch] leaves [RResult] nil and [BatchR] leaves
    [Result] nil. *)
Record batcherBlockOutput := mkBatcherBlockOutput {
  Result_ : option Result;
  RResult_ : option RResult;
  StateSize : Z;
  LaneCount : Z
}.

(** [resultOutputVector] *)
Definition resultOutputVector (b : batcherBlockOutput) : option Vector :=
  match Result_ b with
  | Some r => Some (Output r)
  | None => r ← RResult_ b; Some (r_Output r)
  end.

(** [outputSize]: the division panics for a lane count of zero, and
    truncates like Go's. *)
Definition outputSize (b : batcherBlockOutput) : option Z :=
  v ← resultOutputVector b;
  if decide (LaneCount b = 0) then None
  else Some (Z.quot (Z.of_nat (length v)) (LaneCount b) - StateSize b).

(** [extractStates]; [make] panics for a negative lane count. *)
Definition extractStates (b : batcherBlockOutput) (output : Vector) : option (list Vector) :=
  outSize ← outputSize b;
  if decide (LaneCount b < 0) then None
  else mapM (λ i, let startIdx := i * (outSize + StateSize b) + outSize in
                  slice output startIdx (startIdx + StateSize b))
         (seqZ 0 (LaneCount b)).

(** [extractOutputs] *)
Definition extractOutputs (b : batcherBlockOutput) (output : Vector) : option (list Vector) :=
  outSize ← outputSize b;
  if decide (LaneCount b < 0) then None
  else mapM (λ i, let startIdx := i * (outSize + StateSize b) in
                  slice output startIdx (startIdx + outSize))
         (seqZ 0 (LaneCount b)).

(** [States], [Outputs], [RStates] and [ROutputs] *)
Definition States (b : batcherBlockOutput) : option (list Vector) :=
  v ← resultOutputVector b; extractStates b v.

Definition Outputs (b : batcherBlockOutput) : option (list Vector) :=
  v ← resultOutputVector b; extractOutputs b v.

Definition RStates (b : batcherBlockOutput) : option (list Vector) :=
  r ← RResult_ b; extractStates b (r_ROutput r).

Definition ROutputs (b : batcherBlockOutput) : option (list Vector) :=
  r ← RResult_ b; extractOutputs b (r_ROutput r).

(** The two slices of [joinUpstream] after a nil one has been filled with
    zero vectors.  A slice argument is [None] when it is nil. *)
Definition fillNil (b : batcherBlockOutput) (outputSize : Z)
    (states outputs : option (list Vector)) : option (list Vector * list Vector) :=
  match states, outputs with
  | None, _ =>
      let outs := default [] outputs in
      if decide (outs ≠ [] ∧ StateSize b < 0) then None
      else Some (replicate (length outs) (make (Z.to_nat (StateSize b))), outs)
  | Some sts, None =>
      if decide (sts ≠ [] ∧ outputSize < 0) then None
      else Some (sts, replicate (length sts) (make (Z.to_nat outputSize)))
  | Some sts, Some outs => Some (sts, outs)
  end.

(** The body of the loop of [joinUpstream], on [upstreamVec] and [idx]. *)
Definition joinUpstreamBody (b : batcherBlockOutput) (outputSize : Z) (states : list Vector)
    (i : nat) (output : Vector) (st : Vector * nat) : option (Vector * nat) :=
  if decide (Z.of_nat (length output) ≠ outputSize) then None
  else
    state ← states !! i;
    if decide (Z.of_nat (length state) ≠ StateSize b) then None
    else
      upstreamVec ← copyAt st.1 st.2 output;
      let idx := (st.2 + length output)%nat in
      upstreamVec ← copyAt upstreamVec idx state;
      Some (upstreamVec, (idx + length state)%nat).

(** [joinUpstream] *)
Definition joinUpstream (b : batcherBlockOutput) (states outputs : option (list Vector))
    : option Vector :=
  outputSize ← outputSize b;
  so ← fillNil b outputSize states outputs;
  s0 ← so.1 !! 0%nat;
  o0 ← so.2 !! 0%nat;
  let upstreamVec := make ((length s0 + length o0) * length so.1) in
  st ← Go.range (joinUpstreamBody b outputSize so.1) so.2 (upstreamVec, 0%nat);
  Some st.1.

(** The packing of one vector per lane: the output of the lane followed
    by its state. *)
Definition packed (outputs states : list Vector) : Vector :=
  concat (zip_with app outputs states).

End Batcher.

(** ** Sample inputs *)

(** Orders for Go's [range] over a map that change from one timestep to
    the next. *)
Definition demoOrder (t : nat) (m : gmap Z Z) : list (Z * Z) :=
  if Nat.even t then map_to_list m else reverse (map_to_list m).

Definition demoOrderRev (t : nat) (m : gmap Z Z) : list (Z * Z) :=
  if Nat.even t then reverse (map_to_list m) else map_to_list m.

(** The widths of the accumulator entries of the demo: 3 for the input
    variables of the forward pass, at the even addresses below 8, and for
    the raw inputs, and 2 for the state variables, at the odd addresses
    below 8, and for the start state, at address 100. *)
Definition demoWidth (a : nat) : nat :=
  if decide (a < 8)%nat then (if Nat.even a then 3%nat else 2%nat)
  else if decide (a = 100%nat) then 2%nat else 3%nat.

(** The inputs that the three steps of the demo output give the block. *)
Definition demoInputs : list BlockInput :=
  [ {| in_States := [mkVar 1 [7; 8]; mkVar 3 [7; 8]];
       in_Inputs := [mkVar 0 [0; 0; 1]; mkVar 2 [1; 0; 1]] |};
    {| in_States := [mkVar 5 [8; 8]]; in_Inputs := [mkVar 4 [0; 1; 1]] |};
    {| in_States := [mkVar 7 [9; 8]]; in_Inputs := [mkVar 6 [0; 2; 1]] |} ].

(** A batch of two sequences without elements. *)
Definition emptySeqs : list (list Result) := [[]; []].

(** A block and raw inputs whose propagation accepts every upstream and
    leaves the accumulator as it is: the block hands the input vectors
    through as outputs and the states as states. *)
Definition quietResult (v : Vector) : Result :=
  {| Output := v; Constant := λ _, false; PropagateGradient := λ _ g, Some g |}.

Definition quietBlock : Block :=
  {| StateSize := 2;
     StartState := quietResult [0; 0];
     Batch := λ input,
       {| out_States := vec <$> in_States input;
          out_Outputs := vec <$> in_Inputs input;
          out_Gradient := λ _ g, Some g |};
     block_Learner := None;
     block_Serializer := None;
     block_TypeName := "*rnntest.QuietBlock" |}.

Definition quietSeqs : list (list Result) :=
  [ [quietResult [1]; quietResult [2]]; [quietResult [3]] ].

(** The output of a batcher block with two lanes, outputs of size 1 and
    states of size 2. *)
Definition demoBatcherOutput : Batcher.batcherBlockOutput :=
  {| Batcher.Result_ := Some (quietResult [1; 2; 3; 4; 5; 6]);
     Batcher.RResult_ := None;
     Batcher.StateSize := 2;
     Batcher.LaneCount := 2 |}.

(** The R-operator methods of [quietBlock]: the derivatives are handed
    through like the values. *)
Definition quietRResult (v rv : Vector) : AutofuncR.RResult :=
  {| AutofuncR.r_Output := v; AutofuncR.r_ROutput := rv;
     AutofuncR.r_Constant := λ _ _, false;
     AutofuncR.PropagateRGradient := λ _ _ rg g, Some (rg, g) |}.

Definition quietRBlock : RnnR.RBlock :=
  {| RnnR.StartStateR := λ _, quietRResult [0; 0] [0; 0];
     RnnR.BatchR := λ _ input,
       {| RnnR.out_States := (λ v, vec (AutofuncR.Variable_ v)) <$> RnnR.in_States input;
          RnnR.out_Outputs := (λ v, vec (AutofuncR.Variable_ v)) <$> RnnR.in_Inputs input;
          RnnR.out_RStates := AutofuncR.ROutputVec <$> RnnR.in_States input;
          RnnR.out_ROutputs := AutofuncR.ROutputVec <$> RnnR.in_Inputs input;
          RnnR.out_RGradient := λ _ rg g, Some (rg, g) |} |}.

Definition quietSeqsR : list (list AutofuncR.RResult) :=
  [ [quietRResult [1] [10]; quietRResult [2] [20]]; [quietRResult [3] [30]] ].

(** The functions of a lane of [demoBlock]. *)
Definition demoOutFn (s x : Vector) : Vector := [nth 1 x 0; nth 0 s 0].

Definition demoStateFn (s x : Vector) : Vector :=
  match s with
  | s0 :: rest => s0 + 1 :: rest
  | [] => []
  end.

(** * Properties *)

(** ** loopUsedLanes *)

Section LoopUsedLanes.
Context {S : Type} (laneToOut : gmap Z Z) (f : Z → S → option S).

Lemma usedLanes_step lane (n : nat) :
    usedLanes laneToOut lane (Z.of_nat (Datatypes.S n)) =
      (if laneToOut !! lane is Some _ then [lane] else []) ++
      usedLanes laneToOut (lane + 1) (Z.of_nat n).
Proof.
    unfold usedLanes. rewrite seqZ_cons by lia.
    replace (Z.pred (Z.of_nat (Datatypes.S n))) with (Z.of_nat n) by lia.
    replace (Z.succ lane) with (lane + 1) by lia.
    rewrite filter_cons. destruct (laneToOut !! lane) eqn:E.
    - rewrite decide_True by eauto. done.
    - rewrite decide_False; [done|]. by intros [? ?].
Qed.

  (** With a counter [k] that is the number of keys still ahead, the loop
      calls [f] on those keys, in increasing order. *)
Lemma loopUsedLanes_from_spec (fuel : nat) lane a :
    loopUsedLanes_from fuel laneToOut f lane
      (length (usedLanes laneToOut lane (Z.of_nat fuel))) a =
    Go.forEach f (usedLanes laneToOut lane (Z.of_nat fuel)) a.
Proof.
    revert lane a. induction fuel as [|fuel IH]; intros lane a.
    - done.
    - rewrite usedLanes_step. destruct (laneToOut !! lane) eqn:E; simpl.
      + rewrite E. destruct (f lane a); [apply IH | done].
      + destruct (length _) eqn:El.
        * by apply nil_length_inv in El as ->.
        * rewrite E, <- El. apply IH.
Qed.

  (** With a counter larger than that, the loop never ends. *)
Lemma loopUsedLanes_from_short (fuel : nat) lane k a :
    (length (usedLanes laneToOut lane (Z.of_nat fuel)) < k)%nat →
    loopUsedLanes_from fuel laneToOut f lane k a = None.
Proof.
    revert lane k a. induction fuel as [|fuel IH]; intros lane k a Hk.
    - destruct k; [simpl in Hk; lia | done].
    - rewrite usedLanes_step in Hk. destruct k as [|k]; [lia|]. simpl.
      destruct (laneToOut !! lane) eqn:E; simpl in Hk.
      + destruct (f lane a); [|done]. apply IH. lia.
      + apply IH. lia.
Qed.
End LoopUsedLanes.

Lemma lanesBound_above (m : gmap Z Z) l : is_Some (m !! l) → l < lanesBound m.
Proof.
  intros [x Hx]. apply elem_of_map_to_list in Hx.
  assert (l ∈ lanes m) as Hl by (apply list_elem_of_fmap; by exists (l, x)).
  unfold lanesBound. induction (lanes m) as [|y ys IH]; [by apply elem_of_nil in Hl|].
  simpl. apply elem_of_cons in Hl as [->|Hl]; [lia|]. specialize (IH Hl). lia.
Qed.

Lemma lanesBound_nonneg (m : gmap Z Z) : 0 ≤ lanesBound m.
Proof. unfold lanesBound. induction (lanes m); simpl; lia. Qed.

Lemma elem_of_lanes (m : gmap Z Z) l : l ∈ lanes m ↔ is_Some (m !! l).
Proof.
  unfold lanes. rewrite list_elem_of_fmap. split.
  - intros [[k x] [-> Hx]]. apply elem_of_map_to_list in Hx. eauto.
  - intros [x Hx]. exists (l, x). split; [done|]. by apply elem_of_map_to_list.
Qed.

Lemma elem_of_usedLanes (m : gmap Z Z) lane n l :
  l ∈ usedLanes m lane n ↔ is_Some (m !! l) ∧ lane ≤ l < lane + n.
Proof. unfold usedLanes. rewrite list_elem_of_filter, elem_of_seqZ. done. Qed.

Lemma NoDup_usedLanes (m : gmap Z Z) lane n : NoDup (usedLanes m lane n).
Proof. apply NoDup_filter, NoDup_seqZ. Qed.

Lemma seqZ_sorted lane n : StronglySorted Z.lt (seqZ lane n).
Proof.
  destruct (decide (0 ≤ n)) as [Hn|Hn]; [|rewrite seqZ_nil by lia; constructor].
  rewrite <- (Z2Nat.id n) by done. clear Hn. generalize (Z.to_nat n) as k. clear n.
  intros k. revert lane. induction k as [|k IH]; intros lane.
  - rewrite seqZ_nil by lia. constructor.
  - rewrite seqZ_cons by lia. constructor.
    + replace (Z.pred (Z.of_nat (Datatypes.S k))) with (Z.of_nat k) by lia. apply IH.
    + apply Forall_forall. intros x Hx. apply elem_of_seqZ in Hx. lia.
Qed.

Lemma filter_sorted {A} (R : relation A) (P : A → Prop) `{∀ x, Decision (P x)} l :
  StronglySorted R l → StronglySorted R (filter P l).
Proof.
  induction 1 as [|x l Hl IH Hx]; [constructor|].
  rewrite filter_cons. destruct (decide (P x)); [|done].
  constructor; [done|]. apply Forall_forall. intros y Hy.
  apply list_elem_of_filter in Hy as [_ Hy]. by eapply Forall_forall in Hx.
Qed.

Lemma usedLanes_sorted (m : gmap Z Z) lane n : StronglySorted Z.lt (usedLanes m lane n).
Proof. apply filter_sorted, seqZ_sorted. Qed.

(** The keys of a map without negative keys, in increasing order. *)
Lemma usedLanes_all (m : gmap Z Z) :
  (∀ l, is_Some (m !! l) → 0 ≤ l) →
  usedLanes m 0 (lanesBound m) ≡ₚ lanes m.
Proof.
  intros Hpos. apply NoDup_Permutation.
  - apply NoDup_usedLanes.
  - apply NoDup_fst_map_to_list.
  - intros l. rewrite elem_of_usedLanes, elem_of_lanes. split; [tauto|].
    intros Hl. split; [done|]. pose proof (lanesBound_above m l Hl).
    specialize (Hpos l Hl). lia.
Qed.

Lemma usedLanes_length_le (m : gmap Z Z) :
  (length (usedLanes m 0 (lanesBound m)) ≤ size m)%nat.
Proof.
  rewrite <- length_map_to_list, <- (length_fmap fst). apply submseteq_length.
  apply NoDup_submseteq; [apply NoDup_usedLanes|].
  intros l. rewrite elem_of_usedLanes. intros [Hl _]. by apply elem_of_lanes.
Qed.

Lemma usedLanes_length (m : gmap Z Z) :
  (∀ l, is_Some (m !! l) → 0 ≤ l) →
  length (usedLanes m 0 (lanesBound m)) = size m.
Proof.
  intros Hpos. rewrite (Permutation_length (usedLanes_all m Hpos)).
  unfold lanes. by rewrite length_fmap, length_map_to_list.
Qed.

(** [loopUsedLanes] as a loop over the sorted keys. *)
Lemma loopUsedLanes_sorted {S} (m : gmap Z Z) (f : Z → S → option S) a :
  (∀ l, is_Some (m !! l) → 0 ≤ l) →
  loopUsedLanes m f a = Go.forEach f (usedLanes m 0 (lanesBound m)) a.
Proof.
  intros Hpos. unfold loopUsedLanes. rewrite <- (usedLanes_length m Hpos).
  rewrite <- (Z2Nat.id (lanesBound m)) at 2 3 by apply lanesBound_nonneg.
  apply loopUsedLanes_from_spec.
Qed.

(** With a negative key the counter [k] never reaches [0]. *)
Lemma loopUsedLanes_negative {S} (m : gmap Z Z) (f : Z → S → option S) a l :
  is_Some (m !! l) → l < 0 → loopUsedLanes m f a = None.
Proof.
  intros Hl Hneg. unfold loopUsedLanes. apply loopUsedLanes_from_short.
  rewrite Z2Nat.id by apply lanesBound_nonneg.
  assert (length (usedLanes m 0 (lanesBound m)) ≠ size m); [|pose proof (usedLanes_length_le m); lia].
  intros Heq.
  assert (usedLanes m 0 (lanesBound m) ≡ₚ lanes m) as Hp.
  { apply submseteq_length_Permutation.
    - apply NoDup_submseteq; [apply NoDup_usedLanes|].
      intros x. rewrite elem_of_usedLanes. intros [Hx _]. by apply elem_of_lanes.
    - unfold lanes. rewrite length_fmap, length_map_to_list. lia. }
  assert (l ∈ usedLanes m 0 (lanesBound m)) as Hin by (rewrite Hp; by apply elem_of_lanes).
  apply elem_of_usedLanes in Hin. lia.
Qed.

Lemma forEach_log (ls pre : list Z) :
  Go.forEach (λ l log, Some (log ++ [l])) ls pre = Some (pre ++ ls).
Proof.
  revert pre. induction ls as [|l ls IH]; intros pre; simpl.
  - by rewrite app_nil_r.
  - rewrite IH. by rewrite <- app_assoc.
Qed.

Lemma elem_of_sortedLanes (m : gmap Z Z) l :
  map_Forall (λ l _, 0 ≤ l) m → l ∈ sortedLanes m ↔ is_Some (m !! l).
Proof.
  intros Hpos. unfold sortedLanes. rewrite elem_of_usedLanes. split; [tauto|].
  intros Hl. split; [done|]. pose proof (lanesBound_above m l Hl).
  destruct Hl as [x Hx]. specialize (Hpos l x Hx). simpl in Hpos. lia.
Qed.

Lemma map_Forall_nonneg (m : gmap Z Z) :
  map_Forall (λ l _, 0 ≤ l) m → ∀ l, is_Some (m !! l) → 0 ≤ l.
Proof. intros Hpos l [x Hx]. exact (Hpos l x Hx). Qed.

(** C10. On a lane-to-output map without negative keys, [loopUsedLanes]
    calls its callback exactly once per key, in strictly increasing key
    order: the calls are those of a loop over the sorted list of keys, and
    a callback that logs its argument logs that list.  The two callback
    loops of a timestep of [BlockSeqFuncOutput.Gradient] therefore visit the
    lanes in that order, which depends on the map's content alone and not
    on the order in which Go would iterate over it. *)
Theorem loopUsedLanes_once_in_order (m : gmap Z Z) :
  map_Forall (λ l _, 0 ≤ l) m →
  ∃ ls : list Z,
    StronglySorted Z.lt ls ∧ NoDup ls ∧ length ls = size m ∧
    (∀ l, l ∈ ls ↔ is_Some (m !! l)) ∧
    (∀ S (f : Z → S → option S) a, loopUsedLanes m f a = Go.forEach f ls a) ∧
    loopUsedLanes m (λ l log, Some (log ++ [l])) [] = Some ls ∧
    (∀ step upstream t st, LaneToOut step = m →
       gradStep step upstream t st =
         (su ← Go.forEach (gradEnter step upstream st.1 t) ls
                 ({| up_States := []; up_Outputs := [] |}, st.2);
          g ← out_Gradient (Outputs step) su.1 su.2;
          Go.forEach (gradLeave step) ls (st.1, g))).
Proof.
  intros Hpos. pose proof (map_Forall_nonneg m Hpos) as Hpos'.
  exists (sortedLanes m). split_and!.
  - apply usedLanes_sorted.
  - apply NoDup_usedLanes.
  - by apply usedLanes_length.
  - intros l. by apply elem_of_sortedLanes.
  - intros S f a. by apply loopUsedLanes_sorted.
  - rewrite loopUsedLanes_sorted by done. apply forEach_log.
  - intros step upstream t st Hm. unfold gradStep. rewrite Hm.
    rewrite loopUsedLanes_sorted by done.
    destruct (Go.forEach _ _ _) as [su|]; [simpl|done].
    destruct (out_Gradient _ _ _) as [g|]; [simpl|done].
    by apply loopUsedLanes_sorted.
Qed.

Lemma loopUsedLanes_once_in_order_witness :
  loopUsedLanes lanes_0_2 (λ l log, Some (log ++ [l])) [] = Some [0; 2].
Proof.
  destruct (loopUsedLanes_once_in_order lanes_0_2) as (ls & _ & _ & _ & _ & _ & Hlog & _).
  - apply (bool_decide_unpack _). vm_compute. exact I.
  - rewrite Hlog. f_equal.
    apply (inj Some). rewrite <- Hlog. vm_compute. reflexivity.
Defined.

(** ** The forward pass of BlockSeqFunc *)

Lemma rank_S {A} t (seqs : list (list A)) l seq :
  seqs !! l = Some seq →
  rank t seqs (Datatypes.S l) =
    (rank t seqs l + if decide (t < length seq)%nat then 1 else 0)%nat.
Proof.
  intros Hl. unfold rank. rewrite (take_S_r _ _ _ Hl), filter_app, length_app.
  f_equal. rewrite filter_cons, filter_nil. by destruct (decide _).
Qed.

Lemma rank_mono {A} t (seqs : list (list A)) l1 l2 :
  (l1 ≤ l2)%nat → (rank t seqs l1 ≤ rank t seqs l2)%nat.
Proof.
  intros Hle. unfold rank.
  replace l2 with (l1 + (l2 - l1))%nat by lia.
  rewrite <- take_take_drop, filter_app, length_app. lia.
Qed.

Lemma index_nat {A} (l : list A) (i : nat) : Go.index l (Z.of_nat i) = l !! i.
Proof. unfold Go.index. rewrite decide_True by lia. by rewrite Nat2Z.id. Qed.

Lemma store_Some {A} (l : list A) i x :
  (i < length l)%nat → Go.store l i x = Some (<[i := x]> l).
Proof. intros. unfold Go.store. by rewrite decide_True. Qed.

Section LaneLoop.
Variables (startState : Result) (steps : list BlockSeqFuncOutputStep).
Variables (t : nat) (seqs : list (list Result)).

Local Notation inState := (inState startState steps t).
Local Notation laneDone := (laneDone startState steps t seqs).
Local Notation laneInv := (laneInv startState steps t seqs).
Local Notation prevReady := (prevReady startState steps t seqs).

Lemma laneInv_init next :
    laneInv 0 {| sb_InStateVars := replicate (length seqs) None;
                 sb_InputVars := replicate (length seqs) None;
                 sb_Inputs := replicate (length seqs) None;
                 sb_LaneToOut := ∅;
                 sb_input := {| in_States := []; in_Inputs := [] |};
                 sb_next := next |}.
Proof.
    split; simpl; try (by rewrite length_replicate); try done.
    - intros; lia.
    - intros l _ Hl. by rewrite !lookup_replicate_2.
    - intros k [? Hk]. by rewrite lookup_empty in Hk.
Qed.

Lemma laneBody_inv i seq st :
    prevReady → seqs !! i = Some seq → laneInv i st →
    ∃ st', laneBody startState steps t i seq st = Some st' ∧ laneInv (Datatypes.S i) st'.
Proof.
    intros Hprev Hi [H1 H2 H3 H4 H5 H6 Hdone Htodo Hkeys].
    pose proof (lookup_lt_Some _ _ _ Hi) as Hlt.
    pose proof (rank_S t seqs i seq Hi) as HrS.
    destruct (Htodo i ltac:(lia) Hlt) as (Ht1 & Ht2 & Ht3).
    unfold laneBody. destruct (decide (length seq ≤ t)%nat) as [Hshort|Hlong].
    - (* the lane has ended: continue *)
      rewrite decide_False in HrS by lia.
      exists st. split; [done|]. split; try done; try lia.
      + intros l seq' Hl Hli. destruct (decide (l = i)) as [->|Hne].
        * assert (seq' = seq) as -> by congruence. unfold laneDone.
          rewrite decide_False by lia. split_and!; try done.
          destruct (sb_LaneToOut st !! Z.of_nat i) eqn:E; [|done].
          destruct (Hkeys (Z.of_nat i)) as (l' & Hl' & ? & ?); [eauto|]. lia.
        * apply Hdone; [done|lia].
      + intros l Hl1 Hl2. apply Htodo; lia.
      + intros k Hk. destruct (Hkeys k Hk) as (l & -> & ? & ?). exists l. split; [done|lia].
    - (* the lane is active *)
      rewrite decide_True in HrS by lia.
      destruct (lookup_lt_is_Some_2 seq t ltac:(lia)) as [x Hx]. rewrite Hx. simpl.
      rewrite !store_Some by lia. simpl.
      destruct (Hprev i seq Hi ltac:(lia)) as [sv Hsv].
      assert ((if decide (0 < t)%nat then
                 s ← steps !! (t - 1)%nat;
                 Go.index (out_States (Outputs s)) (mapRead (LaneToOut s) (Z.of_nat i))
               else Some (Output startState)) = Some sv) as ->.
      { unfold inState in Hsv. destruct t as [|t'].
        - rewrite decide_False by lia. by subst.
        - rewrite decide_True by lia. destruct Hsv as (s & Hs & Hidx).
          replace (Datatypes.S t' - 1)%nat with t' by lia. rewrite Hs. done. }
      simpl. rewrite store_Some by (rewrite length_insert; lia). simpl.
      eexists. split; [done|].
      assert (sb_LaneToOut st !! Z.of_nat i = None) as Hfresh.
      { destruct (sb_LaneToOut st !! Z.of_nat i) eqn:E; [|done].
        destruct (Hkeys (Z.of_nat i)) as (l' & Hl' & ? & ?); [eauto|]. lia. }
      split; simpl.
      + rewrite length_insert. done.
      + rewrite length_insert. done.
      + rewrite !length_insert. done.
      + rewrite length_app. simpl. lia.
      + rewrite length_app. simpl. lia.
      + rewrite map_size_insert_None by done. lia.
      + intros l seq' Hl Hli. destruct (decide (l = i)) as [->|Hne].
        * assert (seq' = seq) as -> by congruence. unfold laneDone. simpl.
          rewrite decide_True by lia.
          exists x, (mkVar (sb_next st) (Output x)), (mkVar (Datatypes.S (sb_next st)) sv).
          rewrite list_insert_insert_eq.
          rewrite !list_lookup_insert_eq by lia.
          rewrite lookup_insert_eq, <- H4.
          split_and!; try done.
          -- by rewrite lookup_app_r, Nat.sub_diag by lia.
          -- rewrite lookup_app_r by lia.
             by replace (_ - _)%nat with 0%nat by lia.
        * assert (l < i)%nat as Hl' by lia.
          specialize (Hdone l seq' Hl Hl'). unfold laneDone in *. simpl.
          destruct (decide (t < length seq')%nat) as [Hact|Hina].
          -- destruct Hdone as (x' & v' & sv' & ? & ? & ? & ? & ? & ? & ? & Hv' & Hsv').
             exists x', v', sv'. rewrite list_insert_insert_eq.
             rewrite !list_lookup_insert_ne by done.
             rewrite lookup_insert_ne by lia.
             rewrite !lookup_app_l by (eapply lookup_lt_Some; eassumption).
             split_and!; done.
          -- destruct Hdone as (? & ? & ? & ?). rewrite list_insert_insert_eq.
             rewrite !list_lookup_insert_ne by done.
             rewrite lookup_insert_ne by lia. done.
      + intros l Hl1 Hl2. rewrite list_insert_insert_eq.
        rewrite !list_lookup_insert_ne by lia. apply Htodo; lia.
      + intros k Hk. destruct (decide (k = Z.of_nat i)) as [->|Hne].
        * exists i. split; [done|lia].
        * rewrite lookup_insert_ne in Hk by done.
          destruct (Hkeys k Hk) as (l & -> & ? & ?). exists l. split; [done|lia].
Qed.

Lemma rangeFrom_laneInv rest i st :
    prevReady → drop i seqs = rest → laneInv i st →
    ∃ st', Go.rangeFrom i (laneBody startState steps t) rest st = Some st' ∧
           laneInv (length seqs) st'.
Proof.
    intros Hprev. revert i st. induction rest as [|seq rest IH]; intros i st Hdrop Hinv.
    - simpl. exists st. split; [done|].
      apply drop_nil_inv in Hdrop.
      destruct Hinv as [H1 H2 H3 H4 H5 H6 Hdone Htodo Hkeys].
      assert (rank t seqs i = rank t seqs (length seqs)) as Hr.
      { unfold rank. by rewrite !take_ge by lia. }
      split; try done; try lia.
      + intros l seq Hl _. apply Hdone; [done|].
        apply lookup_lt_Some in Hl. lia.
      + intros k Hk. destruct (Hkeys k Hk) as (l & -> & Hl & ?). by exists l.
    - assert (seqs !! i = Some seq) as Hi.
      { rewrite <- (Nat.add_0_r i), <- lookup_drop, Hdrop. done. }
      destruct (laneBody_inv i seq st Hprev Hi Hinv) as (st' & Hst' & Hinv').
      simpl. rewrite Hst'. apply IH; [|done].
      rewrite <- (Nat.add_1_r i), <- drop_drop, Hdrop. done.
Qed.
End LaneLoop.

Lemma forEach_pack (outputs : list Vector) (es : list (Z * Z)) (packed : list (list Vector)) :
  NoDup es.*1 →
  (∀ k p, (k, p) ∈ es →
     ∃ l, k = Z.of_nat l ∧ (l < length packed)%nat ∧ is_Some (Go.index outputs p)) →
  ∃ packed', Go.forEach (packBody outputs) es packed = Some packed' ∧
    length packed' = length packed ∧
    ∀ l cur, packed !! l = Some cur →
      packed' !! l = Some (cur ++ packedEntry outputs (list_to_map es) l).
Proof.
  revert packed. induction es as [|[k p] es IH]; intros packed Hnd Hes.
  - exists packed. split_and!; [done..|]. intros l cur Hl.
    unfold packedEntry. simpl. rewrite lookup_empty. by rewrite app_nil_r.
  - apply NoDup_cons in Hnd as [Hk Hnd].
    destruct (Hes k p) as (l0 & -> & Hl0 & [out0 Hout0]); [left|].
    destruct (lookup_lt_is_Some_2 packed l0 Hl0) as [cur0 Hcur0].
    assert (packBody outputs (Z.of_nat l0, p) packed =
            Some (<[l0 := cur0 ++ [out0]]> packed)) as Hbody.
    { unfold packBody. simpl. rewrite Hout0. simpl. rewrite index_nat, Hcur0. simpl.
      rewrite Nat2Z.id. by apply store_Some. }
    destruct (IH (<[l0 := cur0 ++ [out0]]> packed) Hnd) as (packed' & Hrun & Hlen & Hget).
    { intros k' p' Hin. destruct (Hes k' p') as (l & -> & ? & ?); [by right|].
      exists l. rewrite length_insert. done. }
    exists packed'. simpl. rewrite Hbody. split_and!; [done| |].
    + by rewrite Hlen, length_insert.
    + intros l cur Hl. destruct (decide (l = l0)) as [->|Hne].
      * assert (cur = cur0) as -> by congruence.
        rewrite (Hget l0 (cur0 ++ [out0])) by (by apply list_lookup_insert_eq).
        f_equal. unfold packedEntry.
        rewrite (not_elem_of_list_to_map_1 es (Z.of_nat l0)) by done.
        rewrite lookup_insert_eq, Hout0. simpl. by rewrite app_nil_r.
      * rewrite (Hget l cur) by (by rewrite list_lookup_insert_ne).
        unfold packedEntry. simpl. rewrite lookup_insert_ne by lia. done.
Qed.

Section PackLoop.
Variable mapRange : gmap Z Z → list (Z * Z).
Hypothesis mapRange_perm : ∀ m, mapRange m ≡ₚ map_to_list m.

Lemma mapRange_to_map m : list_to_map (mapRange m) = m.
Proof.
    rewrite <- (list_to_map_to_list m) at 2. apply list_to_map_proper; [|done].
    rewrite mapRange_perm. apply NoDup_fst_map_to_list.
Qed.

Lemma forEach_pack_map outputs m packed :
    (∀ k p, m !! k = Some p →
       ∃ l, k = Z.of_nat l ∧ (l < length packed)%nat ∧ is_Some (Go.index outputs p)) →
    ∃ packed', Go.forEach (packBody outputs) (mapRange m) packed = Some packed' ∧
      length packed' = length packed ∧
      ∀ l cur, packed !! l = Some cur →
        packed' !! l = Some (cur ++ packedEntry outputs m l).
Proof.
    intros Hm. destruct (forEach_pack outputs (mapRange m) packed) as (packed' & ? & ? & Hget).
    - rewrite mapRange_perm. apply NoDup_fst_map_to_list.
    - intros k p Hin. apply Hm. rewrite mapRange_perm in Hin.
      by apply elem_of_map_to_list.
    - exists packed'. split_and!; [done..|]. intros l cur Hl.
      rewrite (Hget l cur Hl). by rewrite mapRange_to_map.
Qed.
End PackLoop.

Lemma inState_ext startState steps steps' t l v :
  (∀ t', (t' < t)%nat → steps !! t' = steps' !! t') →
  inState startState steps t l v → inState startState steps' t l v.
Proof.
  intros Hext. unfold inState. destruct t as [|t']; [done|].
  intros (s & Hs & Hv). exists s. rewrite <- Hext by lia. done.
Qed.

Lemma laneInv_ext startState steps steps' t seqs i st :
  (∀ t', (t' < t)%nat → steps !! t' = steps' !! t') →
  laneInv startState steps t seqs i st → laneInv startState steps' t seqs i st.
Proof.
  intros Hext [H1 H2 H3 H4 H5 H6 Hdone Htodo Hkeys]. split; try done.
  intros l seq Hl Hli. specialize (Hdone l seq Hl Hli). unfold laneDone in *.
  destruct (decide _); [|done].
  destruct Hdone as (x & v & sv & ? & ? & ? & ? & ? & ? & ? & ? & ?).
  exists x, v, sv. split_and!; try done. by eapply inState_ext.
Qed.

Lemma rank_zero {A} t (seqs : list (list A)) :
  rank t seqs (length seqs) = 0%nat ↔ (maxLen seqs ≤ t)%nat.
Proof.
  unfold rank. rewrite firstn_all.
  induction seqs as [|s seqs IH]; simpl; [split; [lia|done]|].
  rewrite filter_cons. destruct (decide (t < length s)%nat); simpl.
  - split; [done|lia].
  - rewrite IH. lia.
Qed.

Lemma rank_bound {A} t (seqs : list (list A)) l seq :
  seqs !! l = Some seq → (t < length seq)%nat →
  (rank t seqs l < rank t seqs (length seqs))%nat.
Proof.
  intros Hl Ht. pose proof (rank_S t seqs l seq Hl) as HS.
  rewrite decide_True in HS by done.
  pose proof (rank_mono t seqs (Datatypes.S l) (length seqs)) as Hm.
  apply lookup_lt_Some in Hl. lia.
Qed.

Section Unroll.
Variable mapRange : gmap Z Z → list (Z * Z).
Hypothesis mapRange_perm : ∀ m, mapRange m ≡ₚ map_to_list m.
Variable block : Block.
Hypothesis block_wf : Block_wf block.
Variable seqs : list (list Result).

Local Notation unrollInv := (unrollInv block seqs).

Lemma unrollInv_init :
    unrollInv 0 {| bsf_StartState := StartState block; Steps := [];
                   PackedOut := replicate (length seqs) [] |}.
Proof.
    split; simpl; try done.
    - by rewrite length_replicate.
    - intros l seq Hl. exists []. apply lookup_lt_Some in Hl.
      rewrite lookup_replicate_2 by done. split_and!; [done..|].
      simpl. intros; lia.
Qed.

Lemma unrollInv_prevReady t res :
    unrollInv t res → prevReady (StartState block) (Steps res) t seqs.
Proof.
    intros [Hs Hlen Hpl Hstep Hpacked] l seq Hl Hact. unfold inState.
    destruct t as [|t']; [eauto|].
    destruct (lookup_lt_is_Some_2 (Steps res) t' ltac:(lia)) as [s Hsome].
    destruct (Hstep t' s Hsome) as (st & Hinv & ->).
    destruct Hinv as [H1 H2 H3 H4 H5 H6 Hdone Htodo Hkeys].
    pose proof (lookup_lt_Some _ _ _ Hl) as Hlt.
    specialize (Hdone l seq Hl Hlt). unfold laneDone in Hdone.
    rewrite decide_True in Hdone by lia.
    destruct Hdone as (x & v & sv & _ & _ & _ & _ & _ & _ & Hmap & _ & _).
    destruct (block_wf (sb_input st)) as [_ Hwf].
    pose proof (rank_bound t' seqs l seq Hl ltac:(lia)).
    destruct (lookup_lt_is_Some_2 (out_States (Batch block (sb_input st)))
                (rank t' seqs l)) as [w Hw]; [lia|].
    exists w, (stepOf block st). split; [done|].
    unfold stepOf, mapRead. simpl. rewrite Hmap. simpl. by rewrite index_nat.
Qed.

  (** What the lane loop of timestep [t] leaves in the map. *)
Lemma laneInv_map t steps st l seq :
    laneInv (StartState block) steps t seqs (length seqs) st →
    seqs !! l = Some seq →
    sb_LaneToOut st !! Z.of_nat l =
      if decide (t < length seq)%nat then Some (Z.of_nat (rank t seqs l)) else None.
Proof.
    intros [H1 H2 H3 H4 H5 H6 Hdone Htodo Hkeys] Hl.
    specialize (Hdone l seq Hl (lookup_lt_Some _ _ _ Hl)). unfold laneDone in Hdone.
    destruct (decide _).
    - by destruct Hdone as (x & v & sv & _ & _ & _ & _ & _ & _ & Hmap & _ & _).
    - by destruct Hdone as (_ & _ & _ & Hmap).
Qed.

Lemma laneInv_packedEntry t steps st l seq :
    laneInv (StartState block) steps t seqs (length seqs) st →
    seqs !! l = Some seq →
    packedEntry (out_Outputs (Batch block (sb_input st))) (sb_LaneToOut st) l =
      if decide (t < length seq)%nat
      then option_list (out_Outputs (Batch block (sb_input st)) !! rank t seqs l)
      else [].
Proof.
    intros Hinv Hl. unfold packedEntry. rewrite (laneInv_map t steps st l seq) by done.
    destruct (decide _); [|done]. by rewrite index_nat.
Qed.

Lemma laneInv_output t steps st l seq :
    laneInv (StartState block) steps t seqs (length seqs) st →
    seqs !! l = Some seq → (t < length seq)%nat →
    is_Some (out_Outputs (Batch block (sb_input st)) !! rank t seqs l).
Proof.
    intros Hinv Hl Hact. apply lookup_lt_is_Some_2.
    destruct (block_wf (sb_input st)) as [-> _]. rewrite (inv_in_Inputs _ _ _ _ _ _ Hinv).
    by eapply rank_bound.
Qed.

Lemma unroll_next t res st :
    unrollInv t res →
    laneInv (StartState block) (Steps res) t seqs (length seqs) st →
    ∃ packed,
      Go.forEach (packBody (out_Outputs (Batch block (sb_input st))))
        (mapRange (sb_LaneToOut st)) (PackedOut res) = Some packed ∧
      unrollInv (Datatypes.S t)
        {| bsf_StartState := bsf_StartState res;
           Steps := Steps res ++ [stepOf block st];
           PackedOut := packed |}.
Proof.
    intros [Hs Hlen Hpl Hstep Hpacked] Hinv.
    destruct (forEach_pack_map mapRange mapRange_perm
                (out_Outputs (Batch block (sb_input st))) (sb_LaneToOut st) (PackedOut res))
      as (packed & Hrun & Hplen & Hget).
    { intros k p Hk. destruct (inv_keys _ _ _ _ _ _ Hinv k) as (l & -> & _ & Hl); [eauto|].
      exists l. rewrite Hpl. split_and!; [done..|].
      destruct (lookup_lt_is_Some_2 seqs l Hl) as [seq Hseq].
      rewrite (laneInv_map t _ st l seq Hinv Hseq) in Hk.
      destruct (decide _) as [Hact|]; [|done]. injection Hk as <-. rewrite index_nat.
      by eapply laneInv_output. }
    exists packed. split; [done|]. split; cbn [bsf_StartState Steps PackedOut].
    - done.
    - rewrite length_app. simpl. lia.
    - lia.
    - intros τ step Hτ. apply lookup_app_Some in Hτ as [Hτ|[Hge Hτ]].
      + destruct (Hstep τ step Hτ) as (st0 & Hinv0 & ->). exists st0. split; [|done].
        eapply laneInv_ext; [|done]. intros t' Ht'. apply lookup_lt_Some in Hτ.
        by rewrite lookup_app_l by lia.
      + apply list_lookup_singleton_Some in Hτ as [Hτ <-].
        assert (τ = t) as -> by lia. exists st. split; [|done].
        eapply laneInv_ext; [|done]. intros t' Ht'. by rewrite lookup_app_l by lia.
    - intros l seq Hl. destruct (Hpacked l seq Hl) as (po & Hpo & Hpolen & Hpoget).
      eexists. split; [by apply Hget|].
      rewrite (laneInv_packedEntry t _ st l seq Hinv Hl).
      destruct (decide (t < length seq)%nat) as [Hact|Hina].
      + destruct (laneInv_output t _ st l seq Hinv Hl Hact) as [out Hout].
        rewrite Hout. change (option_list (Some out)) with [out].
        rewrite length_app. cbn [length]. split; [lia|].
        intros τ step Hτ Hstepτ. destruct (decide (τ < t)%nat) as [Hlt|Hge].
        * rewrite lookup_app_l by lia. rewrite lookup_app_l in Hstepτ by lia.
          apply Hpoget; [lia|done].
        * assert (τ = t) as -> by lia.
          rewrite lookup_app_r in Hstepτ by lia.
          replace (t - length (Steps res))%nat with 0%nat in Hstepτ by lia.
          injection Hstepτ as <-. rewrite lookup_app_r by lia.
          replace (t - length po)%nat with 0%nat by lia. done.
      + rewrite app_nil_r. split; [lia|].
        intros τ step Hτ Hstepτ. rewrite lookup_app_l in Hstepτ by lia.
        by apply Hpoget.
Qed.

Lemma unroll_spec fuel t res next :
    (maxLen seqs < fuel + t)%nat → (t ≤ maxLen seqs)%nat → unrollInv t res →
    ∃ res' next', unroll mapRange fuel block seqs t res next = Some (res', next') ∧
                  unrollInv (maxLen seqs) res'.
Proof.
    revert t res next. induction fuel as [|fuel IH]; intros t res next Hfuel Ht Hinv; [lia|].
    pose proof (unrollInv_prevReady t res Hinv) as Hprev.
    simpl. unfold Go.range.
    edestruct (rangeFrom_laneInv (StartState block) (Steps res) t seqs seqs 0)
      as (st & Hst & Hlane); [done|done|apply laneInv_init|].
    rewrite (ui_start _ _ _ _ Hinv). rewrite Hst. simpl.
    pose proof (inv_size _ _ _ _ _ _ Hlane) as Hsize.
    destruct (decide (size (sb_LaneToOut st) = 0%nat)) as [Hz|Hnz].
    - rewrite Hz in Hsize. symmetry in Hsize. apply rank_zero in Hsize.
      assert (t = maxLen seqs) as -> by lia. by exists res, next.
    - assert (t < maxLen seqs)%nat as Hlt.
      { destruct (decide (t < maxLen seqs)%nat); [done|].
        assert (rank t seqs (length seqs) = 0%nat) by (apply rank_zero; lia). lia. }
      destruct (unroll_next t res st Hinv Hlane) as (packed & Hpack & Hinv').
      rewrite Hpack. simpl. rewrite <- (ui_start _ _ _ _ Hinv).
      apply IH; [lia|lia|done].
Qed.
End Unroll.

(** What an unrolled output holds of its collaborators: the start state
    and the closures of the block, the raw inputs of the batch, and one
    packed output per input element. *)
Lemma BatchSeqs_collaborators (mapRange : gmap Z Z → list (Z * Z)) (block : Block)
    (seqs : list (list Result)) (next : nat) res next' :
  (∀ m, mapRange m ≡ₚ map_to_list m) → Block_wf block →
  BlockSeqFunc_BatchSeqs mapRange block seqs next = Some (res, next') →
  bsf_StartState res = StartState block ∧
  length <$> PackedOut res = length <$> seqs ∧
  ∀ step, step ∈ Steps res →
    (∃ input, Outputs step = Batch block input) ∧
    ∀ input, Some input ∈ Inputs step → ∃ seq, seq ∈ seqs ∧ input ∈ seq.
Proof.
  intros Hperm Hwf Hrun.
  destruct (unroll_spec mapRange Hperm block Hwf seqs (Datatypes.S (maxLen seqs)) 0
              {| bsf_StartState := StartState block; Steps := [];
                 PackedOut := replicate (length seqs) [] |} next)
    as (res0 & next0 & Hrun0 & Hinv); [lia|lia|apply unrollInv_init|].
  unfold BlockSeqFunc_BatchSeqs in Hrun. rewrite Hrun0 in Hrun. injection Hrun as -> ->.
  destruct Hinv as [Hs Hlen Hpl Hstep Hpacked]. split_and!; [done| |].
  - apply list_eq. intros l. rewrite !list_lookup_fmap.
    destruct (seqs !! l) as [seq|] eqn:El.
    + destruct (Hpacked l seq El) as (po & -> & Hpo & _). simpl. f_equal.
      assert (length seq ≤ maxLen seqs)%nat; [|lia].
      clear -El. revert l El. induction seqs as [|s ss IH]; intros l Hl; [done|].
      destruct l as [|l]; simpl in *; [injection Hl as ->; lia|].
      specialize (IH l Hl). lia.
    + apply lookup_ge_None in El. rewrite lookup_ge_None_2 by lia. done.
  - intros step Hin. apply list_elem_of_lookup in Hin as [t Ht].
    destruct (Hstep t step Ht) as (st & Hlane & ->). split; [by eexists|].
    intros input Hinput. simpl in Hinput. apply list_elem_of_lookup in Hinput as [l Hl].
    pose proof (lookup_lt_Some _ _ _ Hl) as Hlt.
    rewrite (inv_len_Inputs _ _ _ _ _ _ Hlane) in Hlt.
    destruct (lookup_lt_is_Some_2 seqs l Hlt) as [seq Hseq].
    pose proof (inv_done _ _ _ _ _ _ Hlane l seq Hseq Hlt) as Hdone.
    unfold laneDone in Hdone. destruct (decide _).
    + destruct Hdone as (x & v & sv & Hx & Hin' & _). rewrite Hl in Hin'.
      injection Hin' as ->. exists seq. split; by eapply list_elem_of_lookup_2.
    + destruct Hdone as (Hin' & _). congruence.
Qed.

(** C1. [BlockSeqFunc.BatchSeqs] unrolls the block once per timestep [t],
    for [t] below the length of the longest sequence, over exactly the lanes
    whose sequence has more than [t] elements: the batch has one entry per
    such lane, in lane order, and the map sends the lane to its position.
    The input variable of an active lane holds the output of its [t]-th raw
    input; its state variable holds the start state's output at [t = 0] and
    otherwise the outgoing state that the previous step recorded for the
    lane, found through that step's map.  The step's output for the lane is
    entry [t] of the lane's packed output, which has as many entries as the
    lane's sequence.  The block is taken to return one output and one state
    per lane, and the iteration order of the map to be any order. *)
Theorem BatchSeqs_unrolls_active_lanes
    (mapRange : gmap Z Z → list (Z * Z)) (block : Block)
    (seqs : list (list Result)) (next : nat) :
  (∀ m, mapRange m ≡ₚ map_to_list m) →
  Block_wf block →
  ∃ res next',
    BlockSeqFunc_BatchSeqs mapRange block seqs next = Some (res, next') ∧
    bsf_StartState res = StartState block ∧
    length (Steps res) = maxLen seqs ∧
    length (PackedOut res) = length seqs ∧
    (∀ t step, Steps res !! t = Some step →
       ∃ input,
         Outputs step = Batch block input ∧
         length (in_Inputs input) = rank t seqs (length seqs) ∧
         length (in_States input) = rank t seqs (length seqs) ∧
         size (LaneToOut step) = rank t seqs (length seqs) ∧
         (∀ k, is_Some (LaneToOut step !! k) ↔
               ∃ l seq, k = Z.of_nat l ∧ seqs !! l = Some seq ∧ (t < length seq)%nat) ∧
         (∀ l seq x, seqs !! l = Some seq → seq !! t = Some x →
            ∃ v sv out po,
              LaneToOut step !! Z.of_nat l = Some (Z.of_nat (rank t seqs l)) ∧
              Inputs step !! l = Some (Some x) ∧
              InputVars step !! l = Some (Some v) ∧
              InStateVars step !! l = Some (Some sv) ∧
              in_Inputs input !! rank t seqs l = Some v ∧
              in_States input !! rank t seqs l = Some sv ∧
              vec v = Output x ∧
              inState (StartState block) (Steps res) t l (vec sv) ∧
              out_Outputs (Outputs step) !! rank t seqs l = Some out ∧
              PackedOut res !! l = Some po ∧ po !! t = Some out)) ∧
    (∀ l seq, seqs !! l = Some seq →
       ∃ po, PackedOut res !! l = Some po ∧ length po = length seq).
Proof.
  intros Hperm Hwf.
  destruct (unroll_spec mapRange Hperm block Hwf seqs (Datatypes.S (maxLen seqs)) 0
              {| bsf_StartState := StartState block; Steps := [];
                 PackedOut := replicate (length seqs) [] |} next)
    as (res & next' & Hrun & Hinv); [lia|lia|apply unrollInv_init|].
  exists res, next'. destruct Hinv as [Hs Hlen Hpl Hstep Hpacked].
  assert (∀ l (seq : list Result), seqs !! l = Some seq → (length seq ≤ maxLen seqs)%nat) as Hmax.
  { clear. intros l seq. revert l. induction seqs as [|s ss IH]; intros l Hl; [done|].
    destruct l as [|l]; simpl in *.
    - injection Hl as ->. lia.
    - specialize (IH l Hl). lia. }
  split_and!; try done.
  - intros t step Ht. destruct (Hstep t step Ht) as (st & Hinv & ->).
    exists (sb_input st). unfold stepOf. cbn [Outputs LaneToOut Inputs InputVars InStateVars].
    pose proof Hinv as [H1 H2 H3 H4 H5 H6 Hdone Htodo Hkeys].
    split_and!; try done.
    + intros k. split.
      * intros Hk. destruct (Hkeys k Hk) as (l & -> & _ & Hl).
        destruct (lookup_lt_is_Some_2 seqs l Hl) as [seq Hseq].
        exists l, seq. split_and!; [done..|].
        rewrite (laneInv_map block seqs t _ st l seq Hinv Hseq) in Hk.
        destruct (decide _); [done|]. by destruct Hk.
      * intros (l & seq & -> & Hseq & Hact).
        rewrite (laneInv_map block seqs t _ st l seq Hinv Hseq).
        rewrite decide_True by done. eauto.
    + intros l seq x Hl Hx.
      pose proof (lookup_lt_Some _ _ _ Hx) as Hact.
      specialize (Hdone l seq Hl (lookup_lt_Some _ _ _ Hl)). unfold laneDone in Hdone.
      rewrite decide_True in Hdone by done.
      destruct Hdone as (x' & v & sv & Hx' & ? & ? & ? & ? & ? & ? & ? & ?).
      assert (x' = x) as -> by congruence.
      destruct (laneInv_output block Hwf seqs t _ st l seq Hinv Hl Hact) as [out Hout].
      destruct (Hpacked l seq Hl) as (po & Hpo & Hpolen & Hpoget).
      exists v, sv, out, po. split_and!; try done.
      rewrite (Hpoget t (stepOf block st)); [done| |done].
      specialize (Hmax l seq Hl). lia.
  - intros l seq Hl. destruct (Hpacked l seq Hl) as (po & Hpo & Hpolen & _).
    exists po. split; [done|]. specialize (Hmax l seq Hl). lia.
Qed.

Lemma demoBlock_wf : Block_wf demoBlock.
Proof. intros input. simpl. by rewrite length_fmap, length_imap. Qed.

Lemma BatchSeqs_unrolls_active_lanes_witness :
  ∃ res next',
    BlockSeqFunc_BatchSeqs demoRange demoBlock demoSeqs 0 = Some (res, next') ∧
    length (Steps res) = 3%nat ∧
    length <$> PackedOut res !! 1%nat = Some 1%nat.
Proof.
  destruct (BatchSeqs_unrolls_active_lanes demoRange demoBlock demoSeqs 0)
    as (res & next' & Hrun & _ & Hsteps & _ & _ & Hpacked).
  - intros m. reflexivity.
  - exact demoBlock_wf.
  - exists res, next'. split_and!; [done|done|].
    destruct (Hpacked 1%nat [varResult (demoIn 1 0)] eq_refl) as (po & -> & Hlen).
    simpl. by rewrite Hlen.
Defined.

(** The scenario with lanes of lengths 3 and 1: timestep 0 runs both
    lanes, timesteps 1 and 2 run lane 0 alone. *)
Example BatchSeqs_demo :
  (λ r, (length (Steps r.1), (λ s, sortedLanes (LaneToOut s)) <$> Steps r.1, PackedOut r.1, r.2))
    <$> BlockSeqFunc_BatchSeqs demoRange demoBlock demoSeqs 0 =
  Some (3%nat, [[0; 1]; [0]; [0]], [[[0; 7]; [1; 8]; [2; 9]]; [[0; 7]]], 8%nat).
Proof. vm_compute. reflexivity. Qed.

(** ** The accumulator entries of BlockSeqFuncOutput.Gradient *)

Lemma index_elem_of {A} (l : list A) i x : Go.index l i = Some x → x ∈ l.
Proof.
  unfold Go.index. destruct (decide _); [|done]. apply list_elem_of_lookup_2.
Qed.

Lemma stepVars_state step l sv :
  Go.index (InStateVars step) l = Some (Some sv) → sv ∈ stepVars step.
Proof.
  intros H%index_elem_of. unfold stepVars. apply elem_of_app. left.
  apply list_elem_of_omap. by exists (Some sv).
Qed.

Lemma stepVars_input step l iv :
  Go.index (InputVars step) l = Some (Some iv) → iv ∈ stepVars step.
Proof.
  intros H%index_elem_of. unfold stepVars. apply elem_of_app. right.
  apply list_elem_of_omap. by exists (Some iv).
Qed.

Lemma intermediates_elem r step v :
  step ∈ Steps r → v ∈ stepVars step → addr v ∈ intermediates r.
Proof.
  intros Hstep Hv. unfold intermediates. apply elem_of_list_to_set.
  apply list_elem_of_fmap. exists v. split; [done|].
  apply list_elem_of_bind. by exists step.
Qed.

Section GradientEntries.
Variables (I : gset nat) (gref : Gradient).
Variable step : BlockSeqFuncOutputStep.
Hypothesis vars_in_I : ∀ v, v ∈ stepVars step → addr v ∈ I.
Hypothesis inputs_ok : ∀ input, Some input ∈ Inputs step → inputOK I input.

Lemma laneCreated_in_I l : laneCreated step gref l ⊆ I.
Proof.
    clear inputs_ok. unfold laneCreated. apply union_subseteq. split.
    - destruct (Go.index (InStateVars step) l) as [[sv|]|] eqn:E; try set_solver.
      apply stepVars_state, vars_in_I in E. set_solver.
    - destruct (Go.index (Inputs step) l) as [[input|]|]; try set_solver.
      destruct (Constant input gref); [set_solver|].
      destruct (Go.index (InputVars step) l) as [[iv|]|] eqn:E; try set_solver.
      apply stepVars_input, vars_in_I in E. set_solver.
Qed.

Lemma gradEnter_dom upstream stateUpstreams t l su g su' g' :
    dom g ∖ I = dom gref ∖ I →
    gradEnter step upstream stateUpstreams t l (su, g) = Some (su', g') →
    dom g' = dom g ∪ laneCreated step gref l.
Proof.
    intros Href Hrun. unfold gradEnter in Hrun. cbn [fst snd] in Hrun.
    destruct (Go.index (InStateVars step) l) as [osv|] eqn:Esv; [|done].
    destruct (Go.index upstream l) as [ul|]; [|done].
    cbn [mbind option_bind] in Hrun.
    destruct (ul !! t) as [u|]; [|done].
    destruct (Go.index stateUpstreams l) as [s|]; [|done].
    destruct osv as [sv|]; [|done].
    destruct (Go.index (Inputs step) l) as [[input|]|] eqn:Ein; try done.
    cbn [mbind option_bind] in Hrun.
    pose proof (stepVars_state _ _ _ Esv) as HsvI%vars_in_I.
    destruct (inputs_ok input (index_elem_of _ _ _ Ein)) as [Hconst _].
    rewrite (Hconst _ gref) in Hrun by (rewrite dom_insert_L; set_solver).
    unfold laneCreated. rewrite Esv, Ein.
    destruct (Constant input gref).
    - injection Hrun as <- <-. rewrite dom_insert_L. set_solver.
    - destruct (Go.index (InputVars step) l) as [[iv|]|] eqn:Eiv; try done.
      cbn [mbind option_bind] in Hrun.
      injection Hrun as <- <-. rewrite !dom_insert_L. set_solver.
Qed.

Lemma gradLeave_dom l s g s' g' :
    dom g ∖ I = dom gref ∖ I →
    gradLeave step l (s, g) = Some (s', g') →
    dom g' = dom g ∖ laneCreated step gref l.
Proof.
    intros Href. unfold gradLeave, laneCreated. cbn [fst snd].
    destruct (Go.index (InStateVars step) l) as [osv|] eqn:Esv; [simpl|done].
    destruct (Go.store s _ _) as [s1|]; [simpl|done].
    destruct (Go.index (Inputs step) l) as [[input|]|] eqn:Ein; try done. simpl.
    destruct (inputs_ok input (index_elem_of _ _ _ Ein)) as [Hconst Hprop].
    assert (dom (gradDelete g osv) =
            dom g ∖ match osv with Some sv => {[addr sv]} | None => ∅ end) as Hdel.
    { destruct osv as [sv|]; simpl; [by rewrite dom_delete_L | set_solver]. }
    assert (dom (gradDelete g osv) ∖ I = dom gref ∖ I) as Href'.
    { rewrite Hdel. destruct osv as [sv|]; [|set_solver].
      pose proof (stepVars_state _ _ _ Esv) as HsvI%vars_in_I. set_solver. }
    rewrite (Hconst _ gref) by done.
    destruct (Constant input gref).
    - intros [= <- <-]. rewrite Hdel. destruct osv; set_solver.
    - destruct (Go.index (InputVars step) l) as [oiv|] eqn:Eiv; [simpl|done].
      destruct (PropagateGradient input _ _) as [g1|] eqn:Eprop; [simpl|done].
      intros [= <- <-]. rewrite (Hprop _ _ _ Eprop).
      destruct oiv as [iv|]; simpl; [rewrite dom_delete_L|]; rewrite Hdel;
        destruct osv; set_solver.
Qed.

Lemma forEach_gradEnter_dom upstream stateUpstreams t ls su g su' g' :
    dom g ∖ I = dom gref ∖ I →
    Go.forEach (gradEnter step upstream stateUpstreams t) ls (su, g) = Some (su', g') →
    dom g' = dom g ∪ ⋃ (laneCreated step gref <$> ls).
Proof.
    revert su g. induction ls as [|l ls IH]; intros su g Href; simpl.
    - intros [= <- <-]. set_solver.
    - destruct (gradEnter _ _ _ _ _ _) as [[su1 g1]|] eqn:E; [|done].
      pose proof (gradEnter_dom _ _ _ _ _ _ _ _ Href E) as Hd.
      pose proof (laneCreated_in_I l) as HI.
      intros Hrest. apply IH in Hrest; [|clear -Hd HI Href; set_solver].
      clear -Hd Hrest. set_solver.
Qed.

Lemma forEach_gradLeave_dom ls s g s' g' :
    dom g ∖ I = dom gref ∖ I →
    Go.forEach (gradLeave step) ls (s, g) = Some (s', g') →
    dom g' = dom g ∖ ⋃ (laneCreated step gref <$> ls).
Proof.
    revert s g. induction ls as [|l ls IH]; intros s g Href; simpl.
    - intros [= <- <-]. set_solver.
    - destruct (gradLeave _ _ _) as [[s1 g1]|] eqn:E; [|done].
      pose proof (gradLeave_dom _ _ _ _ _ Href E) as Hd.
      pose proof (laneCreated_in_I l) as HI.
      intros Hrest. apply IH in Hrest; [|clear -Hd HI Href; set_solver].
      clear -Hd Hrest. set_solver.
Qed.

  (** One timestep of the backward pass removes what it creates. *)
Lemma gradStep_dom upstream t s g s' g' :
    (∀ u (g1 g2 : Gradient),
       out_Gradient (Outputs step) u g1 = Some g2 → dom g2 = dom g1) →
    dom g ∖ I = dom gref ∖ I →
    gradStep step upstream t (s, g) = Some (s', g') →
    dom g' = dom g ∖ stepCreated step gref.
Proof.
    intros block_ok Href. unfold gradStep. cbn [fst snd].
    destruct (decide (map_Forall (λ l _, 0 ≤ l) (LaneToOut step))) as [Hpos|Hneg].
    - pose proof (map_Forall_nonneg _ Hpos) as Hpos'.
      rewrite !loopUsedLanes_sorted by done.
      destruct (Go.forEach (gradEnter _ _ _ _) _ _) as [[su1 g1]|] eqn:E1; [simpl|done].
      destruct (out_Gradient _ _ _) as [g2|] eqn:E2; [simpl|done].
      rewrite loopUsedLanes_sorted by done. intros E3.
      apply forEach_gradEnter_dom in E1; [|done].
      apply block_ok in E2.
      assert (⋃ (laneCreated step gref <$> sortedLanes (LaneToOut step)) ⊆ I) as HI.
      { intros a (X & HX & Ha)%elem_of_union_list.
        apply list_elem_of_fmap in HX as (l & -> & _). by apply (laneCreated_in_I l). }
      apply forEach_gradLeave_dom in E3; [|clear -E1 E2 HI Href; set_solver].
      unfold stepCreated. clear -E1 E2 E3. set_solver.
    - apply map_not_Forall in Hneg as (l & x & Hl & Hlt); [|apply _].
      rewrite (loopUsedLanes_negative _ _ _ l); [done|eauto|lia].
Qed.
End GradientEntries.

Lemma stepCreated_in_I (I : gset nat) gref step :
  (∀ v, v ∈ stepVars step → addr v ∈ I) → stepCreated step gref ⊆ I.
Proof.
  intros HI a (X & HX & Ha)%elem_of_union_list.
  apply list_elem_of_fmap in HX as (l & -> & _).
  by apply (laneCreated_in_I I gref step HI l).
Qed.

Lemma gradLoop_dom r upstream gref n st st' :
  collaboratorsOK r →
  dom st.2 ∖ intermediates r = dom gref ∖ intermediates r →
  gradLoop (Steps r) upstream n st = Some st' →
  dom st'.2 = dom st.2 ∖ ⋃ ((λ step, stepCreated step gref) <$> take n (Steps r)).
Proof.
  intros [Hblock Hinputs Hstart]. revert st.
  induction n as [|t IH]; intros [s g] Href; simpl.
  - intros [= <-]. simpl. set_solver.
  - destruct (Steps r !! t) as [step|] eqn:Et; [simpl|done].
    destruct (gradStep step upstream t (s, g)) as [[s1 g1]|] eqn:E1; [simpl|done].
    pose proof (list_elem_of_lookup_2 _ _ _ Et) as Hin.
    assert (∀ v, v ∈ stepVars step → addr v ∈ intermediates r) as HI.
    { intros v Hv. by eapply intermediates_elem. }
    apply (gradStep_dom (intermediates r) gref step HI) in E1;
      [|by intros input Hi; apply (Hinputs step)
       |by intros u g2 g3; apply Hblock|done].
    pose proof (stepCreated_in_I (intermediates r) gref step HI) as Hsub.
    intros E2. apply IH in E2; [|simpl in *; clear -E1 Href Hsub; set_solver].
    rewrite (take_S_r _ _ _ Et), fmap_app, union_list_app_L. simpl in *.
    clear -E1 E2. set_solver.
Qed.

Lemma forEach_gradStart_dom start (ups : list (option Vector)) (g g' : Gradient) :
  (∀ u (g1 g2 : Gradient), PropagateGradient start u g1 = Some g2 → dom g2 = dom g1) →
  Go.forEach (gradStart start) ups g = Some g' → dom g' = dom g.
Proof.
  intros Hstart. revert g. induction ups as [|[u|] ups IH]; intros g; simpl.
  - by intros [= <-].
  - destruct (PropagateGradient start u g) as [g1|] eqn:E; [|done].
    intros Hrest%IH. rewrite Hrest. by eapply Hstart.
  - apply IH.
Qed.

(** The backward pass of an unrolled output removes every entry it
    creates and leaves the other keys of the accumulator as they were. *)
Lemma BlockSeqFuncOutput_Gradient_dom r upstream (g g' : Gradient) :
  collaboratorsOK r →
  BlockSeqFuncOutput_Gradient r upstream g = Some g' →
  dom g' = dom g ∖ created r g.
Proof.
  intros Hok. unfold BlockSeqFuncOutput_Gradient.
  destruct (decide _); [done|]. destruct (decide _); [done|].
  destruct (gradLoop _ _ _ _) as [[s1 g1]|] eqn:E1; [simpl|done].
  intros E2. apply forEach_gradStart_dom in E2; [|apply Hok].
  apply (gradLoop_dom r upstream g) in E1; [|done|done].
  rewrite firstn_all in E1. simpl in E1. unfold created. by rewrite E2.
Qed.

Lemma created_intermediates r (g : Gradient) : created r g ⊆ intermediates r.
Proof.
  intros a (X & HX & Ha)%elem_of_union_list.
  apply list_elem_of_fmap in HX as (step & -> & Hstep).
  eapply stepCreated_in_I; [|done]. intros v Hv. by eapply intermediates_elem.
Qed.

(** ** The forward pass of Bidirectional *)

Lemma reverseSeq_slots (s pre rest : list Result) :
  s = pre ++ rest →
  Go.rangeFrom (length pre)
    (λ j element slots, Go.store slots (length s - (j + 1)) (Some element))
    rest (replicate (length rest) None ++ (Some <$> reverse pre)) =
  Some (Some <$> reverse s).
Proof.
  revert pre. induction rest as [|e rest IH]; intros pre ->.
  - simpl. by rewrite app_nil_r.
  - cbn [Go.rangeFrom].
    assert (length (pre ++ e :: rest) - (length pre + 1) = length rest)%nat as ->.
    { rewrite length_app. simpl. lia. }
    rewrite store_Some by (rewrite length_app, length_replicate; simpl; lia).
    replace (replicate (length (e :: rest)) None ++ (Some <$> reverse pre))
      with (replicate (length rest) (@None Result) ++ None :: (Some <$> reverse pre)).
    2:{ rewrite (cons_middle None), app_assoc, <- replicate_cons_app. done. }
    rewrite insert_app_r_alt by (rewrite length_replicate; lia).
    rewrite length_replicate, Nat.sub_diag. simpl.
    specialize (IH (pre ++ [e])). rewrite length_app, reverse_app in IH. simpl in IH.
    rewrite Nat.add_1_r in IH. apply IH. by rewrite <- app_assoc.
Qed.

Lemma filled_Some {A} (l : list A) : filled (Some <$> l) = l.
Proof. unfold filled. induction l; simpl; [done|]. by f_equal. Qed.

(** [reverseInputSeqs] reverses every sequence in time. *)
Lemma reverseSeq_reverse s : reverseSeq s = Some (reverse s).
Proof.
  unfold reverseSeq, Go.range.
  pose proof (reverseSeq_slots s [] s eq_refl) as H. simpl in H.
  rewrite app_nil_r in H. rewrite H. simpl. by rewrite filled_Some.
Qed.

Lemma reverseInputSeqs_reverse seqs : reverseInputSeqs seqs = Some (reverse <$> seqs).
Proof.
  unfold reverseInputSeqs. apply mapM_Some. induction seqs as [|s seqs IH]; simpl.
  - constructor.
  - constructor; [apply reverseSeq_reverse | done].
Qed.

(** The joined variables of one lane. *)
Lemma rangeFrom_joinBody (forwSeq backSeq rest pre : list Vector) (acc : list Var) n :
  forwSeq = pre ++ rest → (length forwSeq ≤ length backSeq)%nat →
  ∃ js, Go.rangeFrom (length pre) (joinBody forwSeq backSeq) rest (acc, n) =
          Some (acc ++ js, (n + length rest)%nat) ∧
    length js = length rest ∧
    addr <$> js = seq n (length rest) ∧
    ∀ t fe, rest !! t = Some fe →
      ∃ be, backSeq !! (length forwSeq - (length pre + t + 1))%nat = Some be ∧
            js !! t = Some (mkVar (n + t) (fe ++ be)).
Proof.
  intros Heq Hlen. revert pre acc n Heq.
  induction rest as [|fe rest IH]; intros pre acc n Heq.
  - exists []. simpl. rewrite app_nil_r, Nat.add_0_r. split_and!; try done.
  - cbn [Go.rangeFrom]. unfold joinBody at 1. cbn [fst snd].
    destruct (lookup_lt_is_Some_2 backSeq (length forwSeq - (length pre + 1))%nat)
      as [be Hbe].
    { rewrite Heq, length_app in *. simpl in *. lia. }
    rewrite Hbe. simpl.
    destruct (IH (pre ++ [fe]) (acc ++ [mkVar n (fe ++ be)]) (Datatypes.S n))
      as (js & Hrun & Hjl & Haddr & Hget).
    { by rewrite <- app_assoc. }
    rewrite length_app in Hrun. simpl in Hrun. rewrite Nat.add_1_r in Hrun.
    exists (mkVar n (fe ++ be) :: js). rewrite Hrun. split_and!.
    + f_equal. f_equal; [by rewrite <- app_assoc | simpl; lia].
    + simpl. by rewrite Hjl.
    + rewrite fmap_cons, Haddr. done.
    + intros t fe' Ht. destruct t as [|t]; simpl in Ht.
      * injection Ht as <-. exists be. rewrite Nat.add_0_r. split; [|by rewrite Nat.add_0_r].
        done.
      * destruct (Hget t fe' Ht) as (be' & Hbe' & Hjs). exists be'. split.
        -- rewrite <- Hbe'. f_equal. rewrite length_app. simpl. lia.
        -- simpl. rewrite Hjs. do 2 f_equal. lia.
Qed.

(** The joined variables of all lanes: they take consecutive addresses. *)
Lemma rangeFrom_joinLane (fos bos : list (list Vector)) rest pre (done_ : list (list Var)) n :
  fos = pre ++ rest → length done_ = length pre →
  (∀ lane fs, rest !! lane = Some fs →
     ∃ bs, bos !! (length pre + lane)%nat = Some bs ∧ (length fs ≤ length bs)%nat) →
  ∃ js n',
    Go.rangeFrom (length pre) (joinLane bos) rest
      (done_ ++ replicate (length rest) [], n) = Some (done_ ++ js, n') ∧
    length js = length rest ∧
    addr <$> concat js = seq n (n' - n) ∧ (n ≤ n')%nat ∧
    ∀ lane fs, rest !! lane = Some fs →
      ∃ bs jl, bos !! (length pre + lane)%nat = Some bs ∧
        js !! lane = Some jl ∧ length jl = length fs ∧
        ∀ t fe, fs !! t = Some fe →
          ∃ be v, bs !! (length fs - (t + 1))%nat = Some be ∧
                  jl !! t = Some v ∧ vec v = fe ++ be.
Proof.
  revert pre done_ n. induction rest as [|fs rest IH]; intros pre done_ n Heq Hdone Hbos.
  - exists [], n. simpl. rewrite Nat.sub_diag. split_and!; try done.
  - cbn [Go.rangeFrom]. unfold joinLane at 1. cbn [fst snd].
    destruct (Hbos 0%nat fs eq_refl) as (bs & Hbs & Hle). rewrite Nat.add_0_r in Hbs.
    rewrite Hbs. simpl.
    destruct (rangeFrom_joinBody fs bs fs [] [] n eq_refl Hle) as (jl & Hrun & Hjl & Haddr & Hget).
    unfold Go.range. simpl in Hrun. rewrite Hrun. simpl.
    rewrite store_Some by (rewrite length_app; simpl; lia). simpl.
    replace (<[length pre := jl]> (done_ ++ [] :: replicate (length rest) []))
      with ((done_ ++ [jl]) ++ replicate (length rest) []).
    2:{ rewrite <- Hdone, insert_app_r_alt, Nat.sub_diag by lia. simpl.
        by rewrite <- app_assoc. }
    destruct (IH (pre ++ [fs]) (done_ ++ [jl]) (n + length fs)%nat)
      as (js & n' & Hrun' & Hjs & Haddr' & Hn' & Hget').
    { by rewrite <- app_assoc. }
    { rewrite !length_app. simpl. lia. }
    { intros lane fs' Hl. destruct (Hbos (Datatypes.S lane) fs' Hl) as (bs' & Hbs' & ?).
      exists bs'. split; [|done]. rewrite <- Hbs'. f_equal. rewrite length_app. simpl. lia. }
    rewrite length_app in Hrun'. simpl in Hrun'. rewrite Nat.add_1_r in Hrun'.
    exists (jl :: js), n'. rewrite Hrun'. split_and!.
    + by rewrite <- app_assoc.
    + simpl. by rewrite Hjs.
    + simpl. rewrite fmap_app, Haddr, Haddr'.
      replace (n' - n)%nat with (length fs + (n' - (n + length fs)))%nat by lia.
      by rewrite seq_app.
    + lia.
    + intros lane fs' Hl. destruct lane as [|lane]; simpl in Hl.
      * injection Hl as <-. exists bs, jl. rewrite Nat.add_0_r. split_and!; try done.
        intros t fe Ht. destruct (Hget t fe Ht) as (be & Hbe & Hv).
        exists be, (mkVar (n + t) (fe ++ be)). by split_and!.
      * destruct (Hget' lane fs' Hl) as (bs' & jl' & Hbs' & Hjl' & Hlen' & Hget'').
        exists bs', jl'. split_and!; try done.
        rewrite <- Hbs'. f_equal. rewrite length_app. simpl. lia.
Qed.

Lemma lengths_lookup {A B} (xs : list (list A)) (ys : list (list B)) i x :
  length <$> xs = length <$> ys → xs !! i = Some x →
  ∃ y, ys !! i = Some y ∧ length y = length x.
Proof.
  intros Heq Hx. assert ((length <$> xs) !! i = Some (length x)) as H.
  { by rewrite list_lookup_fmap, Hx. }
  rewrite Heq, list_lookup_fmap in H. destruct (ys !! i) as [y|]; [|done].
  exists y. split; [done|]. by injection H.
Qed.

(** C5. [Bidirectional.BatchSeqs] runs the backward sub-function on the
    sequences reversed in time and hands the output sub-function, for a
    lane of length [N] and a time [t], the forward sub-output at [t]
    followed by the backward sub-output at [N-1-t]; when the output
    sub-function hands its input through, that concatenation is the
    composer's output at [(lane, t)].  The two sub-functions are taken to
    return one output per input element. *)
Theorem Bidirectional_BatchSeqs_joins (b : Bidirectional) (seqs : list (list Result))
    (next : nat) (fo bo : ResultSeqs) (n1 n2 : nat) :
  BatchSeqs (Forward b) seqs next = Some (fo, n1) →
  length <$> OutputSeqs fo = length <$> seqs →
  BatchSeqs (Backward b) (reverse <$> seqs) n1 = Some (bo, n2) →
  length <$> OutputSeqs bo = length <$> seqs →
  reverseInputSeqs seqs = Some (reverse <$> seqs) ∧
  ∃ joined n3,
    Bidirectional_BatchSeqs b seqs next =
      (out ← BatchSeqs (Output_ b) ((λ js : list Var, varResult <$> js) <$> joined) n3;
       Some ({| ForwardOut := fo; BackwardOut := bo; Joined := joined; Out := out.1 |},
             out.2)) ∧
    length joined = length seqs ∧
    NoDup (addr <$> concat joined) ∧
    (∀ lane seq t, seqs !! lane = Some seq → (t < length seq)%nat →
       ∃ fs bs fe be js v,
         OutputSeqs fo !! lane = Some fs ∧ fs !! t = Some fe ∧
         OutputSeqs bo !! lane = Some bs ∧ bs !! (length seq - 1 - t)%nat = Some be ∧
         joined !! lane = Some js ∧ length js = length seq ∧
         js !! t = Some v ∧ Output (varResult v) = fe ++ be) ∧
    (identityCombiner (Output_ b) →
     ∃ res n4,
       Bidirectional_BatchSeqs b seqs next = Some (res, n4) ∧
       ForwardOut res = fo ∧ BackwardOut res = bo ∧
       ∀ lane seq t, seqs !! lane = Some seq → (t < length seq)%nat →
         ∃ fs bs fe be outs,
           OutputSeqs fo !! lane = Some fs ∧ fs !! t = Some fe ∧
           OutputSeqs bo !! lane = Some bs ∧ bs !! (length seq - 1 - t)%nat = Some be ∧
           bidirectionalResult_OutputSeqs res !! lane = Some outs ∧
           outs !! t = Some (fe ++ be)).
Proof.
  intros Hf Hfl Hb Hbl. split; [apply reverseInputSeqs_reverse|].
  assert (length (OutputSeqs fo) = length seqs) as Hfn.
  { by rewrite <- (length_fmap length), Hfl, length_fmap. }
  destruct (rangeFrom_joinLane (OutputSeqs fo) (OutputSeqs bo) (OutputSeqs fo) [] [] n2)
    as (joined & n3 & Hrun & Hjlen & Haddr & Hn3 & Hget); [done|done| |].
  { intros lane fs Hfs. destruct (lengths_lookup _ _ _ _ Hfl Hfs) as (seq & Hseq & Hlen).
    symmetry in Hbl. destruct (lengths_lookup _ _ _ _ Hbl Hseq) as (bs & Hbs & Hlen').
    exists bs. split; [done|]. lia. }
  simpl in Hrun. rewrite Hfn in Hrun.
  assert (∀ lane seq t, seqs !! lane = Some seq → (t < length seq)%nat →
       ∃ fs bs fe be js v,
         OutputSeqs fo !! lane = Some fs ∧ fs !! t = Some fe ∧
         OutputSeqs bo !! lane = Some bs ∧ bs !! (length seq - 1 - t)%nat = Some be ∧
         joined !! lane = Some js ∧ length js = length seq ∧
         js !! t = Some v ∧ vec v = fe ++ be) as Hjoin.
  { intros lane seq t Hseq Ht. symmetry in Hfl.
    destruct (lengths_lookup _ _ _ _ Hfl Hseq) as (fs & Hfs & Hlen).
    destruct (Hget lane fs Hfs) as (bs & jl & Hbs & Hjl & Hjll & Hvs).
    destruct (lookup_lt_is_Some_2 fs t ltac:(lia)) as [fe Hfe].
    destruct (Hvs t fe Hfe) as (be & v & Hbe & Hv & Hvec).
    exists fs, bs, fe, be, jl, v. split_and!; try done; try lia.
    rewrite <- Hbe. f_equal. lia. }
  assert (Bidirectional_BatchSeqs b seqs next =
      (out ← BatchSeqs (Output_ b) ((λ js : list Var, varResult <$> js) <$> joined) n3;
       Some ({| ForwardOut := fo; BackwardOut := bo; Joined := joined; Out := out.1 |},
             out.2))) as Hbatch.
  { unfold Bidirectional_BatchSeqs. rewrite Hf. simpl.
    rewrite reverseInputSeqs_reverse. simpl. rewrite Hb. simpl.
    unfold Go.range. rewrite Hrun. done. }
  exists joined, n3. split_and!.
  - done.
  - lia.
  - rewrite Haddr. apply NoDup_seq.
  - done.
  - intros Hid.
    destruct (Hid ((λ js : list Var, varResult <$> js) <$> joined) n3) as (out & n4 & Hout & Houts).
    exists {| ForwardOut := fo; BackwardOut := bo; Joined := joined; Out := out |}, n4.
    split_and!; try done.
    + rewrite Hbatch, Hout. done.
    + intros lane seq t Hseq Ht.
      destruct (Hjoin lane seq t Hseq Ht) as (fs & bs & fe & be & js & v & ? & ? & ? & ? & Hjs & ? & Hv & Hvec).
      exists fs, bs, fe, be, (vec <$> js). split_and!; try done.
      * unfold bidirectionalResult_OutputSeqs. simpl. rewrite Houts.
        rewrite !list_lookup_fmap, Hjs. simpl. f_equal.
        rewrite <- list_fmap_compose. done.
      * rewrite list_lookup_fmap, Hv. simpl. by rewrite Hvec.
Qed.

Lemma passThrough_identity : identityCombiner passThrough.
Proof. intros rs n. by eexists _, _. Qed.

Lemma BlockSeqFunc_run swt mapRange block seqs next res next' :
  BlockSeqFunc_BatchSeqs mapRange block seqs next = Some (res, next') →
  BatchSeqs (BlockSeqFunc swt mapRange block) seqs next =
    Some ({| OutputSeqs := PackedOut res;
             rs_Gradient := BlockSeqFuncOutput_Gradient res |}, next').
Proof. intros H. simpl. by rewrite H. Qed.

Lemma demoOutput_run :
  BlockSeqFunc_BatchSeqs demoRange demoBlock demoSeqs 0 = Some (demoOutput, 8%nat).
Proof. reflexivity. Qed.

Lemma demoBackOutput_run :
  BlockSeqFunc_BatchSeqs demoRange demoBlock (reverse <$> demoSeqs) 8 =
    Some (demoBackOutput, 16%nat).
Proof. reflexivity. Qed.

Lemma Bidirectional_BatchSeqs_joins_witness :
  ∃ res n, Bidirectional_BatchSeqs demoBidirectional demoSeqs 0 = Some (res, n) ∧
    ∃ outs, bidirectionalResult_OutputSeqs res !! 1%nat = Some outs ∧
            outs !! 0%nat = Some ([0; 7] ++ [0; 7]).
Proof.
  destruct (Bidirectional_BatchSeqs_joins demoBidirectional demoSeqs 0
              {| OutputSeqs := PackedOut demoOutput;
                 rs_Gradient := BlockSeqFuncOutput_Gradient demoOutput |}
              {| OutputSeqs := PackedOut demoBackOutput;
                 rs_Gradient := BlockSeqFuncOutput_Gradient demoBackOutput |} 8 16)
    as (_ & joined & n3 & _ & _ & _ & _ & Hid).
  - apply BlockSeqFunc_run, demoOutput_run.
  - vm_compute. reflexivity.
  - apply BlockSeqFunc_run, demoBackOutput_run.
  - vm_compute. reflexivity.
  - destruct (Hid passThrough_identity) as (res & n4 & Hrun & _ & _ & Hout).
    exists res, n4. split; [done|].
    destruct (Hout 1%nat [varResult (demoIn 1 0)] 0%nat eq_refl ltac:(simpl; lia))
      as (fs & bs & fe & be & outs & Hfs & Hfe & Hbs & Hbe & Houts & Hcat).
    exists outs. split; [done|]. rewrite Hcat.
    vm_compute in Hfs. injection Hfs as <-. vm_compute in Hbs. injection Hbs as <-.
    vm_compute in Hfe. injection Hfe as <-. vm_compute in Hbe. injection Hbe as <-.
    reflexivity.
Defined.

(** The demo batch through the composer: lane 0 of length 3, lane 1 of
    length 1; each output is the forward output at [t] followed by the
    backward output at [N-1-t]. *)
Example Bidirectional_demo :
  (λ r, bidirectionalResult_OutputSeqs r.1) <$>
    Bidirectional_BatchSeqs demoBidirectional demoSeqs 0 =
  Some [ [[0; 7; 0; 9]; [1; 8; 1; 8]; [2; 9; 2; 7]]; [[0; 7; 0; 7]] ].
Proof. vm_compute. reflexivity. Qed.

(** ** The backward pass of Bidirectional *)

Lemma deleteAll_lookup_ne (g : Gradient) vs a :
  a ∉ addr <$> vs → deleteAll g vs !! a = g !! a.
Proof.
  revert g. induction vs as [|v vs IH]; intros g Ha; [done|].
  rewrite fmap_cons, not_elem_of_cons in Ha. destruct Ha as [Hne Ha].
  simpl. rewrite IH by done. by rewrite lookup_delete_ne.
Qed.

Lemma deleteAll_app (g : Gradient) vs ws :
  deleteAll g (vs ++ ws) = deleteAll (deleteAll g vs) ws.
Proof. unfold deleteAll. by rewrite foldl_app. Qed.

Lemma dom_deleteAll (g : Gradient) vs :
  dom (deleteAll g vs) = dom g ∖ list_to_set (addr <$> vs).
Proof.
  revert g. induction vs as [|v vs IH]; intros g; simpl; [set_solver|].
  rewrite IH, dom_delete_L. set_solver.
Qed.

Lemma dom_joinedEnter joined (g : Gradient) :
  dom (joinedEnter joined g) = dom g ∪ list_to_set (addr <$> concat joined).
Proof.
  unfold joinedEnter. revert g. induction (concat joined) as [|v vs IH]; intros g; simpl.
  - set_solver.
  - rewrite IH, dom_insert_L. set_solver.
Qed.

Lemma insert_fill_l {A} (xs : list A) i n x d :
  i = length xs → <[i := x]> (xs ++ replicate (Datatypes.S n) d) = (xs ++ [x]) ++ replicate n d.
Proof.
  intros ->. rewrite insert_app_r_alt, Nat.sub_diag by lia. simpl.
  by rewrite <- app_assoc.
Qed.

Lemma insert_fill_r {A} (ys : list A) i n y d :
  i = n → <[i := y]> (replicate (Datatypes.S n) d ++ ys) = replicate n d ++ y :: ys.
Proof.
  intros ->. induction n as [|n IH]; [done|].
  change (replicate (Datatypes.S (Datatypes.S n)) d) with (d :: replicate (Datatypes.S n) d).
  simpl. f_equal. apply IH.
Qed.

(** The split of the gradients of one lane. *)
Lemma rangeFrom_splitBody (forwLen : nat) (g : Gradient) (js rest pre : list Var) :
  js = pre ++ rest → NoDup (addr <$> js) →
  (∀ v, v ∈ rest → (forwLen ≤ length (joinedUpstream g v))%nat) →
  Go.rangeFrom (length pre) (splitBody forwLen (length js)) rest
    (((λ v, take forwLen (joinedUpstream g v)) <$> pre) ++ replicate (length rest) [],
     replicate (length rest) [] ++ reverse ((λ v, drop forwLen (joinedUpstream g v)) <$> pre),
     deleteAll g pre) =
  Some ((λ v, take forwLen (joinedUpstream g v)) <$> js,
        reverse ((λ v, drop forwLen (joinedUpstream g v)) <$> js),
        deleteAll g js).
Proof.
  intros Heq Hnd. revert pre Heq. induction rest as [|v rest IH]; intros pre Heq Hlen.
  - simpl. rewrite !app_nil_r in *. by subst.
  - cbn [Go.rangeFrom]. unfold splitBody at 1. cbn [fst snd].
    assert (deleteAll g pre !! addr v = g !! addr v) as Hv.
    { apply deleteAll_lookup_ne. rewrite Heq, fmap_app, fmap_cons in Hnd.
      apply NoDup_app in Hnd as (_ & Hnd & _). intros Hin. apply (Hnd _ Hin). left. }
    rewrite Hv. fold (joinedUpstream g v).
    pose proof (Hlen v ltac:(left)) as Hv'.
    unfold Go.prefix, Go.suffix. rewrite !decide_True by done.
    cbn [mbind option_bind length].
    rewrite (store_Some _ (length pre))
      by (rewrite length_app, length_fmap, length_replicate; lia).
    cbn [mbind option_bind].
    rewrite store_Some by (rewrite length_app, length_replicate, Heq, length_app; simpl; lia).
    cbn [mbind option_bind].
    rewrite insert_fill_l by (by rewrite length_fmap).
    rewrite insert_fill_r by (rewrite Heq, length_app; simpl; lia).
    specialize (IH (pre ++ [v])).
    rewrite length_app, !fmap_app, reverse_app, deleteAll_app in IH.
    simpl in IH. rewrite Nat.add_1_r in IH.
    apply IH; [by rewrite <- app_assoc|]. intros w Hw. apply Hlen. by right.
Qed.

Lemma joinedUpstream_deleteAll (g : Gradient) vs v :
  addr v ∉ addr <$> vs → joinedUpstream (deleteAll g vs) v = joinedUpstream g v.
Proof. intros H. unfold joinedUpstream. by rewrite deleteAll_lookup_ne. Qed.

(** The split of the gradients of all lanes. *)
Lemma rangeFrom_splitLane (forwLen : nat) (g : Gradient) (joined rest pre : list (list Var))
    (U : nat) :
  joined = pre ++ rest → NoDup (addr <$> concat joined) → (length joined ≤ U)%nat →
  (∀ v, v ∈ concat rest → (forwLen ≤ length (joinedUpstream g v))%nat) →
  Go.rangeFrom (length pre) (splitLane forwLen) rest
    ((forwHalves forwLen g <$> pre) ++ replicate (U - length pre) [],
     (backHalves forwLen g <$> pre) ++ replicate (U - length pre) [],
     deleteAll g (concat pre)) =
  Some ((forwHalves forwLen g <$> joined) ++ replicate (U - length joined) [],
        (backHalves forwLen g <$> joined) ++ replicate (U - length joined) [],
        deleteAll g (concat joined)).
Proof.
  intros Heq Hnd HU. revert pre Heq. induction rest as [|js rest IH]; intros pre Heq Hlen.
  - simpl. rewrite app_nil_r in Heq. by subst.
  - cbn [Go.rangeFrom]. unfold splitLane at 1. cbn [fst snd]. unfold Go.range.
    assert (NoDup (addr <$> concat pre ++ js) ∧
            (∀ v, v ∈ js → addr v ∉ addr <$> concat pre)) as [Hnd1 Hfresh].
    { rewrite Heq, concat_app, concat_cons, app_assoc, fmap_app in Hnd.
      apply NoDup_app in Hnd as (Hnd & _ & _). split; [done|].
      rewrite fmap_app in Hnd. apply NoDup_app in Hnd as (_ & Hd & _).
      intros v Hv Hin. apply (Hd _ Hin). by apply list_elem_of_fmap_2. }
    pose proof (rangeFrom_splitBody forwLen (deleteAll g (concat pre)) js js [] eq_refl)
      as Hbody.
    simpl in Hbody. rewrite app_nil_r in Hbody. rewrite Hbody; clear Hbody.
    2:{ rewrite fmap_app in Hnd1. by apply NoDup_app in Hnd1 as (_ & _ & ?). }
    2:{ intros v Hv. rewrite joinedUpstream_deleteAll by by apply Hfresh.
        apply Hlen. rewrite concat_cons. apply elem_of_app. by left. }
    cbn [mbind option_bind fst snd].
    assert (U - length pre = Datatypes.S (U - length (pre ++ [js])))%nat as ->.
    { rewrite Heq, !length_app in *. simpl in *. lia. }
    rewrite !store_Some by (rewrite length_app, length_fmap, length_replicate; lia).
    cbn [mbind option_bind].
    rewrite !insert_fill_l by (by rewrite length_fmap).
    rewrite <- deleteAll_app.
    assert ((λ v, take forwLen (joinedUpstream (deleteAll g (concat pre)) v)) <$> js =
            forwHalves forwLen g js) as ->.
    { apply list_fmap_ext. intros i v Hv. rewrite joinedUpstream_deleteAll; [done|].
      by eapply Hfresh, list_elem_of_lookup_2. }
    assert (reverse ((λ v, drop forwLen (joinedUpstream (deleteAll g (concat pre)) v)) <$> js) =
            backHalves forwLen g js) as ->.
    { unfold backHalves. f_equal.
      apply list_fmap_ext. intros i v Hv. rewrite joinedUpstream_deleteAll; [done|].
      by eapply Hfresh, list_elem_of_lookup_2. }
    specialize (IH (pre ++ [js])).
    rewrite length_app, !fmap_app, concat_app in IH. simpl in IH.
    rewrite Nat.add_1_r, app_nil_r in IH. rewrite length_app. simpl.
    rewrite Nat.add_1_r.
    apply IH; [by rewrite <- app_assoc|].
    intros v Hv. apply Hlen. rewrite concat_cons. apply elem_of_app. by right.
Qed.

Lemma seqOutputSize_uniform (seqs : list (list Vector)) w :
  (∀ s x, s ∈ seqs → x ∈ s → length x = w) →
  (∃ s, s ∈ seqs ∧ s ≠ []) → seqOutputSize seqs = w.
Proof.
  intros Hall (s & Hs & Hne). induction seqs as [|s0 seqs IH]; [by apply elem_of_nil in Hs|].
  simpl. destruct s0 as [|x s0].
  - apply IH.
    + intros s' x' Hs' Hx'. apply (Hall s' x'); [by right|done].
    + apply elem_of_cons in Hs as [->|Hs]; done.
  - apply (Hall (x :: s0) x); left.
Qed.

(** C2. [bidirectionalResult.Gradient] splits the gradient that the
    combiner left for each joined variable at the offset [forwLen], the
    width of the first vector of the first non-empty forward output
    sequence, which is the width of every forward output when they all
    have one width.  The first [forwLen] entries go to the forward
    sub-result's upstream at the same lane and time; the remaining entries
    go to the backward sub-result's upstream at the same lane and the
    mirrored time.  The joined variables are taken to be distinct, the
    upstream to have a lane for each of their lanes, and the gradient of
    each to have at least [forwLen] entries. *)
Theorem bidirectionalResult_Gradient_splits (b : bidirectionalResult)
    (upstream : list (list Vector)) (g g1 : Gradient) :
  NoDup (addr <$> concat (Joined b)) →
  (length (Joined b) ≤ length upstream)%nat →
  rs_Gradient (Out b) upstream (joinedEnter (Joined b) g) = Some g1 →
  (∀ v, v ∈ concat (Joined b) →
     (seqOutputSize (OutputSeqs (ForwardOut b)) ≤ length (joinedUpstream g1 v))%nat) →
  ∃ forwLen forwUpstream backUpstream,
    forwLen = seqOutputSize (OutputSeqs (ForwardOut b)) ∧
    (∀ w, (∀ s x, s ∈ OutputSeqs (ForwardOut b) → x ∈ s → length x = w) →
          (∃ s, s ∈ OutputSeqs (ForwardOut b) ∧ s ≠ []) → forwLen = w) ∧
    length forwUpstream = length upstream ∧
    length backUpstream = length upstream ∧
    (∀ lane js time v, Joined b !! lane = Some js → js !! time = Some v →
       ∃ sf sb,
         forwUpstream !! lane = Some sf ∧ length sf = length js ∧
         backUpstream !! lane = Some sb ∧ length sb = length js ∧
         sf !! time = Some (take forwLen (joinedUpstream g1 v)) ∧
         sb !! (length js - 1 - time)%nat = Some (drop forwLen (joinedUpstream g1 v))) ∧
    bidirectionalResult_Gradient b upstream g =
      (g3 ← rs_Gradient (ForwardOut b) forwUpstream (deleteAll g1 (concat (Joined b)));
       rs_Gradient (BackwardOut b) backUpstream g3).
Proof.
  intros Hnd HU Hout Hlen.
  set (forwLen := seqOutputSize (OutputSeqs (ForwardOut b))) in *.
  exists forwLen,
    ((forwHalves forwLen g1 <$> Joined b) ++
       replicate (length upstream - length (Joined b)) []),
    ((backHalves forwLen g1 <$> Joined b) ++
       replicate (length upstream - length (Joined b)) []).
  split_and!.
  - done.
  - intros w Hw Hne. by apply seqOutputSize_uniform.
  - rewrite length_app, length_fmap, length_replicate. lia.
  - rewrite length_app, length_fmap, length_replicate. lia.
  - intros lane js time v Hjs Hv.
    exists (forwHalves forwLen g1 js), (backHalves forwLen g1 js).
    pose proof (lookup_lt_Some _ _ _ Hjs). pose proof (lookup_lt_Some _ _ _ Hv).
    rewrite !lookup_app_l by (rewrite length_fmap; lia).
    rewrite !list_lookup_fmap, Hjs. unfold forwHalves, backHalves.
    rewrite length_reverse, !length_fmap. split_and!; try done.
    + by rewrite list_lookup_fmap, Hv.
    + rewrite reverse_lookup by (rewrite length_fmap; lia).
      rewrite length_fmap, list_lookup_fmap.
      replace (length js - Datatypes.S (length js - 1 - time))%nat with time by lia.
      by rewrite Hv.
  - unfold bidirectionalResult_Gradient. rewrite Hout. cbn [mbind option_bind].
    fold forwLen. unfold Go.range.
    pose proof (rangeFrom_splitLane forwLen g1 (Joined b) (Joined b) [] (length upstream)
                  eq_refl Hnd HU Hlen) as Hsplit.
    simpl in Hsplit. rewrite Nat.sub_0_r in Hsplit. rewrite Hsplit. done.
Qed.

Lemma rangeFrom_splitBody_acc forwLen n rest i st st' :
  Go.rangeFrom i (splitBody forwLen n) rest st = Some st' →
  st'.2 = deleteAll st.2 rest.
Proof.
  revert i st. induction rest as [|v rest IH]; intros i st; simpl.
  - by intros [= <-].
  - destruct (splitBody forwLen n i v st) as [st1|] eqn:E; [|done].
    intros Hrest%IH. rewrite Hrest. f_equal.
    unfold splitBody in E.
    destruct (Go.prefix _ _) as [fh|]; [|done]. cbn [mbind option_bind] in E.
    destruct (Go.store st.1.1 i fh); [|done]. cbn [mbind option_bind] in E.
    destruct (Go.suffix _ _) as [bh|]; [|done]. cbn [mbind option_bind] in E.
    destruct (Go.store st.1.2 _ bh); [|done]. cbn [mbind option_bind] in E.
    by injection E as <-.
Qed.

Lemma rangeFrom_splitLane_acc forwLen rest i st st' :
  Go.rangeFrom i (splitLane forwLen) rest st = Some st' →
  st'.2 = deleteAll st.2 (concat rest).
Proof.
  revert i st. induction rest as [|js rest IH]; intros i st; simpl.
  - by intros [= <-].
  - destruct (splitLane forwLen i js st) as [st1|] eqn:E; [|done].
    intros Hrest%IH. rewrite Hrest, deleteAll_app. f_equal.
    unfold splitLane, Go.range in E.
    destruct (Go.rangeFrom 0 _ _ _) as [sub|] eqn:Esub; [|done].
    cbn [mbind option_bind] in E.
    destruct (Go.store st.1.1 i sub.1.1); [|done]. cbn [mbind option_bind] in E.
    destruct (Go.store st.1.2 i sub.1.2); [|done]. cbn [mbind option_bind] in E.
    injection E as <-. by apply rangeFrom_splitBody_acc in Esub.
Qed.

Lemma bidirectionalResult_Gradient_dom (b : bidirectionalResult) upstream (g g' : Gradient) :
  addsNoEntry (Out b) → addsNoEntry (ForwardOut b) → addsNoEntry (BackwardOut b) →
  bidirectionalResult_Gradient b upstream g = Some g' →
  dom g' ⊆ dom g ∖ list_to_set (addr <$> concat (Joined b)).
Proof.
  intros Ho Hf Hb. unfold bidirectionalResult_Gradient.
  destruct (rs_Gradient (Out b) _ _) as [g1|] eqn:E1; [|done]. cbn [mbind option_bind].
  unfold Go.range.
  destruct (Go.rangeFrom _ _ _ _) as [split|] eqn:E2; [|done]. cbn [mbind option_bind].
  destruct (rs_Gradient (ForwardOut b) _ _) as [g3|] eqn:E3; [|done]. cbn [mbind option_bind].
  intros E4. apply Ho in E1. apply Hf in E3. apply Hb in E4.
  apply rangeFrom_splitLane_acc in E2. simpl in E2. rewrite E2 in E3.
  rewrite dom_deleteAll in E3. rewrite dom_joinedEnter in E1. set_solver.
Qed.

Lemma laneCreated_created r (g : Gradient) step l :
  step ∈ Steps r → l ∈ sortedLanes (LaneToOut step) →
  laneCreated step g l ⊆ created r g.
Proof.
  intros Hstep Hl a Ha. unfold created. apply elem_of_union_list.
  exists (stepCreated step g). split; [apply list_elem_of_fmap; eauto|].
  unfold stepCreated. apply elem_of_union_list. exists (laneCreated step g l).
  split; [|done]. apply list_elem_of_fmap. eauto.
Qed.

(** C4. Every accumulator entry that a backward call creates for an
    intermediate variable is gone when the call returns.  After
    [BlockSeqFuncOutput.Gradient] the key set of the accumulator is the one
    before the call less the entries created: those of the state variable
    of every used lane and of the input variable of every used lane whose
    raw input is not constant; when the accumulator held no entry for a
    variable of the forward pass before the call, it holds none after and
    its key set is unchanged.  After [bidirectionalResult.Gradient] the
    accumulator has no entry for a joined variable and no key it did not
    have before.  The collaborators (block closures, raw inputs, start
    state, sub-results) are taken never to add or remove a key themselves. *)
Theorem Gradient_removes_intermediate_entries :
  (∀ r upstream (g g' : Gradient),
     collaboratorsOK r →
     BlockSeqFuncOutput_Gradient r upstream g = Some g' →
     dom g' = dom g ∖ created r g ∧
     (∀ step l, step ∈ Steps r → l ∈ sortedLanes (LaneToOut step) →
        laneCreated step g l ⊆ created r g) ∧
     created r g ⊆ intermediates r ∧
     (dom g ## intermediates r → dom g' = dom g ∧ dom g' ## intermediates r)) ∧
  (∀ b upstream (g g' : Gradient),
     addsNoEntry (Out b) → addsNoEntry (ForwardOut b) → addsNoEntry (BackwardOut b) →
     bidirectionalResult_Gradient b upstream g = Some g' →
     dom g' ⊆ dom g ∧
     ∀ v, v ∈ concat (Joined b) → g' !! addr v = None).
Proof.
  split.
  - intros r upstream g g' Hok Hrun.
    pose proof (BlockSeqFuncOutput_Gradient_dom r upstream g g' Hok Hrun) as Hdom.
    pose proof (created_intermediates r g) as Hsub.
    split_and!; [done| |done|].
    + intros step l. apply laneCreated_created.
    + intros Hfresh. split; set_solver.
  - intros b upstream g g' Ho Hf Hb Hrun.
    pose proof (bidirectionalResult_Gradient_dom b upstream g g' Ho Hf Hb Hrun) as Hdom.
    split; [set_solver|]. intros v Hv. apply not_elem_of_dom.
    intros Hin. apply Hdom in Hin. apply elem_of_difference in Hin as [_ Hin].
    apply Hin, elem_of_list_to_set. by apply list_elem_of_fmap_2.
Qed.

(** *** The demo collaborators keep the key set *)

Lemma varResult_propagate_dom v u (g1 g2 : Gradient) :
  PropagateGradient (varResult v) u g1 = Some g2 → dom g2 = dom g1.
Proof.
  simpl. destruct (g1 !! addr v) as [x|] eqn:E; [|by intros [= <-]].
  destruct (vadd x u) as [x'|]; [|done]. intros [= <-].
  rewrite dom_insert_L. apply elem_of_dom_2 in E. set_solver.
Qed.

Lemma varResult_inputOK (I : gset nat) v : addr v ∉ I → inputOK I (varResult v).
Proof.
  intros Hv. split; [|apply varResult_propagate_dom].
  intros g1 g2 Hdom. simpl.
  assert (is_Some (g1 !! addr v) ↔ is_Some (g2 !! addr v)) as Hiff.
  { rewrite <- !elem_of_dom. set_solver. }
  destruct (g1 !! addr v), (g2 !! addr v); try done.
  - destruct Hiff as [H _]. by destruct H.
  - destruct Hiff as [_ H]. by destruct H.
Qed.

Lemma demoPropagate_dom vs us pad (g g' : Gradient) :
  demoPropagate vs us pad g = Some g' → dom g' = dom g.
Proof.
  unfold demoPropagate. revert g. induction (zip vs us) as [|[v u] zs IH]; intros g; simpl.
  - by intros [= <-].
  - destruct (g !! addr v) as [x|] eqn:E.
    + destruct (vadd x (u ++ pad)) as [x'|]; [|done]. intros H%IH. rewrite H.
      rewrite dom_insert_L. apply elem_of_dom_2 in E. set_solver.
    + apply IH.
Qed.

Lemma demoBatch_dom input u (g1 g2 : Gradient) :
  out_Gradient (demoBatch input) u g1 = Some g2 → dom g2 = dom g1.
Proof.
  simpl. destruct (demoPropagate (in_States input) _ _ _) as [g|] eqn:E; [|done].
  simpl. intros H%demoPropagate_dom. apply demoPropagate_dom in E. congruence.
Qed.

Lemma demoOutput_collaborators : collaboratorsOK demoOutput.
Proof.
  destruct (BatchSeqs_collaborators demoRange demoBlock demoSeqs 0 demoOutput 8)
    as (Hstart & _ & Hsteps); [done|apply demoBlock_wf|apply demoOutput_run|].
  split.
  - intros step u g1 g2 Hin Hg. destruct (Hsteps step Hin) as [[input Hout] _].
    rewrite Hout in Hg. by eapply demoBatch_dom.
  - intros step input Hin Hinput. destruct (Hsteps step Hin) as [_ Hseq].
    destruct (Hseq input Hinput) as (s & Hs & Hi).
    assert (Forall (Forall (λ input, ∃ v, input = varResult v ∧ (200 ≤ addr v)%nat))
              demoSeqs) as Hall.
    { repeat constructor; (eexists; split; [reflexivity|simpl; lia]). }
    rewrite Forall_forall in Hall. specialize (Hall s Hs).
    rewrite Forall_forall in Hall. destruct (Hall input Hi) as (v & -> & Hv).
    apply varResult_inputOK. intros Hint.
    assert (intermediates demoOutput = list_to_set (seq 0%nat 8%nat)) as Heq
      by (vm_compute; reflexivity).
    rewrite Heq in Hint. apply elem_of_list_to_set, elem_of_seq in Hint. lia.
  - rewrite Hstart. apply varResult_propagate_dom.
Qed.

Lemma forEach_propagate_dom (rus : list (Result * Vector)) (g g' : Gradient) :
  Forall (λ ru, ∃ v, ru.1 = varResult v) rus →
  Go.forEach (λ ru g, PropagateGradient ru.1 ru.2 g) rus g = Some g' → dom g' = dom g.
Proof.
  intros Hall. revert g. induction Hall as [|[r u] rus [v Hv] Hall IH]; intros g; simpl.
  - by intros [= <-].
  - simpl in Hv. subst r.
    destruct (PropagateGradient (varResult v) u g) as [g1|] eqn:E; [|done].
    intros H%IH. rewrite H. by eapply varResult_propagate_dom.
Qed.

Lemma passThrough_addsNoEntry rs n out n' :
  BatchSeqs passThrough rs n = Some (out, n') →
  Forall (λ r, ∃ v, r = varResult v) (concat rs) → addsNoEntry out.
Proof.
  intros [= <- <-] Hall u g1 g2. cbn [rs_Gradient]. destruct (decide _); [|done].
  intros H%forEach_propagate_dom; [by rewrite H|].
  apply Forall_forall. intros [r w] Hin. apply elem_of_zip_l in Hin.
  rewrite Forall_forall in Hall. by apply Hall.
Qed.

Lemma demoJoinedResult_addsNoEntry :
  addsNoEntry (Out demoJoinedResult) ∧ addsNoEntry (ForwardOut demoJoinedResult) ∧
  addsNoEntry (BackwardOut demoJoinedResult).
Proof.
  split_and!.
  - eapply (passThrough_addsNoEntry _ 3 _ 3); [reflexivity|].
    simpl. repeat constructor; eauto.
  - intros u g1 g2. simpl. destruct (decide _); [|done]. by intros [= <-].
  - intros u g1 g2. simpl. destruct (decide _); [|done]. by intros [= <-].
Qed.

Lemma Gradient_removes_intermediate_entries_witness :
  (∃ g', BlockSeqFuncOutput_Gradient demoOutput demoUpstream demoGradient = Some g' ∧
         dom g' = dom demoGradient ∧ dom g' ## intermediates demoOutput) ∧
  (∃ g', bidirectionalResult_Gradient demoJoinedResult demoJoinedUpstream demoGradient
           = Some g' ∧
         ∀ v, v ∈ concat (Joined demoJoinedResult) → g' !! addr v = None).
Proof.
  destruct Gradient_removes_intermediate_entries as [Hunroll Hbidir]. split.
  - assert (∃ g', BlockSeqFuncOutput_Gradient demoOutput demoUpstream demoGradient = Some g')
      as [g' Hrun] by (eexists; vm_compute; reflexivity).
    exists g'. split; [done|].
    destruct (Hunroll demoOutput demoUpstream demoGradient g' demoOutput_collaborators Hrun)
      as (_ & _ & _ & Hfresh).
    apply Hfresh. apply (bool_decide_unpack _). vm_compute. exact I.
  - assert (∃ g', bidirectionalResult_Gradient demoJoinedResult demoJoinedUpstream
                    demoGradient = Some g')
      as [g' Hrun] by (eexists; vm_compute; reflexivity).
    exists g'. split; [done|].
    destruct demoJoinedResult_addsNoEntry as (Ho & Hf & Hb).
    by destruct (Hbidir demoJoinedResult demoJoinedUpstream demoGradient g' Ho Hf Hb Hrun).
Defined.

(** The scenario of two lanes with 3 and 1 timesteps: the backward pass
    with an upstream of ones leaves the keys of the accumulator as they
    were, and each raw input has received its gradient. *)
Example Gradient_demo :
  BlockSeqFuncOutput_Gradient demoOutput demoUpstream demoGradient =
  Some (list_to_map [ (100%nat, [0; 0]); (200%nat, [1; 1; 0]); (201%nat, [1; 1; 0]);
                      (202%nat, [1; 1; 0]); (210%nat, [1; 1; 0]) ]).
Proof. vm_compute. reflexivity. Qed.

(** The split of the hand-built result: offset 1, the backward halves
    mirrored in time within each lane. *)
Example split_demo :
  (λ r, (r.1.1, r.1.2)) <$>
    (g1 ← rs_Gradient (Out demoJoinedResult) demoJoinedUpstream
            (joinedEnter demoJoined demoGradient);
     Go.range (splitLane 1) demoJoined (replicate 2 [], replicate 2 [], g1)) =
  Some ([ [[1]; [2]]; [[3]] ], [ [[2; 2]; [1; 1]]; [[3; 3]] ]).
Proof. vm_compute. reflexivity. Qed.

Lemma bidirectionalResult_Gradient_splits_witness :
  ∃ forwLen forwUpstream backUpstream g1,
    forwLen = 1%nat ∧ length forwUpstream = 2%nat ∧ length backUpstream = 2%nat ∧
    bidirectionalResult_Gradient demoJoinedResult demoJoinedUpstream demoGradient =
      (g3 ← rs_Gradient (ForwardOut demoJoinedResult) forwUpstream
              (deleteAll g1 (concat demoJoined));
       rs_Gradient (BackwardOut demoJoinedResult) backUpstream g3).
Proof.
  assert (∃ g1, rs_Gradient (Out demoJoinedResult) demoJoinedUpstream
                  (joinedEnter (Joined demoJoinedResult) demoGradient) = Some g1)
    as [g1 Hg1] by (eexists; vm_compute; reflexivity).
  destruct (bidirectionalResult_Gradient_splits demoJoinedResult demoJoinedUpstream
              demoGradient g1) as (forwLen & fu & bu & Hlen & _ & Hfu & Hbu & _ & Hrun).
  - apply (bool_decide_unpack _). vm_compute. exact I.
  - simpl. lia.
  - exact Hg1.
  - intros v Hv. assert (Some g1 = Some g1) as _ by done.
    revert Hg1. vm_compute. intros [= <-].
    repeat (apply elem_of_cons in Hv as [->|Hv]); [vm_compute; lia..|by apply elem_of_nil in Hv].
  - exists forwLen, fu, bu, g1. split_and!; done.
Defined.

(** ** The truncated back-propagation session *)

Import Seqtoseq.
Import Window.

(** The loop of [Truncate] that clears the cells behind the kept ones. *)
Lemma forEach_clear (n count : nat) (kept gone rest : list (option seqPropStep)) (j k : nat) :
  length kept = n → (j + k = length gone)%nat → (n + length gone ≤ count)%nat →
  Go.forEach (λ i array,
      if decide (0 ≤ i + Z.of_nat n ∧ (Z.to_nat (i + Z.of_nat n) < count)%nat)
      then Some (<[Z.to_nat (i + Z.of_nat n) := None]> array) else None)
    (seqZ (Z.of_nat j) (Z.of_nat k))
    (kept ++ (replicate j None ++ drop j gone) ++ rest) =
  Some (kept ++ replicate (length gone) None ++ rest).
Proof.
  intros Hkept. revert j. induction k as [|k IH]; intros j Hjk Hcount.
  - rewrite seqZ_nil by lia. simpl. rewrite Nat.add_0_r in Hjk. subst j.
    by rewrite drop_all, app_nil_r.
  - rewrite seqZ_cons by lia. cbn [Go.forEach].
    rewrite decide_True by lia.
    replace (Z.to_nat (Z.of_nat j + Z.of_nat n)) with (n + j)%nat by lia.
    replace (Z.succ (Z.of_nat j)) with (Z.of_nat (Datatypes.S j)) by lia.
    replace (Z.pred (Z.of_nat (Datatypes.S k))) with (Z.of_nat k) by lia.
    rewrite <- (IH (Datatypes.S j)) by lia. f_equal.
    rewrite <- Hkept, insert_app_r.
    destruct (lookup_lt_is_Some_2 gone j ltac:(lia)) as [x Hx].
    rewrite (drop_S _ _ _ Hx).
    rewrite <- (length_replicate j (@None seqPropStep)) at 1.
    f_equal.
    rewrite insert_app_l by (rewrite length_app, !length_replicate; simpl; lia).
    f_equal. rewrite insert_app_r_alt, Nat.sub_diag by lia. simpl.
    rewrite (cons_middle None), app_assoc, <- replicate_cons_app. done.
Qed.

Lemma Truncate_short (s : seqProp) (n : Z) :
  Z.of_nat (MemoryCount s) ≤ n → Truncate s n = Some s.
Proof. intros Hn. unfold Truncate. by rewrite decide_True by lia. Qed.

Lemma Truncate_long (s : seqProp) (n : nat) :
  (n < MemoryCount s)%nat →
  Truncate s (Z.of_nat n) =
    Some {| Block_ := Block_ s; CostFunc := CostFunc s;
            memory := {| cells := drop (MemoryCount s - n) (cells (memory s));
                         spare := replicate (MemoryCount s - n) None ++ spare (memory s) |} |}.
Proof.
  intros Hn. unfold Truncate, MemoryCount in *. rewrite decide_False by lia.
  set (cs := cells (memory s)) in *. set (sp := spare (memory s)).
  replace (Z.to_nat (Z.of_nat (length cs) - Z.of_nat n)) with (length cs - n)%nat by lia.
  unfold Go.suffix. rewrite decide_True by lia. cbn [mbind option_bind].
  unfold copy. rewrite length_drop.
  replace (length cs `min` (length cs - (length cs - n)))%nat with n by lia.
  rewrite take_ge by (rewrite length_drop; lia).
  rewrite drop_app_le by lia.
  rewrite <- (take_drop (length cs - n) (drop n cs)) at 1.
  assert (length (drop (length cs - n) cs) = n) as Hkept by (rewrite length_drop; lia).
  replace (Z.of_nat (length cs) - Z.of_nat n) with (Z.of_nat (length cs - n)) by lia.
  pose proof (forEach_clear n (length cs) (drop (length cs - n) cs) (drop n cs) sp 0
                (length cs - n) Hkept) as Hclear.
  rewrite length_drop in Hclear. simpl in Hclear. rewrite drop_0 in Hclear.
  change (Z.of_nat 0) with 0 in Hclear.
  rewrite take_drop.
  rewrite Hclear by lia. cbn [mbind option_bind].
  rewrite decide_True.
  2:{ split; [lia|]. rewrite Nat2Z.id, !length_app, length_replicate. lia. }
  rewrite Nat2Z.id. f_equal. f_equal. f_equal.
  - by rewrite take_app_length' by done.
  - by rewrite drop_app_length' by done.
Qed.

(** [TimeStep] reads the records of the memory, not its spare cells. *)
Lemma TimeStep_cells growth (s1 s2 : seqProp) inSeqs next :
  Block_ s1 = Block_ s2 → CostFunc s1 = CostFunc s2 →
  cells (memory s1) = cells (memory s2) →
  observe <$> TimeStep growth s1 inSeqs next = observe <$> TimeStep growth s2 inSeqs next.
Proof.
  destruct s1 as [B1 C1 [c1 sp1]], s2 as [B2 C2 [c2 sp2]]. simpl.
  intros -> -> ->. unfold TimeStep.
  assert (∀ seqs, headInput {| Block_ := B2; CostFunc := C2;
                               memory := {| cells := c2; spare := sp1 |} |} seqs next =
                  headInput {| Block_ := B2; CostFunc := C2;
                               memory := {| cells := c2; spare := sp2 |} |} seqs next) as Hhead
    by done.
  unfold stepBatch, MemoryCount. simpl.
  set (batch := if decide (length c2 = 0%nat) then removeEmpty inSeqs else inSeqs).
  destruct (decide (length batch = 0%nat)); [done|].
  rewrite Hhead. destruct (headInput _ _ _) as [input|]; [|done]. simpl.
  destruct (removeFirst _); [|done]. simpl. unfold observe, appendStep. simpl.
  by destruct sp1, sp2.
Qed.

Lemma BackPropagate_empty (s : seqProp) (g : Gradient) (headSize tailSize : Z) :
  MemoryCount s = 0%nat → BackPropagate s g headSize tailSize = Some (s, g, []).
Proof. intros H. unfold BackPropagate. rewrite decide_True; [done|by right]. Qed.

(** C7. For [n >= 0], [Truncate(n)] keeps the newest [min(n, count)]
    records in their order: the memory becomes its own suffix of that
    length, so [MemoryCount] becomes [min(n, count)]; the array cells of the
    discarded tail are set to nil; with [n >= count] the session is
    unchanged; and with [n = 0] the memory is empty and the session answers
    [TimeStep] and [BackPropagate] as a session without memory does. *)
Theorem Truncate_keeps_newest (s : seqProp) (n : Z) :
  0 ≤ n →
  ∃ s', Truncate s n = Some s' ∧
    Block_ s' = Block_ s ∧ CostFunc s' = CostFunc s ∧
    MemoryCount s' = Nat.min (Z.to_nat n) (MemoryCount s) ∧
    cells (memory s') = drop (MemoryCount s - Z.to_nat n) (cells (memory s)) ∧
    (∀ i, (i < MemoryCount s')%nat →
       cells (memory s') !! i =
       cells (memory s) !! (MemoryCount s - MemoryCount s' + i)%nat) ∧
    spare (memory s') =
      replicate (MemoryCount s - Z.to_nat n) None ++ spare (memory s) ∧
    (Z.of_nat (MemoryCount s) ≤ n → s' = s) ∧
    (n = 0 →
       cells (memory s') = [] ∧
       (∀ growth inSeqs next,
          observe <$> TimeStep growth s' inSeqs next =
          observe <$> TimeStep growth (reset s) inSeqs next) ∧
       (∀ g headSize tailSize,
          BackPropagate s' g headSize tailSize = Some (s', g, []) ∧
          BackPropagate (reset s) g headSize tailSize = Some (reset s, g, []))).
Proof.
  intros Hn.
  assert (∃ s', Truncate s n = Some s' ∧
    Block_ s' = Block_ s ∧ CostFunc s' = CostFunc s ∧
    cells (memory s') = drop (MemoryCount s - Z.to_nat n) (cells (memory s)) ∧
    spare (memory s') = replicate (MemoryCount s - Z.to_nat n) None ++ spare (memory s) ∧
    (Z.of_nat (MemoryCount s) ≤ n → s' = s)) as (s' & Hrun & HB & HC & Hcells & Hspare & Hsame).
  { destruct (decide (Z.of_nat (MemoryCount s) ≤ n)) as [Hle|Hgt].
    - exists s. rewrite Truncate_short by done.
      replace (MemoryCount s - Z.to_nat n)%nat with 0%nat by lia. by rewrite drop_0.
    - pose proof (Truncate_long s (Z.to_nat n) ltac:(lia)) as Hlong.
      rewrite Z2Nat.id in Hlong by done. rewrite Hlong.
      eexists. split; [done|]. simpl. split_and!; try done. }
  assert (MemoryCount s' = Nat.min (Z.to_nat n) (MemoryCount s)) as Hcount.
  { unfold MemoryCount in *. rewrite Hcells, length_drop. lia. }
  exists s'. split_and!; try done.
  - intros i Hi. rewrite Hcells, lookup_drop. f_equal. lia.
  - intros ->. assert (cells (memory s') = []) as Hnil.
    { apply nil_length_inv. fold (MemoryCount s'). rewrite Hcount. simpl. lia. }
    split_and!; [done| |].
    + intros growth inSeqs next. apply TimeStep_cells; by rewrite ?HB, ?HC, ?Hnil.
    + intros g headSize tailSize. split; apply BackPropagate_empty; [|done].
      unfold MemoryCount. by rewrite Hnil.
Qed.

(** C8. With an empty memory [BackPropagate] returns at once, whatever the
    head and tail sizes: the accumulator and the session are as before and
    no block closure is called.  That is the case after [Truncate(0)]: the
    call cannot abort. *)
Theorem BackPropagate_empty_memory_noop :
  (∀ s (g : Gradient) headSize tailSize,
     MemoryCount s = 0%nat →
     BackPropagate s g headSize tailSize = Some (s, g, [])) ∧
  (∀ s (g : Gradient) headSize tailSize,
     ∃ s', Truncate s 0 = Some s' ∧ MemoryCount s' = 0%nat ∧
           BackPropagate s' g headSize tailSize = Some (s', g, [])).
Proof.
  split.
  - intros s g headSize tailSize. apply BackPropagate_empty.
  - intros s g headSize tailSize.
    destruct (decide (MemoryCount s = 0%nat)) as [Hz|Hnz].
    + exists s. rewrite Truncate_short by lia. split_and!; [done..|].
      by apply BackPropagate_empty.
    + pose proof (Truncate_long s 0 ltac:(lia)) as Hrun. simpl in Hrun.
      eexists. split; [exact Hrun|].
      assert (MemoryCount {| Block_ := Block_ s; CostFunc := CostFunc s;
                memory := {| cells := drop (MemoryCount s - 0) (cells (memory s));
                             spare := replicate (MemoryCount s - 0) None ++ spare (memory s) |} |}
              = 0%nat) as Hz.
      { unfold MemoryCount. simpl. rewrite length_drop. lia. }
      split; [done|]. by apply BackPropagate_empty.
Qed.

(** *** TimeStep *)

Lemma removeEmpty_filter (seqs : list Sample) :
  removeEmpty seqs = filter (λ seq, length (Inputs seq) ≠ 0%nat) seqs.
Proof.
  unfold removeEmpty.
  assert (∀ acc, foldl (λ res seq, if decide (length (Inputs seq) ≠ 0%nat)
                                   then res ++ [seq] else res) acc seqs =
                 acc ++ filter (λ seq, length (Inputs seq) ≠ 0%nat) seqs) as H.
  { induction seqs as [|seq seqs IH]; intros acc; simpl; [by rewrite app_nil_r|].
    rewrite IH, filter_cons. destruct (decide _); [|done]. by rewrite <- app_assoc. }
  apply H.
Qed.

Lemma removeFirst_spec (seqs : list Sample) :
  Forall (λ seq, Inputs seq ≠ [] ∧ ((1 < length (Inputs seq))%nat → Outputs seq ≠ [])) seqs →
  removeFirst seqs =
    Some (consumed <$> filter (λ seq, length (Inputs seq) ≠ 1%nat) seqs).
Proof.
  unfold removeFirst. intros Hall.
  assert (∀ acc, Go.forEach (λ seq nextSeqs,
      if decide (length (Inputs seq) = 1%nat) then Some nextSeqs
      else
        inputs ← Go.suffix (Inputs seq) 1;
        outputs ← Go.suffix (Outputs seq) 1;
        Some (nextSeqs ++ [{| Inputs := inputs; Outputs := outputs |}])) seqs acc =
    Some (acc ++ (consumed <$> filter (λ seq, length (Inputs seq) ≠ 1%nat) seqs))) as H.
  { induction Hall as [|seq seqs [Hin Hout] Hall IH]; intros acc; simpl.
    - by rewrite app_nil_r.
    - rewrite filter_cons. destruct (decide (length (Inputs seq) = 1%nat)) as [H1|H1].
      + rewrite decide_False by lia. apply IH.
      + rewrite decide_True by done. unfold Go.suffix.
        assert (1 < length (Inputs seq))%nat as Hlong
          by (destruct (Inputs seq); simpl in *; [done|lia]).
        specialize (Hout Hlong).
        rewrite !decide_True by (destruct (Inputs seq), (Outputs seq); simpl; done || lia).
        simpl. rewrite IH, <- app_assoc. done. }
  apply H.
Qed.

Lemma removeFirst_inv (seqs : list Sample) rest :
  removeFirst seqs = Some rest →
  Forall (λ seq, (1 < length (Inputs seq))%nat → Outputs seq ≠ []) seqs.
Proof.
  unfold removeFirst.
  assert (∀ acc, Go.forEach (λ seq nextSeqs,
      if decide (length (Inputs seq) = 1%nat) then Some nextSeqs
      else
        inputs ← Go.suffix (Inputs seq) 1;
        outputs ← Go.suffix (Outputs seq) 1;
        Some (nextSeqs ++ [{| Inputs := inputs; Outputs := outputs |}])) seqs acc =
      Some rest →
    Forall (λ seq, (1 < length (Inputs seq))%nat → Outputs seq ≠ []) seqs) as H; [|apply H].
  revert rest.
  induction seqs as [|seq seqs IH]; intros rest acc Hrun; [done|].
  simpl in Hrun. destruct (decide (length (Inputs seq) = 1%nat)) as [H1|H1].
  - constructor; [lia|]. by eapply IH.
  - destruct (Go.suffix (Inputs seq) 1) as [inputs|]; [|done]. simpl in Hrun.
    destruct (Go.suffix (Outputs seq) 1) as [outputs|] eqn:Hout; [|done]. simpl in Hrun.
    constructor; [|by eapply IH].
    intros _ E. rewrite E in Hout. unfold Go.suffix in Hout. simpl in Hout. done.
Qed.

Lemma filterContinued_from (ins : list Vector) (rest : list Sample) i acc res :
  Go.rangeFrom i (λ i seq res,
      if decide (1 < length (Inputs seq))%nat then x ← ins !! i; Some (res ++ [x])
      else Some res) rest acc = Some res →
  length res = (length acc + continued rest)%nat.
Proof.
  revert i acc. induction rest as [|seq rest IH]; intros i acc; simpl.
  - intros [= <-]. unfold continued. simpl. lia.
  - unfold continued. rewrite filter_cons.
    destruct (decide (1 < length (Inputs seq))%nat).
    + destruct (ins !! i) as [x|]; [|done]. simpl. intros H%IH.
      rewrite length_app in H. unfold continued in H. simpl in *. lia.
    + intros H%IH. done.
Qed.

Lemma filterContinued_length seqs ins res :
  filterContinued seqs ins = Some res → length res = continued seqs.
Proof. intros H%filterContinued_from. done. Qed.

Lemma continued_cons seq seqs :
  continued (seq :: seqs) =
    ((if decide (1 < length (Inputs seq))%nat then 1 else 0) + continued seqs)%nat.
Proof. unfold continued. rewrite filter_cons. by destruct (decide _). Qed.

Lemma continuedBefore_S (seq : Sample) seqs k :
  continuedBefore (seq :: seqs) (Datatypes.S k) =
    ((if decide (1 < length (Inputs seq))%nat then 1 else 0) + continuedBefore seqs k)%nat.
Proof. unfold continuedBefore. simpl. apply continued_cons. Qed.

Lemma filterContinued_from_lookup (ins : list Vector) (rest : list Sample) i acc res :
  Go.rangeFrom i (λ i seq res,
      if decide (1 < length (Inputs seq))%nat then x ← ins !! i; Some (res ++ [x])
      else Some res) rest acc = Some res →
  ∃ tail, res = acc ++ tail ∧
    ∀ k seq, rest !! k = Some seq → (1 < length (Inputs seq))%nat →
      ∃ x, ins !! (i + k)%nat = Some x ∧ tail !! continuedBefore rest k = Some x.
Proof.
  revert i acc. induction rest as [|seq rest IH]; intros i acc Hrun.
  - injection Hrun as <-. exists []. split; [by rewrite app_nil_r|]. by intros k seq.
  - simpl in Hrun. destruct (decide (1 < length (Inputs seq))%nat) as [Hgo|Hstop].
    + destruct (ins !! i) as [x|] eqn:Hx; [|done]. simpl in Hrun.
      apply IH in Hrun as (tail & -> & Htail). exists (x :: tail).
      split; [by rewrite <- app_assoc|]. intros [|k] seq' Hseq' Hlen.
      * exists x. by rewrite Nat.add_0_r.
      * simpl in Hseq'. destruct (Htail k seq' Hseq' Hlen) as (y & Hy & Hty).
        exists y. rewrite continuedBefore_S, decide_True by done.
        split; [by rewrite <- Nat.add_succ_comm|done].
    + apply IH in Hrun as (tail & -> & Htail). exists tail. split; [done|].
      intros [|k] seq' Hseq' Hlen.
      * simpl in Hseq'. by injection Hseq' as <-.
      * simpl in Hseq'. destruct (Htail k seq' Hseq' Hlen) as (y & Hy & Hty).
        exists y. rewrite continuedBefore_S, decide_False by done.
        split; [by rewrite <- Nat.add_succ_comm|done].
Qed.

(** The loop of [headInput] over the lanes. *)
Lemma headInput_from (lastStates : list Vector) (rest : list Sample) i (acc : BlockInput) n :
  Forall (λ seq, Inputs seq ≠ []) rest → (i + length rest ≤ length lastStates)%nat →
  ∃ input,
    Go.rangeFrom i (λ lane seq (st : BlockInput * nat),
          x ← Inputs seq !! 0%nat;
          let inVar := mkVar st.2 x in
          state ← lastStates !! lane;
          let inState := mkVar (Datatypes.S st.2) state in
          Some ({| in_States := in_States st.1 ++ [inState];
                   in_Inputs := in_Inputs st.1 ++ [inVar] |}, Datatypes.S (Datatypes.S st.2)))
      rest (acc, n) = Some (input, (n + 2 * length rest)%nat) ∧
    length (in_States input) = (length (in_States acc) + length rest)%nat ∧
    length (in_Inputs input) = (length (in_Inputs acc) + length rest)%nat.
Proof.
  intros Hall. revert i acc n. induction Hall as [|seq rest Hin Hall IH]; intros i acc n Hlen.
  - exists acc. simpl. rewrite !Nat.add_0_r. done.
  - cbn [Go.rangeFrom]. destruct (Inputs seq) as [|x xs] eqn:Ex; [done|]. simpl.
    destruct (lookup_lt_is_Some_2 lastStates i) as [state Hstate]; [simpl in Hlen; lia|].
    rewrite Hstate. simpl.
    edestruct (IH (Datatypes.S i)) as (input & Hrun & Hs & Hi); [simpl in Hlen; lia|].
    exists input. rewrite Hrun. split_and!.
    + do 2 f_equal. lia.
    + rewrite Hs. simpl. rewrite length_app. simpl. lia.
    + rewrite Hi. simpl. rewrite length_app. simpl. lia.
Qed.

Lemma filterContinued_Some (seqs : list Sample) (ins : list Vector) :
  (∀ lane seq, seqs !! lane = Some seq → (1 < length (Inputs seq))%nat →
     (lane < length ins)%nat) →
  is_Some (filterContinued seqs ins).
Proof.
  unfold filterContinued, Go.range.
  assert (∀ rest i acc,
    (∀ k seq, rest !! k = Some seq → (1 < length (Inputs seq))%nat →
       (i + k < length ins)%nat) →
    is_Some (Go.rangeFrom i (λ i seq res,
      if decide (1 < length (Inputs seq))%nat then x ← ins !! i; Some (res ++ [x])
      else Some res) rest acc)) as H.
  { induction rest as [|seq rest IH]; intros i acc Hlen; simpl; [eauto|].
    destruct (decide _) as [Hlong|].
    - destruct (lookup_lt_is_Some_2 ins i) as [x ->].
      { specialize (Hlen 0%nat seq eq_refl Hlong). lia. }
      simpl. apply IH. intros k seq' Hk Hl. specialize (Hlen (Datatypes.S k) seq' Hk Hl). lia.
    - apply IH. intros k seq' Hk Hl. specialize (Hlen (Datatypes.S k) seq' Hk Hl). lia. }
  intros Hlen. apply H. intros k seq Hk Hl. simpl. by eapply Hlen.
Qed.

Lemma headInput_spec (s : seqProp) (batch : list Sample) next :
  batchReady s batch →
  ∃ input, headInput s batch next = Some (input, (next + 2 * length batch)%nat) ∧
    length (in_States input) = length batch ∧ length (in_Inputs input) = length batch.
Proof.
  intros [Hall Hlast]. unfold headInput.
  assert (Forall (λ seq, Inputs seq ≠ []) batch) as Hin.
  { eapply Forall_impl; [done|]. by intros seq [? ?]. }
  destruct (decide (0 < MemoryCount s)%nat) as [Hpos|Hzero].
  - destruct (Hlast Hpos) as (last & Hmem & Hcont & Hstates). rewrite Hmem. simpl.
    destruct (filterContinued_Some _ _ Hstates) as [ls Hls]. rewrite Hls. simpl.
    pose proof (filterContinued_length _ _ _ Hls) as Hlen.
    rewrite decide_False by lia. simpl.
    destruct (headInput_from ls batch 0 {| in_States := []; in_Inputs := [] |} next Hin)
      as (input & Hrun & Hs & Hi); [simpl; lia|].
    unfold Go.range. simpl in Hrun |- *. rewrite Hrun. simpl. exists input. done.
  - simpl.
    destruct (headInput_from (replicate (length batch) (Output (StartState (Block_ s))))
                batch 0 {| in_States := []; in_Inputs := [] |} next Hin)
      as (input & Hrun & Hs & Hi); [rewrite length_replicate; simpl; lia|].
    unfold Go.range. simpl in Hrun |- *. rewrite Hrun. simpl. exists input. done.
Qed.

Lemma headInput_from_vals (lastStates : list Vector) (rest : list Sample) i
    (acc : BlockInput) n st :
  Go.rangeFrom i (λ lane seq (st : BlockInput * nat),
        x ← Inputs seq !! 0%nat;
        let inVar := mkVar st.2 x in
        state ← lastStates !! lane;
        let inState := mkVar (Datatypes.S st.2) state in
        Some ({| in_States := in_States st.1 ++ [inState];
                 in_Inputs := in_Inputs st.1 ++ [inVar] |}, Datatypes.S (Datatypes.S st.2)))
    rest (acc, n) = Some st →
  st.2 = (n + 2 * length rest)%nat ∧
  in_Inputs st.1 = in_Inputs acc ++ inputVarsAt n rest ∧
  in_States st.1 = in_States acc ++ stateVarsAt n (take (length rest) (drop i lastStates)) ∧
  Forall (λ seq, Inputs seq ≠ []) rest ∧
  length (take (length rest) (drop i lastStates)) = length rest.
Proof.
  revert i acc n. induction rest as [|seq rest IH]; intros i acc n Hrun.
  - simpl in Hrun. injection Hrun as <-. simpl.
    unfold inputVarsAt, stateVarsAt. simpl. rewrite !app_nil_r. split_and!; done.
  - simpl in Hrun.
    destruct (Inputs seq !! 0%nat) as [x|] eqn:Hx; [|done]. simpl in Hrun.
    destruct (lastStates !! i) as [state|] eqn:Hstate; [|done]. simpl in Hrun.
    apply IH in Hrun as (H2 & Hin & Hst & Hall & Hlen). simpl in Hin, Hst.
    apply lookup_lt_Some in Hstate as Hi.
    split_and!.
    + rewrite H2. simpl. lia.
    + rewrite Hin, <- app_assoc. f_equal. unfold inputVarsAt. simpl. rewrite Hx. simpl.
      f_equal; [f_equal; lia|]. apply imap_ext. intros k y _. simpl. f_equal. lia.
    + rewrite Hst, <- app_assoc. f_equal. unfold stateVarsAt.
      rewrite (drop_S _ _ _ Hstate). simpl.
      f_equal; [f_equal; lia|]. apply imap_ext. intros k y _. simpl. f_equal. lia.
    + constructor; [|done]. intros E. by rewrite E in Hx.
    + rewrite (drop_S _ _ _ Hstate). simpl. by rewrite Hlen.
Qed.

Lemma cells_appendStep growth m step :
  cells (appendStep growth m step) = cells m ++ [Some step].
Proof. unfold appendStep. by destruct (spare m). Qed.

Lemma headInput_vals (s : seqProp) (batch : list Sample) next input next' :
  headInput s batch next = Some (input, next') →
  ∃ lastStates,
    (MemoryCount s = 0%nat →
       lastStates = replicate (length batch) (Output (StartState (Block_ s)))) ∧
    ((0 < MemoryCount s)%nat →
       ∃ last, memoryAt s (Z.of_nat (MemoryCount s) - 1) = Some last ∧
         filterContinued (InSeqs last) (out_States (step_Output last)) = Some lastStates ∧
         continued (InSeqs last) = length batch) ∧
    length lastStates = length batch ∧
    Forall (λ seq, Inputs seq ≠ []) batch ∧
    in_States input = stateVarsAt next lastStates ∧
    in_Inputs input = inputVarsAt next batch ∧
    next' = (next + 2 * length batch)%nat.
Proof.
  unfold headInput. intros Hrun.
  destruct (decide (0 < MemoryCount s)%nat) as [Hpos|Hzero].
  - destruct (memoryAt s _) as [last|] eqn:Hlast; [|done]. simpl in Hrun.
    destruct (filterContinued _ _) as [lastStates|] eqn:Hfilter; [|done]. simpl in Hrun.
    destruct (decide (length lastStates ≠ length batch)) as [|Hlen%dec_stable]; [done|].
    simpl in Hrun.
    destruct (Go.range _ _ _) as [st|] eqn:Hloop; [|done]. simpl in Hrun.
    injection Hrun as ->. apply headInput_from_vals in Hloop as (H2 & Hin & Hst & Hall & _).
    simpl in *. rewrite drop_0, <- Hlen, firstn_all in Hst.
    exists lastStates. split_and!; try done; [lia|].
    intros _. exists last. split_and!; try done.
    by rewrite <- (filterContinued_length _ _ _ Hfilter).
  - simpl in Hrun.
    destruct (Go.range _ _ _) as [st|] eqn:Hloop; [|done]. simpl in Hrun.
    injection Hrun as ->. apply headInput_from_vals in Hloop as (H2 & Hin & Hst & Hall & _).
    simpl in *. rewrite drop_0 in Hst.
    rewrite <- (length_replicate (length batch) (Output (StartState (Block_ s)))) in Hst at 1.
    rewrite firstn_all in Hst.
    eexists. split_and!; try done; try lia. by rewrite length_replicate.
Qed.

(** C6, as stated, fails on a first call whose sequences are all empty:
    the batch is not empty, and no record is appended. *)
Lemma TimeStep_empty_sequences_append_nothing :
  [emptySample] ≠ [] ∧ MemoryCount demoSession = 0%nat ∧
  TimeStep demoGrowth demoSession [emptySample] 0 = Some (demoSession, [], 0%nat).
Proof. split_and!; [done|reflexivity|reflexivity]. Qed.

(** What a call of [TimeStep] that returns on a batch that is not empty
    says of the batch. *)
Lemma TimeStep_ready_inv growth (s : seqProp) (inSeqs : list Sample) next :
  stepBatch s inSeqs ≠ [] → is_Some (TimeStep growth s inSeqs next) →
  batchReady s (stepBatch s inSeqs).
Proof.
  intros Hne [r Hrun]. unfold TimeStep in Hrun.
  rewrite decide_False in Hrun by (by destruct (stepBatch s inSeqs)).
  destruct (headInput s _ next) as [[input n]|] eqn:Hhead; [|done].
  cbn [mbind option_bind fst snd] in Hrun.
  destruct (removeFirst _) as [rest|] eqn:Hrest; [|done].
  apply removeFirst_inv in Hrest.
  apply headInput_vals in Hhead as (lastStates & _ & Hlater & _ & Hall & _).
  split.
  - rewrite Forall_forall in Hall, Hrest |- *. intros seq Hseq. split; [by apply Hall|].
    by apply Hrest.
  - intros Hpos. destruct (Hlater Hpos) as (last & Hmem & Hfilter & Hcont).
    exists last. split_and!; [done..|]. intros lane seq Hlane Hlong.
    apply filterContinued_from_lookup in Hfilter as (tail & _ & Htail).
    destruct (Htail lane seq Hlane Hlong) as (x & Hx & _). simpl in Hx.
    by apply lookup_lt_Some in Hx.
Qed.

(** C6, amended.  A call whose batch is empty, as that of a first call
    whose sequences all have no input, appends nothing and returns nil.  A
    call whose batch, without the sequences that the first call drops for
    having no input, is not empty returns exactly when the batch is ready;
    it then appends exactly one record to the memory; the record holds the
    start state of the block exactly when the memory was empty before;
    sequences without input are dropped on that first call only; and the
    call returns the batch with the first input and the first target of
    each sequence removed, without the sequences that had one input. *)
Theorem TimeStep_appends_one_record (growth : nat → nat) (s : seqProp)
    (inSeqs : list Sample) (next : nat) :
  (stepBatch s inSeqs = [] → TimeStep growth s inSeqs next = Some (s, [], next)) ∧
  (MemoryCount s = 0%nat → Forall (λ seq, Inputs seq = []) inSeqs →
     TimeStep growth s inSeqs next = Some (s, [], next)) ∧
  (stepBatch s inSeqs ≠ [] →
     (is_Some (TimeStep growth s inSeqs next) ↔ batchReady s (stepBatch s inSeqs)) ∧
     (batchReady s (stepBatch s inSeqs) →
      ∃ s' step rest next',
        TimeStep growth s inSeqs next = Some (s', rest, next') ∧
        Block_ s' = Block_ s ∧ CostFunc s' = CostFunc s ∧
        cells (memory s') = cells (memory s) ++ [Some step] ∧
        MemoryCount s' = Datatypes.S (MemoryCount s) ∧
        step_StartState step =
          (if decide (MemoryCount s = 0%nat) then Some (StartState (Block_ s)) else None) ∧
        InSeqs step = stepBatch s inSeqs ∧
        length (InStates step) = length (stepBatch s inSeqs) ∧
        stepBatch s inSeqs =
          (if decide (MemoryCount s = 0%nat)
           then filter (λ seq, length (Inputs seq) ≠ 0%nat) inSeqs else inSeqs) ∧
        rest = consumed <$> filter (λ seq, length (Inputs seq) ≠ 1%nat) (stepBatch s inSeqs) ∧
        Forall (λ seq, Inputs seq ≠ []) rest)).
Proof.
  assert (stepBatch s inSeqs = [] → TimeStep growth s inSeqs next = Some (s, [], next))
    as Hempty.
  { intros E. unfold TimeStep. rewrite E. done. }
  assert (batchReady s (stepBatch s inSeqs) → stepBatch s inSeqs ≠ [] →
    ∃ s' step rest next',
      TimeStep growth s inSeqs next = Some (s', rest, next') ∧
      Block_ s' = Block_ s ∧ CostFunc s' = CostFunc s ∧
      cells (memory s') = cells (memory s) ++ [Some step] ∧
      MemoryCount s' = Datatypes.S (MemoryCount s) ∧
      step_StartState step =
        (if decide (MemoryCount s = 0%nat) then Some (StartState (Block_ s)) else None) ∧
      InSeqs step = stepBatch s inSeqs ∧
      length (InStates step) = length (stepBatch s inSeqs) ∧
      stepBatch s inSeqs =
        (if decide (MemoryCount s = 0%nat)
         then filter (λ seq, length (Inputs seq) ≠ 0%nat) inSeqs else inSeqs) ∧
      rest = consumed <$> filter (λ seq, length (Inputs seq) ≠ 1%nat) (stepBatch s inSeqs) ∧
      Forall (λ seq, Inputs seq ≠ []) rest) as Hmain.
  { intros Hready Hne.
    destruct (headInput_spec s (stepBatch s inSeqs) next Hready)
      as (input & Hhead & Hs & Hi).
    unfold TimeStep. rewrite decide_False by (by destruct (stepBatch s inSeqs)).
    rewrite Hhead. cbn [mbind option_bind fst snd].
    rewrite removeFirst_spec by apply Hready. cbn [mbind option_bind].
    eexists _, _, _, _. split; [reflexivity|]. cbn [Block_ CostFunc memory].
    split_and!; try apply cells_appendStep; try reflexivity; try exact Hs.
    - unfold MemoryCount. cbn [memory]. rewrite cells_appendStep, length_app. simpl. lia.
    - unfold stepBatch. destruct (decide _); [apply removeEmpty_filter|done].
    - apply Forall_fmap, Forall_forall. intros seq Hseq.
      apply list_elem_of_filter in Hseq as [Hlen Hseq].
      destruct Hready as [Hall _]. rewrite Forall_forall in Hall.
      destruct (Hall seq Hseq) as [Hin _]. simpl.
      destruct (Inputs seq) as [|x [|y xs]]; done. }
  split_and!.
  - exact Hempty.
  - intros Hfirst Hall. apply Hempty. unfold stepBatch. rewrite decide_True by done.
    rewrite removeEmpty_filter. clear Hempty Hmain.
    induction Hall as [|seq seqs Hseq _ IH]; [done|].
    rewrite filter_cons, decide_False; [done|]. rewrite Hseq. simpl. lia.
  - intros Hne. split; [split|].
    + by apply TimeStep_ready_inv.
    + intros Hready. destruct (Hmain Hready Hne) as (s' & step & rest & next' & -> & _).
      eauto.
    + intros Hready. by apply Hmain.
Qed.

(** *** injectDiscontinued *)

Lemma inject_loop (outs : list Vector) (vecLen : nat) (rest : list Sample) acc k :
  (k + continued rest ≤ length outs)%nat →
  Go.forEach (λ s (st : list Vector * nat),
      if decide (1 < length (Inputs s))%nat then
        x ← outs !! st.2; Some (st.1 ++ [x], Datatypes.S st.2)
      else Some (st.1 ++ [make vecLen], st.2))
    rest (acc, k) =
  Some (acc ++ realigned rest outs vecLen k, (k + continued rest)%nat).
Proof.
  revert acc k. induction rest as [|seq rest IH]; intros acc k Hlen.
  - simpl. unfold continued. simpl. by rewrite app_nil_r, Nat.add_0_r.
  - rewrite continued_cons in Hlen |- *. simpl. destruct (decide _).
    + destruct (lookup_lt_is_Some_2 outs k) as [x Hx]; [lia|]. rewrite Hx. simpl.
      rewrite IH by lia. rewrite <- app_assoc. simpl. do 2 f_equal. lia.
    + rewrite IH by (simpl in Hlen; lia). rewrite <- app_assoc. done.
Qed.

Lemma injectDiscontinued_realigned seqs outs vecLen :
  (continued seqs ≤ length outs)%nat →
  injectDiscontinued seqs outs vecLen = Some (realigned seqs outs vecLen 0).
Proof.
  intros Hlen. unfold injectDiscontinued. rewrite inject_loop by (simpl; lia). done.
Qed.

Lemma length_realigned seqs outs vecLen k :
  length (realigned seqs outs vecLen k) = length seqs.
Proof.
  revert k. induction seqs as [|seq seqs IH]; intros k; simpl; [done|].
  destruct (decide _); simpl; by rewrite IH.
Qed.

Lemma lookup_realigned seqs outs vecLen k lane seq :
  seqs !! lane = Some seq →
  realigned seqs outs vecLen k !! lane =
    Some (if decide (1 < length (Inputs seq))%nat
          then default [] (outs !! (k + continuedBefore seqs lane)%nat)
          else make vecLen).
Proof.
  revert k lane. induction seqs as [|s0 seqs IH]; intros k lane Hl; [done|].
  destruct lane as [|lane]; simpl in Hl.
  - injection Hl as ->. simpl. unfold continuedBefore, continued. simpl.
    rewrite Nat.add_0_r. by destruct (decide _).
  - unfold continuedBefore. simpl. rewrite continued_cons.
    destruct (decide (1 < length (Inputs s0))%nat); simpl.
    + rewrite (IH (Datatypes.S k) lane Hl). unfold continuedBefore.
      replace (Datatypes.S k + continued (take lane seqs))%nat
        with (k + Datatypes.S (continued (take lane seqs)))%nat by lia. done.
    + rewrite (IH k lane Hl). done.
Qed.

(** Filtering the realigned list gives the gradients back, in order. *)
Lemma filterContinued_realigned (outs : list Vector) vecLen (rest : list Sample)
    (pre : list Vector) k acc :
  (k + continued rest ≤ length outs)%nat →
  Go.rangeFrom (length pre) (λ i seq res,
      if decide (1 < length (Inputs seq))%nat
      then x ← (pre ++ realigned rest outs vecLen k) !! i; Some (res ++ [x])
      else Some res) rest acc =
  Some (acc ++ take (continued rest) (drop k outs)).
Proof.
  revert pre k acc. induction rest as [|seq rest IH]; intros pre k acc Hlen.
  - simpl. unfold continued. simpl. by rewrite app_nil_r.
  - rewrite continued_cons in Hlen |- *. cbn [Go.rangeFrom realigned].
    destruct (decide (1 < length (Inputs seq))%nat).
    + rewrite lookup_app_r, Nat.sub_diag by lia. simpl.
      destruct (lookup_lt_is_Some_2 outs k) as [x Hx]; [lia|]. rewrite Hx. simpl.
      specialize (IH (pre ++ [x]) (Datatypes.S k) (acc ++ [x])).
      rewrite length_app, <- app_assoc in IH. simpl in IH. rewrite Nat.add_1_r in IH.
      rewrite IH by lia. rewrite <- app_assoc. do 2 f_equal.
      rewrite (drop_S _ _ _ Hx). done.
    + specialize (IH (pre ++ [make vecLen]) k acc).
      rewrite length_app, <- app_assoc in IH. simpl in IH. rewrite Nat.add_1_r in IH.
      rewrite IH by (simpl in Hlen; lia). done.
Qed.

(** *** Sessions built by TimeStep and Truncate are chained *)

Lemma memoryAt_lookup (s : seqProp) (i : nat) mem :
  memoryAt s (Z.of_nat i) = Some mem ↔ cells (memory s) !! i = Some (Some mem).
Proof.
  unfold memoryAt. rewrite index_nat. destruct (cells (memory s) !! i) as [[m|]|]; simpl.
  - split; intros [= ->]; done.
  - split; intros [=].
  - split; intros [=].
Qed.

Lemma headInput_from_inv (lastStates : list Vector) (rest : list Sample) i
    (acc : BlockInput) n st :
  Go.rangeFrom i (λ lane seq (st : BlockInput * nat),
        x ← Inputs seq !! 0%nat;
        let inVar := mkVar st.2 x in
        state ← lastStates !! lane;
        let inState := mkVar (Datatypes.S st.2) state in
        Some ({| in_States := in_States st.1 ++ [inState];
                 in_Inputs := in_Inputs st.1 ++ [inVar] |}, Datatypes.S (Datatypes.S st.2)))
    rest (acc, n) = Some st →
  length (in_States st.1) = (length (in_States acc) + length rest)%nat.
Proof.
  revert i acc n. induction rest as [|seq rest IH]; intros i acc n; cbn [Go.rangeFrom].
  - intros [= <-]. simpl. lia.
  - destruct (Inputs seq !! 0%nat) as [x|]; [|done]. cbn [mbind option_bind].
    destruct (lastStates !! i) as [state|]; [|done]. cbn [mbind option_bind fst snd].
    intros H%IH. rewrite H. simpl. rewrite length_app. simpl. lia.
Qed.

Lemma headInput_inv (s : seqProp) (batch : list Sample) next input next' :
  headInput s batch next = Some (input, next') →
  length (in_States input) = length batch ∧
  ((0 < MemoryCount s)%nat →
   ∃ last, cells (memory s) !! (MemoryCount s - 1)%nat = Some (Some last) ∧
           continued (InSeqs last) = length batch).
Proof.
  unfold headInput. destruct (decide (0 < MemoryCount s)%nat) as [Hpos|Hzero].
  - destruct (memoryAt s _) as [last|] eqn:Elast; [|done]. cbn [mbind option_bind].
    destruct (filterContinued _ _) as [ls|] eqn:Els; [|done]. cbn [mbind option_bind].
    destruct (decide (length ls ≠ length batch)) as [|Heq]; [done|].
    cbn [mbind option_bind]. unfold Go.range.
    destruct (Go.rangeFrom _ _ _ _) as [st|] eqn:Erun; [|done]. cbn [mbind option_bind].
    intros [= ->]. apply headInput_from_inv in Erun. simpl in Erun. split; [done|].
    intros _. exists last. split.
    + apply memoryAt_lookup. rewrite <- Elast. f_equal. lia.
    + apply filterContinued_length in Els. lia.
  - cbn [mbind option_bind]. unfold Go.range.
    destruct (Go.rangeFrom _ _ _ _) as [st|] eqn:Erun; [|done]. cbn [mbind option_bind].
    intros [= ->]. apply headInput_from_inv in Erun. simpl in Erun. split; [done|]. lia.
Qed.

Lemma chained_nil : chained [].
Proof. intros i prev cur H. done. Qed.

Lemma TimeStep_chained growth (s s' : seqProp) inSeqs next rest next' :
  chained (cells (memory s)) →
  TimeStep growth s inSeqs next = Some (s', rest, next') →
  chained (cells (memory s')).
Proof.
  intros Hch. unfold TimeStep.
  destruct (decide (length (stepBatch s inSeqs) = 0%nat)); [by intros [= <- _ _]|].
  destruct (headInput _ _ _) as [[input n']|] eqn:Ehead; [|done]. cbn [mbind option_bind fst snd].
  destruct (removeFirst _); [|done]. cbn [mbind option_bind].
  intros [= <- _ _]. cbn [memory].
  assert (∀ m step, cells (appendStep growth m step) = cells m ++ [Some step]) as Happ.
  { intros m step. unfold appendStep. by destruct (spare m). }
  rewrite Happ. apply headInput_inv in Ehead as [Hlen Hlast].
  intros i prev cur Hprev Hcur.
  destruct (decide (Datatypes.S i < length (cells (memory s)))%nat) as [Hlt|Hge].
  - rewrite lookup_app_l in Hprev, Hcur by lia. by eapply Hch.
  - pose proof (lookup_lt_Some _ _ _ Hcur) as Hi. rewrite length_app in Hi. simpl in Hi.
    assert (Datatypes.S i = length (cells (memory s))) as HSi by lia.
    rewrite lookup_app_l in Hprev by lia.
    rewrite lookup_app_r, HSi, Nat.sub_diag in Hcur by lia. injection Hcur as <-.
    simpl. destruct Hlast as (last & Hl & Hc); [unfold MemoryCount; lia|].
    unfold MemoryCount in Hl. replace (length (cells (memory s)) - 1)%nat with i in Hl by lia.
    assert (last = prev) as -> by congruence. lia.
Qed.

Lemma chained_drop cs k : chained cs → chained (drop k cs).
Proof.
  intros Hch i prev cur Hprev Hcur. rewrite lookup_drop in Hprev, Hcur.
  apply (Hch (k + i)%nat); [done|]. by rewrite <- Nat.add_succ_r.
Qed.

(** What [injectDiscontinued] makes of the state gradients of a record
    for the record before it, in a chained memory. *)
Lemma injectDiscontinued_lanes (s : seqProp) (i : nat) (prev cur : seqPropStep)
    (stateGrads : list Vector) :
  chained (cells (memory s)) →
  memoryAt s (Z.of_nat i) = Some prev →
  memoryAt s (Z.of_nat (Datatypes.S i)) = Some cur →
  length stateGrads = length (InStates cur) →
  ∃ states,
    injectDiscontinued (InSeqs prev) stateGrads (StateSize (Block_ s)) = Some states ∧
    length states = length (InSeqs prev) ∧
    (∀ lane seq, InSeqs prev !! lane = Some seq → (length (Inputs seq) < 2)%nat →
       states !! lane = Some (make (StateSize (Block_ s)))) ∧
    (∀ lane seq, InSeqs prev !! lane = Some seq → (2 ≤ length (Inputs seq))%nat →
       ∃ x, stateGrads !! continuedBefore (InSeqs prev) lane = Some x ∧
            states !! lane = Some x) ∧
    filterContinued (InSeqs prev) states = Some stateGrads.
Proof.
  intros Hch Hprev Hcur Hlen.
  pose proof (Hch i prev cur (proj1 (memoryAt_lookup s i prev) Hprev)
                (proj1 (memoryAt_lookup s (Datatypes.S i) cur) Hcur)) as Hchain.
  exists (realigned (InSeqs prev) stateGrads (StateSize (Block_ s)) 0).
  split_and!.
  - apply injectDiscontinued_realigned. lia.
  - apply length_realigned.
  - intros lane seq Hl Hshort. rewrite (lookup_realigned _ _ _ _ _ _ Hl).
    by rewrite decide_False by lia.
  - intros lane seq Hl Hlong. rewrite (lookup_realigned _ _ _ _ _ _ Hl).
    rewrite decide_True by lia. simpl.
    assert (continuedBefore (InSeqs prev) lane < continued (InSeqs prev))%nat as Hlt.
    { unfold continuedBefore.
      rewrite <- (take_drop lane (InSeqs prev)) at 2.
      unfold continued at 2. rewrite filter_app, length_app.
      rewrite (drop_S _ _ _ Hl), filter_cons, decide_True by lia. simpl.
      unfold continued. lia. }
    destruct (lookup_lt_is_Some_2 stateGrads (continuedBefore (InSeqs prev) lane))
      as [x Hx]; [lia|].
    exists x. by rewrite Hx.
  - unfold filterContinued, Go.range.
    pose proof (filterContinued_realigned stateGrads (StateSize (Block_ s))
                  (InSeqs prev) [] 0 []) as H.
    simpl in H. rewrite H by lia. rewrite drop_0, take_ge by lia. done.
Qed.

Lemma demoStep1_run :
  TimeStep demoGrowth demoSession demoSamples 0 = Some demoStep1.
Proof. reflexivity. Qed.

Lemma demoStep2_run :
  TimeStep demoGrowth demoStep1.1.1 demoStep1.1.2 demoStep1.2 = Some demoStep2.
Proof. reflexivity. Qed.

Lemma demoSession2_chained : chained (cells (memory demoSession2)).
Proof.
  pose proof demoStep1_run as H1. pose proof demoStep2_run as H2.
  destruct demoStep1 as [[s1 rest1] n1] eqn:E1.
  unfold demoSession2. destruct demoStep2 as [[s2 rest2] n2] eqn:E2. simpl in *.
  eapply TimeStep_chained; [|exact H2]. eapply TimeStep_chained; [|exact H1].
  apply chained_nil.
Qed.

(** The first timestep runs both sequences and returns the longer one
    without its first element; the second leaves nothing to run. *)
Example TimeStep_demo :
  (MemoryCount demoSession2, demoStep1.1.2, demoStep2.1.2, demoStep2.2) =
  (2%nat, [ {| Inputs := [[0; 1; 0]; [0; 0; 1]]; Outputs := [[2; 2]; [3; 3]] |} ],
   [ {| Inputs := [[0; 0; 1]]; Outputs := [[3; 3]] |} ], 6%nat).
Proof. vm_compute. reflexivity. Qed.

Lemma TimeStep_appends_one_record_witness :
  (∃ s' rest next',
     TimeStep demoGrowth demoSession demoSamples 0 = Some (s', rest, next') ∧
     MemoryCount s' = 1%nat) ∧
  TimeStep demoGrowth demoSession [emptySample] 0 = Some (demoSession, [], 0%nat).
Proof.
  destruct (TimeStep_appends_one_record demoGrowth demoSession demoSamples 0)
    as (_ & _ & Hstep).
  destruct (TimeStep_appends_one_record demoGrowth demoSession [emptySample] 0)
    as (_ & Hnone & _).
  split.
  - destruct Hstep as [_ Hstep]; [discriminate|].
    destruct Hstep as (s' & step & rest & next' & Hrun & _ & _ & _ & Hcount & _).
    + split.
      * repeat constructor; try discriminate; intros _; discriminate.
      * intros Hpos. vm_compute in Hpos. lia.
    + exists s', rest, next'. split; [done|]. rewrite Hcount. reflexivity.
  - apply Hnone; [reflexivity|]. repeat constructor.
Defined.

Lemma Truncate_keeps_newest_witness :
  ∃ s', Truncate demoSession2 1 = Some s' ∧ MemoryCount s' = 1%nat ∧
        cells (memory s') = drop 1 (cells (memory demoSession2)).
Proof.
  destruct (Truncate_keeps_newest demoSession2 1) as (s' & Hrun & _ & _ & Hcount & Hcells & _).
  - lia.
  - exists s'. split_and!; [done| |].
    + rewrite Hcount. reflexivity.
    + rewrite Hcells. reflexivity.
Defined.

Lemma BackPropagate_empty_memory_noop_witness :
  BackPropagate demoSession demoGradient 2 1 = Some (demoSession, demoGradient, []) ∧
  ∃ s', Truncate demoSession2 0 = Some s' ∧ MemoryCount s' = 0%nat ∧
        BackPropagate s' demoGradient 2 1 = Some (s', demoGradient, []).
Proof.
  destruct BackPropagate_empty_memory_noop as [Hempty Htrunc]. split.
  - apply Hempty. reflexivity.
  - apply Htrunc.
Defined.

(** The gradient [[5; 6]] of the one lane of the second record, realigned
    to the two lanes of the first: lane 1 ended there and gets zeros. *)
Example injectDiscontinued_demo :
  injectDiscontinued demoSamples [[5; 6]] 2 = Some [[5; 6]; [0; 0]].
Proof. reflexivity. Qed.

(** Back-propagation through both records of the demo session, with the
    outputs of the last record alone: two block closures are called, the
    newest record first, and no entry is left for a state variable. *)
Example BackPropagate_demo :
  (λ r, (dom r.1.2, r.2.*1)) <$> BackPropagate demoSession2 demoGradient 1 1 =
  Some (dom demoGradient, [1%nat; 0%nat]).
Proof. vm_compute. reflexivity. Qed.

(** ** Optional capabilities of the sequence functions *)

(** C9, as stated, fails for [Parameters]: a composer whose forward
    sub-function is not a learner reports the parameters of the other two
    and no failure. *)
Lemma Parameters_skips_non_learner :
  sf_Learner (Forward mixedBidirectional) = None ∧
  Bidirectional_Parameters mixedBidirectional = [demoStart; demoStart].
Proof. split; reflexivity. Qed.

Lemma serializers_spec (xs : list SeqFunc) (slice : list Serializer) :
  match serializers xs slice with
  | Ok slice' => mapM sf_Serializer xs = Some (drop (length slice) slice') ∧
                 take (length slice) slice' = slice
  | Err msg => ∃ pre x post, xs = pre ++ x :: post ∧
                 Forall (λ y, is_Some (sf_Serializer y)) pre ∧
                 sf_Serializer x = None ∧
                 msg = "type cannot be serialized: " +:+ sf_TypeName x
  end.
Proof.
  revert slice. induction xs as [|x xs IH]; intros slice; simpl.
  - by rewrite drop_all, firstn_all.
  - destruct (sf_Serializer x) as [s|] eqn:Ex.
    + specialize (IH (slice ++ [s])). destruct (serializers xs (slice ++ [s])) as [slice'|msg].
      * destruct IH as [Hm Ht]. rewrite length_app in Hm, Ht. simpl in Hm, Ht.
        assert (slice' = slice ++ s :: drop (length slice + 1) slice') as Hs.
        { rewrite <- (take_drop (length slice + 1) slice') at 1. rewrite Ht.
          by rewrite <- app_assoc. }
        split.
        -- rewrite Hm. simpl. rewrite Hs at 2. rewrite drop_app_length. done.
        -- rewrite Hs. by rewrite take_app_length.
      * destruct IH as (pre & y & post & -> & Hpre & Hy & ->).
        exists (x :: pre), y, post. split_and!; try done. constructor; [eauto|done].
    + exists [], x, xs. split_and!; try done.
Qed.

(** C9, amended.  [Bidirectional.Serialize] fails when a sub-function is
    not a serializer, with an error that names the type of the first such
    sub-function among forward, backward and output; otherwise it encodes
    the three serializers.  [Bidirectional.Parameters] does not fail: it
    returns the parameters of the sub-functions that are learners, in that
    order, and counts none for the others.  [BlockSeqFunc.Parameters]
    likewise returns no parameter for a block that is not a learner, and
    [BlockSeqFunc.Serialize] fails, naming the block's type, for a block that
    is not a serializer. *)
Theorem Bidirectional_capabilities
    (SerializeWithType : list Z → result (list Z))
    (SerializeSlice : list Serializer → result (list Z)) (b : Bidirectional) :
  ((∃ x, x ∈ [Forward b; Backward b; Output_ b] ∧ sf_Serializer x = None) →
   ∃ pre x post,
     [Forward b; Backward b; Output_ b] = pre ++ x :: post ∧
     Forall (λ y, is_Some (sf_Serializer y)) pre ∧ sf_Serializer x = None ∧
     Bidirectional_Serialize SerializeSlice b =
       Err ("type cannot be serialized: " +:+ sf_TypeName x)) ∧
  (∀ sf sb so,
     sf_Serializer (Forward b) = Some sf → sf_Serializer (Backward b) = Some sb →
     sf_Serializer (Output_ b) = Some so →
     Bidirectional_Serialize SerializeSlice b = SerializeSlice [sf; sb; so]) ∧
  Bidirectional_Parameters b =
    default [] (sf_Learner (Forward b)) ++ default [] (sf_Learner (Backward b)) ++
    default [] (sf_Learner (Output_ b)) ∧
  (∀ block,
     BlockSeqFunc_Parameters block = default [] (block_Learner block) ∧
     (block_Serializer block = None →
      BlockSeqFunc_Serialize SerializeWithType block =
        Err ("type is not a Serializer: " +:+ block_TypeName block))).
Proof.
  split_and!.
  - intros (x & Hx & Hnone). unfold Bidirectional_Serialize.
    pose proof (serializers_spec [Forward b; Backward b; Output_ b] []) as H.
    destruct (serializers _ _) as [slice|msg].
    + destruct H as [Hm _]. apply mapM_Some in Hm.
      apply list_elem_of_lookup in Hx as [i Hi].
      destruct (Forall2_lookup_l _ _ _ _ _ Hm Hi) as (s & _ & Hs). congruence.
    + destruct H as (pre & y & post & Heq & Hpre & Hy & ->).
      exists pre, y, post. done.
  - intros sf sb so Hf Hb Ho. unfold Bidirectional_Serialize. simpl.
    by rewrite Hf, Hb, Ho.
  - unfold Bidirectional_Parameters. simpl.
    destruct (sf_Learner (Forward b)), (sf_Learner (Backward b)), (sf_Learner (Output_ b));
      simpl; by rewrite <- ?app_assoc, ?app_nil_r.
  - intros block. split.
    + unfold BlockSeqFunc_Parameters. by destruct (block_Learner block).
    + intros Hnone. unfold BlockSeqFunc_Serialize. by rewrite Hnone.
Qed.

Lemma Bidirectional_capabilities_witness :
  Bidirectional_Serialize demoSerializeSlice mixedBidirectional =
    Err "type cannot be serialized: *rnntest.PassThrough".
Proof.
  destruct (Bidirectional_capabilities demoSerializeWithType demoSerializeSlice
              mixedBidirectional) as (Hser & _).
  destruct Hser as (pre & x & post & Heq & Hpre & Hx & ->).
  - exists passThrough. split; [left|reflexivity].
  - destruct pre as [|y pre].
    + injection Heq as <- _. reflexivity.
    + exfalso. injection Heq as <- _. apply Forall_cons in Hpre as [[? Hy] _]. done.
Defined.

(** ** The session: what a timestep feeds the block, and the window of a
       back-propagation *)

Import Window.

(** X1.  When [TimeStep] returns on a batch that is not empty, the record it
    appends holds the output of the block on one input and one state
    variable per sequence, allocated in lane order: the input variable holds
    the first input of the sequence, and the state variable holds the start
    state of the block on the first call and, on a later call, the state
    that the last record put out for the lane that the sequence continues.
    No sequence of the batch is without input, and on a later call the
    batch has as many sequences as the last record has sequences that go
    on. *)
Theorem TimeStep_feeds_block (growth : nat → nat) (s : seqProp) (inSeqs : list Sample)
    (next : nat) s' rest next' :
  TimeStep growth s inSeqs next = Some (s', rest, next') →
  stepBatch s inSeqs ≠ [] →
  ∃ lastStates step,
    (MemoryCount s = 0%nat →
       lastStates = replicate (length (stepBatch s inSeqs)) (Output (StartState (Block_ s)))) ∧
    ((0 < MemoryCount s)%nat →
       ∃ last, memoryAt s (Z.of_nat (MemoryCount s) - 1) = Some last ∧
         filterContinued (InSeqs last) (out_States (step_Output last)) = Some lastStates ∧
         continued (InSeqs last) = length (stepBatch s inSeqs)) ∧
    length lastStates = length (stepBatch s inSeqs) ∧
    Forall (λ seq, Inputs seq ≠ []) (stepBatch s inSeqs) ∧
    cells (memory s') = cells (memory s) ++ [Some step] ∧
    InSeqs step = stepBatch s inSeqs ∧
    InStates step = stateVarsAt next lastStates ∧
    step_Output step =
      Batch (Block_ s) {| in_States := stateVarsAt next lastStates;
                          in_Inputs := inputVarsAt next (stepBatch s inSeqs) |} ∧
    next' = (next + 2 * length (stepBatch s inSeqs))%nat.
Proof.
  intros Hrun Hne. unfold TimeStep in Hrun.
  rewrite decide_False in Hrun by (by destruct (stepBatch s inSeqs)).
  destruct (headInput s _ next) as [[input n]|] eqn:Hhead; [|done].
  cbn [mbind option_bind fst snd] in Hrun.
  destruct (removeFirst _) as [rest'|]; [|done]. cbn [mbind option_bind] in Hrun.
  injection Hrun as <- <- <-.
  apply headInput_vals in Hhead
    as (lastStates & Hfirst & Hlater & Hlen & Hall & Hst & Hin & ->).
  eexists lastStates, _. cbn [memory]. rewrite cells_appendStep.
  split_and!; try done; cbn [InStates step_Output InSeqs]; try done.
  f_equal. destruct input as [sts ins]. simpl in *. by subst.
Qed.

Lemma TimeStep_feeds_block_witness :
  ∃ lastStates step,
    length lastStates = 1%nat ∧
    cells (memory demoSession2) = cells (memory demoStep1.1.1) ++ [Some step] ∧
    InStates step = stateVarsAt 4 lastStates.
Proof.
  destruct (TimeStep_feeds_block demoGrowth demoStep1.1.1 demoStep1.1.2 demoStep1.2
              demoStep2.1.1 demoStep2.1.2 demoStep2.2)
    as (lastStates & step & _ & _ & Hlen & _ & Hcells & _ & Hstates & _).
  - rewrite demoStep2_run. reflexivity.
  - vm_compute. discriminate.
  - exists lastStates, step. split_and!; [exact Hlen|exact Hcells|exact Hstates].
Defined.

(** *** A returned batch goes into the next timestep *)

Lemma TimeStep_ready growth (s : seqProp) (inSeqs : list Sample) next :
  stepBatch s inSeqs ≠ [] → batchReady s (stepBatch s inSeqs) →
  ∃ s' next',
    TimeStep growth s inSeqs next =
      Some (s', consumed <$> filter (λ seq, length (Inputs seq) ≠ 1%nat) (stepBatch s inSeqs),
            next') ∧
    MemoryCount s' = Datatypes.S (MemoryCount s).
Proof.
  intros Hne Hready.
  destruct (headInput_spec s (stepBatch s inSeqs) next Hready) as (input & Hhead & Hs & Hi).
  unfold TimeStep. rewrite decide_False by (by destruct (stepBatch s inSeqs)).
  rewrite Hhead. cbn [mbind option_bind fst snd].
  rewrite removeFirst_spec by apply Hready. cbn [mbind option_bind].
  eexists _, _. split; [reflexivity|].
  unfold MemoryCount. cbn [memory]. rewrite cells_appendStep, length_app. simpl. lia.
Qed.

Lemma memoryAt_last (s : seqProp) mem :
  (0 < MemoryCount s)%nat →
  cells (memory s) !! (MemoryCount s - 1)%nat = Some (Some mem) →
  memoryAt s (Z.of_nat (MemoryCount s) - 1) = Some mem.
Proof.
  intros Hpos Hcell. replace (Z.of_nat (MemoryCount s) - 1) with (Z.of_nat (MemoryCount s - 1)) by lia.
  by apply memoryAt_lookup.
Qed.

Lemma stepBatch_targeted (s : seqProp) inSeqs :
  Forall targeted inSeqs → Forall targeted (stepBatch s inSeqs).
Proof.
  intros Hall. unfold stepBatch. destruct (decide _); [|done].
  rewrite removeEmpty_filter. rewrite Forall_forall in Hall |- *.
  intros seq [_ Hseq]%list_elem_of_filter. by apply Hall.
Qed.

Lemma continued_filter (batch : list Sample) :
  Forall (λ seq, Inputs seq ≠ []) batch →
  continued batch = length (filter (λ seq, length (Inputs seq) ≠ 1%nat) batch).
Proof.
  unfold continued. induction 1 as [|seq batch Hin _ IH]; [done|].
  rewrite !filter_cons.
  destruct (Inputs seq) as [|x [|y xs]] eqn:E; [done| |]; simpl in *.
  - done.
  - by rewrite IH.
Qed.

(** X2.  The batch that a timestep returns can be fed to the next timestep:
    for a block that puts out one state per lane and sequences that have a
    target for each input, a call of [TimeStep] that returns a batch that is
    not empty is followed by a call on that batch that returns as well, with
    one more record in memory, and the returned sequences again have a
    target for each input. *)
Theorem TimeStep_result_feeds_next (growth : nat → nat) (s : seqProp)
    (inSeqs : list Sample) (next : nat) s' rest next' :
  Block_wf (Block_ s) →
  Forall targeted inSeqs →
  TimeStep growth s inSeqs next = Some (s', rest, next') →
  rest ≠ [] →
  Forall targeted rest ∧
  ∃ s'' rest' next'',
    TimeStep growth s' rest next' = Some (s'', rest', next'') ∧
    MemoryCount s'' = Datatypes.S (Datatypes.S (MemoryCount s)).
Proof.
  intros Hwf Htargeted Hrun Hrest.
  apply (stepBatch_targeted s) in Htargeted.
  unfold TimeStep in Hrun. destruct (decide (length (stepBatch s inSeqs) = 0%nat)) as [|Hne].
  { injection Hrun as _ <- _. done. }
  set (batch := stepBatch s inSeqs) in *.
  destruct (headInput s batch next) as [[input n]|] eqn:Hhead; [|done].
  cbn [mbind option_bind fst snd] in Hrun.
  apply headInput_vals in Hhead
    as (lastStates & _ & _ & Hlen & Hall & Hst & _ & ->).
  assert (Forall (λ seq, Inputs seq ≠ [] ∧ Outputs seq ≠ []) batch) as Hboth.
  { rewrite Forall_forall in Hall, Htargeted |- *. intros seq Hseq.
    specialize (Hall seq Hseq). specialize (Htargeted seq Hseq). unfold targeted in Htargeted.
    split; [done|]. destruct (Inputs seq), (Outputs seq); simpl in *; try done. lia. }
  rewrite removeFirst_spec in Hrun by (eapply Forall_impl; [exact Hboth|]; by intros seq []). cbn [mbind option_bind] in Hrun.
  injection Hrun as <- <- <-.
  set (step := {| step_StartState := _ |}).
  set (s' := {| Block_ := Block_ s |}).
  assert (MemoryCount s' = Datatypes.S (MemoryCount s)) as Hcount.
  { unfold MemoryCount, s'. cbn [memory]. rewrite cells_appendStep, length_app. simpl. lia. }
  assert (Forall targeted (consumed <$> filter (λ seq, length (Inputs seq) ≠ 1%nat) batch))
    as Hnext.
  { apply Forall_fmap, Forall_forall. intros seq [_ Hseq]%list_elem_of_filter.
    rewrite Forall_forall in Htargeted. specialize (Htargeted seq Hseq).
    unfold targeted in *. simpl. rewrite !length_drop. lia. }
  split; [done|].
  set (rest := consumed <$> _) in *.
  assert (stepBatch s' rest = rest) as Hbatch.
  { unfold stepBatch. rewrite decide_False; [done|lia]. }
  destruct (TimeStep_ready growth s' rest (next + 2 * length batch)) as (s'' & n'' & Hrun & Hc).
  - by rewrite Hbatch.
  - rewrite Hbatch. split.
    + apply Forall_fmap, Forall_forall. intros seq [Hone Hseq]%list_elem_of_filter.
      rewrite Forall_forall in Hboth, Htargeted.
      destruct (Hboth seq Hseq) as [Hin _]. specialize (Htargeted seq Hseq).
      unfold targeted in Htargeted. simpl. split; [|intros _];
      destruct (Inputs seq) as [|x [|y xs]], (Outputs seq) as [|o [|p os]];
        simpl in *; try done; lia.
    + intros _. exists step. split_and!.
      * apply memoryAt_last; [lia|]. rewrite Hcount.
        unfold s'. cbn [memory]. rewrite cells_appendStep.
        replace (Datatypes.S (MemoryCount s) - 1)%nat with (length (cells (memory s)) + 0)%nat
          by (unfold MemoryCount; lia).
        by rewrite lookup_app_r, Nat.add_sub' by lia.
      * unfold step. cbn [InSeqs]. unfold rest. rewrite length_fmap.
        by apply continued_filter.
      * unfold step. cbn [InSeqs step_Output]. intros lane seq Hlane _.
        apply lookup_lt_Some in Hlane.
        destruct (Hwf input) as [_ ->]. rewrite Hst. unfold stateVarsAt.
        rewrite length_imap. lia.
  - exists s'', (consumed <$> filter (λ seq, length (Inputs seq) ≠ 1%nat) (stepBatch s' rest)), n''.
    split; [done|]. lia.
Qed.

Lemma TimeStep_result_feeds_next_witness :
  ∃ s'' rest' next'',
    TimeStep demoGrowth demoStep1.1.1 demoStep1.1.2 demoStep1.2 = Some (s'', rest', next'') ∧
    MemoryCount s'' = 2%nat.
Proof.
  destruct (TimeStep_result_feeds_next demoGrowth demoSession demoSamples 0
              demoStep1.1.1 demoStep1.1.2 demoStep1.2)
    as (_ & s'' & rest' & next'' & Hrun & Hcount).
  - exact demoBlock_wf.
  - repeat constructor; unfold targeted; simpl; lia.
  - rewrite demoStep1_run. reflexivity.
  - vm_compute. discriminate.
  - exists s'', rest', next''. split; [exact Hrun|]. rewrite Hcount. reflexivity.
Defined.

(** *** filterContinued *)

(** X3.  When [filterContinued] returns, its result has one vector per
    sequence with more than one input, and the vector of such a sequence at
    lane [lane] is found at the number of such sequences before that
    lane. *)
Theorem filterContinued_keeps_continuing (seqs : list Sample) (ins res : list Vector) :
  filterContinued seqs ins = Some res →
  length res = continued seqs ∧
  ∀ lane seq, seqs !! lane = Some seq → (1 < length (Inputs seq))%nat →
    ∃ x, ins !! lane = Some x ∧ res !! continuedBefore seqs lane = Some x.
Proof.
  intros Hrun. split; [by apply (filterContinued_length _ ins)|].
  apply filterContinued_from_lookup in Hrun as (tail & -> & Htail). exact Htail.
Qed.

Lemma filterContinued_keeps_continuing_witness :
  ∃ x, [[1; 2]; [3; 4]] !! 0%nat = Some x ∧
       [[1; 2]] !! continuedBefore demoSamples 0 = Some x.
Proof.
  destruct (filterContinued_keeps_continuing demoSamples [[1; 2]; [3; 4]] [[1; 2]])
    as [_ Hat].
  - reflexivity.
  - apply (Hat 0%nat (mkSample [[1; 0; 0]; [0; 1; 0]; [0; 0; 1]] [[1; 1]; [2; 2]; [3; 3]])).
    + reflexivity.
    + simpl. lia.
Defined.

(** *** Truncate *)

(** X4.  Truncating to [n] and then to [m] records is truncating to the
    smaller of the two. *)
Theorem Truncate_twice (s : seqProp) (n m : Z) :
  0 ≤ n → 0 ≤ m →
  Truncate s n ≫= (λ s', Truncate s' m) = Truncate s (Z.min n m).
Proof.
  intros Hn Hm.
  destruct (decide (Z.of_nat (MemoryCount s) ≤ n)) as [Hshort|Hlong].
  - rewrite (Truncate_short s n) by done. simpl.
    destruct (decide (Z.of_nat (MemoryCount s) ≤ m)).
    + by rewrite !Truncate_short by lia.
    + by rewrite Z.min_r by lia.
  - rewrite <- (Z2Nat.id n) at 1 by done. rewrite Truncate_long by lia. simpl.
    set (s' := {| Block_ := Block_ s |}).
    assert (MemoryCount s' = Z.to_nat n) as Hcount.
    { unfold MemoryCount in *. unfold s'. cbn [memory cells]. rewrite length_drop. lia. }
    destruct (decide (n ≤ m)).
    + rewrite Z.min_l by done. rewrite Truncate_short by lia.
      rewrite <- (Z2Nat.id n) at 1 by done. by rewrite Truncate_long by lia.
    + rewrite Z.min_r by lia. rewrite <- (Z2Nat.id m) by done.
      rewrite !Truncate_long by lia. rewrite Hcount. f_equal. unfold s'.
      cbn [Block_ CostFunc memory cells spare]. f_equal. f_equal.
      * rewrite drop_drop. f_equal. lia.
      * rewrite app_assoc, <- replicate_add. f_equal. f_equal. lia.
Qed.

Lemma Truncate_twice_witness :
  Truncate demoSession2 1 ≫= (λ s', Truncate s' 0) = Truncate demoSession2 0.
Proof. apply (Truncate_twice demoSession2 1 0); lia. Defined.

(** X5.  [Truncate] with a negative count [n] panics when the number of
    records to remove, [count - n], does not overflow: it slices the memory
    beyond its length. *)
Theorem Truncate_negative (s : seqProp) (n : Z) :
  n < 0 → isInt (Z.of_nat (MemoryCount s) - n) → Truncate s n = None.
Proof.
  intros Hn _. unfold Truncate. rewrite decide_False by lia.
  unfold Go.suffix. rewrite decide_False; [done|]. unfold MemoryCount. lia.
Qed.

Lemma Truncate_negative_witness : Truncate demoSession2 (-1) = None.
Proof.
  apply Truncate_negative; [lia|].
  assert (MemoryCount demoSession2 = 2%nat) as -> by reflexivity.
  unfold isInt, minInt, maxInt. lia.
Defined.

(** *** The window of BackPropagate *)

Lemma headOutputs_from (s : seqProp) (mem : seqPropStep) (rest : list Vector) i acc outs :
  Go.rangeFrom i (λ lane output outs,
      seq ← InSeqs mem !! lane;
      desiredOut ← Outputs seq !! 0%nat;
      Some (outs ++ [CostFunc s desiredOut output])) rest acc = Some outs →
  ∃ tail, outs = acc ++ tail ∧ length tail = length rest ∧
    ∀ k output, rest !! k = Some output →
      ∃ seq desired, InSeqs mem !! (i + k)%nat = Some seq ∧
        Outputs seq !! 0%nat = Some desired ∧
        tail !! k = Some (CostFunc s desired output).
Proof.
  revert i acc. induction rest as [|output rest IH]; intros i acc Hrun.
  - injection Hrun as <-. exists []. split_and!; [by rewrite app_nil_r|done|by intros k o].
  - simpl in Hrun. destruct (InSeqs mem !! i) as [seq|] eqn:Hseq; [|done]. simpl in Hrun.
    destruct (Outputs seq !! 0%nat) as [desired|] eqn:Hdesired; [|done]. simpl in Hrun.
    apply IH in Hrun as (tail & -> & Hlen & Htail).
    exists (CostFunc s desired output :: tail).
    split_and!; [by rewrite <- app_assoc|simpl; by rewrite Hlen|].
    intros [|k] o Ho; simpl in Ho.
    + injection Ho as <-. exists seq, desired. by rewrite Nat.add_0_r.
    + destruct (Htail k o Ho) as (seq' & d' & ? & ? & ?). exists seq', d'.
      by rewrite <- Nat.add_succ_comm.
Qed.

Lemma headOutputs_cost (s : seqProp) (mem : seqPropStep) outs :
  headOutputs s mem = Some outs → costGradients s mem outs.
Proof.
  intros (tail & -> & Hlen & Htail)%headOutputs_from. split; [done|exact Htail].
Qed.

Lemma dom_stateEntries (g : Gradient) (zero : Vector) (vs : list Var) :
  dom (foldl (λ g state, <[addr state := zero]> g) g vs) =
    dom g ∪ list_to_set (addr <$> vs).
Proof.
  revert g. induction vs as [|v vs IH]; intros g; simpl; [set_solver|].
  rewrite IH, dom_insert_L. set_solver.
Qed.

(** One iteration of the loop: the call it logs and the entries it leaves. *)
Lemma bpStep_inv (s : seqProp) lowIdx lowHead gis (i : nat) st st' :
  bpStep s lowIdx lowHead gis i st = Some st' →
  ∃ mem u g1,
    memoryAt s (Z.of_nat i) = Some mem ∧
    bp_calls st' = bp_calls st ++ [(i, u)] ∧
    (if decide (lowHead ≤ Z.of_nat i) then costGradients s mem (up_Outputs u)
     else up_Outputs u = []) ∧
    out_Gradient (step_Output mem) u
      (if bool_decide (lowIdx < i)%nat || gis
       then foldl (λ g state, <[addr state := make (StateSize (Block_ s))]> g)
              (bp_g st) (InStates mem)
       else bp_g st) = Some g1 ∧
    bp_g st' = (if bool_decide (lowIdx < i)%nat || gis then deleteAll g1 (InStates mem)
                else g1).
Proof.
  unfold bpStep. intros Hrun.
  destruct (memoryAt s (Z.of_nat i)) as [mem|]; [|done]. cbn [mbind option_bind] in Hrun.
  destruct (if decide (lowHead ≤ Z.of_nat i) then _ else _) as [outputs|] eqn:Houts;
    [|done]. cbn [mbind option_bind] in Hrun.
  destruct (out_Gradient _ _ _) as [g1|] eqn:Hgrad; [|done]. cbn [mbind option_bind] in Hrun.
  exists mem, {| up_States := up_States (bp_upstream st); up_Outputs := outputs |}, g1.
  assert (if decide (lowHead ≤ Z.of_nat i) then costGradients s mem outputs
          else outputs = []) as Hcost.
  { destruct (decide _); [by apply headOutputs_cost|by injection Houts]. }
  destruct (bool_decide (lowIdx < i)%nat || gis) eqn:Hwith.
  - destruct (decide (0 < length _)%nat) as [Hsome|Hnone].
    + destruct (if decide (0 < i)%nat then _ else _) as [states|]; [|done].
      cbn [mbind option_bind] in Hrun. injection Hrun as <-. done.
    + injection Hrun as <-. cbn [bp_calls bp_g]. split_and!; try done.
      rewrite length_fmap in Hnone. destruct (InStates mem); [done|simpl in Hnone; lia].
  - rewrite decide_False in Hrun by (simpl; lia). injection Hrun as <-. done.
Qed.

Lemma bpLoop_inv (s : seqProp) lowIdx lowHead gis (n : nat) st st' :
  (∀ i mem u (g1 g2 : Gradient), memoryAt s i = Some mem →
     out_Gradient (step_Output mem) u g1 = Some g2 → dom g2 = dom g1) →
  bpLoop s lowIdx lowHead gis n st = Some st' →
  dom (bp_g st') = dom (bp_g st) ∖ stateKeys s lowIdx gis n.
Proof.
  intros Hblock. revert st. induction n as [|n IH]; intros st Hrun.
  - injection Hrun as <-. unfold stateKeys. simpl. set_solver.
  - simpl in Hrun. destruct (bpStep _ _ _ _ _ _) as [st1|] eqn:Hstep; [|done].
    simpl in Hrun. apply IH in Hrun. rewrite Hrun.
    apply bpStep_inv in Hstep as (mem & u & g1 & Hmem & _ & _ & Hgrad & Hg).
    apply (Hblock _ _ _ _ _ Hmem) in Hgrad. unfold stateKeys.
    rewrite seq_S, fmap_app, union_list_app_L. simpl. rewrite Hmem, Hg.
    destruct (bool_decide _ || gis).
    + rewrite dom_deleteAll, Hgrad, dom_stateEntries. set_solver.
    + rewrite Hgrad. set_solver.
Qed.

Lemma bpLoop_calls (s : seqProp) lowIdx lowHead gis (n : nat) st st' :
  bpLoop s lowIdx lowHead gis n st = Some st' →
  ∃ calls, bp_calls st' = bp_calls st ++ calls ∧
    calls.*1 = reverse (seq lowIdx n) ∧
    ∀ i u, (i, u) ∈ calls →
      ∃ mem, memoryAt s (Z.of_nat i) = Some mem ∧
        if decide (lowHead ≤ Z.of_nat i) then costGradients s mem (up_Outputs u)
        else up_Outputs u = [].
Proof.
  revert st. induction n as [|n IH]; intros st Hrun.
  - injection Hrun as <-. exists []. split_and!; [by rewrite app_nil_r|done|].
    intros i u Hin. by apply elem_of_nil in Hin.
  - simpl in Hrun. destruct (bpStep _ _ _ _ _ _) as [st1|] eqn:Hstep; [|done].
    simpl in Hrun. apply IH in Hrun as (calls & Hcalls & Hidx & Hall).
    apply bpStep_inv in Hstep as (mem & u & g1 & Hmem & Hlog & Hcost & _).
    exists ((lowIdx + n, u)%nat :: calls). split_and!.
    + by rewrite Hcalls, Hlog, <- app_assoc.
    + rewrite seq_S, reverse_app, fmap_cons, Hidx. reflexivity.
    + intros i u' [Heq|Hin]%elem_of_cons.
      * injection Heq as -> ->. by exists mem.
      * by apply Hall.
Qed.

(** X6.  When the sizes of the window do not overflow, [BackPropagate]
    with a head size other than zero on a memory that is not empty returns
    only for a window of at least one record; it then
    leaves the session as it is and calls the gradient closure of each
    record of the window once, from the newest record back to the oldest.
    The closure of a record in the head is given, for each output of the
    record, what the cost function makes of the first target of the lane
    and the output; the closure of a record in the tail is given no output
    gradients. *)
Theorem BackPropagate_visits_window (s : seqProp) (g : Gradient) (headSize tailSize : Z)
    s' g' calls :
  windowFits s headSize tailSize →
  BackPropagate s g headSize tailSize = Some (s', g', calls) →
  headSize ≠ 0 → (0 < MemoryCount s)%nat →
  0 < headSize + tailSize ∧ s' = s ∧
  calls.*1 = reverse (seq (lowIndex s headSize tailSize)
                        (MemoryCount s - lowIndex s headSize tailSize)) ∧
  length calls = Z.to_nat (Z.min (Z.of_nat (MemoryCount s)) (headSize + tailSize)) ∧
  ∀ i u, (i, u) ∈ calls →
    ∃ mem, memoryAt s (Z.of_nat i) = Some mem ∧
      if decide (Z.of_nat (MemoryCount s) - headSize ≤ Z.of_nat i)
      then costGradients s mem (up_Outputs u)
      else up_Outputs u = [].
Proof.
  intros _ Hrun Hhead Hcount. unfold BackPropagate in Hrun.
  rewrite decide_False in Hrun by (intros [|]; [done|lia]).
  set (count := Z.of_nat (MemoryCount s)) in *.
  set (low := if decide (count - (headSize + tailSize) < 0) then 0
              else count - (headSize + tailSize)) in *.
  assert (Z.to_nat low = lowIndex s headSize tailSize) as Hlow.
  { unfold low, lowIndex. fold count. destruct (decide _); lia. }
  destruct (memoryAt s low) as [first|] eqn:Hfirst; [|done]. cbn [mbind option_bind] in Hrun.
  assert (0 < headSize + tailSize) as Hwindow.
  { unfold memoryAt, Go.index in Hfirst. destruct (decide (0 ≤ low)); [|done].
    destruct (cells (memory s) !! Z.to_nat low) as [c|] eqn:Hc; [|done].
    apply lookup_lt_Some in Hc. unfold MemoryCount in count.
    unfold low in Hc. destruct (decide (count - _ < 0)); lia. }
  destruct (bpLoop _ _ _ _ _ _) as [st|] eqn:Hloop; [|done]. cbn [mbind option_bind] in Hrun.
  destruct (if bool_decide _ then _ else _) as [g1|]; [|done]. cbn [mbind option_bind] in Hrun.
  injection Hrun as <- <- <-.
  apply bpLoop_calls in Hloop as (calls & Hcalls & Hidx & Hall). simpl in Hcalls. subst calls.
  rewrite Hlow in Hidx. split_and!; try done.
  rewrite <- (length_fmap fst), Hidx, length_reverse, length_seq.
  unfold lowIndex. fold count. lia.
Qed.

Lemma BackPropagate_visits_window_witness :
  ∃ calls, calls.*1 = [1%nat; 0%nat] ∧
    ∀ i u, (i, u) ∈ calls → (i < 1)%nat → up_Outputs u = [].
Proof.
  destruct (BackPropagate demoSession2 demoGradient 1 1) as [[[s' g'] calls]|] eqn:Hrun;
    [|vm_compute in Hrun; discriminate].
  assert (MemoryCount demoSession2 = 2%nat) as Hcount2 by reflexivity.
  destruct (BackPropagate_visits_window demoSession2 demoGradient 1 1 s' g' calls)
    as (_ & _ & Hidx & _ & Hall).
  - unfold windowFits, isInt, minInt, maxInt. rewrite Hcount2. lia.
  - exact Hrun.
  - lia.
  - vm_compute. lia.
  - exists calls. split; [exact Hidx|].
    intros i u Hin Hi. destruct (Hall i u Hin) as (mem & _ & Hout).
    assert (MemoryCount demoSession2 = 2%nat) as Hcount by reflexivity.
    rewrite Hcount, decide_False in Hout; [exact Hout|lia].
Defined.

(** X7.  When the gradient closures of the records and the start state
    neither add nor remove accumulator entries, [BackPropagate] leaves the
    accumulator with the keys it had, without those of the state variables
    of the records of its window, the oldest record apart unless it holds
    the start state. *)
Theorem BackPropagate_removes_state_entries (s : seqProp) (g : Gradient)
    (headSize tailSize : Z) s' g' calls :
  (∀ i mem u (g1 g2 : Gradient), memoryAt s i = Some mem →
     out_Gradient (step_Output mem) u g1 = Some g2 → dom g2 = dom g1) →
  (∀ mem start u (g1 g2 : Gradient), memoryAt s 0 = Some mem →
     step_StartState mem = Some start →
     PropagateGradient start u g1 = Some g2 → dom g2 = dom g1) →
  BackPropagate s g headSize tailSize = Some (s', g', calls) →
  headSize ≠ 0 →
  dom g' = dom g ∖ stateKeys s (lowIndex s headSize tailSize)
                     (reachesStart s headSize tailSize)
                     (MemoryCount s - lowIndex s headSize tailSize).
Proof.
  intros Hblock Hstart Hrun Hhead. unfold BackPropagate in Hrun.
  destruct (decide (headSize = 0 ∨ MemoryCount s = 0%nat)) as [[|Hzero]|Hgo]; [done| |].
  { injection Hrun as <- <- <-. rewrite Hzero. unfold stateKeys. simpl. set_solver. }
  set (count := Z.of_nat (MemoryCount s)) in *.
  set (low := if decide (count - (headSize + tailSize) < 0) then 0
              else count - (headSize + tailSize)) in *.
  assert (low = Z.of_nat (lowIndex s headSize tailSize)) as Hlow.
  { unfold low, lowIndex. fold count. destruct (decide _); lia. }
  destruct (memoryAt s low) as [first|] eqn:Hfirst; [|done]. cbn [mbind option_bind] in Hrun.
  assert (reachesStart s headSize tailSize = bool_decide (is_Some (step_StartState first)))
    as Hreach.
  { unfold reachesStart. by rewrite <- Hlow, Hfirst. }
  rewrite <- Hreach in Hrun. rewrite Hlow, Nat2Z.id in Hrun.
  destruct (bpLoop _ _ _ _ _ _) as [st|] eqn:Hloop; [|done]. cbn [mbind option_bind] in Hrun.
  apply bpLoop_inv in Hloop; [|done]. simpl in Hloop. rewrite <- Hloop.
  destruct (reachesStart s headSize tailSize).
  - destruct (memoryAt s 0) as [mem0|] eqn:Hmem0; [|done]. cbn [mbind option_bind] in Hrun.
    destruct (step_StartState mem0) as [start|] eqn:Hstart0; [|done].
    cbn [mbind option_bind] in Hrun.
    destruct (Go.forEach _ _ _) as [g1|] eqn:Hprop; [|done]. cbn [mbind option_bind] in Hrun.
    injection Hrun as <- <- <-. clear -Hprop Hstart Hmem0 Hstart0.
    revert Hprop. generalize (bp_g st). induction (up_States (bp_upstream st)) as [|u us IH];
      intros g0 Hprop.
    + by injection Hprop as <-.
    + simpl in Hprop. destruct (PropagateGradient start u g0) as [g2|] eqn:Hp; [|done].
      apply IH in Hprop. rewrite Hprop. by eapply Hstart.
  - by injection Hrun as <- <- <-.
Qed.

Lemma demoSession2_records :
  Forall (λ c, ∃ mem input, c = Some mem ∧ step_Output mem = demoBatch input ∧
                (step_StartState mem = None ∨
                 step_StartState mem = Some (varResult demoStart)))
    (cells (memory demoSession2)).
Proof.
  assert (∃ c1 c2, cells (memory demoSession2) = [c1; c2] ∧
            (∃ mem input, c1 = Some mem ∧ step_Output mem = demoBatch input ∧
               (step_StartState mem = None ∨ step_StartState mem = Some (varResult demoStart))) ∧
            (∃ mem input, c2 = Some mem ∧ step_Output mem = demoBatch input ∧
               (step_StartState mem = None ∨ step_StartState mem = Some (varResult demoStart))))
    as (c1 & c2 & -> & H1 & H2).
  { eexists _, _. split; [reflexivity|].
    split; eexists _, _; (split; [reflexivity|]); (split; [reflexivity|]);
      [by right|by left]. }
  by repeat constructor.
Qed.

Lemma BackPropagate_removes_state_entries_witness :
  ∃ s' g' calls,
    BackPropagate demoSession2 demoGradient 1 1 = Some (s', g', calls) ∧
    dom g' = dom demoGradient ∖ stateKeys demoSession2 0 true 2.
Proof.
  destruct (BackPropagate demoSession2 demoGradient 1 1) as [[[s' g'] calls]|] eqn:Hrun;
    [|vm_compute in Hrun; discriminate].
  exists s', g', calls. split; [reflexivity|].
  apply (BackPropagate_removes_state_entries demoSession2 demoGradient 1 1 s' g' calls).
  - intros i mem u g1 g2 Hmem Hgrad.
    unfold memoryAt in Hmem. destruct (Go.index _ i) as [c|] eqn:Hc; [|discriminate].
    apply index_elem_of in Hc. pose proof demoSession2_records as Hall.
    rewrite Forall_forall in Hall. destruct (Hall c Hc) as (mem' & input & -> & Hout & _).
    simpl in Hmem. injection Hmem as ->. rewrite Hout in Hgrad.
    exact (demoBatch_dom input u g1 g2 Hgrad).
  - intros mem start u g1 g2 Hmem Hstart Hprop.
    unfold memoryAt in Hmem. destruct (Go.index _ 0) as [c|] eqn:Hc; [|discriminate].
    apply index_elem_of in Hc. pose proof demoSession2_records as Hall.
    rewrite Forall_forall in Hall. destruct (Hall c Hc) as (mem' & input & -> & _ & Hs).
    simpl in Hmem. injection Hmem as ->. rewrite Hstart in Hs.
    destruct Hs as [Hs|Hs]; [discriminate|]. injection Hs as ->.
    exact (varResult_propagate_dom demoStart u g1 g2 Hprop).
  - exact Hrun.
  - lia.
Defined.

(** *** What a session built by TimeStep and Truncate looks like *)

Lemma startOnlyFirst_drop cs k : startOnlyFirst cs → startOnlyFirst (drop k cs).
Proof.
  intros Hcs i mem Hi Hmem. rewrite lookup_drop in Hmem. apply (Hcs (k + i)%nat); [lia|done].
Qed.

Lemma Truncate_cells (s s' : seqProp) (n : Z) :
  Truncate s n = Some s' →
  0 ≤ n ∧ Block_ s' = Block_ s ∧ CostFunc s' = CostFunc s ∧
  cells (memory s') = drop (MemoryCount s - Z.to_nat n) (cells (memory s)).
Proof.
  intros Hrun. destruct (decide (0 ≤ n)) as [Hn|Hneg].
  2:{ unfold Truncate, Go.suffix in Hrun. rewrite decide_False in Hrun by lia.
      rewrite decide_False in Hrun; [done|]. unfold MemoryCount. lia. }
  split; [done|]. destruct (decide (Z.of_nat (MemoryCount s) ≤ n)) as [Hshort|Hlong].
  - rewrite Truncate_short in Hrun by done. injection Hrun as <-.
    replace (MemoryCount s - Z.to_nat n)%nat with 0%nat by lia. done.
  - rewrite <- (Z2Nat.id n) in Hrun by done. rewrite Truncate_long in Hrun by lia.
    by injection Hrun as <-.
Qed.

Lemma TimeStep_inv growth (s s' : seqProp) inSeqs next rest next' :
  TimeStep growth s inSeqs next = Some (s', rest, next') →
  s' = s ∨
  ∃ step, cells (memory s') = cells (memory s) ++ [Some step] ∧
    Block_ s' = Block_ s ∧ CostFunc s' = CostFunc s ∧
    (step_StartState step = None ∨ MemoryCount s = 0%nat).
Proof.
  unfold TimeStep. intros Hrun. destruct (decide (length (stepBatch s inSeqs) = 0%nat)).
  { injection Hrun as <- _ _. by left. }
  destruct (headInput s _ next) as [input|]; [|done]. cbn [mbind option_bind] in Hrun.
  destruct (removeFirst _) as [rest'|]; [|done]. cbn [mbind option_bind] in Hrun.
  injection Hrun as <- _ _. right. eexists. cbn [memory Block_ CostFunc].
  rewrite cells_appendStep. split_and!; try done. cbn [step_StartState].
  destruct (decide (MemoryCount s = 0%nat)); [by right|by left].
Qed.

(** X8.  The sessions that [TimeStep] and [Truncate] build from an empty
    memory keep three properties: no cell of the memory is nil, only the
    first record can hold the start state, and each record has one state
    variable per sequence that went on after the record before it. *)
Theorem session_invariants :
  (∀ s, sessionInv (reset s)) ∧
  (∀ growth s inSeqs next s' rest next',
     sessionInv s → TimeStep growth s inSeqs next = Some (s', rest, next') → sessionInv s') ∧
  (∀ s n s', sessionInv s → Truncate s n = Some s' → sessionInv s').
Proof.
  split_and!.
  - intros s. split_and!; [constructor|by intros i mem|apply chained_nil].
  - intros growth s inSeqs next s' rest next' (Hcells & Hstart & Hchain) Hrun.
    pose proof (TimeStep_chained growth s s' inSeqs next rest next' Hchain Hrun) as Hchain'.
    apply TimeStep_inv in Hrun as [->|(step & Hcells' & _ & _ & Hfirst)]; [done|].
    split_and!; [| |done]; rewrite Hcells'.
    + apply Forall_app. split; [done|]. by repeat constructor.
    + intros i mem Hi Hmem. apply lookup_app_Some in Hmem as [Hmem|[Hge Hmem]].
      * by apply (Hstart i).
      * apply list_lookup_singleton_Some in Hmem as [Hz Hmem]. injection Hmem as <-.
        destruct Hfirst as [Hnone|Hzero]; [done|]. unfold MemoryCount in Hzero. lia.
  - intros s n s' (Hcells & Hstart & Hchain) Hrun.
    apply Truncate_cells in Hrun as (_ & _ & _ & Hcells').
    split_and!; rewrite Hcells'.
    + by apply Forall_drop.
    + by apply startOnlyFirst_drop.
    + by apply chained_drop.
Qed.

Lemma session_invariants_witness : sessionInv demoSession2.
Proof.
  destruct session_invariants as (Hreset & Hstep & _).
  apply (Hstep demoGrowth demoStep1.1.1 demoStep1.1.2 demoStep1.2
           demoSession2 demoStep2.1.2 demoStep2.2).
  - apply (Hstep demoGrowth demoSession demoSamples 0%nat
             demoStep1.1.1 demoStep1.1.2 demoStep1.2).
    + exact (Hreset demoSession).
    + rewrite demoStep1_run. reflexivity.
  - rewrite demoStep2_run. reflexivity.
Defined.

(** *** BackPropagate and TimeStep after Truncate *)

Lemma memoryAt_drop (s s' : seqProp) (d i : nat) :
  cells (memory s') = drop d (cells (memory s)) →
  memoryAt s' (Z.of_nat i) = memoryAt s (Z.of_nat (d + i)).
Proof.
  intros Hcells. unfold memoryAt. rewrite !index_nat, Hcells, lookup_drop. done.
Qed.

Lemma headOutputs_ext (s s' : seqProp) mem :
  CostFunc s' = CostFunc s → headOutputs s' mem = headOutputs s mem.
Proof. intros Hcost. unfold headOutputs. by rewrite Hcost. Qed.

Lemma bpStep_shift (s s' : seqProp) (d low : nat) (lh : Z) (i : nat) st :
  Block_ s' = Block_ s → CostFunc s' = CostFunc s →
  cells (memory s') = drop d (cells (memory s)) →
  (d ≤ low)%nat → (low ≤ i)%nat →
  bpStep s' (low - d) (lh - Z.of_nat d) false (i - d) (relabel d st) =
    relabel d <$> bpStep s low lh false i st.
Proof.
  intros Hblock Hcost Hcells Hd Hi. unfold bpStep.
  rewrite (memoryAt_drop s s' d (i - d) Hcells).
  replace (d + (i - d))%nat with i by lia.
  destruct (memoryAt s (Z.of_nat i)) as [mem|]; [|done]. cbn [mbind option_bind].
  rewrite (headOutputs_ext s s' mem Hcost).
  assert ((if decide (lh - Z.of_nat d ≤ Z.of_nat (i - d)) then headOutputs s mem else Some []) =
          (if decide (lh ≤ Z.of_nat i) then headOutputs s mem else Some [])) as ->.
  { destruct (decide (lh ≤ Z.of_nat i)).
    - rewrite decide_True; [done|lia].
    - rewrite decide_False; [done|lia]. }
  destruct (if decide (lh ≤ Z.of_nat i) then _ else _) as [outputs|]; [|done].
  cbn [mbind option_bind]. rewrite Hblock.
  assert (bool_decide (low - d < i - d)%nat = bool_decide (low < i)%nat) as ->
    by (apply bool_decide_ext; lia).
  cbn [relabel bp_upstream bp_g bp_calls].
  destruct (out_Gradient _ _ _) as [g1|]; [|done]. cbn [mbind option_bind].
  rewrite !orb_false_r. destruct (bool_decide (low < i)%nat) eqn:Hwith.
  - apply bool_decide_eq_true in Hwith.
    destruct (decide (0 < length _)%nat);
      [|cbn; unfold relabel; cbn; by rewrite fmap_app].
    rewrite !decide_True by lia.
    replace (Z.of_nat (i - d) - 1) with (Z.of_nat (i - d - 1)) by lia.
    rewrite (memoryAt_drop s s' d (i - d - 1) Hcells).
    replace (Z.of_nat (d + (i - d - 1))) with (Z.of_nat i - 1) by lia.
    destruct (memoryAt s (Z.of_nat i - 1)) as [last|]; [|done]. cbn [mbind option_bind].
    destruct (injectDiscontinued _ _ _) as [states|]; [|done]. cbn [mbind option_bind].
    cbn. unfold relabel. cbn. by rewrite fmap_app.
  - rewrite !decide_False by (simpl; lia). cbn. unfold relabel. cbn. by rewrite fmap_app.
Qed.

Lemma bpLoop_shift (s s' : seqProp) (d low : nat) (lh : Z) (k : nat) st :
  Block_ s' = Block_ s → CostFunc s' = CostFunc s →
  cells (memory s') = drop d (cells (memory s)) →
  (d ≤ low)%nat →
  bpLoop s' (low - d) (lh - Z.of_nat d) false k (relabel d st) =
    relabel d <$> bpLoop s low lh false k st.
Proof.
  intros Hblock Hcost Hcells Hd. revert st. induction k as [|k IH]; intros st; [done|].
  simpl. replace (low - d + k)%nat with (low + k - d)%nat by lia.
  rewrite (bpStep_shift s s' d low lh (low + k) st) by (try done; lia).
  destruct (bpStep s low lh false (low + k) st) as [st1|]; [|done]. simpl. apply IH.
Qed.

(** X9.  [BackPropagate] reads no record older than its window: in a
    memory whose later records hold no start state, and for sizes of the
    window that do not overflow, truncating the memory to a count that is at
    least [headSize + tailSize] changes neither the accumulator that a
    following [BackPropagate] returns nor the upstream gradients that it
    gives to the closures, nor whether it panics; the sizes do not overflow
    on the truncated memory either. *)
Theorem BackPropagate_after_Truncate (s s' : seqProp) (n : Z) (g : Gradient)
    (headSize tailSize : Z) :
  startOnlyFirst (cells (memory s)) →
  windowFits s headSize tailSize →
  0 < headSize + tailSize ≤ n →
  Truncate s n = Some s' →
  windowFits s' headSize tailSize ∧
  observeBP <$> BackPropagate s' g headSize tailSize =
  observeBP <$> BackPropagate s g headSize tailSize.
Proof.
  intros Hstart Hfits Hwindow Hrun.
  destruct (decide (Z.of_nat (MemoryCount s) ≤ n)) as [Hshort|Hlong].
  { rewrite Truncate_short in Hrun by done. by injection Hrun as <-. }
  apply Truncate_cells in Hrun as (Hn & Hblock & Hcost & Hcells).
  set (d := (MemoryCount s - Z.to_nat n)%nat) in *.
  assert (MemoryCount s' = Z.to_nat n) as Hcount.
  { unfold MemoryCount in *. rewrite Hcells, length_drop. lia. }
  split.
  { unfold windowFits, isInt, minInt, maxInt in *. rewrite Hcount. lia. }
  unfold BackPropagate. rewrite Hcount.
  destruct (decide (headSize = 0)) as [Hzero|Hhead].
  { rewrite !decide_True by by left. done. }
  rewrite !decide_False by (intros [|]; [done|lia]).
  rewrite !decide_False by lia.
  set (low := (MemoryCount s - Z.to_nat (headSize + tailSize))%nat).
  replace (Z.of_nat (MemoryCount s) - (headSize + tailSize)) with (Z.of_nat low) by lia.
  replace (Z.of_nat (Z.to_nat n) - (headSize + tailSize)) with (Z.of_nat (low - d)) by lia.
  rewrite (memoryAt_drop s s' d (low - d) Hcells).
  replace (d + (low - d))%nat with low by lia.
  destruct (memoryAt s (Z.of_nat low)) as [first|] eqn:Hfirst; [|done].
  cbn [mbind option_bind].
  assert (step_StartState first = None) as Hnone.
  { apply memoryAt_lookup in Hfirst. apply (Hstart low); [lia|done]. }
  rewrite Hnone. rewrite !bool_decide_eq_false_2 by (by intros [? ?]).
  rewrite !Nat2Z.id.
  replace (Z.of_nat (Z.to_nat n) - headSize)
    with (Z.of_nat (MemoryCount s) - headSize - Z.of_nat d) by lia.
  replace (Z.to_nat n - (low - d))%nat with (MemoryCount s - low)%nat by lia.
  pose proof (bpLoop_shift s s' d low (Z.of_nat (MemoryCount s) - headSize)
                (MemoryCount s - low)
                {| bp_upstream := {| up_States := []; up_Outputs := [] |};
                   bp_g := g; bp_calls := [] |} Hblock Hcost Hcells) as Hloop.
  unfold relabel at 1 in Hloop. cbn in Hloop. rewrite Hloop by lia.
  destruct (bpLoop s low _ false _ _) as [st|]; [|done]. cbn.
  unfold observeBP. cbn. f_equal. f_equal.
  rewrite <- list_fmap_compose. by apply list_fmap_ext.
Qed.

Lemma demoSession2_startOnlyFirst : startOnlyFirst (cells (memory demoSession2)).
Proof.
  assert (∃ c1 m2, cells (memory demoSession2) = [c1; Some m2] ∧ step_StartState m2 = None)
    as (c1 & m2 & Hcells & Hnone) by (eexists _, _; split; reflexivity).
  intros i mem Hi Hmem. rewrite Hcells in Hmem.
  destruct i as [|[|i]]; [lia| |done]. by injection Hmem as <-.
Qed.

Lemma BackPropagate_after_Truncate_witness :
  ∃ s', Truncate demoSession2 1 = Some s' ∧
    observeBP <$> BackPropagate s' demoGradient 1 0 =
    observeBP <$> BackPropagate demoSession2 demoGradient 1 0.
Proof.
  destruct (Truncate demoSession2 1) as [s'|] eqn:Hrun; [|vm_compute in Hrun; discriminate].
  exists s'. split; [reflexivity|].
  apply (BackPropagate_after_Truncate demoSession2 s' 1 demoGradient 1 0).
  - exact demoSession2_startOnlyFirst.
  - assert (MemoryCount demoSession2 = 2%nat) as Hcount by reflexivity.
    unfold windowFits, isInt, minInt, maxInt. rewrite Hcount. lia.
  - lia.
  - exact Hrun.
Defined.

Lemma last_drop {A} (l : list A) k : (k < length l)%nat → last (drop k l) = last l.
Proof.
  intros Hk. rewrite !last_lookup, length_drop, lookup_drop. f_equal. lia.
Qed.

(** X10.  [TimeStep] reads no record but the last: truncating the memory
    to a count of at least one changes neither the record that a following
    [TimeStep] appends, nor the batch and the next free address that it
    returns, nor whether it panics. *)
Theorem TimeStep_after_Truncate (growth : nat → nat) (s s' : seqProp) (n : Z)
    (inSeqs : list Sample) (next : nat) :
  1 ≤ n → Truncate s n = Some s' →
  observeStep <$> TimeStep growth s' inSeqs next =
  observeStep <$> TimeStep growth s inSeqs next.
Proof.
  intros Hn Hrun.
  destruct (decide (Z.of_nat (MemoryCount s) ≤ n)) as [Hshort|Hlong].
  { rewrite Truncate_short in Hrun by done. by injection Hrun as <-. }
  apply Truncate_cells in Hrun as (_ & Hblock & Hcost & Hcells).
  set (d := (MemoryCount s - Z.to_nat n)%nat) in *.
  assert (MemoryCount s' = Z.to_nat n) as Hcount.
  { unfold MemoryCount in *. rewrite Hcells, length_drop. lia. }
  assert (last (cells (memory s')) = last (cells (memory s))) as Hlast.
  { rewrite Hcells. apply last_drop. unfold MemoryCount in *. lia. }
  assert (stepBatch s' inSeqs = stepBatch s inSeqs) as Hbatch.
  { unfold stepBatch. rewrite Hcount. by rewrite !decide_False by lia. }
  assert (∀ batch, headInput s' batch next = headInput s batch next) as Hhead.
  { intros batch. unfold headInput. rewrite Hcount, Hblock.
    rewrite !decide_True by lia.
    replace (Z.of_nat (Z.to_nat n) - 1) with (Z.of_nat (Z.to_nat n - 1)) by lia.
    rewrite (memoryAt_drop s s' d (Z.to_nat n - 1) Hcells).
    replace (Z.of_nat (d + (Z.to_nat n - 1))) with (Z.of_nat (MemoryCount s) - 1) by lia.
    done. }
  unfold TimeStep. rewrite Hbatch, Hhead, Hblock, Hcost, Hcount.
  destruct (decide (length (stepBatch s inSeqs) = 0%nat)).
  { unfold observeStep. cbn. by rewrite Hlast. }
  destruct (headInput s _ next) as [input|]; [|done]. cbn [mbind option_bind].
  destruct (removeFirst _) as [rest|]; [|done]. cbn [mbind option_bind].
  unfold observeStep. cbn [fmap option_fmap option_map fst snd memory].
  rewrite !cells_appendStep, !last_snoc. rewrite !decide_False by lia. done.
Qed.

Lemma TimeStep_after_Truncate_witness :
  ∃ s', Truncate demoSession2 1 = Some s' ∧
    observeStep <$> TimeStep demoGrowth s' demoStep2.1.2 demoStep2.2 =
    observeStep <$> TimeStep demoGrowth demoSession2 demoStep2.1.2 demoStep2.2.
Proof.
  destruct (Truncate demoSession2 1) as [s'|] eqn:Hrun; [|vm_compute in Hrun; discriminate].
  exists s'. split; [reflexivity|].
  apply (TimeStep_after_Truncate demoGrowth demoSession2 s' 1); [lia|exact Hrun].
Defined.

(** *** The state gradients handed from a record to the one before it *)

Lemma bpLoop_after (s : seqProp) lowIdx lowHead gis (n k : nat) st stf :
  (k ≤ n)%nat → bpLoop s lowIdx lowHead gis n st = Some stf →
  ∃ stk, bpAfter s lowIdx lowHead gis n k st = Some stk ∧
         bpLoop s lowIdx lowHead gis (n - k) stk = Some stf.
Proof.
  revert n st. induction k as [|k IH]; intros n st Hk Hrun.
  - exists st. rewrite Nat.sub_0_r. by destruct n.
  - destruct n as [|n]; [lia|]. simpl in Hrun |- *.
    destruct (bpStep _ _ _ _ _ _) as [st1|]; [|done]. simpl in Hrun |- *.
    apply IH; [lia|done].
Qed.

(** One iteration of the loop on a record with state variables: the
    closure is called on the upstream states handed on so far, and what it
    leaves for the state variables is handed on, realigned. *)
Lemma bpStep_hands (s : seqProp) lowIdx lowHead gis (j : nat) mem st st' :
  memoryAt s (Z.of_nat j) = Some mem →
  bpStep s lowIdx lowHead gis j st = Some st' →
  ∃ u gcur,
    bp_calls st' = bp_calls st ++ [(j, u)] ∧
    up_States u = up_States (bp_upstream st) ∧
    out_Gradient (step_Output mem) u
      (if bool_decide (lowIdx < j)%nat || gis then zeroStates s mem (bp_g st) else bp_g st)
      = Some gcur ∧
    (bool_decide (lowIdx < j)%nat || gis = true → InStates mem ≠ [] → (0 < j)%nat →
     ∃ last, memoryAt s (Z.of_nat j - 1) = Some last ∧
       injectDiscontinued (InSeqs last) (stateGradsOf s mem gcur) (StateSize (Block_ s)) =
         Some (up_States (bp_upstream st'))).
Proof.
  intros Hmem Hrun. unfold bpStep in Hrun. rewrite Hmem in Hrun.
  cbn [mbind option_bind] in Hrun.
  destruct (if decide (lowHead ≤ Z.of_nat j) then _ else _) as [outputs|]; [|done].
  cbn [mbind option_bind] in Hrun.
  destruct (out_Gradient _ _ _) as [gcur|] eqn:Hgrad; [|done].
  cbn [mbind option_bind] in Hrun.
  exists {| up_States := up_States (bp_upstream st); up_Outputs := outputs |}, gcur.
  destruct (bool_decide (lowIdx < j)%nat || gis) eqn:Hwith.
  - destruct (decide (0 < length _)%nat) as [Hsome|Hnone].
    + destruct (decide (0 < j)%nat) as [Hj|Hj].
      * destruct (memoryAt s (Z.of_nat j - 1)) as [last|] eqn:Hlast; [|done].
        cbn [mbind option_bind] in Hrun.
        destruct (injectDiscontinued _ _ _) as [states|] eqn:Hinj; [|done].
        cbn [mbind option_bind] in Hrun. injection Hrun as <-.
        split_and!; try done. intros _ _ _. by exists last.
      * injection Hrun as <-. split_and!; try done.
    + injection Hrun as <-. split_and!; try done. intros _ Hne _.
      rewrite length_fmap in Hnone. destruct (InStates mem); [done|simpl in Hnone; lia].
  - rewrite decide_False in Hrun by (simpl; lia). injection Hrun as <-.
    split_and!; try done.
Qed.

(** C3. In [BackPropagate], the state gradients that record [i+1] hands
    to record [i] are the accumulator entries that the closure of record
    [i+1] leaves for the state variables of that record, realigned to the
    lanes of record [i]: the closure of record [i] gets a list with one
    entry per lane of record [i]; a lane whose sequence had fewer than two
    inputs left holds a zero vector of the block's state size; the other
    lanes hold the gradients, in order.  The memory is one that [TimeStep]
    builds, in which a record has one state per sequence that went on after
    the record before it, and the sizes of the window do not overflow. *)
Theorem injectDiscontinued_realigns (s : seqProp) (g : Gradient) (headSize tailSize : Z)
    s' g' calls (i : nat) (prev cur : seqPropStep) :
  chained (cells (memory s)) →
  windowFits s headSize tailSize →
  BackPropagate s g headSize tailSize = Some (s', g', calls) →
  headSize ≠ 0 →
  (lowIndex s headSize tailSize ≤ i)%nat →
  memoryAt s (Z.of_nat i) = Some prev →
  memoryAt s (Z.of_nat (Datatypes.S i)) = Some cur →
  InStates cur ≠ [] →
  ∃ st u1 gcur u0,
    stateBefore s g headSize tailSize (Datatypes.S i) = Some st ∧
    (Datatypes.S i, u1) ∈ calls ∧ up_States u1 = up_States (bp_upstream st) ∧
    out_Gradient (step_Output cur) u1 (zeroStates s cur (bp_g st)) = Some gcur ∧
    (i, u0) ∈ calls ∧
    injectDiscontinued (InSeqs prev) (stateGradsOf s cur gcur) (StateSize (Block_ s)) =
      Some (up_States u0) ∧
    length (up_States u0) = length (InSeqs prev) ∧
    (∀ lane seq, InSeqs prev !! lane = Some seq → (length (Inputs seq) < 2)%nat →
       up_States u0 !! lane = Some (make (StateSize (Block_ s)))) ∧
    (∀ lane seq, InSeqs prev !! lane = Some seq → (2 ≤ length (Inputs seq))%nat →
       ∃ state, InStates cur !! continuedBefore (InSeqs prev) lane = Some state ∧
         up_States u0 !! lane =
           Some (default (make (StateSize (Block_ s))) (gcur !! addr state))) ∧
    filterContinued (InSeqs prev) (up_States u0) = Some (stateGradsOf s cur gcur).
Proof.
  intros Hch _ Hrun Hhead Hlow Hprev Hcur Hne.
  assert (Datatypes.S i < MemoryCount s)%nat as Hi.
  { apply memoryAt_lookup in Hcur. apply lookup_lt_Some in Hcur. done. }
  unfold BackPropagate in Hrun.
  rewrite decide_False in Hrun by (intros [|]; [done|lia]).
  set (count := Z.of_nat (MemoryCount s)) in *.
  set (low := if decide (count - (headSize + tailSize) < 0) then 0
              else count - (headSize + tailSize)) in *.
  assert (Z.to_nat low = lowIndex s headSize tailSize) as Hlowidx.
  { unfold low, lowIndex. fold count. destruct (decide _); lia. }
  assert (low = Z.of_nat (lowIndex s headSize tailSize)) as Hlowz.
  { unfold low, lowIndex. fold count. destruct (decide _); lia. }
  destruct (memoryAt s low) as [first|] eqn:Hfirst; [|done].
  cbn [mbind option_bind] in Hrun.
  assert (bool_decide (is_Some (step_StartState first)) = reachesStart s headSize tailSize)
    as Hgis.
  { unfold reachesStart. by rewrite <- Hlowz, Hfirst. }
  rewrite Hgis, Hlowidx in Hrun.
  set (lowIdx := lowIndex s headSize tailSize) in *.
  set (gis := reachesStart s headSize tailSize) in *.
  destruct (bpLoop _ _ _ _ _ _) as [stf|] eqn:Hloop; [|done].
  cbn [mbind option_bind] in Hrun.
  destruct (if gis then _ else _) as [g1|]; [|done]. cbn [mbind option_bind] in Hrun.
  injection Hrun as <- <- <-.
  eapply (bpLoop_after _ _ _ _ _ (MemoryCount s - 1 - Datatypes.S i)) in Hloop
    as (st & Hst & Hrest); [|lia].
  replace (MemoryCount s - lowIdx - (MemoryCount s - 1 - Datatypes.S i))%nat
    with (Datatypes.S (Datatypes.S (i - lowIdx))) in Hrest by lia.
  cbn [bpLoop] in Hrest.
  replace (lowIdx + Datatypes.S (i - lowIdx))%nat with (Datatypes.S i) in Hrest by lia.
  replace (lowIdx + (i - lowIdx))%nat with i in Hrest by lia.
  destruct (bpStep _ _ _ _ (Datatypes.S i) st) as [st1|] eqn:Hstep1; [|done].
  cbn [mbind option_bind] in Hrest.
  destruct (bpStep _ _ _ _ i st1) as [st2|] eqn:Hstep0; [|done].
  cbn [mbind option_bind] in Hrest.
  apply bpLoop_calls in Hrest as (more & Hmore & _).
  destruct (bpStep_hands _ _ _ _ _ _ _ _ Hcur Hstep1) as (u1 & gcur & Hlog1 & Hu1 & Hgrad & Hhand).
  destruct (bpStep_hands _ _ _ _ _ _ _ _ Hprev Hstep0) as (u0 & g0 & Hlog0 & Hu0 & _ & _).
  assert (bool_decide (lowIdx < Datatypes.S i)%nat || gis = true) as Hwith.
  { rewrite bool_decide_eq_true_2 by lia. done. }
  rewrite Hwith in Hgrad.
  destruct (Hhand Hwith Hne) as (last & Hlast & Hinj); [lia|].
  replace (Z.of_nat (Datatypes.S i) - 1) with (Z.of_nat i) in Hlast by lia.
  assert (last = prev) as -> by congruence.
  destruct (injectDiscontinued_lanes s i prev cur (stateGradsOf s cur gcur) Hch Hprev Hcur)
    as (states & Hinj' & Hlen & Hzero & Hkept & Hfilter).
  { unfold stateGradsOf. by rewrite length_fmap. }
  assert (states = up_States (bp_upstream st1)) as Hstates by congruence.
  exists st, u1, gcur, u0. rewrite Hu0, <- Hstates.
  split_and!; try done.
  - rewrite Hmore, Hlog0, Hlog1. set_solver.
  - rewrite Hmore, Hlog0. set_solver.
  - intros lane seq Hlane Hlong. destruct (Hkept lane seq Hlane Hlong) as (x & Hx & Hsx).
    unfold stateGradsOf in Hx. rewrite list_lookup_fmap in Hx.
    destruct (InStates cur !! _) as [state|]; [|done]. injection Hx as <-.
    by exists state.
Qed.

Lemma injectDiscontinued_realigns_witness :
  ∃ calls u0,
    snd <$> BackPropagate demoSession2 demoGradient 1 1 = Some calls ∧
    (0%nat, u0) ∈ calls ∧
    length (up_States u0) = 2%nat ∧
    up_States u0 !! 1%nat = Some [0; 0].
Proof.
  assert (∃ prev, memoryAt demoSession2 (Z.of_nat 0) = Some prev) as [prev Hprev]
    by (eexists; reflexivity).
  assert (∃ cur, memoryAt demoSession2 (Z.of_nat 1) = Some cur) as [cur Hcur]
    by (eexists; reflexivity).
  assert (∃ r, BackPropagate demoSession2 demoGradient 1 1 = Some r) as [[[s' g'] calls] Hrun]
    by (eexists; vm_compute; reflexivity).
  destruct (injectDiscontinued_realigns demoSession2 demoGradient 1 1 s' g' calls 0 prev cur)
    as (st & u1 & gcur & u0 & _ & _ & _ & _ & Hin & _ & Hlen & Hzero & _).
  - exact demoSession2_chained.
  - unfold windowFits, isInt, minInt, maxInt.
    assert (MemoryCount demoSession2 = 2%nat) as -> by reflexivity. lia.
  - exact Hrun.
  - lia.
  - vm_compute. lia.
  - exact Hprev.
  - exact Hcur.
  - revert Hcur. vm_compute. intros [= <-]. discriminate.
  - exists calls, u0. rewrite Hrun. split_and!; [done|done| |].
    + rewrite Hlen. revert Hprev. vm_compute. intros [= <-]. reflexivity.
    + assert (InSeqs prev !! 1%nat = Some (mkSample [[5; 5; 5]] [[4; 4]])) as Hseq.
      { revert Hprev. vm_compute. intros [= <-]. reflexivity. }
      rewrite (Hzero 1%nat _ Hseq) by (simpl; lia). reflexivity.
Defined.

(** ** The unroller: map order, lanes, fresh variables and the backward
       pass *)

(** *** The order of the map does not matter *)

Lemma unrollIn_order (order : nat → gmap Z Z → list (Z * Z))
    (mapRange : gmap Z Z → list (Z * Z)) (block : Block)
    (seqs : list (list Result)) fuel t res next :
  (∀ t m, order t m ≡ₚ map_to_list m) → (∀ m, mapRange m ≡ₚ map_to_list m) →
  Block_wf block →
  (maxLen seqs < fuel + t)%nat → (t ≤ maxLen seqs)%nat → unrollInv block seqs t res →
  unrollIn order fuel block seqs t res next = unroll mapRange fuel block seqs t res next.
Proof.
  intros Hperm1 Hperm2 Hwf.
  revert t res next. induction fuel as [|fuel IH]; intros t res next Hfuel Ht Hinv; [done|].
  pose proof (unrollInv_prevReady block Hwf seqs t res Hinv) as Hprev.
  simpl. unfold Go.range.
  edestruct (rangeFrom_laneInv (StartState block) (Steps res) t seqs seqs 0)
    as (st & Hst & Hlane); [done|done|apply laneInv_init|].
  rewrite (ui_start _ _ _ _ Hinv). rewrite Hst. simpl.
  destruct (decide (size (sb_LaneToOut st) = 0%nat)) as [Hz|Hnz]; [done|].
  pose proof (inv_size _ _ _ _ _ _ Hlane) as Hsize.
  assert (t < maxLen seqs)%nat as Hlt.
  { destruct (decide (t < maxLen seqs)%nat); [done|].
    assert (rank t seqs (length seqs) = 0%nat) by (apply rank_zero; lia). lia. }
  destruct (unroll_next (order t) (Hperm1 t) block Hwf seqs t res st Hinv Hlane)
    as (packed1 & Hpack1 & Hinv1).
  destruct (unroll_next mapRange Hperm2 block Hwf seqs t res st Hinv Hlane)
    as (packed2 & Hpack2 & Hinv2).
  rewrite Hpack1, Hpack2. simpl.
  assert (packed1 = packed2) as <-.
  { destruct (forEach_pack_map (order t) (Hperm1 t)
                (out_Outputs (Batch block (sb_input st)))
                (sb_LaneToOut st) (PackedOut res)) as (p1 & Hp1 & Hlen1 & Hget1).
    { intros k p Hk. destruct (inv_keys _ _ _ _ _ _ Hlane k) as (l & -> & _ & Hl); [eauto|].
      exists l. rewrite (ui_packed_len _ _ _ _ Hinv). split_and!; [done..|].
      destruct (lookup_lt_is_Some_2 seqs l Hl) as [seq Hseq].
      rewrite (laneInv_map block seqs t _ st l seq Hlane Hseq) in Hk.
      destruct (decide _) as [Hact|]; [|done]. injection Hk as <-. rewrite index_nat.
      by eapply (laneInv_output block Hwf). }
    destruct (forEach_pack_map mapRange Hperm2 (out_Outputs (Batch block (sb_input st)))
                (sb_LaneToOut st) (PackedOut res)) as (p2 & Hp2 & Hlen2 & Hget2).
    { intros k p Hk. destruct (inv_keys _ _ _ _ _ _ Hlane k) as (l & -> & _ & Hl); [eauto|].
      exists l. rewrite (ui_packed_len _ _ _ _ Hinv). split_and!; [done..|].
      destruct (lookup_lt_is_Some_2 seqs l Hl) as [seq Hseq].
      rewrite (laneInv_map block seqs t _ st l seq Hlane Hseq) in Hk.
      destruct (decide _) as [Hact|]; [|done]. injection Hk as <-. rewrite index_nat.
      by eapply (laneInv_output block Hwf). }
    assert (p1 = packed1) as -> by congruence. assert (p2 = packed2) as -> by congruence.
    apply list_eq. intros l. destruct (PackedOut res !! l) as [cur|] eqn:Hcur.
    - by rewrite (Hget1 l cur Hcur), (Hget2 l cur Hcur).
    - apply lookup_ge_None in Hcur. by rewrite !lookup_ge_None_2 by lia. }
  rewrite <- (ui_start _ _ _ _ Hinv). apply IH; [lia|lia|done].
Qed.

(** X11.  The result of [BatchSeqs] does not depend on the orders in which
    Go's [range] visits the entries of a step's map of lanes, for a block
    that returns one output and one state per lane: with an order chosen
    anew at each timestep, two choices of orders give the same result, which
    is the result with one order for all timesteps. *)
Theorem BatchSeqs_any_map_order (order1 order2 : nat → gmap Z Z → list (Z * Z))
    (mapRange : gmap Z Z → list (Z * Z))
    (block : Block) (seqs : list (list Result)) (next : nat) :
  (∀ t m, order1 t m ≡ₚ map_to_list m) → (∀ t m, order2 t m ≡ₚ map_to_list m) →
  (∀ m, mapRange m ≡ₚ map_to_list m) →
  Block_wf block →
  BatchSeqsIn order1 block seqs next = BatchSeqsIn order2 block seqs next ∧
  BatchSeqsIn order1 block seqs next = BlockSeqFunc_BatchSeqs mapRange block seqs next.
Proof.
  intros Hperm1 Hperm2 Hperm Hwf. unfold BatchSeqsIn, BlockSeqFunc_BatchSeqs.
  assert (∀ order, (∀ t m, order t m ≡ₚ map_to_list m) →
    unrollIn order (Datatypes.S (maxLen seqs)) block seqs 0
      {| bsf_StartState := StartState block; Steps := [];
         PackedOut := replicate (length seqs) [] |} next =
    unroll mapRange (Datatypes.S (maxLen seqs)) block seqs 0
      {| bsf_StartState := StartState block; Steps := [];
         PackedOut := replicate (length seqs) [] |} next) as H.
  { intros order Ho. apply unrollIn_order; [done|done|done|lia|lia|apply unrollInv_init]. }
  by rewrite !H.
Qed.

Lemma BatchSeqs_any_map_order_witness :
  BatchSeqsIn demoOrder demoBlock demoSeqs 0 = BatchSeqsIn demoOrderRev demoBlock demoSeqs 0 ∧
  BatchSeqsIn demoOrder demoBlock demoSeqs 0 =
    BlockSeqFunc_BatchSeqs demoRange demoBlock demoSeqs 0.
Proof.
  apply (BatchSeqs_any_map_order demoOrder demoOrderRev demoRange demoBlock demoSeqs 0).
  - intros t m. unfold demoOrder. destruct (Nat.even t); [done|apply reverse_Permutation].
  - intros t m. unfold demoOrderRev. destruct (Nat.even t); [apply reverse_Permutation|done].
  - intros m. reflexivity.
  - exact demoBlock_wf.
Defined.

(** *** The lanes of a step *)

Lemma BatchSeqs_inv (mapRange : gmap Z Z → list (Z * Z)) (block : Block)
    (seqs : list (list Result)) (next : nat) res next' :
  (∀ m, mapRange m ≡ₚ map_to_list m) → Block_wf block →
  BlockSeqFunc_BatchSeqs mapRange block seqs next = Some (res, next') →
  unrollInv block seqs (maxLen seqs) res.
Proof.
  intros Hperm Hwf Hrun.
  destruct (unroll_spec mapRange Hperm block Hwf seqs (Datatypes.S (maxLen seqs)) 0
              {| bsf_StartState := StartState block; Steps := [];
                 PackedOut := replicate (length seqs) [] |} next)
    as (res0 & next0 & Hrun0 & Hinv); [lia|lia|apply unrollInv_init|].
  unfold BlockSeqFunc_BatchSeqs in Hrun. rewrite Hrun0 in Hrun. by injection Hrun as -> ->.
Qed.

Lemma rank_active {A} t (seqs : list (list A)) l1 l2 seq :
  seqs !! l1 = Some seq → (t < length seq)%nat → (l1 < l2)%nat →
  (rank t seqs l1 < rank t seqs l2)%nat.
Proof.
  intros Hseq Hact Hlt.
  pose proof (rank_S t seqs l1 seq Hseq) as HS. rewrite decide_True in HS by done.
  pose proof (rank_mono t seqs (Datatypes.S l1) l2). lia.
Qed.

(** The map of a step that the forward pass built, read off the batch. *)
Lemma step_LaneToOut (block : Block) (seqs : list (list Result)) t res step k p :
  unrollInv block seqs (maxLen seqs) res →
  Steps res !! t = Some step →
  LaneToOut step !! k = Some p →
  ∃ l seq, k = Z.of_nat l ∧ seqs !! l = Some seq ∧ (t < length seq)%nat ∧
           p = Z.of_nat (rank t seqs l) ∧
           size (LaneToOut step) = rank t seqs (length seqs).
Proof.
  intros Hinv Hstep Hk. destruct (ui_step _ _ _ _ Hinv t step Hstep) as (st & Hlane & ->).
  simpl in *. destruct (inv_keys _ _ _ _ _ _ Hlane k) as (l & -> & _ & Hl); [eauto|].
  destruct (lookup_lt_is_Some_2 seqs l Hl) as [seq Hseq].
  rewrite (laneInv_map block seqs t _ st l seq Hlane Hseq) in Hk.
  destruct (decide _) as [Hact|]; [|done]. injection Hk as <-.
  exists l, seq. split_and!; try done. apply (inv_size _ _ _ _ _ _ Hlane).
Qed.

(** X12.  In every step of an unrolled output, the map of lanes sends the
    active lanes, in increasing order, to the positions [0], [1], ... of the
    step's batch: a position is below the number of entries, and a larger
    lane has a larger position.  Every step has a lane, and a lane of a
    step is a lane of the step before: lanes only drop out. *)
Theorem LaneToOut_dense_and_shrinking (mapRange : gmap Z Z → list (Z * Z)) (block : Block)
    (seqs : list (list Result)) (next : nat) res next' :
  (∀ m, mapRange m ≡ₚ map_to_list m) → Block_wf block →
  BlockSeqFunc_BatchSeqs mapRange block seqs next = Some (res, next') →
  ∀ t step, Steps res !! t = Some step →
    (0 < size (LaneToOut step))%nat ∧
    (∀ l p, LaneToOut step !! l = Some p →
       0 ≤ l < Z.of_nat (length seqs) ∧ 0 ≤ p < Z.of_nat (size (LaneToOut step))) ∧
    (∀ l1 l2 p1 p2, LaneToOut step !! l1 = Some p1 → LaneToOut step !! l2 = Some p2 →
       l1 < l2 → p1 < p2) ∧
    (∀ step', Steps res !! Datatypes.S t = Some step' →
       dom (LaneToOut step') ⊆ dom (LaneToOut step)).
Proof.
  intros Hperm Hwf Hrun t step Hstep.
  pose proof (BatchSeqs_inv mapRange block seqs next res next' Hperm Hwf Hrun) as Hinv.
  split_and!.
  - destruct (ui_step _ _ _ _ Hinv t step Hstep) as (st & Hlane & ->). simpl.
    rewrite (inv_size _ _ _ _ _ _ Hlane).
    apply lookup_lt_Some in Hstep. rewrite (ui_steps _ _ _ _ Hinv) in Hstep.
    destruct (decide (rank t seqs (length seqs) = 0%nat)) as [Hz|]; [|lia].
    apply rank_zero in Hz. lia.
  - intros k p Hk.
    destruct (step_LaneToOut block seqs t res step k p Hinv Hstep Hk)
      as (l & seq & -> & Hseq & Hact & -> & ->).
    pose proof (lookup_lt_Some _ _ _ Hseq). pose proof (rank_bound t seqs l seq Hseq Hact). lia.
  - intros k1 k2 p1 p2 Hk1 Hk2 Hlt.
    destruct (step_LaneToOut block seqs t res step k1 p1 Hinv Hstep Hk1)
      as (l1 & seq1 & -> & Hseq1 & Hact1 & -> & _).
    destruct (step_LaneToOut block seqs t res step k2 p2 Hinv Hstep Hk2)
      as (l2 & seq2 & -> & Hseq2 & Hact2 & -> & _).
    pose proof (rank_active t seqs l1 l2 seq1 Hseq1 Hact1). lia.
  - intros step' Hstep' k [p Hk]%elem_of_dom.
    destruct (step_LaneToOut block seqs (Datatypes.S t) res step' k p Hinv Hstep' Hk)
      as (l & seq & -> & Hseq & Hact & _).
    destruct (ui_step _ _ _ _ Hinv t step Hstep) as (st & Hlane & ->). simpl.
    apply elem_of_dom. rewrite (laneInv_map block seqs t _ st l seq Hlane Hseq).
    rewrite decide_True by lia. eauto.
Qed.

Lemma demoOutput_steps :
  BlockSeqFunc_BatchSeqs demoRange demoBlock demoSeqs 0 = Some (demoOutput, 8%nat).
Proof. apply demoOutput_run. Qed.

Lemma LaneToOut_dense_and_shrinking_witness :
  ∃ step step', Steps demoOutput !! 0%nat = Some step ∧ Steps demoOutput !! 1%nat = Some step' ∧
    dom (LaneToOut step') ⊆ dom (LaneToOut step).
Proof.
  destruct (Steps demoOutput !! 0%nat) as [step|] eqn:H0; [|vm_compute in H0; discriminate].
  destruct (Steps demoOutput !! 1%nat) as [step'|] eqn:H1; [|vm_compute in H1; discriminate].
  exists step, step'. split_and!; [reflexivity..|].
  destruct (LaneToOut_dense_and_shrinking demoRange demoBlock demoSeqs 0 demoOutput 8
              (λ m, reflexivity _) demoBlock_wf demoOutput_run 0%nat step H0)
    as (_ & _ & _ & Hsub).
  exact (Hsub step' H1).
Defined.

(** *** A batch without elements *)

Lemma rangeFrom_skip startState steps t (rest : list (list Result)) i st :
  Forall (λ seq, (length seq ≤ t)%nat) rest →
  Go.rangeFrom i (laneBody startState steps t) rest st = Some st.
Proof.
  intros Hall. revert i. induction Hall as [|seq rest Hseq _ IH]; intros i; [done|].
  simpl. unfold laneBody at 1. rewrite decide_True by done. apply IH.
Qed.

Lemma forEach_gradStart_nil start n (g : Gradient) :
  Go.forEach (gradStart start) (replicate n None) g = Some g.
Proof. induction n as [|n IH]; [done|]. simpl. exact IH. Qed.

(** X13.  On a batch whose sequences are all empty, [BatchSeqs] returns an
    output without steps and with an empty packed output per lane, without
    calling the block or allocating a variable, whatever the block and the
    order of the map; [Gradient] on that output, given an empty upstream per
    lane, returns the accumulator as it is. *)
Theorem BatchSeqs_empty_batch (mapRange : gmap Z Z → list (Z * Z)) (block : Block)
    (seqs : list (list Result)) (next : nat) :
  Forall (λ seq, seq = []) seqs →
  let res := {| bsf_StartState := StartState block; Steps := [];
                PackedOut := replicate (length seqs) [] |} in
  BlockSeqFunc_BatchSeqs mapRange block seqs next = Some (res, next) ∧
  ∀ g, BlockSeqFuncOutput_Gradient res (replicate (length seqs) []) g = Some g.
Proof.
  intros Hall res. split.
  - unfold BlockSeqFunc_BatchSeqs. simpl. unfold Go.range.
    rewrite rangeFrom_skip; [done|].
    eapply Forall_impl; [exact Hall|]. by intros seq ->.
  - intros g. unfold BlockSeqFuncOutput_Gradient. simpl.
    rewrite decide_False by (rewrite !length_replicate; intros H; by apply H).
    rewrite decide_False by (intros H; by apply H). simpl.
    apply forEach_gradStart_nil.
Qed.

Lemma BatchSeqs_empty_batch_witness :
  BlockSeqFunc_BatchSeqs demoRange demoBlock emptySeqs 5 =
    Some ({| bsf_StartState := StartState demoBlock; Steps := []; PackedOut := [[]; []] |},
          5%nat).
Proof.
  apply (BatchSeqs_empty_batch demoRange demoBlock emptySeqs 5).
  repeat constructor.
Defined.

(** *** The variables of a forward pass *)

Lemma allocated_S {A} (seqs : list (list A)) t :
  allocated seqs (Datatypes.S t) = (allocated seqs t + 2 * rank t seqs (length seqs))%nat.
Proof. unfold allocated. rewrite seq_S, fmap_app, sum_list_with_app. simpl. lia. Qed.

Lemma allocated_mono {A} (seqs : list (list A)) t1 t2 :
  (t1 ≤ t2)%nat → (allocated seqs t1 ≤ allocated seqs t2)%nat.
Proof.
  induction 1 as [|t2 _ IH]; [done|]. rewrite allocated_S. lia.
Qed.

Lemma laneBody_alloc startState steps t (seqs : list (list Result)) i seq st st' base :
  seqs !! i = Some seq →
  laneBody startState steps t i seq st = Some st' →
  sb_next st = (base + 2 * rank t seqs i)%nat →
  varsAt seqs t base (sb_InputVars st) (sb_InStateVars st) →
  sb_next st' = (base + 2 * rank t seqs (Datatypes.S i))%nat ∧
  varsAt seqs t base (sb_InputVars st') (sb_InStateVars st').
Proof.
  intros Hseq Hrun Hnext [Hin Hst]. rewrite (rank_S t seqs i seq Hseq).
  unfold laneBody in Hrun. destruct (decide (length seq ≤ t)%nat) as [Hshort|Hact].
  { injection Hrun as <-. rewrite decide_False by lia. split; [lia|done]. }
  rewrite decide_True by lia.
  destruct (seq !! t) as [x|]; [|done]. cbn [mbind option_bind] in Hrun.
  destruct (Go.store (sb_Inputs st) i _) as [inputs|]; [|done].
  cbn [mbind option_bind] in Hrun.
  destruct (Go.store (sb_InputVars st) i _) as [inputVars|] eqn:E2; [|done].
  cbn [mbind option_bind] in Hrun.
  destruct (Go.store (sb_InStateVars st) i _) as [inStateVars|] eqn:E3; [|done].
  cbn [mbind option_bind] in Hrun.
  destruct (if decide (0 < t)%nat then _ else _) as [stateVec|]; [|done].
  cbn [mbind option_bind] in Hrun.
  destruct (Go.store inStateVars i _) as [inStateVars'|] eqn:E4; [|done].
  cbn [mbind option_bind] in Hrun. injection Hrun as <-. cbn [sb_next sb_InputVars sb_InStateVars].
  unfold Go.store in E2, E3, E4.
  destruct (decide (i < length (sb_InputVars st))%nat) as [Hi1|]; [|done].
  destruct (decide (i < length (sb_InStateVars st))%nat) as [Hi2|]; [|done].
  destruct (decide (i < length inStateVars)%nat) as [Hi3|]; [|done].
  injection E2 as <-. injection E3 as <-. injection E4 as <-.
  assert (activeAt seqs t i) as Hactive by (exists seq; split; [done|lia]).
  split; [lia|]. split.
  - intros l v Hl. destruct (decide (l = i)) as [->|Hne].
    + rewrite list_lookup_insert_eq in Hl by done. injection Hl as <-. simpl. split; [done|lia].
    + rewrite list_lookup_insert_ne in Hl by done. by apply Hin.
  - intros l sv Hl. rewrite list_insert_insert_eq in Hl. destruct (decide (l = i)) as [->|Hne].
    + rewrite list_lookup_insert_eq in Hl by done. injection Hl as <-. simpl. split; [done|lia].
    + rewrite list_lookup_insert_ne in Hl by done. by apply Hst.
Qed.

Lemma rangeFrom_alloc startState steps t (seqs rest : list (list Result)) i st st' base :
  drop i seqs = rest →
  Go.rangeFrom i (laneBody startState steps t) rest st = Some st' →
  sb_next st = (base + 2 * rank t seqs i)%nat →
  varsAt seqs t base (sb_InputVars st) (sb_InStateVars st) →
  sb_next st' = (base + 2 * rank t seqs (length seqs))%nat ∧
  varsAt seqs t base (sb_InputVars st') (sb_InStateVars st').
Proof.
  revert i st. induction rest as [|seq rest IH]; intros i st Hdrop Hrun Hnext Hvars.
  - injection Hrun as <-. split; [|done]. rewrite Hnext.
    assert (length seqs ≤ i)%nat as Hge.
    { destruct (decide (length seqs ≤ i)%nat); [done|].
      assert (length (drop i seqs) = 0%nat) as Hlen by by rewrite Hdrop.
      rewrite length_drop in Hlen. lia. }
    unfold rank. by rewrite !take_ge by lia.
  - simpl in Hrun. destruct (laneBody _ _ _ _ _ _) as [st1|] eqn:Hbody; [|done].
    assert (seqs !! i = Some seq) as Hseq.
    { rewrite <- (Nat.add_0_r i), <- lookup_drop, Hdrop. done. }
    destruct (laneBody_alloc _ _ _ _ _ _ _ _ _ Hseq Hbody Hnext Hvars) as [Hnext1 Hvars1].
    apply (IH (Datatypes.S i) st1); try done.
    rewrite (drop_S _ _ _ Hseq) in Hdrop. by injection Hdrop.
Qed.

Lemma unroll_alloc (mapRange : gmap Z Z → list (Z * Z)) (block : Block)
    (seqs : list (list Result)) (next : nat) fuel t res n res' n' :
  unroll mapRange fuel block seqs t res n = Some (res', n') →
  length (Steps res) = t → n = (next + allocated seqs t)%nat → allocInv seqs next res →
  n' = (next + allocated seqs (length (Steps res')))%nat ∧ allocInv seqs next res'.
Proof.
  revert t res n. induction fuel as [|fuel IH]; intros t res n Hrun Hlen Hn Hinv; [done|].
  simpl in Hrun. unfold Go.range in Hrun.
  destruct (Go.rangeFrom 0 _ seqs _) as [st|] eqn:Hlanes; [|done].
  cbn [mbind option_bind] in Hrun.
  apply (rangeFrom_alloc _ _ _ seqs seqs 0 _ _ n) in Hlanes as [Hnext Hvars]; [|done|..].
  2:{ simpl. unfold rank. simpl. lia. }
  2:{ split; intros l v Hl; simpl in Hl; apply lookup_replicate in Hl as [? _]; done. }
  destruct (decide (size (sb_LaneToOut st) = 0%nat)).
  { injection Hrun as <- <-. rewrite Hlen. done. }
  destruct (Go.forEach _ _ _) as [packed|]; [|done]. cbn [mbind option_bind] in Hrun.
  apply IH in Hrun; [done|..]; cbn [Steps].
  - rewrite length_app. simpl. lia.
  - rewrite allocated_S. lia.
  - intros τ step Hτ. apply lookup_app_Some in Hτ as [Hτ|[Hge Hτ]]; [by apply Hinv|].
    apply list_lookup_singleton_Some in Hτ as [Hτ <-].
    assert (τ = t) as -> by lia. simpl. by rewrite <- Hn.
Qed.

Lemma elem_of_stepVars step v :
  v ∈ stepVars step →
  (∃ l, InStateVars step !! l = Some (Some v)) ∨ (∃ l, InputVars step !! l = Some (Some v)).
Proof.
  unfold stepVars. intros [Hin|Hin]%elem_of_app;
    apply list_elem_of_omap in Hin as (x & [l Hl]%list_elem_of_lookup & Hx);
    simpl in Hx; subst x; eauto.
Qed.

Lemma rank_inj {A} t (seqs : list (list A)) l1 l2 :
  activeAt seqs t l1 → activeAt seqs t l2 → rank t seqs l1 = rank t seqs l2 → l1 = l2.
Proof.
  intros (seq1 & Hseq1 & Hact1) (seq2 & Hseq2 & Hact2) Hrank.
  destruct (Nat.lt_trichotomy l1 l2) as [Hlt|[->|Hgt]]; [|done|].
  - pose proof (rank_active t seqs l1 l2 seq1 Hseq1 Hact1 Hlt). lia.
  - pose proof (rank_active t seqs l2 l1 seq2 Hseq2 Hact2 Hgt). lia.
Qed.

Lemma BatchSeqs_alloc (mapRange : gmap Z Z → list (Z * Z)) (block : Block)
    (seqs : list (list Result)) (next : nat) res next' :
  BlockSeqFunc_BatchSeqs mapRange block seqs next = Some (res, next') →
  next' = (next + allocated seqs (length (Steps res)))%nat ∧ allocInv seqs next res.
Proof.
  intros Hrun. unfold BlockSeqFunc_BatchSeqs in Hrun.
  apply (unroll_alloc _ _ _ next) in Hrun as [Hnext Hinv]; [done|done|unfold allocated; simpl; lia|].
  intros t step Ht. done.
Qed.

(** A variable of a step: its lane, whether it is the state variable, and
    its address. *)
Lemma allocInv_var (seqs : list (list Result)) next res t step v :
  allocInv seqs next res → Steps res !! t = Some step → v ∈ stepVars step →
  ∃ l (b : bool), activeAt seqs t l ∧
    (if b then InStateVars step !! l else InputVars step !! l) = Some (Some v) ∧
    addr v = (next + allocated seqs t + 2 * rank t seqs l + if b then 1 else 0)%nat.
Proof.
  intros Hinv Ht Hv. destruct (Hinv t step Ht) as [Hin Hst].
  apply elem_of_stepVars in Hv as [[l Hl]|[l Hl]].
  - destruct (Hst l v Hl) as [Hact Haddr]. exists l, true. split_and!; [done..|lia].
  - destruct (Hin l v Hl) as [Hact Haddr]. exists l, false. split_and!; [done..|lia].
Qed.

Lemma rank_activeAt {A} (seqs : list (list A)) t l :
  activeAt seqs t l → (rank t seqs l < rank t seqs (length seqs))%nat.
Proof. intros (seq & Hseq & Hact). by eapply rank_bound. Qed.

Lemma intermediates_bound (seqs : list (list Result)) next res a :
  allocInv seqs next res → a ∈ intermediates res →
  (next ≤ a < next + allocated seqs (length (Steps res)))%nat.
Proof.
  intros Hinv Ha. unfold intermediates in Ha. apply elem_of_list_to_set in Ha.
  apply list_elem_of_fmap in Ha as (v & -> & Hv).
  apply list_elem_of_bind in Hv as (step & Hv & [t Ht]%list_elem_of_lookup).
  destruct (allocInv_var seqs next res t step v Hinv Ht Hv) as (l & b & Hact & _ & ->).
  pose proof (rank_activeAt seqs t l Hact). apply lookup_lt_Some in Ht.
  pose proof (allocated_mono seqs (Datatypes.S t) (length (Steps res))) as Hmono.
  rewrite allocated_S in Hmono. destruct b; lia.
Qed.

(** X14.  The variables that [BatchSeqs] builds are fresh and pairwise
    distinct.  Counting from the first free address [next], timestep [t]
    takes its addresses after the two per active lane of each earlier
    timestep; the input variable of an active lane is the one at twice the
    number of active lanes before it, and its state variable the one after.
    So every address lies from [next] up to the next free address that the
    call returns, and two variables of the output with the same address are
    the same variable of the same step. *)
Theorem BatchSeqs_fresh_variables (mapRange : gmap Z Z → list (Z * Z)) (block : Block)
    (seqs : list (list Result)) (next : nat) res next' :
  BlockSeqFunc_BatchSeqs mapRange block seqs next = Some (res, next') →
  next' = (next + allocated seqs (length (Steps res)))%nat ∧
  (∀ t step l v, Steps res !! t = Some step → InputVars step !! l = Some (Some v) →
     addr v = (next + allocated seqs t + 2 * rank t seqs l)%nat) ∧
  (∀ t step l sv, Steps res !! t = Some step → InStateVars step !! l = Some (Some sv) →
     addr sv = (next + allocated seqs t + 2 * rank t seqs l + 1)%nat) ∧
  (∀ a, a ∈ intermediates res → (next ≤ a < next')%nat) ∧
  (∀ t1 t2 step1 step2 v1 v2,
     Steps res !! t1 = Some step1 → Steps res !! t2 = Some step2 →
     v1 ∈ stepVars step1 → v2 ∈ stepVars step2 → addr v1 = addr v2 →
     t1 = t2 ∧ v1 = v2).
Proof.
  intros Hrun. apply BatchSeqs_alloc in Hrun as [Hnext Hinv].
  pose proof (allocInv_var seqs next res) as Hvar.
  pose proof (rank_activeAt seqs) as Hbound.
  split_and!.
  - done.
  - intros t step l v Ht Hl. by destruct (Hinv t step Ht) as [Hin _], (Hin l v Hl).
  - intros t step l v Ht Hl. by destruct (Hinv t step Ht) as [_ Hst], (Hst l v Hl).
  - intros a Ha. rewrite Hnext. by apply intermediates_bound.
  - intros t1 t2 step1 step2 v1 v2 Ht1 Ht2 Hv1 Hv2 Haddr.
    destruct (Hvar t1 step1 v1 Hinv Ht1 Hv1) as (l1 & b1 & Hact1 & Hl1 & Ha1).
    destruct (Hvar t2 step2 v2 Hinv Ht2 Hv2) as (l2 & b2 & Hact2 & Hl2 & Ha2).
    pose proof (Hbound t1 l1 Hact1). pose proof (Hbound t2 l2 Hact2).
    assert (t1 = t2) as <-.
    { destruct (Nat.lt_trichotomy t1 t2) as [Hlt|[->|Hgt]]; [|done|].
      - pose proof (allocated_mono seqs (Datatypes.S t1) t2) as Hmono.
        rewrite allocated_S in Hmono. destruct b1, b2; lia.
      - pose proof (allocated_mono seqs (Datatypes.S t2) t1) as Hmono.
        rewrite allocated_S in Hmono. destruct b1, b2; lia. }
    split; [done|]. assert (step2 = step1) as -> by congruence.
    assert (b1 = b2) as <- by (destruct b1, b2; try done; lia).
    assert (l1 = l2) as <-.
    { apply (rank_inj t1 seqs); [done..|]. destruct b1; lia. }
    destruct b1; congruence.
Qed.

Lemma BatchSeqs_fresh_variables_witness :
  8%nat = (0 + allocated demoSeqs (length (Steps demoOutput)))%nat ∧
  ∀ a, a ∈ intermediates demoOutput → (0 ≤ a < 8)%nat.
Proof.
  destruct (BatchSeqs_fresh_variables demoRange demoBlock demoSeqs 0 demoOutput 8 demoOutput_run)
    as (Hnext & _ & _ & Hbound & _).
  split; [exact Hnext|exact Hbound].
Defined.

(** X15.  A forward pass followed by the backward pass leaves the
    accumulator with the keys it had: when no key of the accumulator is an
    address that [BatchSeqs] allocated, and propagation through the block
    closures, the raw inputs and the start state neither adds nor removes an
    entry, the accumulator that [Gradient] returns has the keys of the one
    it was given. *)
Theorem Gradient_after_BatchSeqs_keeps_keys (mapRange : gmap Z Z → list (Z * Z))
    (block : Block) (seqs : list (list Result)) (next : nat) res next'
    (upstream : list (list Vector)) (g g' : Gradient) :
  BlockSeqFunc_BatchSeqs mapRange block seqs next = Some (res, next') →
  collaboratorsOK res →
  (∀ a, a ∈ dom g → (a < next ∨ next' ≤ a)%nat) →
  BlockSeqFuncOutput_Gradient res upstream g = Some g' →
  dom g' = dom g.
Proof.
  intros Hrun Hok Hkeys Hgrad. apply BatchSeqs_alloc in Hrun as [-> Hinv].
  rewrite (BlockSeqFuncOutput_Gradient_dom res upstream g g' Hok Hgrad).
  pose proof (created_intermediates res g) as Hsub.
  assert (dom g ## created res g) as Hdisj; [|set_solver].
  intros a Ha Hc. apply Hsub in Hc.
  apply (intermediates_bound seqs next res a Hinv) in Hc. specialize (Hkeys a Ha). lia.
Qed.

Lemma Gradient_after_BatchSeqs_keeps_keys_witness :
  ∃ g', BlockSeqFuncOutput_Gradient demoOutput demoUpstream demoGradient = Some g' ∧
        dom g' = dom demoGradient.
Proof.
  assert (∃ g', BlockSeqFuncOutput_Gradient demoOutput demoUpstream demoGradient = Some g')
    as [g' Hgrad] by (eexists; vm_compute; reflexivity).
  exists g'. split; [exact Hgrad|].
  apply (Gradient_after_BatchSeqs_keeps_keys demoRange demoBlock demoSeqs 0 demoOutput 8
           demoUpstream demoGradient g' demoOutput_run demoOutput_collaborators); [|exact Hgrad].
  assert (set_Forall (λ a, (8 ≤ a)%nat) (dom demoGradient)) as Hall
    by (apply (bool_decide_unpack _); vm_compute; exact I).
  intros a Ha. right. exact (Hall a Ha).
Defined.

(** *** The backward pass returns *)

Lemma sized_insert width (g : Gradient) a x :
  sized width g → length x = width a → sized width (<[a := x]> g).
Proof.
  intros Hg Hx b y. destruct (decide (a = b)) as [<-|Hne].
  - rewrite lookup_insert_eq. by intros [= <-].
  - rewrite lookup_insert_ne by done. apply Hg.
Qed.

Lemma sized_delete width (g : Gradient) a : sized width g → sized width (delete a g).
Proof.
  intros Hg b y Hb. apply lookup_delete_Some in Hb as [_ Hb]. by eapply Hg.
Qed.

Section BackwardReturns.
Variables (block : Block) (seqs : list (list Result)) (next : nat).
Variable res : BlockSeqFuncOutput.
Variables (width : nat → nat) (outSize : nat).
Variable upstream : list (list Vector).
Variable gref : Gradient.
Hypothesis res_inv : unrollInv block seqs (maxLen seqs) res.
Hypothesis res_alloc : allocInv seqs next res.
Hypothesis ok : collaboratorsOK res.
Hypothesis szd : collaboratorsSized width outSize block seqs res.
Hypothesis widths : widthOfVars width res.
Hypothesis shape : length <$> upstream = length <$> seqs.
Hypothesis up_sized : Forall (Forall (λ u, length u = outSize)) upstream.

(** What the slices of a step hold for one of its lanes. *)
Lemma step_lane t step k :
  Steps res !! t = Some step → is_Some (LaneToOut step !! k) →
  ∃ (l : nat) seq x v sv ul u,
    k = Z.of_nat l ∧ seqs !! l = Some seq ∧ seq !! t = Some x ∧
    Rnn.Inputs step !! l = Some (Some x) ∧ InputVars step !! l = Some (Some v) ∧
    InStateVars step !! l = Some (Some sv) ∧
    upstream !! l = Some ul ∧ ul !! t = Some u ∧
    vec v = Output x ∧ length (vec sv) = StateSize block ∧ length u = outSize ∧
    addr v = (next + allocated seqs t + 2 * rank t seqs l)%nat ∧
    addr sv = (next + allocated seqs t + 2 * rank t seqs l + 1)%nat.
Proof.
  intros Hstep [p Hk].
  destruct (step_LaneToOut block seqs t res step k p res_inv Hstep Hk)
    as (l & seq & -> & Hseq & Hact & _).
  destruct (ui_step _ _ _ _ res_inv t step Hstep) as (st & Hlane & Hstepof).
  pose proof (inv_done _ _ _ _ _ _ Hlane l seq Hseq (lookup_lt_Some _ _ _ Hseq)) as Hdone.
  unfold laneDone in Hdone. rewrite decide_True in Hdone by done.
  destruct Hdone as (x & v & sv & Hx & Hin & Hv & Hvec & Hsv & Hstate & _).
  assert (length <$> upstream !! l = Some (length seq)) as Hul.
  { rewrite <- list_lookup_fmap, shape, list_lookup_fmap, Hseq. done. }
  destruct (upstream !! l) as [ul|] eqn:Eul; [|done]. injection Hul as Hul.
  destruct (lookup_lt_is_Some_2 ul t) as [u Hu]; [lia|].
  destruct (res_alloc t step Hstep) as [Hivs Hsvs].
  subst step. cbn [InputVars InStateVars Rnn.Inputs stepOf] in *.
  destruct (Hivs l v Hv) as [_ Hav]. destruct (Hsvs l sv Hsv) as [_ Hasv].
  exists l, seq, x, v, sv, ul, u. split_and!; try done.
  - destruct t as [|t']; simpl in Hstate.
    + rewrite Hstate, <- (ui_start _ _ _ _ res_inv). apply (sized_start_state _ _ _ _ _ szd).
    + destruct Hstate as (s & Hs & Hidx). apply index_elem_of in Hidx.
      pose proof (sized_states _ _ _ _ _ szd s (list_elem_of_lookup_2 _ _ _ Hs)) as Hall.
      rewrite Forall_forall in Hall. by apply Hall.
  - rewrite Forall_forall in up_sized.
    pose proof (up_sized ul (list_elem_of_lookup_2 _ _ _ Eul)) as Hall.
    rewrite Forall_forall in Hall. apply Hall. by eapply list_elem_of_lookup_2.
Qed.

Lemma laneCreated_addr t step (l : nat) a :
  Steps res !! t = Some step → is_Some (LaneToOut step !! Z.of_nat l) →
  a ∈ laneCreated step gref (Z.of_nat l) →
  (next + allocated seqs t + 2 * rank t seqs l ≤ a ≤
   next + allocated seqs t + 2 * rank t seqs l + 1)%nat.
Proof.
  intros Hstep Hk Ha.
  destruct (step_lane t step _ Hstep Hk)
    as (l' & seq & x & v & sv & ul & u & Heq & _ & _ & Hx & Hv & Hsv & _ & _ & _ & _ & _
        & Hav & Hasv).
  apply Nat2Z.inj in Heq. subst l'.
  unfold laneCreated in Ha. rewrite !index_nat, Hsv, Hx, Hv in Ha.
  apply elem_of_union in Ha as [Ha|Ha].
  - apply elem_of_singleton in Ha. lia.
  - destruct (Constant x gref); [set_solver|]. apply elem_of_singleton in Ha. lia.
Qed.

Lemma laneCreated_disjoint t step k1 k2 :
  Steps res !! t = Some step →
  is_Some (LaneToOut step !! k1) → is_Some (LaneToOut step !! k2) → k1 ≠ k2 →
  laneCreated step gref k1 ## laneCreated step gref k2.
Proof.
  intros Hstep H1 H2 Hne a Ha1 Ha2.
  destruct (step_lane t step k1 Hstep H1)
    as (l1 & seq1 & x1 & _ & _ & _ & _ & -> & Hseq1 & Hx1 & _).
  destruct (step_lane t step k2 Hstep H2)
    as (l2 & seq2 & x2 & _ & _ & _ & _ & -> & Hseq2 & Hx2 & _).
  apply (laneCreated_addr t step l1 a Hstep H1) in Ha1.
  apply (laneCreated_addr t step l2 a Hstep H2) in Ha2.
  assert (l1 = l2) as Heq; [|by subst].
  apply (rank_inj t seqs).
  - exists seq1. split; [done|]. by eapply lookup_lt_Some.
  - exists seq2. split; [done|]. by eapply lookup_lt_Some.
  - lia.
Qed.

Lemma forEach_gradEnter_sized t step sus (ls : list Z) su (g : Gradient) :
  Steps res !! t = Some step → slotsSized block seqs sus → sized width g →
  Forall (λ k, is_Some (LaneToOut step !! k)) ls →
  ∃ su' g', Go.forEach (gradEnter step upstream sus t) ls (su, g) = Some (su', g') ∧
    length (up_States su') = (length (up_States su) + length ls)%nat ∧
    length (up_Outputs su') = (length (up_Outputs su) + length ls)%nat ∧
    (Forall (λ x, length x = StateSize block) (up_States su) →
     Forall (λ x, length x = StateSize block) (up_States su')) ∧
    (Forall (λ x, length x = outSize) (up_Outputs su) →
     Forall (λ x, length x = outSize) (up_Outputs su')) ∧
    sized width g'.
Proof.
  intros Hstep [Hsus Hslots] Hg Hall. revert su g Hg.
  induction Hall as [|k ls Hk _ IH]; intros su g Hg.
  - exists su, g. simpl. split_and!; [done|lia|lia|done..].
  - destruct (step_lane t step k Hstep Hk)
      as (l & seq & x & v & sv & ul & u & -> & Hseq & _ & Hx & Hv & Hsv & Hul & Hu
          & Hvec & Hstate & Hout & _).
    pose proof (list_elem_of_lookup_2 _ _ _ Hstep) as Hin.
    assert (width (addr sv) = length (vec sv)) as Hwsv.
    { apply (widths step); [done|]. apply (stepVars_state _ (Z.of_nat l)).
      by rewrite index_nat. }
    assert (width (addr v) = length (vec v)) as Hwv.
    { apply (widths step); [done|]. apply (stepVars_input _ (Z.of_nat l)).
      by rewrite index_nat. }
    destruct (lookup_lt_is_Some_2 sus l) as [s Hs].
    { rewrite Hsus. by eapply lookup_lt_Some. }
    assert (length (default (make (length (vec sv))) s) = StateSize block) as Hslen.
    { destruct s as [y|]; simpl; [by eapply Hslots|].
      unfold make. by rewrite length_replicate. }
    assert (∃ su1 g1, gradEnter step upstream sus t (Z.of_nat l) (su, g) = Some (su1, g1) ∧
              up_States su1 = up_States su ++ [default (make (length (vec sv))) s] ∧
              up_Outputs su1 = up_Outputs su ++ [u] ∧ sized width g1)
      as (su1 & g1 & Hrun & Hst1 & Hout1 & Hg1).
    { unfold gradEnter. rewrite !index_nat, Hsv, Hul, Hs, Hx, Hv. simpl. rewrite Hu. simpl.
      assert (sized width (<[addr sv := make (length (vec sv))]> g)) as Hg0.
      { apply sized_insert; [done|]. unfold make. by rewrite length_replicate. }
      destruct (Constant x _); eexists _, _; (split; [reflexivity|]); simpl;
        split_and!; try done.
      apply sized_insert; [done|]. unfold make. by rewrite length_replicate. }
    simpl. rewrite Hrun.
    destruct (IH su1 g1 Hg1) as (su' & g' & Hrest & H3 & H4 & H5 & H6 & H7).
    exists su', g'. rewrite Hst1, length_app in H3. rewrite Hout1, length_app in H4.
    simpl in H3, H4 |- *.
    split_and!; [done|lia|lia| | |done].
    + intros Hsu. apply H5. rewrite Hst1. apply Forall_app. by repeat constructor.
    + intros Hsu. apply H6. rewrite Hout1. apply Forall_app. by repeat constructor.
Qed.

Lemma gradLeave_sized t step (l : nat) sus (g : Gradient) :
  Steps res !! t = Some step → is_Some (LaneToOut step !! Z.of_nat l) →
  slotsSized block seqs sus → sized width g →
  dom g ∖ intermediates res = dom gref ∖ intermediates res →
  laneCreated step gref (Z.of_nat l) ⊆ dom g →
  ∃ sus' g', gradLeave step (Z.of_nat l) (sus, g) = Some (sus', g') ∧
    slotsSized block seqs sus' ∧ sized width g'.
Proof.
  intros Hstep Hk [Hsus Hslots] Hg Href Hcreated.
  destruct (step_lane t step _ Hstep Hk)
    as (l' & seq & x & v & sv & ul & u & Heq & Hseq & Hseqx & Hx & Hv & Hsv & _ & _
        & Hvec & Hstate & _ & Hav & Hasv).
  apply Nat2Z.inj in Heq. subst l'.
  pose proof (list_elem_of_lookup_2 _ _ _ Hstep) as Hin.
  assert (addr sv ∈ intermediates res) as HsvI.
  { apply (intermediates_elem _ step); [done|]. apply (stepVars_state _ (Z.of_nat l)).
    by rewrite index_nat. }
  assert (width (addr sv) = length (vec sv)) as Hwsv.
  { apply (widths step); [done|]. apply (stepVars_state _ (Z.of_nat l)).
    by rewrite index_nat. }
  assert (width (addr v) = length (vec v)) as Hwv.
  { apply (widths step); [done|]. apply (stepVars_input _ (Z.of_nat l)).
    by rewrite index_nat. }
  assert (slotsSized block seqs (<[l := g !! addr sv]> sus)) as Hslots'.
  { split; [by rewrite length_insert|]. intros l0 y Hy.
    destruct (decide (l = l0)) as [<-|Hne].
    - rewrite list_lookup_insert_eq in Hy by (rewrite Hsus; by eapply lookup_lt_Some).
      injection Hy as Hy. apply Hg in Hy. lia.
    - rewrite list_lookup_insert_ne in Hy by done. by eapply Hslots. }
  unfold gradLeave. rewrite !index_nat, Hsv, Hx, Nat2Z.id. cbn [fst snd mbind option_bind].
  rewrite store_Some by (rewrite Hsus; by eapply lookup_lt_Some).
  cbn [gradRead gradDelete mbind option_bind].
  destruct (ok_inputs _ ok step x Hin) as [Hconst _].
  { by eapply list_elem_of_lookup_2. }
  rewrite (Hconst (delete (addr sv) g) gref) by (rewrite dom_delete_L; set_solver).
  destruct (Constant x gref) eqn:Hc.
  - eexists _, _. split; [reflexivity|]. split; [done|]. by apply sized_delete.
  - rewrite Hv. cbn [gradRead gradDelete mbind option_bind].
    assert (addr v ∈ dom g) as Hpresent.
    { apply Hcreated. unfold laneCreated. rewrite !index_nat, Hsv, Hx, Hv, Hc. set_solver. }
    apply elem_of_dom in Hpresent as [y Hy].
    rewrite lookup_delete_ne by lia. rewrite Hy. simpl.
    destruct (sized_inputs _ _ _ _ _ szd seq x y (delete (addr v) (delete (addr sv) g)))
      as (g' & Hg' & Hsized').
    { by eapply list_elem_of_lookup_2. }
    { by eapply list_elem_of_lookup_2. }
    { apply Hg in Hy. congruence. }
    { by do 2 apply sized_delete. }
    rewrite Hg'. simpl. eexists _, _. split; [reflexivity|]. done.
Qed.

Lemma forEach_gradLeave_sized t step (ls : list Z) sus (g : Gradient) :
  Steps res !! t = Some step → slotsSized block seqs sus → sized width g →
  dom g ∖ intermediates res = dom gref ∖ intermediates res →
  NoDup ls → Forall (λ k, is_Some (LaneToOut step !! k)) ls →
  ⋃ (laneCreated step gref <$> ls) ⊆ dom g →
  ∃ sus' g', Go.forEach (gradLeave step) ls (sus, g) = Some (sus', g') ∧
    slotsSized block seqs sus' ∧ sized width g'.
Proof.
  intros Hstep Hslots Hg Href Hnd Hall. revert sus g Hslots Hg Href.
  pose proof (list_elem_of_lookup_2 _ _ _ Hstep) as Hin.
  assert (∀ v, v ∈ stepVars step → addr v ∈ intermediates res) as HI.
  { intros v Hv. by eapply intermediates_elem. }
  induction Hall as [|k ls Hk Hall IH]; intros sus g Hslots Hg Href Hcreated.
  - by exists sus, g.
  - apply NoDup_cons in Hnd as [Hnotin Hnd].
    destruct (step_lane t step k Hstep Hk) as (l & _ & _ & _ & _ & _ & _ & -> & _).
    destruct (gradLeave_sized t step l sus g Hstep Hk Hslots Hg Href)
      as (sus1 & g1 & Hrun & Hslots1 & Hg1).
    { simpl in Hcreated. set_solver. }
    simpl. rewrite Hrun.
    pose proof (gradLeave_dom (intermediates res) gref step HI
                  (λ input Hi, ok_inputs _ ok step input Hin Hi) _ _ _ _ _ Href Hrun) as Hdom.
    pose proof (laneCreated_in_I (intermediates res) gref step HI (Z.of_nat l)) as Hsub.
    apply IH; try done.
    + rewrite Hdom. clear -Href Hsub. set_solver.
    + rewrite Hdom. intros a Ha. apply elem_of_difference. split.
      * apply Hcreated. simpl. set_solver.
      * apply elem_of_union_list in Ha as (X & HX & Ha).
        apply list_elem_of_fmap in HX as (k' & -> & Hk').
        rewrite Forall_forall in Hall.
        assert (Z.of_nat l ≠ k') as Hne by (intros <-; done).
        pose proof (laneCreated_disjoint t step _ _ Hstep Hk (Hall k' Hk') Hne) as Hdisj.
        intros Ha'. by apply (Hdisj a).
Qed.

Lemma gradStep_sized t step sus (g : Gradient) :
  Steps res !! t = Some step → slotsSized block seqs sus → sized width g →
  dom g ∖ intermediates res = dom gref ∖ intermediates res →
  ∃ sus' g', gradStep step upstream t (sus, g) = Some (sus', g') ∧
    slotsSized block seqs sus' ∧ sized width g' ∧
    dom g' ∖ intermediates res = dom gref ∖ intermediates res.
Proof.
  intros Hstep Hslots Hg Href.
  pose proof (list_elem_of_lookup_2 _ _ _ Hstep) as Hin.
  assert (∀ v, v ∈ stepVars step → addr v ∈ intermediates res) as HI.
  { intros v Hv. by eapply intermediates_elem. }
  assert (∃ sus' g', gradStep step upstream t (sus, g) = Some (sus', g') ∧
            slotsSized block seqs sus' ∧ sized width g') as (sus' & g' & Hrun & Hslots' & Hg').
  { unfold gradStep.
    assert (∀ k, is_Some (LaneToOut step !! k) → 0 ≤ k) as Hnonneg.
    { intros k [p Hk].
      destruct (step_LaneToOut block seqs t res step k p res_inv Hstep Hk)
        as (l & _ & -> & _). lia. }
    rewrite !loopUsedLanes_sorted by done.
    set (ls := usedLanes (LaneToOut step) 0 (lanesBound (LaneToOut step))).
    assert (Forall (λ k, is_Some (LaneToOut step !! k)) ls) as Hall.
    { apply Forall_forall. intros k Hk. by apply elem_of_usedLanes in Hk as [? _]. }
    destruct (forEach_gradEnter_sized t step sus ls {| up_States := []; up_Outputs := [] |} g
                Hstep Hslots Hg Hall) as (su & g1 & Hrun & Hst & Hout & Hsts & Houts & Hg1).
    cbn [fst snd]. rewrite Hrun. cbn [mbind option_bind fst snd].
    unfold ls in Hst, Hout. rewrite usedLanes_length in Hst, Hout by done.
    simpl in Hst, Hout.
    destruct (sized_block _ _ _ _ _ szd step su g1 Hin Hst Hout (Hsts (Forall_nil_2 _))
                (Houts (Forall_nil_2 _)) Hg1) as (g2 & Hg2 & Hsized2).
    rewrite Hg2. cbn [mbind option_bind]. rewrite loopUsedLanes_sorted by done.
    apply (forEach_gradLeave_sized t); try done.
    - rewrite (ok_block _ ok step su g1 g2 Hin Hg2).
      rewrite (forEach_gradEnter_dom (intermediates res) gref step HI
                 (λ input Hi, ok_inputs _ ok step input Hin Hi) _ _ _ _ _ _ _ _ Href Hrun).
      assert (⋃ (laneCreated step gref <$> ls) ⊆ intermediates res) as Hsub.
      { intros a (X & HX & Ha)%elem_of_union_list.
        apply list_elem_of_fmap in HX as (l & -> & _).
        by apply (laneCreated_in_I (intermediates res) gref step HI l). }
      clear -Href Hsub. set_solver.
    - apply NoDup_usedLanes.
    - rewrite (ok_block _ ok step su g1 g2 Hin Hg2).
      rewrite (forEach_gradEnter_dom (intermediates res) gref step HI
                 (λ input Hi, ok_inputs _ ok step input Hin Hi) _ _ _ _ _ _ _ _ Href Hrun).
      set_solver. }
  exists sus', g'. split_and!; try done.
  rewrite (gradStep_dom (intermediates res) gref step HI
             (λ input Hi, ok_inputs _ ok step input Hin Hi) upstream t sus g sus' g'
             (λ u g1 g2, ok_block _ ok step u g1 g2 Hin) Href Hrun).
  pose proof (stepCreated_in_I (intermediates res) gref step HI) as Hsub.
  clear -Href Hsub. set_solver.
Qed.

Lemma gradLoop_sized n sus (g : Gradient) :
  (n ≤ length (Steps res))%nat → slotsSized block seqs sus → sized width g →
  dom g ∖ intermediates res = dom gref ∖ intermediates res →
  ∃ sus' g', gradLoop (Steps res) upstream n (sus, g) = Some (sus', g') ∧
    slotsSized block seqs sus' ∧ sized width g'.
Proof.
  revert sus g. induction n as [|n IH]; intros sus g Hn Hslots Hg Href; [by exists sus, g|].
  simpl. destruct (lookup_lt_is_Some_2 (Steps res) n) as [step Hstep]; [lia|].
  rewrite Hstep. simpl.
  destruct (gradStep_sized n step sus g Hstep Hslots Hg Href)
    as (sus1 & g1 & Hrun & Hslots1 & Hg1 & Href1).
  rewrite Hrun. simpl. apply IH; [lia|done..].
Qed.

Lemma forEach_gradStart_sized (ups : list (option Vector)) (g : Gradient) :
  (∀ x, Some x ∈ ups → length x = StateSize block) → sized width g →
  is_Some (Go.forEach (gradStart (bsf_StartState res)) ups g).
Proof.
  revert g. induction ups as [|[u|] ups IH]; intros g Hups Hg; simpl; [done| |].
  - destruct (sized_start _ _ _ _ _ szd u g) as (g1 & Hg1 & Hsized1); [|done|].
    { apply Hups. left. }
    rewrite Hg1. apply IH; [|done]. intros x Hx. apply Hups. by right.
  - apply IH; [|done]. intros x Hx. apply Hups. by right.
Qed.
End BackwardReturns.

(** X16.  The backward pass of an unrolled output returns exactly when the
    upstream has the shape of the batch: one list per lane, with one vector
    per element of the lane's sequence.  Given such an upstream with
    vectors of the output size, [Gradient] finds every slot, variable,
    accumulator entry and upstream vector it indexes, and it calls its
    collaborators on gradients of the right sizes, so that it returns when
    they return on such gradients; given an upstream of another shape, it
    panics. *)
Theorem Gradient_returns_on_matching_upstream (mapRange : gmap Z Z → list (Z * Z))
    (block : Block) (seqs : list (list Result)) (next : nat) res next'
    (width : nat → nat) (outSize : nat)
    (upstream : list (list Vector)) (g : Gradient) :
  (∀ m, mapRange m ≡ₚ map_to_list m) → Block_wf block →
  BlockSeqFunc_BatchSeqs mapRange block seqs next = Some (res, next') →
  collaboratorsOK res →
  collaboratorsSized width outSize block seqs res →
  widthOfVars width res →
  sized width g →
  Forall (Forall (λ u, length u = outSize)) upstream →
  is_Some (BlockSeqFuncOutput_Gradient res upstream g) ↔
  length <$> upstream = length <$> seqs.
Proof.
  intros Hperm Hwf Hrun Hok Hszd Hwidths Hg Hup.
  pose proof (BatchSeqs_inv mapRange block seqs next res next' Hperm Hwf Hrun) as Hinv.
  destruct (BatchSeqs_alloc mapRange block seqs next res next' Hrun) as [_ Halloc].
  destruct (BatchSeqs_collaborators mapRange block seqs next res next' Hperm Hwf Hrun)
    as (_ & Hpacked & _).
  unfold BlockSeqFuncOutput_Gradient. split.
  - intros Hsome. destruct (decide (length upstream ≠ _)); [by destruct Hsome|].
    destruct (decide (length <$> upstream ≠ _)) as [|Heq%dec_stable]; [by destruct Hsome|].
    by rewrite Heq.
  - intros Hshape.
    assert (length upstream = length seqs) as Hlen.
    { by rewrite <- (length_fmap length upstream), Hshape, length_fmap. }
    rewrite decide_False by (rewrite (ui_packed_len _ _ _ _ Hinv); intros H; by apply H).
    rewrite decide_False by (rewrite Hpacked; intros H; by apply H).
    destruct (gradLoop_sized block seqs next res width outSize upstream g Hinv Halloc Hok
                Hszd Hwidths Hshape Hup
                (length (Steps res)) (replicate (length (PackedOut res)) None) g)
      as (sus & g1 & Hloop & [_ Hslots] & Hg1); [done| |done|done|].
    { split; [by rewrite length_replicate, (ui_packed_len _ _ _ _ Hinv)|].
      intros l x Hl. apply lookup_replicate in Hl as [? _]. done. }
    rewrite Hloop. simpl. apply (forEach_gradStart_sized block seqs res width outSize Hszd);
      [|done].
    intros x [l Hx]%list_elem_of_lookup. by eapply Hslots.
Qed.

Lemma vadd_sized (x u : Vector) :
  (length u ≤ length x)%nat → ∃ x', vadd x u = Some x' ∧ length x' = length x.
Proof.
  revert x. induction u as [|y u IH]; intros x Hlen; [by exists x; destruct x|].
  destruct x as [|z x]; [simpl in Hlen; lia|]. simpl in Hlen |- *.
  destruct (IH x) as (w & -> & Hw); [lia|]. eexists. split; [reflexivity|]. simpl. lia.
Qed.

Lemma varResult_sized width v u (g : Gradient) :
  (length u ≤ width (addr v))%nat → sized width g →
  ∃ g', PropagateGradient (varResult v) u g = Some g' ∧ sized width g'.
Proof.
  intros Hu Hg. simpl. destruct (g !! addr v) as [x|] eqn:Hx; [|by exists g].
  destruct (vadd_sized x u) as (x' & -> & Hlen); [rewrite (Hg _ _ Hx); lia|].
  eexists. split; [reflexivity|]. apply sized_insert; [done|]. rewrite Hlen. by eapply Hg.
Qed.

Lemma demoPropagate_sized width (n : nat) vs us pad (g : Gradient) :
  Forall (λ v, width (addr v) = n) vs →
  Forall (λ u, (length u + length pad ≤ n)%nat) us → sized width g →
  ∃ g', demoPropagate vs us pad g = Some g' ∧ sized width g'.
Proof.
  unfold demoPropagate. intros Hvs. revert us g.
  induction Hvs as [|v vs Hv _ IH]; intros us g Hus Hg; [by exists g|].
  destruct us as [|u us]; [by exists g|]. apply Forall_cons in Hus as [Hu Hus].
  cbn [zip zip_with Go.forEach fst snd].
  destruct (varResult_sized width v (u ++ pad) g) as (g1 & Hg1 & Hsized1); [|done|].
  { rewrite length_app. lia. }
  rewrite Hg1. by apply IH.
Qed.

Lemma demoOutput_sized : collaboratorsSized demoWidth 2 demoBlock demoSeqs demoOutput.
Proof.
  assert (Rnn.Outputs <$> Steps demoOutput = demoBatch <$> demoInputs) as Hsteps
    by (vm_compute; reflexivity).
  assert (∀ step, step ∈ Steps demoOutput →
    ∃ input, input ∈ demoInputs ∧ Rnn.Outputs step = demoBatch input) as Hstep.
  { intros step Hin. apply (list_elem_of_fmap_2 Rnn.Outputs) in Hin. rewrite Hsteps in Hin.
    apply list_elem_of_fmap in Hin as (input & -> & Hin). by exists input. }
  assert (Forall (λ input,
            Forall (λ v, demoWidth (addr v) = 2%nat ∧ length (vec v) = 2%nat)
              (in_States input) ∧
            Forall (λ v, demoWidth (addr v) = 3%nat) (in_Inputs input)) demoInputs) as Hall
    by (repeat constructor).
  rewrite Forall_forall in Hall.
  split.
  - intros step Hin. destruct (Hstep step Hin) as (input & Hinput & ->).
    destruct (Hall input Hinput) as [Hst _]. simpl. apply Forall_fmap.
    eapply Forall_impl; [exact Hst|]. intros v [_ Hv]. simpl.
    destruct (vec v) as [|s0 rest]; simpl in *; [done|lia].
  - reflexivity.
  - intros step u g Hin _ _ Hus Huo Hg. destruct (Hstep step Hin) as (input & Hinput & ->).
    destruct (Hall input Hinput) as [Hst Hinp]. simpl.
    destruct (demoPropagate_sized demoWidth 2 (in_States input) (up_States u) [] g)
      as (g1 & Hg1 & Hsized1); [| |done|].
    { eapply Forall_impl; [exact Hst|]. by intros v [? _]. }
    { eapply Forall_impl; [exact Hus|]. intros x Hx. simpl in *. lia. }
    rewrite Hg1. simpl. apply (demoPropagate_sized demoWidth 3); [done| |done].
    eapply Forall_impl; [exact Huo|]. intros x Hx. simpl in *. lia.
  - intros seq input u g Hseq Hinput Hu Hg.
    assert (Forall (Forall (λ input, ∃ v, input = varResult v ∧
              demoWidth (addr v) = length (vec v))) demoSeqs) as Hin.
    { repeat constructor; (eexists; split; reflexivity). }
    rewrite Forall_forall in Hin. specialize (Hin seq Hseq).
    rewrite Forall_forall in Hin. destruct (Hin input Hinput) as (v & -> & Hv).
    apply varResult_sized; [|done]. simpl in Hu. lia.
  - intros u g Hu Hg. apply (varResult_sized demoWidth demoStart); [|done].
    simpl in *. unfold demoWidth. simpl. lia.
Qed.

Lemma Gradient_returns_on_matching_upstream_witness :
  is_Some (BlockSeqFuncOutput_Gradient demoOutput demoUpstream demoGradient).
Proof.
  apply (Gradient_returns_on_matching_upstream demoRange demoBlock demoSeqs 0 demoOutput 8
           demoWidth 2 demoUpstream demoGradient).
  - intros m. reflexivity.
  - exact demoBlock_wf.
  - exact demoOutput_run.
  - exact demoOutput_collaborators.
  - exact demoOutput_sized.
  - intros step v Hstep Hv.
    assert (Forall (λ v, demoWidth (addr v) = length (vec v))
              (Steps demoOutput ≫= stepVars)) as Hall
      by (apply (bool_decide_unpack _); vm_compute; exact I).
    rewrite Forall_forall in Hall. apply Hall. apply list_elem_of_bind. by exists step.
  - apply (bool_decide_unpack _). vm_compute. exact I.
  - repeat constructor.
  - reflexivity.
Defined.

(** *** Reversing a batch *)

(** X17.  [reverseInputSeqs] never panics, keeps the number of sequences
    and the length of each, and undoes itself: reversing the reversed batch
    gives the batch back. *)
Theorem reverseInputSeqs_involutive (seqs : list (list Result)) :
  ∃ reversed, reverseInputSeqs seqs = Some reversed ∧
    length <$> reversed = length <$> seqs ∧
    reverseInputSeqs reversed = Some seqs.
Proof.
  exists (reverse <$> seqs). rewrite !reverseInputSeqs_reverse. split_and!; [done| |].
  - rewrite <- list_fmap_compose. apply list_fmap_ext. intros i s _. simpl.
    apply length_reverse.
  - f_equal. rewrite <- list_fmap_compose. rewrite <- (list_fmap_id seqs) at 2.
    apply list_fmap_ext. intros i s _. simpl. apply reverse_involutive.
Qed.

(** *** Lanes do not see each other *)

Lemma laneOutputs_lookup outFn stateFn state (xs : list Vector) t :
  laneOutputs outFn stateFn state xs !! t =
    outFn (foldl stateFn state (take t xs)) <$> xs !! t.
Proof.
  revert state t. induction xs as [|x xs IH]; intros state t; [by destruct t|].
  destruct t as [|t]; [done|]. simpl. apply IH.
Qed.

Lemma length_laneOutputs outFn stateFn state (xs : list Vector) :
  length (laneOutputs outFn stateFn state xs) = length xs.
Proof. revert state. induction xs as [|x xs IH]; intros state; simpl; [done|]. by rewrite IH. Qed.

Lemma length_le_maxLen {A} (seqs : list (list A)) l seq :
  seqs !! l = Some seq → (length seq ≤ maxLen seqs)%nat.
Proof.
  revert l. induction seqs as [|s ss IH]; intros l Hl; [done|].
  destruct l as [|l]; simpl in *.
  - injection Hl as ->. lia.
  - specialize (IH l Hl). lia.
Qed.

(** The state and the input that timestep [t] of an unrolled output gives
    the block for a lane. *)
Lemma lane_state (block : Block) outFn stateFn (seqs : list (list Result)) res l seq t x :
  Block_wf block → laneWise block outFn stateFn →
  unrollInv block seqs (maxLen seqs) res →
  seqs !! l = Some seq → seq !! t = Some x →
  ∃ st sv v,
    Steps res !! t = Some (stepOf block st) ∧
    in_States (sb_input st) !! rank t seqs l = Some sv ∧
    in_Inputs (sb_input st) !! rank t seqs l = Some v ∧
    vec v = Output x ∧
    vec sv = foldl stateFn (Output (StartState block)) (take t (Output <$> seq)).
Proof.
  intros Hwf Hlane Hinv Hseq. revert x. induction t as [|t IH]; intros x Hx.
  - pose proof (lookup_lt_Some _ _ _ Hx) as Hact.
    pose proof (length_le_maxLen seqs l seq Hseq) as Hmax.
    destruct (lookup_lt_is_Some_2 (Steps res) 0%nat) as [step Hstep].
    { rewrite (ui_steps _ _ _ _ Hinv). lia. }
    destruct (ui_step _ _ _ _ Hinv 0%nat step Hstep) as (st & Hinv0 & ->).
    pose proof (inv_done _ _ _ _ _ _ Hinv0 l seq Hseq (lookup_lt_Some _ _ _ Hseq)) as Hdone.
    unfold laneDone in Hdone. rewrite decide_True in Hdone by done.
    destruct Hdone as (x' & v & sv & Hx' & _ & _ & Hv & _ & Hstate & _ & Hin & Hst).
    assert (x' = x) as -> by congruence.
    exists st, sv, v. split_and!; try done.
  - pose proof (lookup_lt_Some _ _ _ Hx) as Hact.
    pose proof (length_le_maxLen seqs l seq Hseq) as Hmax.
    destruct (lookup_lt_is_Some_2 seq t) as [x0 Hx0]; [lia|].
    destruct (IH x0 Hx0) as (st0 & sv0 & v0 & Hstep0 & Hst0 & Hin0 & Hv0 & Hsv0).
    destruct (lookup_lt_is_Some_2 (Steps res) (Datatypes.S t)) as [step Hstep].
    { rewrite (ui_steps _ _ _ _ Hinv). lia. }
    destruct (ui_step _ _ _ _ Hinv (Datatypes.S t) step Hstep) as (st & Hinv1 & ->).
    pose proof (inv_done _ _ _ _ _ _ Hinv1 l seq Hseq (lookup_lt_Some _ _ _ Hseq)) as Hdone.
    unfold laneDone in Hdone. rewrite decide_True in Hdone by done.
    destruct Hdone as (x' & v & sv & Hx' & _ & _ & Hv & _ & Hstate & _ & Hin & Hst).
    assert (x' = x) as -> by congruence.
    exists st, sv, v. split_and!; try done.
    destruct Hstate as (s & Hs & Hidx). rewrite Hstep0 in Hs. injection Hs as <-.
    destruct (ui_step _ _ _ _ Hinv t (stepOf block st0) Hstep0) as (st0' & Hinv0 & Heq).
    assert (sb_LaneToOut st0 = sb_LaneToOut st0') as Hmap by (by injection Heq).
    cbn in Hidx. unfold mapRead in Hidx.
    rewrite Hmap, (laneInv_map block seqs t _ st0' l seq Hinv0 Hseq) in Hidx.
    rewrite decide_True in Hidx by lia. simpl in Hidx. rewrite index_nat in Hidx.
    destruct (Hlane (sb_input st0) _ sv0 v0 Hst0 Hin0) as [_ Hout].
    rewrite Hout in Hidx. injection Hidx as <-.
    rewrite Hsv0, Hv0. rewrite (take_S_r _ _ (Output x0)); [by rewrite foldl_app|].
    by rewrite list_lookup_fmap, Hx0.
Qed.

(** X18.  Lanes of a batch do not see each other.  For a block that
    computes the output and the new state of a lane from the state and the
    input of that lane, the packed output that [BatchSeqs] returns for a
    lane is the recurrence of the block on the sequence of that lane alone,
    started from the start state, whatever the other sequences of the batch
    and their lengths are. *)
Theorem BatchSeqs_lanes_independent (mapRange : gmap Z Z → list (Z * Z)) (block : Block)
    (outFn stateFn : Vector → Vector → Vector)
    (seqs : list (list Result)) (next : nat) res next' :
  (∀ m, mapRange m ≡ₚ map_to_list m) → Block_wf block → laneWise block outFn stateFn →
  BlockSeqFunc_BatchSeqs mapRange block seqs next = Some (res, next') →
  ∀ l seq, seqs !! l = Some seq →
    PackedOut res !! l =
      Some (laneOutputs outFn stateFn (Output (StartState block)) (Output <$> seq)).
Proof.
  intros Hperm Hwf Hlane Hrun l seq Hseq.
  pose proof (BatchSeqs_inv mapRange block seqs next res next' Hperm Hwf Hrun) as Hinv.
  destruct (ui_packed _ _ _ _ Hinv l seq Hseq) as (po & Hpo & Hpolen & Hpoget).
  pose proof (length_le_maxLen seqs l seq Hseq) as Hmax.
  rewrite Hpo. f_equal. apply list_eq. intros t. rewrite laneOutputs_lookup, list_lookup_fmap.
  destruct (seq !! t) as [x|] eqn:Hx.
  - destruct (lane_state block outFn stateFn seqs res l seq t x Hwf Hlane Hinv Hseq Hx)
      as (st & sv & v & Hstep & Hst & Hin & Hv & Hsv).
    pose proof (lookup_lt_Some _ _ _ Hx) as Hact.
    rewrite (Hpoget t (stepOf block st)) by (try done; lia). cbn.
    destruct (Hlane (sb_input st) _ sv v Hst Hin) as [Hout _].
    by rewrite Hout, Hsv, Hv.
  - apply lookup_ge_None in Hx. simpl. apply lookup_ge_None. lia.
Qed.

Lemma demoBlock_laneWise : laneWise demoBlock demoOutFn demoStateFn.
Proof.
  intros input k s x Hs Hx. cbn. split.
  - rewrite list_lookup_imap, Hx. cbn. by rewrite Hs.
  - by rewrite list_lookup_fmap, Hs.
Qed.

Lemma BatchSeqs_lanes_independent_witness :
  PackedOut demoOutput !! 1%nat = Some [[0; 7]].
Proof.
  rewrite (BatchSeqs_lanes_independent demoRange demoBlock demoOutFn demoStateFn demoSeqs 0
             demoOutput 8 (λ m, reflexivity _) demoBlock_wf demoBlock_laneWise demoOutput_run
             1%nat [varResult (demoIn 1 0)]); reflexivity.
Defined.

(** ** The R-operator variant of the unroller computes the same forward
       pass *)

Import AutofuncR.

Lemma eraseVars_insert vars l (v : RVar) :
  RnnR.eraseVars (<[l := Some v]> vars) = <[l := Some (Variable_ v)]> (RnnR.eraseVars vars).
Proof. unfold RnnR.eraseVars. by rewrite list_fmap_insert. Qed.

Lemma length_eraseVars vars : length (RnnR.eraseVars vars) = length vars.
Proof. unfold RnnR.eraseVars. by rewrite length_fmap. Qed.

Lemma store_inv {A} (l : list A) i x l' :
  Go.store l i x = Some l' → (i < length l)%nat ∧ l' = <[i := x]> l.
Proof. unfold Go.store. destruct (decide _); [|done]. by intros [= <-]. Qed.

Lemma laneBody_same (start : Result) (rstart : RResult) steps rsteps t l
    (seq : list Result) (rseq : list RResult) st rst rst' :
  Output start = r_Output rstart →
  Forall2 RnnR.sameStep steps rsteps →
  Output <$> seq = r_Output <$> rseq →
  RnnR.sameBuild st rst →
  RnnR.laneBody rstart rsteps t l rseq rst = Some rst' →
  ∃ st', laneBody start steps t l seq st = Some st' ∧ RnnR.sameBuild st' rst'.
Proof.
  intros Hstart Hsteps Hseq (HS & HI & HX & HM & Hin & Hnext) Hrun.
  assert (length seq = length rseq) as Hlen.
  { by rewrite <- (length_fmap Output seq), Hseq, length_fmap. }
  unfold RnnR.laneBody in Hrun. unfold laneBody. rewrite Hlen.
  destruct (decide (length rseq ≤ t)%nat).
  { injection Hrun as <-. by exists st. }
  destruct (rseq !! t) as [xr|] eqn:Hxr; [|done]. cbn [mbind option_bind] in Hrun.
  assert (∃ x, seq !! t = Some x ∧ Output x = r_Output xr) as (x & Hx & Hout).
  { assert ((Output <$> seq) !! t = Some (r_Output xr)) as Hl
      by by rewrite Hseq, list_lookup_fmap, Hxr.
    rewrite list_lookup_fmap in Hl. destruct (seq !! t) as [x|]; [|done].
    injection Hl as Hl. by exists x. }
  rewrite Hx. cbn [mbind option_bind].
  destruct (Go.store (RnnR.sb_Inputs rst) l _) as [rinputs|] eqn:E1; [|done].
  cbn [mbind option_bind] in Hrun. apply store_inv in E1 as [Hl1 ->].
  destruct (Go.store (RnnR.sb_InputVars rst) l _) as [rinputVars|] eqn:E2; [|done].
  cbn [mbind option_bind] in Hrun. apply store_inv in E2 as [Hl2 ->].
  destruct (Go.store (RnnR.sb_InStateVars rst) l _) as [rinStateVars|] eqn:E3; [|done].
  cbn [mbind option_bind] in Hrun. apply store_inv in E3 as [Hl3 ->].
  rewrite !store_Some by (rewrite ?HS, ?HI, ?length_eraseVars; lia). cbn [mbind option_bind].
  destruct (decide (0 < t)%nat) as [Hpos|].
  - destruct (rsteps !! (t - 1)%nat) as [rs|] eqn:Hrs; [|done].
    cbn [mbind option_bind] in Hrun.
    destruct (Forall2_lookup_r _ _ _ _ _ Hsteps Hrs) as (s & Hs & HM' & _ & _ & HSt & _).
    rewrite Hs. cbn [mbind option_bind]. rewrite HM', HSt.
    destruct (Go.index (RnnR.out_States _) _) as [v|]; [|done].
    cbn [mbind option_bind] in Hrun |- *.
    destruct (Go.index (RnnR.out_RStates _) _) as [rv|]; [|done].
    cbn [mbind option_bind fst snd] in Hrun.
    destruct (Go.store _ l _) as [rinStateVars'|] eqn:E4; [|done].
    cbn [mbind option_bind] in Hrun. apply store_inv in E4 as [Hl4 ->].
    injection Hrun as <-.
    rewrite store_Some by (rewrite length_insert, HS, length_eraseVars; lia).
    cbn [mbind option_bind]. eexists. split; [reflexivity|].
    unfold RnnR.sameBuild. cbn.
    rewrite !eraseVars_insert, HS, HI, !length_insert, HX, HM, Hin, Hnext, Hout, Hstart.
    unfold RnnR.eraseInput. cbn. rewrite !fmap_app, !length_fmap. done.
  - cbn [mbind option_bind fst snd] in Hrun |- *.
    destruct (Go.store _ l _) as [rinStateVars'|] eqn:E4; [|done].
    cbn [mbind option_bind] in Hrun. apply store_inv in E4 as [Hl4 ->].
    injection Hrun as <-.
    rewrite store_Some by (rewrite length_insert, HS, length_eraseVars; lia).
    cbn [mbind option_bind]. eexists. split; [reflexivity|].
    unfold RnnR.sameBuild. cbn.
    rewrite !eraseVars_insert, HS, HI, !length_insert, HX, HM, Hin, Hnext, Hout, Hstart.
    unfold RnnR.eraseInput. cbn. rewrite !fmap_app, !length_fmap. done.
Qed.

Lemma rangeFrom_same (start : Result) (rstart : RResult) steps rsteps t
    (seqs : list (list Result)) (rseqs : list (list RResult)) i st rst rst' :
  Output start = r_Output rstart →
  Forall2 RnnR.sameStep steps rsteps →
  Forall2 (λ seq rseq, Output <$> seq = r_Output <$> rseq) seqs rseqs →
  RnnR.sameBuild st rst →
  Go.rangeFrom i (RnnR.laneBody rstart rsteps t) rseqs rst = Some rst' →
  ∃ st', Go.rangeFrom i (laneBody start steps t) seqs st = Some st' ∧ RnnR.sameBuild st' rst'.
Proof.
  intros Hstart Hsteps Hseqs. revert i st rst.
  induction Hseqs as [|seq rseq seqs rseqs Hseq _ IH]; intros i st rst Hsame Hrun.
  - injection Hrun as <-. by exists st.
  - simpl in Hrun. destruct (RnnR.laneBody _ _ _ _ _ _) as [rst1|] eqn:Hbody; [|done].
    destruct (laneBody_same start rstart steps rsteps t i seq rseq st rst rst1)
      as (st1 & Hbody1 & Hsame1); try done.
    simpl. rewrite Hbody1. by apply (IH _ _ rst1).
Qed.

Lemma forEach_pack_same (outputs : list Vector) (rout : RnnR.BlockROutput)
    (es : list (Z * Z)) packed rpacked packed' :
  outputs = RnnR.out_Outputs rout →
  length <$> rpacked = length <$> packed →
  Go.forEach (RnnR.packBody rout) es (packed, rpacked) = Some packed' →
  Go.forEach (packBody outputs) es packed = Some packed'.1 ∧
  length <$> packed'.2 = length <$> packed'.1.
Proof.
  intros ->. revert packed rpacked. induction es as [|e es IH]; intros packed rpacked Hlen Hrun.
  - by injection Hrun as <-.
  - simpl in Hrun. destruct (RnnR.packBody rout e _) as [[p1 rp1]|] eqn:Hbody; [|done].
    unfold RnnR.packBody in Hbody. cbn [fst snd] in Hbody.
    destruct (Go.index (RnnR.out_Outputs rout) e.2) as [o|] eqn:Ho; [|done].
    cbn [mbind option_bind] in Hbody.
    destruct (Go.index packed e.1) as [cur|] eqn:Hcur; [|done].
    cbn [mbind option_bind] in Hbody.
    destruct (Go.store packed _ _) as [p|] eqn:Hp; [|done]. cbn [mbind option_bind] in Hbody.
    destruct (Go.index (RnnR.out_ROutputs rout) e.2) as [ro|]; [|done].
    cbn [mbind option_bind] in Hbody.
    destruct (Go.index rpacked e.1) as [rcur|] eqn:Hrcur; [|done].
    cbn [mbind option_bind] in Hbody.
    destruct (Go.store rpacked _ _) as [rp|] eqn:Hrp; [|done]. cbn [mbind option_bind] in Hbody.
    injection Hbody as <- <-.
    simpl. unfold packBody at 1. rewrite Ho. cbn [mbind option_bind]. rewrite Hcur.
    cbn [mbind option_bind]. rewrite Hp. apply (IH p rp); [|done].
    apply store_inv in Hp as [_ ->]. apply store_inv in Hrp as [_ ->].
    rewrite !list_fmap_insert, !length_app, Hlen. f_equal. simpl.
    unfold Go.index in Hcur, Hrcur. destruct (decide (0 ≤ e.1)); [|done].
    assert ((length <$> rpacked) !! Z.to_nat e.1 = (length <$> packed) !! Z.to_nat e.1) as Hl
      by by rewrite Hlen.
    rewrite !list_lookup_fmap, Hcur, Hrcur in Hl. injection Hl as ->. done.
Qed.

Lemma maxLen_same (seqs : list (list Result)) (rseqs : list (list RResult)) :
  Forall2 (λ seq rseq, Output <$> seq = r_Output <$> rseq) seqs rseqs →
  maxLen seqs = maxLen rseqs ∧ length seqs = length rseqs.
Proof.
  induction 1 as [|seq rseq seqs rseqs Hseq _ [IH1 IH2]]; [done|]. simpl.
  rewrite IH1, IH2. split; [|done]. f_equal.
  by rewrite <- (length_fmap Output seq), Hseq, length_fmap.
Qed.

Lemma unroll_same (mapRange : gmap Z Z → list (Z * Z)) (block : Block) (rblock : RnnR.RBlock)
    (rv : RVector) (seqs : list (list Result)) (rseqs : list (list RResult))
    fuel t res rres next rres' next' :
  RnnR.forwardOf block rblock rv →
  Forall2 (λ seq rseq, Output <$> seq = r_Output <$> rseq) seqs rseqs →
  RnnR.sameOutput res rres →
  RnnR.unroll mapRange fuel rblock rv rseqs t rres next = Some (rres', next') →
  ∃ res', unroll mapRange fuel block seqs t res next = Some (res', next') ∧
          RnnR.sameOutput res' rres'.
Proof.
  intros [Hstart Hbatch] Hseqs. destruct (maxLen_same seqs rseqs Hseqs) as [_ Hlen].
  revert t res rres next. induction fuel as [|fuel IH]; intros t res rres next Hsame Hrun; [done|].
  destruct Hsame as (Hs & Hsteps & Hpacked & Hshape).
  simpl in Hrun. unfold Go.range in Hrun.
  destruct (Go.rangeFrom 0 _ rseqs _) as [rst|] eqn:Hlanes; [|done].
  cbn [mbind option_bind] in Hrun.
  eapply (rangeFrom_same (bsf_StartState res) _ (Steps res) _ t seqs rseqs 0
            {| sb_InStateVars := replicate (length seqs) None;
               sb_InputVars := replicate (length seqs) None;
               sb_Inputs := replicate (length seqs) None;
               sb_LaneToOut := ∅;
               sb_input := {| in_States := []; in_Inputs := [] |};
               sb_next := next |})
    in Hlanes as (st & Hlanes & HS & HI & HX & HM & Hin & Hnext); [|done..|].
  2:{ unfold RnnR.sameBuild, RnnR.eraseVars. cbn. rewrite !fmap_replicate, !length_replicate, Hlen.
      done. }
  simpl. unfold Go.range. rewrite Hlanes. cbn [mbind option_bind]. rewrite HM.
  destruct (decide (size (RnnR.sb_LaneToOut rst) = 0%nat)).
  { injection Hrun as <- <-. by exists res. }
  destruct (Go.forEach _ _ _) as [[packed rpacked]|] eqn:Hpack; [|done].
  cbn [mbind option_bind fst snd] in Hrun.
  apply (forEach_pack_same (out_Outputs (Batch block (sb_input st)))) in Hpack
    as [Hpack Hshape']; [| |done].
  2:{ cbn. rewrite Hin. by destruct (Hbatch (RnnR.sb_input rst)) as [_ ->]. }
  cbn [fst snd] in Hpack, Hshape'.
  cbn [Rnn.Outputs Rnn.LaneToOut]. rewrite Hpacked, Hpack. cbn [mbind option_bind fst].
  rewrite Hnext. eapply IH; [|exact Hrun].
  split_and!; cbn; [done| |done|done].
  apply Forall2_app; [done|]. constructor; [|constructor].
  destruct (Hbatch (RnnR.sb_input rst)) as [Hst Hout].
  unfold RnnR.sameStep. cbn. by rewrite Hin, Hst, Hout.
Qed.

(** X19.  The R-operator variant of the unroller runs the same forward pass
    as the plain one.  For an R-operator block that computes the outputs and
    states of a block, on R-inputs with the outputs of the inputs, whenever
    [BatchSeqsR] returns, [BatchSeqs] returns as well, from the same first
    free address to the same next one, with the same packed outputs and with
    steps over the same lanes and variables; and the packed R-outputs have
    the shape of the packed outputs. *)
Theorem BatchSeqsR_runs_the_forward_pass (mapRange : gmap Z Z → list (Z * Z))
    (block : Block) (rblock : RnnR.RBlock) (rv : RVector)
    (seqs : list (list Result)) (rseqs : list (list RResult)) (next : nat) rres next' :
  RnnR.forwardOf block rblock rv →
  Forall2 (λ seq rseq, Output <$> seq = r_Output <$> rseq) seqs rseqs →
  RnnR.BlockSeqFunc_BatchSeqsR mapRange rblock rv rseqs next = Some (rres, next') →
  ∃ res,
    BlockSeqFunc_BatchSeqs mapRange block seqs next = Some (res, next') ∧
    PackedOut res = RnnR.PackedOut rres ∧
    length <$> RnnR.RPackedOut rres = length <$> RnnR.PackedOut rres ∧
    Forall2 RnnR.sameStep (Steps res) (RnnR.Steps rres).
Proof.
  intros Hforward Hseqs Hrun. destruct (maxLen_same seqs rseqs Hseqs) as [Hmax Hlen].
  unfold RnnR.BlockSeqFunc_BatchSeqsR in Hrun. unfold BlockSeqFunc_BatchSeqs.
  rewrite Hmax, Hlen.
  eapply (unroll_same mapRange block rblock rv seqs rseqs) in Hrun
    as (res & Hres & _ & Hsteps & Hpacked & Hshape); [|done|done|].
  - exists res. split_and!; [exact Hres|done..].
  - destruct Hforward as [Hstart _]. split_and!; cbn; [done|constructor|done|done].
Qed.

Lemma quietRBlock_forward : RnnR.forwardOf quietBlock quietRBlock ∅.
Proof.
  split; [done|]. intros input. cbn. by rewrite <- !list_fmap_compose.
Qed.

Lemma BatchSeqsR_runs_the_forward_pass_witness :
  ∃ rres res next',
    RnnR.BlockSeqFunc_BatchSeqsR demoRange quietRBlock ∅ quietSeqsR 0 = Some (rres, next') ∧
    BlockSeqFunc_BatchSeqs demoRange quietBlock quietSeqs 0 = Some (res, next') ∧
    PackedOut res = RnnR.PackedOut rres.
Proof.
  assert (∃ rres next',
            RnnR.BlockSeqFunc_BatchSeqsR demoRange quietRBlock ∅ quietSeqsR 0 = Some (rres, next'))
    as (rres & next' & Hrun) by (eexists _, _; vm_compute; reflexivity).
  destruct (BatchSeqsR_runs_the_forward_pass demoRange quietBlock quietRBlock ∅
              quietSeqs quietSeqsR 0 rres next' quietRBlock_forward)
    as (res & Hres & Hpacked & _).
  - repeat constructor.
  - exact Hrun.
  - exists rres, res, next'. split_and!; [exact Hrun|exact Hres|exact Hpacked].
Defined.

(** ** The output of a batcher block: one packed vector for all lanes *)

Import AutofuncR.
Import Batcher.

Lemma slice_app_mid (pre row post : Vector) (a c : nat) (lo : Z) :
  lo = Z.of_nat (length pre + a) → (a + c ≤ length row)%nat →
  slice (pre ++ row ++ post) lo (lo + Z.of_nat c) = Some (take c (drop a row)).
Proof.
  intros -> Hlen. unfold slice. rewrite decide_True.
  2:{ rewrite !length_app. lia. }
  f_equal. replace (Z.to_nat (_ + Z.of_nat c - _)) with c by lia. rewrite Nat2Z.id.
  rewrite drop_app_add', drop_app_le by lia. rewrite take_app_le; [done|].
  rewrite length_drop. lia.
Qed.

Lemma length_concat_uniform {A} (w : nat) (rows : list (list A)) :
  Forall (λ row, length row = w) rows → length (concat rows) = (length rows * w)%nat.
Proof.
  induction 1 as [|row rows Hrow _ IH]; [done|]. simpl. rewrite length_app, IH, Hrow. lia.
Qed.

(** The slices that a loop over the lanes cuts out of a vector made of
    one row per lane. *)
Lemma mapM_slices (f : Z → option Vector) (w a c : nat) (rows : list Vector) :
  (a + c ≤ w)%nat → Forall (λ row, length row = w) rows →
  (∀ i : nat, f (Z.of_nat i) =
     slice (concat rows) (Z.of_nat (i * w + a)) (Z.of_nat (i * w + a) + Z.of_nat c)) →
  mapM f (seqZ 0 (Z.of_nat (length rows))) = Some ((λ row, take c (drop a row)) <$> rows).
Proof.
  intros Hac Hrows Hf. apply mapM_Some. apply Forall2_same_length_lookup_2.
  { rewrite length_seqZ, length_fmap. lia. }
  intros i x y Hx Hy. apply lookup_seqZ in Hx as [-> Hi].
  rewrite list_lookup_fmap in Hy. destruct (rows !! i) as [row|] eqn:Hrow; [|done].
  injection Hy as <-. rewrite Z.add_0_l, Hf.
  rewrite <- (take_drop_middle rows i row Hrow) at 1. rewrite concat_app. simpl.
  apply slice_app_mid.
  - rewrite (length_concat_uniform w).
    + rewrite length_take. apply lookup_lt_Some in Hrow. f_equal. f_equal. f_equal. lia.
    + by apply Forall_take.
  - rewrite Forall_forall in Hrows. rewrite (Hrows row); [done|].
    by eapply list_elem_of_lookup_2.
Qed.

Lemma extract_rows (b : batcherBlockOutput) (o s : nat) (rows : list Vector) :
  outputSize b = Some (Z.of_nat o) → StateSize b = Z.of_nat s →
  LaneCount b = Z.of_nat (length rows) →
  Forall (λ row, length row = (o + s)%nat) rows →
  extractOutputs b (concat rows) = Some (take o <$> rows) ∧
  extractStates b (concat rows) = Some (drop o <$> rows).
Proof.
  intros Ho Hs Hn Hrows. unfold extractOutputs, extractStates. rewrite Ho, Hs, Hn. simpl.
  rewrite !decide_False by lia. split.
  - rewrite (mapM_slices _ (o + s) 0 o rows); [done|lia|done|].
    intros i. f_equal; lia.
  - rewrite (mapM_slices _ (o + s) o s rows); [|lia|done|].
    + f_equal. apply Forall_fmap_ext_1. eapply Forall_impl; [exact Hrows|].
      intros row Hrow. simpl in *. rewrite take_ge; [done|]. rewrite length_drop. lia.
    + intros i. f_equal; lia.
Qed.

Lemma zip_with_app_uniform (o s : nat) (outputs states : list Vector) :
  length states = length outputs →
  Forall (λ x, length x = o) outputs → Forall (λ x, length x = s) states →
  Forall (λ row, length row = (o + s)%nat) (zip_with app outputs states) ∧
  length (zip_with app outputs states) = length outputs ∧
  take o <$> zip_with app outputs states = outputs ∧
  drop o <$> zip_with app outputs states = states.
Proof.
  intros Hlen Hout. revert states Hlen.
  induction Hout as [|x outputs Hx _ IH]; intros [|y states] Hlen Hst; try done.
  apply Forall_cons in Hst as [Hy Hst]. simpl in Hlen.
  destruct (IH states) as (H1 & H2 & H3 & H4); [lia|done|].
  cbn [zip_with]. rewrite !fmap_cons, H3, H4. split_and!.
  - constructor; [|done]. rewrite length_app. lia.
  - simpl. by rewrite H2.
  - f_equal. rewrite take_app_le by lia. by rewrite take_ge by lia.
  - f_equal. rewrite drop_app_le by lia. rewrite drop_ge by lia. done.
Qed.

(** *** joinUpstream *)

Lemma copyAt_zeros (pre src : Vector) (m : nat) :
  (length src ≤ m)%nat →
  copyAt (pre ++ replicate m 0) (length pre) src =
    Some ((pre ++ src) ++ replicate (m - length src) 0).
Proof.
  intros Hlen. unfold copyAt. rewrite decide_True by (rewrite length_app; lia).
  f_equal. rewrite length_app, length_replicate.
  replace (length pre + m - length pre)%nat with m by lia. rewrite Nat.min_r by done.
  rewrite take_app_length, firstn_all, <- app_assoc. f_equal. f_equal.
  rewrite drop_app_add', drop_replicate by done. done.
Qed.

Lemma rangeFrom_packBody (b : batcherBlockOutput) (o s : nat) (states rest : list Vector)
    (i : nat) (pre : Vector) (m : nat) :
  StateSize b = Z.of_nat s →
  Forall (λ x, length x = o) rest →
  Forall (λ x, length x = s) (take (length rest) (drop i states)) →
  (i + length rest ≤ length states)%nat →
  (length rest * (o + s) ≤ m)%nat →
  Go.rangeFrom i (joinUpstreamBody b (Z.of_nat o) states) rest (pre ++ replicate m 0, length pre) =
    Some ((pre ++ concat (zip_with app rest (drop i states))) ++
            replicate (m - length rest * (o + s)) 0,
          (length pre + length rest * (o + s))%nat).
Proof.
  intros Hs Hout. revert i pre m.
  induction Hout as [|output rest Hx _ IH]; intros i pre m Hst Hlen Hm.
  - simpl. rewrite app_nil_r, Nat.sub_0_r, Nat.add_0_r. done.
  - simpl in Hlen, Hm, Hst.
    destruct (lookup_lt_is_Some_2 states i) as [state Hstate]; [lia|].
    rewrite (drop_S _ _ _ Hstate) in Hst |- *. simpl in Hst.
    apply Forall_cons in Hst as [Hy Hst].
    simpl. unfold joinUpstreamBody at 1. rewrite decide_False by lia. rewrite Hstate. simpl.
    rewrite decide_False by lia. cbn [fst snd].
    rewrite copyAt_zeros by lia. simpl.
    replace (length pre + length output)%nat with (length (pre ++ output))
      by by rewrite length_app.
    rewrite copyAt_zeros by lia. simpl.
    replace (length (pre ++ output) + length state)%nat with (length ((pre ++ output) ++ state))
      by by rewrite !length_app.
    rewrite IH; [|done|lia|lia].
    f_equal. f_equal.
    + f_equal; [by rewrite <- !app_assoc|]. f_equal. lia.
    + rewrite !length_app. lia.
Qed.


Lemma joinUpstream_packed (b : batcherBlockOutput) (o s : nat)
    (states outputs : list Vector) :
  outputSize b = Some (Z.of_nat o) → StateSize b = Z.of_nat s →
  outputs ≠ [] → length states = length outputs →
  Forall (λ x, length x = o) outputs → Forall (λ x, length x = s) states →
  joinUpstream b (Some states) (Some outputs) = Some (packed outputs states).
Proof.
  intros Ho Hs Hne Hlen Hout Hst'.
  unfold joinUpstream. rewrite Ho. simpl.
  destruct states as [|s0 states]; [by destruct outputs|].
  destruct outputs as [|o0 outputs]; [done|]. cbn [lookup list_lookup mbind option_bind].
  apply Forall_cons in Hout as [Ho0 Hout]. apply Forall_cons in Hst' as [Hs0 Hst'].
  pose proof (rangeFrom_packBody b o s (s0 :: states) (o0 :: outputs) 0 []
                ((length s0 + length o0) * length (s0 :: states)) Hs) as Hloop.
  unfold Go.range, make. simpl in Hloop |- *. rewrite Hloop.
  - simpl. f_equal. unfold packed. simpl.
    replace (_ - _)%nat with 0%nat by (simpl in Hlen; nia). by rewrite app_nil_r.
  - by constructor.
  - constructor; [done|]. rewrite take_ge; [done|]. simpl in Hlen. lia.
  - simpl in Hlen. lia.
  - simpl in Hlen. nia.
Qed.

(** X20.  [joinUpstream] packs one vector for all lanes: given one output
    gradient of the output size and one state gradient of the state size per
    lane, it returns the concatenation, lane after lane, of the output
    gradient of the lane followed by its state gradient.  [extractOutputs]
    and [extractStates] undo the packing: from that vector they give the
    output gradients and the state gradients back. *)
Theorem joinUpstream_packs_lanes (b : batcherBlockOutput) (o : nat)
    (states outputs : list Vector) :
  outputSize b = Some (Z.of_nat o) →
  outputs ≠ [] → length states = length outputs →
  Forall (λ x, length x = o) outputs →
  Forall (λ x, Z.of_nat (length x) = StateSize b) states →
  joinUpstream b (Some states) (Some outputs) = Some (packed outputs states) ∧
  (LaneCount b = Z.of_nat (length outputs) →
   extractOutputs b (packed outputs states) = Some outputs ∧
   extractStates b (packed outputs states) = Some states).
Proof.
  intros Ho Hne Hlen Hout Hst.
  assert (∃ s : nat, StateSize b = Z.of_nat s) as [s Hs].
  { destruct states as [|x states]; [by destruct outputs|].
    apply Forall_cons in Hst as [Hx _]. by exists (length x). }
  assert (Forall (λ x, length x = s) states) as Hst'.
  { eapply Forall_impl; [exact Hst|]. intros x Hx. simpl in Hx. lia. }
  destruct (zip_with_app_uniform o s outputs states Hlen Hout Hst') as (Hrows & Hn & Htake & Hdrop).
  split; [by apply (joinUpstream_packed b o s)|].
  intros Hlanes. unfold packed.
  destruct (extract_rows b o s (zip_with app outputs states) Ho Hs) as [Hextract1 Hextract2];
    [by rewrite Hn|done|].
  by rewrite Hextract1, Hextract2, Htake, Hdrop.
Qed.

Lemma demoBatcherOutput_size : outputSize demoBatcherOutput = Some 1.
Proof. reflexivity. Qed.

Lemma joinUpstream_packs_lanes_witness :
  joinUpstream demoBatcherOutput (Some [[7; 8]; [9; 10]]) (Some [[1]; [2]]) =
    Some [1; 7; 8; 2; 9; 10] ∧
  extractStates demoBatcherOutput [1; 7; 8; 2; 9; 10] = Some [[7; 8]; [9; 10]].
Proof.
  destruct (joinUpstream_packs_lanes demoBatcherOutput 1 [[7; 8]; [9; 10]] [[1]; [2]])
    as [Hjoin Hextract].
  - exact demoBatcherOutput_size.
  - discriminate.
  - reflexivity.
  - repeat constructor.
  - repeat constructor.
  - split; [exact Hjoin|]. destruct Hextract as [_ Hstates]; [reflexivity|exact Hstates].
Defined.

(** X21.  In [joinUpstream], a nil slice of state gradients stands for one
    zero vector of the state size per output gradient, and a nil slice of
    output gradients for one zero vector of the output size per state
    gradient: the packed vector has zeros in their place.  With both slices
    nil the call panics. *)
Theorem joinUpstream_nil_is_zero (b : batcherBlockOutput) (o s : nat) :
  outputSize b = Some (Z.of_nat o) → StateSize b = Z.of_nat s →
  (∀ outputs, outputs ≠ [] → Forall (λ x, length x = o) outputs →
     joinUpstream b None (Some outputs) =
       Some (packed outputs (replicate (length outputs) (make s)))) ∧
  (∀ states, states ≠ [] → Forall (λ x, length x = s) states →
     joinUpstream b (Some states) None =
       Some (packed (replicate (length states) (make o)) states)) ∧
  joinUpstream b None None = None.
Proof.
  intros Ho Hs. split_and!.
  - intros outputs Hne Hout.
    rewrite <- (joinUpstream_packed b o s); try done.
    + unfold joinUpstream, fillNil. rewrite Ho. simpl. rewrite decide_False by lia.
      by rewrite Hs, Nat2Z.id.
    + by rewrite length_replicate.
    + apply Forall_replicate, length_replicate.
  - intros states Hne Hst.
    rewrite <- (joinUpstream_packed b o s); try done.
    + unfold joinUpstream, fillNil. rewrite Ho. simpl. rewrite decide_False by lia.
      by rewrite Nat2Z.id.
    + by destruct states.
    + by rewrite length_replicate.
    + apply Forall_replicate, length_replicate.
  - unfold joinUpstream. rewrite Ho. done.
Qed.

Lemma joinUpstream_nil_is_zero_witness :
  joinUpstream demoBatcherOutput None (Some [[1]; [2]]) = Some [1; 0; 0; 2; 0; 0].
Proof.
  destruct (joinUpstream_nil_is_zero demoBatcherOutput 1 2) as (Hnil & _ & _).
  - exact demoBatcherOutput_size.
  - reflexivity.
  - rewrite (Hnil [[1]; [2]]); [reflexivity|discriminate|repeat constructor].
Defined.

(** *** States and Outputs *)

Lemma chunks {A} (w n : nat) (v : list A) :
  length v = (n * w)%nat →
  ∃ rows, v = concat rows ∧ length rows = n ∧ Forall (λ row, length row = w) rows.
Proof.
  revert v. induction n as [|n IH]; intros v Hlen.
  - exists []. destruct v; [done|simpl in Hlen; lia].
  - destruct (IH (drop w v)) as (rows & Hrows & Hn & Hall).
    { rewrite length_drop. lia. }
    exists (take w v :: rows). split_and!.
    + simpl. by rewrite <- Hrows, take_drop.
    + simpl. by rewrite Hn.
    + constructor; [|done]. rewrite length_take. lia.
Qed.

Lemma extract_partition (b : batcherBlockOutput) (v output : Vector) (w : nat) :
  resultOutputVector b = Some v →
  0 < LaneCount b → 0 ≤ StateSize b ≤ Z.of_nat w →
  Z.of_nat (length v) = LaneCount b * Z.of_nat w →
  length output = length v →
  ∃ outs sts,
    extractOutputs b output = Some outs ∧ extractStates b output = Some sts ∧
    Z.of_nat (length outs) = LaneCount b ∧ Z.of_nat (length sts) = LaneCount b ∧
    Forall (λ x, Z.of_nat (length x) = Z.of_nat w - StateSize b) outs ∧
    Forall (λ x, Z.of_nat (length x) = StateSize b) sts ∧
    packed outs sts = output.
Proof.
  intros Hv Hn Hs Hlen Hout.
  destruct (chunks w (Z.to_nat (LaneCount b)) output) as (rows & -> & Hrows & Hall); [nia|].
  set (s := Z.to_nat (StateSize b)). set (o := (w - s)%nat).
  assert (outputSize b = Some (Z.of_nat o)) as Ho.
  { unfold outputSize. rewrite Hv. simpl. rewrite decide_False by lia. f_equal.
    rewrite Hlen, Z.mul_comm, Z.quot_mul by lia. lia. }
  assert (Forall (λ row : Vector, length row = (o + s)%nat) rows) as Hall'.
  { eapply Forall_impl; [exact Hall|]. intros row Hrow. simpl in *. lia. }
  destruct (extract_rows b o s rows Ho) as [Hextract1 Hextract2]; [lia|lia|done|].
  exists (take o <$> rows), (drop o <$> rows).
  split_and!; try done.
  - rewrite length_fmap. lia.
  - rewrite length_fmap. lia.
  - apply Forall_fmap. eapply Forall_impl; [exact Hall'|]. intros row Hrow. simpl in *.
    rewrite length_take. lia.
  - apply Forall_fmap. eapply Forall_impl; [exact Hall'|]. intros row Hrow. simpl in *.
    rewrite length_drop. lia.
  - unfold packed. f_equal. clear. induction rows as [|row rows IH]; [done|].
    rewrite !fmap_cons. cbn [zip_with]. by rewrite take_drop, IH.
Qed.

(** X22.  [Outputs] and [States] split the output vector of the batcher:
    when the vector holds, for each lane, a row of one width that is at
    least the state size, both return one vector per lane, the states of the
    state size and the outputs of the rest of the width, and the vector is
    the concatenation, lane after lane, of the output of the lane followed
    by its state.  [ROutputs] and [RStates] split the R-output of the
    batcher in the same way when it has the length of the output. *)
Theorem Outputs_States_partition (b : batcherBlockOutput) (v : Vector) (w : nat) :
  resultOutputVector b = Some v →
  0 < LaneCount b → 0 ≤ StateSize b ≤ Z.of_nat w →
  Z.of_nat (length v) = LaneCount b * Z.of_nat w →
  (∃ outs sts,
     Outputs b = Some outs ∧ States b = Some sts ∧
     Z.of_nat (length outs) = LaneCount b ∧ Z.of_nat (length sts) = LaneCount b ∧
     Forall (λ x, Z.of_nat (length x) = Z.of_nat w - StateSize b) outs ∧
     Forall (λ x, Z.of_nat (length x) = StateSize b) sts ∧
     packed outs sts = v) ∧
  (∀ r, RResult_ b = Some r → length (r_ROutput r) = length v →
     ∃ routs rsts,
       ROutputs b = Some routs ∧ RStates b = Some rsts ∧
       Z.of_nat (length routs) = LaneCount b ∧ Z.of_nat (length rsts) = LaneCount b ∧
       Forall (λ x, Z.of_nat (length x) = Z.of_nat w - StateSize b) routs ∧
       Forall (λ x, Z.of_nat (length x) = StateSize b) rsts ∧
       packed routs rsts = r_ROutput r).
Proof.
  intros Hv Hn Hs Hlen. split.
  - unfold Outputs, States. rewrite Hv. simpl. by apply (extract_partition b v v w).
  - intros r Hr Hrlen. unfold ROutputs, RStates. rewrite Hr. simpl.
    by apply (extract_partition b v (r_ROutput r) w).
Qed.

Lemma Outputs_States_partition_witness :
  ∃ outs sts, Outputs demoBatcherOutput = Some outs ∧ States demoBatcherOutput = Some sts ∧
    packed outs sts = [1; 2; 3; 4; 5; 6].
Proof.
  destruct (Outputs_States_partition demoBatcherOutput [1; 2; 3; 4; 5; 6] 3)
    as [(outs & sts & Houts & Hsts & _ & _ & _ & _ & Hpacked) _].
  - reflexivity.
  - simpl. lia.
  - simpl. lia.
  - reflexivity.
  - exists outs, sts. split_and!; [exact Houts|exact Hsts|exact Hpacked].
Defined.
